(** * Flat-structuring-element min/max filters of libprocess/filters.c

    A shallow embedding of the min/max sliding-window engine of
    [src/libprocess/filters.c] (the length-requirement planner, the row
    precompute engine, the kernel run-length encoder, border extension, the
    window sweep executor and the morphological facade), together with the
    properties of the engine that the specification states.

    Conventions of the embedding.
    - [guint]/[gint] sizes, lengths and indices are [nat].  All of them are
      bounded by the sizes of the rasters involved, the subtractions of the
      source are either guarded or provably do not go below zero on the
      inputs considered, so the truncated subtraction of [nat] coincides
      with the C arithmetic there.
    - A C array ([gdouble*], [MinMaxPrecomputedLen*]) is a total map from
      indices to cells.  An array from [g_new0] is the constant-zero map; an
      array from [g_new] (uninitialised) is an arbitrary map supplied by the
      caller of the model.
    - Samples ([gdouble]) are a type [V] with the comparison [ltb] of the
      source's [<]; the engine only copies and compares samples.  The
      arithmetic of the Range and Normalization operations is a
      parameter; it is taken over the rationals [Q], exact or with the
      rounding of each operation as a further parameter.
    - A [g_assert] that fails, running out of fuel, and the read of the
      first segment of an encoding without segments make a function
      return [None]. *)

From Stdlib Require Import Arith Lia List Bool PeanoNat ZArith ZifyNat QArith Lqa.
Close Scope Q_scope.
Import ListNotations.

(* [lia] also decides goals with division and remainder by constants. *)
Ltac Zify.zify_post_hook ::= Z.div_mod_to_equations.
#[local] Arguments Nat.div : simpl never.
#[local] Arguments Nat.modulo : simpl never.
#[local] Arguments Nat.sub : simpl nomatch.

(** ** Arrays as total maps *)

Definition upd {A : Type} (f : nat -> A) (i : nat) (v : A) : nat -> A :=
  fun k => if Nat.eqb k i then v else f k.

(** ** Length-requirement planner *)

(** [MinMaxPrecomputedLen] *)
Record MinMaxPrecomputedLen : Type := mkLen {
  sublen1 : nat;   (* Even length for the even-odd scheme. *)
  sublen2 : nat;
  needed : bool;
  even_even : bool;
  even_odd : bool
}.

Definition zero_len : MinMaxPrecomputedLen := mkLen 0 0 false false false.

(** [MinMaxPrecomputedReq]: the two tables are indexed by block length. *)
Record MinMaxPrecomputedReq : Type := mkReq {
  req_each : nat -> MinMaxPrecomputedLen;
  req_even : nat -> MinMaxPrecomputedLen;
  maxlen_each : nat;
  maxlen_even : nat;
  nbuffers : nat
}.

Definition set_req_each (req : MinMaxPrecomputedReq) (l : nat)
    (p : MinMaxPrecomputedLen) : MinMaxPrecomputedReq :=
  mkReq (upd (req_each req) l p) (req_even req)
        (maxlen_each req) (maxlen_even req) (nbuffers req).

Definition set_req_even (req : MinMaxPrecomputedReq) (l : nat)
    (p : MinMaxPrecomputedLen) : MinMaxPrecomputedReq :=
  mkReq (req_each req) (upd (req_even req) l p)
        (maxlen_each req) (maxlen_even req) (nbuffers req).

(** [maybe_set_req]: returns the old flag and the entry with the flag set. *)
Definition maybe_set_req (precomp : MinMaxPrecomputedLen)
    : bool * MinMaxPrecomputedLen :=
  if needed precomp then (true, precomp)
  else (false, mkLen (sublen1 precomp) (sublen2 precomp) true
                     (even_even precomp) (even_odd precomp)).

Definition is_even_nat (n : nat) : bool := Nat.eqb (n mod 2) 0.

(** [fill_req_subs]; the three [g_assert]s give [None] when they fail. *)
Definition fill_req_subs (precomp : MinMaxPrecomputedLen)
    (s1 s2 : nat) (eo ee : bool) : option MinMaxPrecomputedLen :=
  if (negb eo || negb ee)
     && (negb eo || is_even_nat s1)
     && (negb ee || (is_even_nat s1 && is_even_nat s2))
  then Some (mkLen s1 s2 (needed precomp) ee eo)
  else None.

(** Outcome of the search for a split into lengths that are already
    required (the two [for] loops of [find_required_lengths_recursive]). *)
Inductive split_result : Type :=
| SplitEachEach (i j : nat)     (* each[i] and each[j] *)
| SplitEvenEach (i j : nat)     (* even[i] and each[j] *)
| SplitEachEven (i j : nat)     (* each[i] and even[j] *)
| SplitNone (any : nat).        (* loop ran to its end *)

(** [for (i = 1, j = blocklen-1; i < (blocklen + 1)/2; i++, j--)] of the
    even branch: [cnt] iterations remain. *)
Fixpoint split_loop_even (req : MinMaxPrecomputedReq) (cnt i j : nat)
    : split_result :=
  match cnt with
  | 0 => SplitNone 0
  | S cnt' =>
      if needed (req_each req i) && needed (req_each req j)
      then SplitEachEach i j
      else split_loop_even req cnt' (S i) (j - 1)
  end.

(** The same loop of the odd branch, which also tracks [any]. *)
Fixpoint split_loop_odd (req : MinMaxPrecomputedReq) (cnt i j any : nat)
    : split_result :=
  match cnt with
  | 0 => SplitNone any
  | S cnt' =>
      if needed (req_each req i) && needed (req_each req j)
      then SplitEachEach i j
      else if needed (req_even req i) && needed (req_each req j)
      then SplitEvenEach i j
      else if needed (req_each req i) && needed (req_even req j)
      then SplitEachEven i j
      else split_loop_odd req cnt' (S i) (j - 1)
             (if needed (req_each req i) then i else any)
  end.

Definition obind {A B : Type} (o : option A) (k : A -> option B) : option B :=
  match o with Some a => k a | None => None end.

Notation "x <- o ;; k" := (obind o (fun x => k))
  (at level 61, o at next level, right associativity).

(** [find_required_lengths_recursive].  Every recursive call is on a
    strictly smaller block length, so [fuel = blocklen] is enough. *)
Fixpoint find_required_lengths_recursive (fuel : nat)
    (req : MinMaxPrecomputedReq) (blocklen : nat) (is_even : bool)
    {struct fuel} : option MinMaxPrecomputedReq :=
  match fuel with
  | 0 => None
  | S fuel' =>
    let recur := find_required_lengths_recursive fuel' in
    if Nat.eqb blocklen 0 then None                          (* g_assert *)
    else if is_even then
      if negb (is_even_nat blocklen) then None               (* g_assert *)
      else
        let '(was, precomp) := maybe_set_req (req_even req blocklen) in
        if was then Some req
        else if Nat.eqb blocklen 2 then
          (* Even(2) = Each(1) + Each(1) *)
          p <- fill_req_subs precomp 1 1 false false ;;
          recur (set_req_even req blocklen p) 1 false
        else if Nat.eqb (blocklen mod 4) 0 then
          (* Even(4m) = Even(2m) + Even(2m) *)
          p <- fill_req_subs precomp (blocklen/2) (blocklen/2) false true ;;
          recur (set_req_even req blocklen p) (blocklen/2) true
        else if Nat.eqb (blocklen mod 4) 2 then
          (* Even(4m+2) = Even(2m+2) + Even(2m) *)
          p <- fill_req_subs precomp (blocklen/2 - 1) (blocklen/2 + 1)
                             false true ;;
          r <- recur (set_req_even req blocklen p) (blocklen/2 - 1) true ;;
          recur r (blocklen/2 + 1) true
        else None                                 (* g_assert_not_reached *)
    else
      let '(was, precomp) := maybe_set_req (req_each req blocklen) in
      if was then Some req
      else if Nat.eqb blocklen 1 then
        Some (set_req_each req 1 precomp)
      else
        let req0 := set_req_each req blocklen precomp in
        if is_even_nat blocklen then
          match split_loop_even req0 ((blocklen + 1)/2 - 1) 1 (blocklen - 1)
          with
          | SplitEachEach i j =>
              p <- fill_req_subs precomp i j false false ;;
              Some (set_req_each req blocklen p)
          | _ =>
              (* Each(2m) = Each(m) + Each(m) *)
              p <- fill_req_subs precomp (blocklen/2) (blocklen/2)
                                 false false ;;
              recur (set_req_each req blocklen p) (blocklen/2) false
          end
        else
          match split_loop_odd req0 ((blocklen + 1)/2 - 1) 1 (blocklen - 1) 0
          with
          | SplitEachEach i j =>
              p <- fill_req_subs precomp i j false false ;;
              Some (set_req_each req blocklen p)
          | SplitEvenEach i j =>
              p <- fill_req_subs precomp i j true false ;;
              Some (set_req_each req blocklen p)
          | SplitEachEven i j =>
              p <- fill_req_subs precomp j i true false ;;
              Some (set_req_each req blocklen p)
          | SplitNone any =>
              if negb (Nat.eqb any 0) then
                (* split to one existing and one new *)
                p <- fill_req_subs precomp any (blocklen - any)
                                   false false ;;
                recur (set_req_each req blocklen p) (blocklen - any) false
              else if Nat.eqb (blocklen mod 4) 1 then
                (* Each(4m+1) = Even(2m) + Each(2m+1) *)
                p <- fill_req_subs precomp (blocklen/2) (blocklen/2 + 1)
                                   true false ;;
                r <- recur (set_req_each req blocklen p) (blocklen/2) true ;;
                recur r (blocklen/2 + 1) false
              else if Nat.eqb (blocklen mod 4) 3 then
                (* Each(4m+3) = Even(2m+2) + Each(2m+1) *)
                p <- fill_req_subs precomp (blocklen/2 + 1) (blocklen/2)
                                   true false ;;
                r <- recur (set_req_each req blocklen p)
                           (blocklen/2 + 1) true ;;
                recur r (blocklen/2) false
              else None                           (* g_assert_not_reached *)
          end
  end.

(** [qsort] with [compare_guint]: ascending order. *)
Fixpoint insert_guint (x : nat) (l : list nat) : list nat :=
  match l with
  | [] => [x]
  | y :: r => if x <=? y then x :: l else y :: insert_guint x r
  end.

Fixpoint sort_guint (l : list nat) : list nat :=
  match l with
  | [] => []
  | x :: r => insert_guint x (sort_guint r)
  end.

(** The loop that keeps [blens[i]] when [blens[i] > blens[i-1]]. *)
Fixpoint unique_loop (prev : nat) (l : list nat) : list nat :=
  match l with
  | [] => []
  | x :: r => if prev <? x then x :: unique_loop x r else unique_loop x r
  end.

Definition unique_lengths (blens : list nat) : list nat :=
  match blens with
  | [] => []
  | x :: r => x :: unique_loop x r
  end.

(** [for (i = 0; i < n; i++) find_required_lengths_recursive(req, ..., FALSE)] *)
Fixpoint find_required_lengths_all (req : MinMaxPrecomputedReq)
    (blens : list nat) : option MinMaxPrecomputedReq :=
  match blens with
  | [] => Some req
  | b :: r =>
      req' <- find_required_lengths_recursive b req b false ;;
      find_required_lengths_all req' r
  end.

(** [for (i = maxlen; i; i--) if (req->even[i].needed) break;] *)
Fixpoint last_needed_even (tbl : nat -> MinMaxPrecomputedLen) (i : nat) : nat :=
  match i with
  | 0 => 0
  | S i' => if needed (tbl i) then i else last_needed_even tbl i'
  end.

(** Number of needed entries with index in [lo, lo + cnt). *)
Fixpoint count_needed (tbl : nat -> MinMaxPrecomputedLen) (lo cnt : nat) : nat :=
  match cnt with
  | 0 => 0
  | S cnt' => (if needed (tbl lo) then 1 else 0) + count_needed tbl (S lo) cnt'
  end.

(** [find_required_lengths_for_set]; the source reads [blens[0]], so an
    empty set is outside its contract. *)
Definition find_required_lengths_for_set (blocklens : list nat)
    : option MinMaxPrecomputedReq :=
  match unique_lengths (sort_guint blocklens) with
  | [] => None
  | ul =>
      let maxlen := last ul 0 in
      let req0 := mkReq (fun _ => zero_len) (fun _ => zero_len) maxlen maxlen 0 in
      req <- find_required_lengths_all req0 ul ;;
      let me := last_needed_even (req_even req) maxlen in
      let nb := count_needed (req_each req) 1 (maxlen_each req)
                + count_needed (req_even req) 2 (me - 1) in
      Some (mkReq (req_each req) (req_even req) (maxlen_each req) me nb)
  end.

(** *** Well-formed plans *)

(** A needed entry of the each-table: length 1 is the row itself; a longer
    length is composed of two shorter needed lengths that sum to it. *)
Definition each_entry_ok (req : MinMaxPrecomputedReq) (L : nat) : Prop :=
  let p := req_each req L in
  1 <= L /\
  (2 <= L ->
     even_even p = false /\
     sublen1 p + sublen2 p = L /\ 1 <= sublen1 p /\ 1 <= sublen2 p /\
     needed (req_each req (sublen2 p)) = true /\
     (if even_odd p
      then sublen1 p mod 2 = 0 /\ sublen2 p mod 2 = 1 /\
           needed (req_even req (sublen1 p)) = true
      else needed (req_each req (sublen1 p)) = true)).

(** A needed entry of the even-table, with the rule that produced it. *)
Definition even_entry_ok (req : MinMaxPrecomputedReq) (L : nat) : Prop :=
  let p := req_even req L in
  L mod 2 = 0 /\ 2 <= L /\ even_odd p = false /\
  (L = 2 ->
     even_even p = false /\ sublen1 p = 1 /\ sublen2 p = 1 /\
     needed (req_each req 1) = true) /\
  (2 < L -> L mod 4 = 0 ->
     even_even p = true /\ sublen1 p = L / 2 /\ sublen2 p = L / 2 /\
     needed (req_even req (L / 2)) = true) /\
  (2 < L -> L mod 4 = 2 ->
     even_even p = true /\ sublen1 p = L / 2 - 1 /\ sublen2 p = L / 2 + 1 /\
     needed (req_even req (L / 2 - 1)) = true /\
     needed (req_even req (L / 2 + 1)) = true).

Definition req_wf (req : MinMaxPrecomputedReq) : Prop :=
  (forall L, needed (req_each req L) = true -> each_entry_ok req L) /\
  (forall L, needed (req_even req L) = true -> even_entry_ok req L).

(** [req'] keeps every entry that [req] needs. *)
Definition req_le (req req' : MinMaxPrecomputedReq) : Prop :=
  (forall L, needed (req_each req L) = true -> req_each req' L = req_each req L) /\
  (forall L, needed (req_even req L) = true -> req_even req' L = req_even req L) /\
  maxlen_each req' = maxlen_each req /\
  maxlen_even req' = maxlen_even req /\
  nbuffers req' = nbuffers req.

(** Every entry that [req'] needs and [req] does not is at most [b] long
    and well formed in [req']. *)
Definition new_ok (b : nat) (req req' : MinMaxPrecomputedReq) : Prop :=
  (forall L, needed (req_each req' L) = true -> needed (req_each req L) = false ->
             L <= b /\ each_entry_ok req' L) /\
  (forall L, needed (req_even req' L) = true -> needed (req_even req L) = false ->
             L <= b /\ even_entry_ok req' L).

(** Only even lengths are needed in the even-table. *)
Definition even_idx (req : MinMaxPrecomputedReq) : Prop :=
  forall L, needed (req_even req L) = true -> L mod 2 = 0.


(** A plan as the fill functions use it: well formed, with every needed
    length within the bounds the loops run to. *)
Definition plan_ok (req : MinMaxPrecomputedReq) : Prop :=
  req_wf req /\
  (forall L, needed (req_each req L) = true -> L <= maxlen_each req) /\
  (forall L, needed (req_even req L) = true -> L <= maxlen_even req) /\
  maxlen_even req <= maxlen_each req.

(** Ascending order, the result of [qsort] with [compare_guint]. *)
Fixpoint ascending (l : list nat) : Prop :=
  match l with
  | [] => True
  | x :: r => (forall y, In y r -> x <= y) /\ ascending r
  end.

(** ** Rasters, buffers and the row precompute engine *)

Section Engine.

(** Samples: the type of a [gdouble] cell, the comparison [a < b] of the
    source, the C truth value of a cell (kernel membership), and the
    arithmetic the Range and Normalization operations use. *)
Variable V : Type.
Variable ltb : V -> V -> bool.
Variable is_nonzero : V -> bool.
Variable veqb : V -> V -> bool.
Variable vsub : V -> V -> V.
Variable vdiv : V -> V -> V.
Variable vhalf : V.

(** A [gdouble*] array. *)
Definition buf : Type := nat -> V.

(** [GwyDataField], as far as the filters use it: the resolution and the
    row-major [data] array. *)
Record GwyDataField : Type := mkField {
  xres : nat;
  yres : nat;
  data : buf
}.

(** [gwy_assign(dest + doff, source + soff, n)], a [memcpy] of [n] cells. *)
Definition gwy_assign (dest : buf) (doff : nat) (source : buf) (soff n : nat)
    : buf :=
  fun k => if (doff <=? k) && (k <? doff + n)
           then source (soff + (k - doff)) else dest k.

(** [sub1[0] < sub2[0] ? sub2[0] : sub1[0]] and
    [sub1[0] > sub2[0] ? sub2[0] : sub1[0]] *)
Definition pick_max (a b : V) : V := if ltb a b then b else a.
Definition pick_min (a b : V) : V := if ltb b a then b else a.

(** The min and the max variants of the composition functions have the same
    text up to the comparison, so each pair is written once over [pick]. *)
Section Compose.
Variable pick : V -> V -> V.

(** [while (i <= n) { target[i] = pick(sub1[0], sub2[0]); i++; sub1++; sub2++; }]
    where [sub2] was first advanced by [sublen1]. *)
Fixpoint compose_each_loop (fuel i n sublen1 : nat) (target sub1 sub2 : buf)
    {struct fuel} : buf :=
  match fuel with
  | 0 => target
  | S fuel' =>
      if i <=? n
      then compose_each_loop fuel' (S i) n sublen1
             (upd target i (pick (sub1 i) (sub2 (sublen1 + i)))) sub1 sub2
      else target
  end.

(** [compose_max_row_data_each], [compose_min_row_data_each] *)
Definition compose_row_data_each (target sub1 : buf) (sublen1 : nat)
    (sub2 : buf) (sublen2 rowlen : nat) : buf :=
  if sublen1 + sublen2 <=? rowlen then
    let n := rowlen - (sublen1 + sublen2) in
    compose_each_loop (S n) 0 n sublen1 target sub1 sub2
  else target.                                       (* g_return_if_fail *)

(** The paired loop of the even-odd scheme; returns the final [i] too.
    At the head of an iteration [even] points to [even0 + i] and [odd] to
    [odd0 + evenlen + i]; [even2] to [even0 + oddlen + 1 + i] and [odd2] to
    [odd0 + 1 + i]. *)
Fixpoint compose_even_odd_loop (fuel i n evenlen oddlen : nat)
    (target even odd : buf) {struct fuel} : nat * buf :=
  match fuel with
  | 0 => (i, target)
  | S fuel' =>
      if i + 1 <=? n then
        let target := upd target i (pick (even i) (odd (evenlen + i))) in
        let target := upd target (i + 1)
                          (pick (even (oddlen + 1 + i)) (odd (1 + i))) in
        compose_even_odd_loop fuel' (i + 2) n evenlen oddlen target even odd
      else (i, target)
  end.

(** [compose_max_row_data_even_odd], [compose_min_row_data_even_odd] *)
Definition compose_row_data_even_odd (target even : buf) (evenlen : nat)
    (odd : buf) (oddlen rowlen : nat) : buf :=
  if (evenlen + oddlen <=? rowlen) && is_even_nat evenlen then
    let n := rowlen - (evenlen + oddlen) in
    let '(i0, target) :=
      compose_even_odd_loop (S n) 0 n evenlen oddlen target even odd in
    let '(i1, target) :=
      if i0 <=? n
      then (S i0, upd target i0 (pick (even i0) (odd (evenlen + i0))))
      else (i0, target) in
    if i1 <=? n
    then upd target i1 (pick (even (oddlen + 1 + i0)) (odd (1 + i0)))
    else target
  else target.                                       (* g_return_if_fail *)

(** [while (i <= n) { target[i] = pick(sub1[0], sub2[0]); i += 2; ... }] *)
Fixpoint compose_even_loop (fuel i n sublen1 : nat) (target sub1 sub2 : buf)
    {struct fuel} : buf :=
  match fuel with
  | 0 => target
  | S fuel' =>
      if i <=? n
      then compose_even_loop fuel' (i + 2) n sublen1
             (upd target i (pick (sub1 i) (sub2 (sublen1 + i)))) sub1 sub2
      else target
  end.

(** [compose_max_row_data_even], [compose_min_row_data_even] *)
Definition compose_row_data_even (target sub1 : buf) (sublen1 : nat)
    (sub2 : buf) (sublen2 rowlen : nat) : buf :=
  if (sublen1 + sublen2 <=? rowlen)
     && is_even_nat sublen1 && is_even_nat sublen2 then
    let n := rowlen - (sublen1 + sublen2) in
    compose_even_loop (S n) 0 n sublen1 target sub1 sub2
  else target.                                       (* g_return_if_fail *)

(** [while (i <= n) { target[i] = pick(one[0], one[1]); i += 2; one += 2; }] *)
Fixpoint compose_two_loop (fuel i n : nat) (target one : buf)
    {struct fuel} : buf :=
  match fuel with
  | 0 => target
  | S fuel' =>
      if i <=? n
      then compose_two_loop fuel' (i + 2) n
             (upd target i (pick (one i) (one (i + 1)))) one
      else target
  end.

(** [compose_max_row_data_two], [compose_min_row_data_two] *)
Definition compose_row_data_two (target one : buf) (rowlen : nat) : buf :=
  if 2 <=? rowlen then
    let n := rowlen - 2 in
    compose_two_loop (S n) 0 n target one
  else target.                                       (* g_return_if_fail *)

End Compose.

(** [MinMaxPrecomputedRow]: the buffers of one row, indexed by block
    length.  In the source [each[l]] and [even[l]] point into [storage],
    one block of [rowlen] cells per needed length; the model keeps the
    blocks themselves. *)
Record MinMaxPrecomputedRow : Type := mkRow {
  prow_each : nat -> buf;
  prow_even : nat -> buf
}.

Definition set_prow_each (prow : MinMaxPrecomputedRow) (l : nat) (b : buf)
    : MinMaxPrecomputedRow :=
  mkRow (upd (prow_each prow) l b) (prow_even prow).

Definition set_prow_even (prow : MinMaxPrecomputedRow) (l : nat) (b : buf)
    : MinMaxPrecomputedRow :=
  mkRow (prow_each prow) (upd (prow_even prow) l b).

(** The body of the [for (blen = 2; ...)] loop of the row fill.  The three
    [g_assert]s of the source give [None] when they fail ([is_max] selects
    the additional assertion of [max_precomputed_row_fill]). *)
Definition row_fill_step (pick : V -> V -> V) (is_max : bool)
    (req : MinMaxPrecomputedReq) (rowlen blen : nat)
    (prow : MinMaxPrecomputedRow) : option MinMaxPrecomputedRow :=
  let precomp := req_each req blen in
  prow <-
    (if needed precomp then
       if even_even precomp then None                          (* g_assert *)
       else if even_odd precomp then
         Some (set_prow_each prow blen
                 (compose_row_data_even_odd pick (prow_each prow blen)
                    (prow_even prow (sublen1 precomp)) (sublen1 precomp)
                    (prow_each prow (sublen2 precomp)) (sublen2 precomp)
                    rowlen))
       else
         Some (set_prow_each prow blen
                 (compose_row_data_each pick (prow_each prow blen)
                    (prow_each prow (sublen1 precomp)) (sublen1 precomp)
                    (prow_each prow (sublen2 precomp)) (sublen2 precomp)
                    rowlen))
     else Some prow) ;;
  if maxlen_even req <? blen then Some prow                    (* continue *)
  else
    let precomp := req_even req blen in
    if needed precomp then
      if even_odd precomp then None                            (* g_assert *)
      else if even_even precomp then
        Some (set_prow_even prow blen
                (compose_row_data_even pick (prow_even prow blen)
                   (prow_even prow (sublen1 precomp)) (sublen1 precomp)
                   (prow_even prow (sublen2 precomp)) (sublen2 precomp)
                   rowlen))
      else if negb (Nat.eqb blen 2) then None                  (* g_assert *)
      else if is_max && negb (Nat.eqb (sublen1 precomp) 1) then None
      else
        Some (set_prow_even prow blen
                (compose_row_data_two pick (prow_even prow blen)
                   (prow_each prow (sublen1 precomp)) rowlen))
    else Some prow.

(** [for (blen = 2; blen <= req->maxlen_each; blen++)]: [cnt] iterations
    remain. *)
Fixpoint row_fill_loop (pick : V -> V -> V) (is_max : bool)
    (req : MinMaxPrecomputedReq) (rowlen cnt blen : nat)
    (prow : MinMaxPrecomputedRow) {struct cnt} : option MinMaxPrecomputedRow :=
  match cnt with
  | 0 => Some prow
  | S cnt' =>
      prow' <- row_fill_step pick is_max req rowlen blen prow ;;
      row_fill_loop pick is_max req rowlen cnt' (S blen) prow'
  end.

Definition precomputed_row_fill (pick : V -> V -> V) (is_max : bool)
    (req : MinMaxPrecomputedReq) (prow : MinMaxPrecomputedRow)
    (x : buf) (rowlen : nat) : option MinMaxPrecomputedRow :=
  (* The row itself, AKA Each(1). *)
  let prow := set_prow_each prow 1 (gwy_assign (prow_each prow 1) 0 x 0 rowlen) in
  row_fill_loop pick is_max req rowlen (maxlen_each req - 1) 2 prow.

(** [max_precomputed_row_fill] *)
Definition max_precomputed_row_fill := precomputed_row_fill pick_max true.

(** [min_precomputed_row_fill] *)
Definition min_precomputed_row_fill := precomputed_row_fill pick_min false.

(** [min_max_precomputed_row_copy]: the storage block holds the cells of
    every buffer of the row, so copying it copies every buffer. *)
Definition min_max_precomputed_row_copy (target source : MinMaxPrecomputedRow)
    (req : MinMaxPrecomputedReq) (rowlen : nat) : MinMaxPrecomputedRow :=
  source.

(** ** Kernel encoder *)

(** [MaskSegment] *)
Record MaskSegment : Type := mkSeg {
  seg_row : nat;
  seg_col : nat;
  seg_len : nat
}.

(** [MaskRLE]: the [segments] array with its [nsegments]. *)
Definition MaskRLE : Type := list MaskSegment.

(** The [while (j + l < xres)] loop of [run_length_encode_mask] for row
    [i]; the cell read is [data[i*xres + j + l]] because [data] advances
    by one in every iteration, exactly as [j + l] does. *)
Fixpoint rle_row_loop (fuel : nat) (d : buf) (xr i j l : nat) (segs : MaskRLE)
    {struct fuel} : nat * nat * MaskRLE :=
  match fuel with
  | 0 => (j, l, segs)
  | S fuel' =>
      if j + l <? xr then
        if is_nonzero (d (i * xr + (j + l)))
        then rle_row_loop fuel' d xr i j (S l) segs
        else if negb (Nat.eqb l 0)
        then rle_row_loop fuel' d xr i (j + l + 1) 0 (segs ++ [mkSeg i j l])
        else rle_row_loop fuel' d xr i (j + 1) 0 segs
      else (j, l, segs)
  end.

(** [for (i = 0; i < yres; i++)]: [cnt] rows remain. *)
Fixpoint rle_rows (cnt : nat) (d : buf) (xr i : nat) (segs : MaskRLE)
    {struct cnt} : MaskRLE :=
  match cnt with
  | 0 => segs
  | S cnt' =>
      let '(j, l, segs) := rle_row_loop xr d xr i 0 0 segs in
      let segs := if negb (Nat.eqb l 0) then segs ++ [mkSeg i j l] else segs in
      rle_rows cnt' d xr (S i) segs
  end.

(** [run_length_encode_mask] *)
Definition run_length_encode_mask (mask : GwyDataField) : MaskRLE :=
  rle_rows (yres mask) (data mask) (xres mask) 0 [].

(** [find_required_lengths_for_rle] *)
Definition find_required_lengths_for_rle (mrle : MaskRLE)
    : option MinMaxPrecomputedReq :=
  find_required_lengths_for_set (map seg_len mrle).

(** [compare_segment] says [a] does not sort after [b]. *)
Definition segment_leb (a b : MaskSegment) : bool :=
  if seg_row a <? seg_row b then true
  else if seg_row b <? seg_row a then false
  else if seg_col a <? seg_col b then true
  else if seg_col b <? seg_col a then false
  else true.

(** [qsort] with [compare_segment]. *)
Fixpoint insert_segment (s : MaskSegment) (l : MaskRLE) : MaskRLE :=
  match l with
  | [] => [s]
  | t :: r => if segment_leb s t then s :: l else t :: insert_segment s r
  end.

Fixpoint sort_segments (l : MaskRLE) : MaskRLE :=
  match l with
  | [] => []
  | s :: r => insert_segment s (sort_segments r)
  end.

(** [gwy_data_field_area_rle_flip] *)
Definition gwy_data_field_area_rle_flip (mrle : MaskRLE) (kxres kyres : nat)
    : MaskRLE :=
  sort_segments
    (map (fun seg => mkSeg (kyres - 1 - seg_row seg)
                           (kxres - seg_col seg - seg_len seg)
                           (seg_len seg))
         mrle).

(** ** Border extension *)

(** [fill_block(data + off, len, value)] *)
Fixpoint fill_block (d : buf) (off len : nat) (value : V) {struct len} : buf :=
  match len with
  | 0 => d
  | S len' => fill_block (upd d off value) (S off) len' value
  end.

(** [row_extend_base]; the values of the arguments passed by pointer are
    returned with the output row. *)
Definition row_extend_base (inrow out : buf)
    (pos width res extend_left extend_right : nat)
    : buf * nat * nat * nat * nat :=
  (* Expand the ROI to the right as far as possible *)
  let e2r := Nat.min extend_right (res - (pos + width)) in
  let width := width + e2r in
  let extend_right := extend_right - e2r in
  (* Expand the ROI to the left as far as possible *)
  let e2l := Nat.min extend_left pos in
  let width := width + e2l in
  let extend_left := extend_left - e2l in
  let pos := pos - e2l in
  (* Direct copy of the ROI *)
  (gwy_assign out extend_left inrow pos width,
   pos, width, extend_left, extend_right).

(** [row_extend_border] *)
Definition row_extend_border (inrow out : buf)
    (pos width res extend_left extend_right : nat) : buf :=
  let '(out, pos, width, extend_left, extend_right) :=
    row_extend_base inrow out pos width res extend_left extend_right in
  (* Forward-extend *)
  let out := fill_block out (extend_left + width) extend_right
                        (inrow (res - 1)) in
  (* Backward-extend *)
  fill_block out 0 extend_left (inrow 0).

(** ** Window sweep executor *)

(** The inner [for (j = 0; j < width; j++)] loops of
    [mask_rle_execute_min_max]: [outbuf] starts at offset [off] of the
    output array and [segdata] at offset [soff] of a row buffer. *)
Fixpoint fold_segment (pick : V -> V -> V) (cnt j : nat)
    (outbuf : buf) (off : nat) (segdata : buf) (soff : nat) {struct cnt} : buf :=
  match cnt with
  | 0 => outbuf
  | S cnt' =>
      fold_segment pick cnt' (S j)
        (upd outbuf (off + j) (pick (outbuf (off + j)) (segdata (soff + j))))
        off segdata soff
  end.

(** [mask_rle_execute_min_max] writing at [outbuf + off].  The source reads
    the first segment without looking at [nsegments]; with no segment the
    read is outside the array and the model gives [None]. *)
Definition mask_rle_execute_min_max (mrle : MaskRLE)
    (prows : nat -> MinMaxPrecomputedRow)
    (outbuf : buf) (off width : nat) (maximum : bool) : option buf :=
  match mrle with
  | [] => None
  | seg :: rest =>
      let outbuf :=
        gwy_assign outbuf off
          (prow_each (prows (seg_row seg)) (seg_len seg)) (seg_col seg) width in
      Some (fold_left
              (fun outbuf seg =>
                 fold_segment (if maximum then pick_max else pick_min)
                   width 0 outbuf off
                   (prow_each (prows (seg_row seg)) (seg_len seg))
                   (seg_col seg))
              rest outbuf)
  end.

(** [MinMaxPrecomputed] *)
Record MinMaxPrecomputed : Type := mkMmp {
  mmp_mrle : MaskRLE;
  mmp_req : MinMaxPrecomputedReq;
  mmp_prows : nat -> MinMaxPrecomputedRow;
  mmp_extrowbuf : buf;
  mmp_rowbuflen : nat;
  mmp_kxres : nat;
  mmp_kyres : nat
}.

(** Memory that the source allocates without initialising it: the storage
    of the row buffers and the extended row of the [n]-th analysis, the
    output buffers and the temporary field. *)
Record Uninit : Type := mkUninit {
  u_prows : nat -> nat -> MinMaxPrecomputedRow;
  u_extrowbuf : nat -> buf;
  u_outbuf : buf;
  u_outbuf2 : buf;
  u_tmpfield : buf
}.

(** [gwy_data_field_area_rle_analyse], the [n]-th of a call; [None] stands
    for the [FALSE] it returns on a kernel without segments (and for a
    failed assertion of the planner). *)
Definition gwy_data_field_area_rle_analyse (u : Uninit) (n : nat)
    (kernel : GwyDataField) (width : nat) : option MinMaxPrecomputed :=
  let mrle := run_length_encode_mask kernel in
  if Nat.eqb (length mrle) 0 then None
  else
    req <- find_required_lengths_for_rle mrle ;;
    Some (mkMmp mrle req (u_prows u n) (u_extrowbuf u n)
                (width + xres kernel - 1) (xres kernel) (yres kernel)).

(** The row [d + xres*r] of a field. *)
Definition field_row (dfield : GwyDataField) (r : nat) : buf :=
  fun k => data dfield (xres dfield * r + k).

Section Execute.

Variable dfield : GwyDataField.
Variable mmp : MinMaxPrecomputed.
Variable maximum : bool.
Variables col row width height : nat.

(** [extend_up], [extend_down], [extend_left], [extend_right]: for the
    maximum operation even-sized kernels extend to the other direction. *)
Definition extend_up : nat :=
  if maximum then mmp_kyres mmp / 2 else (mmp_kyres mmp - 1) / 2.
Definition extend_down : nat :=
  if maximum then (mmp_kyres mmp - 1) / 2 else mmp_kyres mmp / 2.
Definition extend_left : nat :=
  if maximum then mmp_kxres mmp / 2 else (mmp_kxres mmp - 1) / 2.
Definition extend_right : nat :=
  if maximum then (mmp_kxres mmp - 1) / 2 else mmp_kxres mmp / 2.

(** [precomp_row_fill] *)
Definition precomp_row_fill :=
  if maximum then max_precomputed_row_fill else min_precomputed_row_fill.

(** [row_extend_border(d + xres*r, extrowbuf, col, width, xres, ...)] *)
Definition extend_field_row (r : nat) (extrowbuf : buf) : buf :=
  row_extend_border (field_row dfield r) extrowbuf
    col width (xres dfield) extend_left extend_right.

(** The state of the sweep: the array [prows] of row buffers and
    [extrowbuf]. *)
Definition sweep_state : Type := ((nat -> MinMaxPrecomputedRow) * buf)%type.

(** Extend row [r] of the field and precompute it into [prows[t]]. *)
Definition fill_prow (r t : nat) (st : sweep_state) : option sweep_state :=
  let '(prows, extrowbuf) := st in
  let extrowbuf := extend_field_row r extrowbuf in
  prow <- precomp_row_fill (mmp_req mmp) (prows t) extrowbuf
                           (mmp_rowbuflen mmp) ;;
  Some (upd prows t prow, extrowbuf).

(** [min_max_precomputed_row_copy(prows[t], prows[s], req, rowbuflen)] *)
Definition copy_prow (t s : nat) (st : sweep_state) : sweep_state :=
  let '(prows, extrowbuf) := st in
  (upd prows t
     (min_max_precomputed_row_copy (prows t) (prows s)
        (mmp_req mmp) (mmp_rowbuflen mmp)),
   extrowbuf).

(** [for (i = 0; i <= extend_down; i++)]: [cnt] iterations remain. *)
Fixpoint seed_down (cnt i : nat) (st : sweep_state) {struct cnt}
    : option sweep_state :=
  match cnt with
  | 0 => Some st
  | S cnt' =>
      st' <- (if row + i <? yres dfield
              then fill_prow (row + i) (i + extend_up) st
              else Some (copy_prow i (i - 1) st)) ;;
      seed_down cnt' (S i) st'
  end.

(** [for (i = 1; i <= extend_up; i++)]: [cnt] iterations remain. *)
Fixpoint seed_up (cnt i : nat) (st : sweep_state) {struct cnt}
    : option sweep_state :=
  match cnt with
  | 0 => Some st
  | S cnt' =>
      let ii := extend_up - i in
      st' <- (if i <=? row
              then fill_prow (row - i) ii st
              else Some (copy_prow ii ((ii + 1) mod mmp_kyres mmp) st)) ;;
      seed_up cnt' (S i) st'
  end.

(** The buffers for the zeroth row of the area. *)
Definition seed_rows (st : sweep_state) : option sweep_state :=
  st' <- seed_down (S extend_down) 0 st ;;
  seed_up extend_up 1 st'.

(** [for (ii = 0; ii < mmp->kyres-1; ii++) prows[ii] = prows[ii+1];] *)
Fixpoint shift_prows (cnt ii : nat) (prows : nat -> MinMaxPrecomputedRow)
    {struct cnt} : nat -> MinMaxPrecomputedRow :=
  match cnt with
  | 0 => prows
  | S cnt' => shift_prows cnt' (S ii) (upd prows ii (prows (S ii)))
  end.

(** Rotate [prows[]] so that the current row is at the zeroth position. *)
Definition rotate_prows (prows : nat -> MinMaxPrecomputedRow)
    : nat -> MinMaxPrecomputedRow :=
  let prow := prows 0 in
  let prows := shift_prows (mmp_kyres mmp - 1) 0 prows in
  upd prows (mmp_kyres mmp - 1) prow.

(** The [while (TRUE)] loop over the rows of the area, entered with the
    row counter [i]; it leaves when [i == height]. *)
Fixpoint sweep_rows (fuel i : nat) (st : sweep_state) (outbuf : buf)
    {struct fuel} : option (buf * sweep_state) :=
  match fuel with
  | 0 => None
  | S fuel' =>
      let '(prows, extrowbuf) := st in
      outbuf <- mask_rle_execute_min_max (mmp_mrle mmp) prows outbuf
                  (i * width) width maximum ;;
      let i := S i in
      if Nat.eqb i height then Some (outbuf, (prows, extrowbuf))
      else
        let prows := rotate_prows prows in
        (* Precompute the new row at the bottom. *)
        let ii := row + i + extend_down in
        st' <- (if ii <? yres dfield
                then fill_prow ii (mmp_kyres mmp - 1) (prows, extrowbuf)
                else if 2 <=? mmp_kyres mmp                      (* g_assert *)
                then Some (copy_prow (mmp_kyres mmp - 1) (mmp_kyres mmp - 2)
                                     (prows, extrowbuf))
                else None) ;;
        sweep_rows fuel' i st' outbuf
  end.

(** [gwy_data_field_area_min_max_execute]; the result is the contents of
    [outbuf] and [mmp] with the row buffers as the sweep leaves them.  The
    loop runs [height] times. *)
Definition gwy_data_field_area_min_max_execute (outbuf : buf)
    : option (buf * MinMaxPrecomputed) :=
  st <- seed_rows (mmp_prows mmp, mmp_extrowbuf mmp) ;;
  r <- sweep_rows height 0 st outbuf ;;
  let '(outbuf, (prows, extrowbuf)) := r in
  Some (outbuf,
        mkMmp (mmp_mrle mmp) (mmp_req mmp) prows extrowbuf
              (mmp_rowbuflen mmp) (mmp_kxres mmp) (mmp_kyres mmp)).

End Execute.

(** [kernel_is_nonempty]: [cnt] cells from [i] on remain. *)
Fixpoint kernel_nonempty_loop (cnt i : nat) (d : buf) {struct cnt} : bool :=
  match cnt with
  | 0 => false
  | S cnt' => if is_nonzero (d i) then true else kernel_nonempty_loop cnt' (S i) d
  end.

Definition kernel_is_nonempty (dfield : GwyDataField) : bool :=
  kernel_nonempty_loop (xres dfield * yres dfield) 0 (data dfield).

(** ** Morphological operations *)

(** [GwyMinMaxFilterType] *)
Inductive GwyMinMaxFilterType : Type :=
| GWY_MIN_MAX_FILTER_MINIMUM
| GWY_MIN_MAX_FILTER_MAXIMUM
| GWY_MIN_MAX_FILTER_OPENING
| GWY_MIN_MAX_FILTER_CLOSING
| GWY_MIN_MAX_FILTER_RANGE
| GWY_MIN_MAX_FILTER_NORMALIZATION.

Definition mmp_flip (m : MinMaxPrecomputed) : MinMaxPrecomputed :=
  mkMmp (gwy_data_field_area_rle_flip (mmp_mrle m) (mmp_kxres m) (mmp_kyres m))
        (mmp_req m) (mmp_prows m) (mmp_extrowbuf m)
        (mmp_rowbuflen m) (mmp_kxres m) (mmp_kyres m).

(** [for (i = 0; i < height; i++) gwy_assign(d + i*xres, outbuf + i*width,
    width);] with [d] advanced by [base]. *)
Fixpoint write_rows (cnt i : nat) (d : buf) (base xr : nat)
    (outbuf : buf) (width : nat) {struct cnt} : buf :=
  match cnt with
  | 0 => d
  | S cnt' =>
      write_rows cnt' (S i)
        (gwy_assign d (base + i * xr) outbuf (i * width) width)
        base xr outbuf width
  end.

(** One row of the Range loop:
    [d[i*xres + j] = outbuf2[i*width + j] - outbuf[i*width + j]]. *)
Fixpoint range_row (cnt j : nat) (d : buf) (base xr i : nat)
    (outbuf outbuf2 : buf) (width : nat) {struct cnt} : buf :=
  match cnt with
  | 0 => d
  | S cnt' =>
      range_row cnt' (S j)
        (upd d (base + (i * xr + j))
             (vsub (outbuf2 (i * width + j)) (outbuf (i * width + j))))
        base xr i outbuf outbuf2 width
  end.

Fixpoint range_rows (cnt i : nat) (d : buf) (base xr : nat)
    (outbuf outbuf2 : buf) (width : nat) {struct cnt} : buf :=
  match cnt with
  | 0 => d
  | S cnt' =>
      range_rows cnt' (S i)
        (range_row width 0 d base xr i outbuf outbuf2 width)
        base xr outbuf outbuf2 width
  end.

(** One row of the Normalization loop. *)
Fixpoint normalize_row (cnt j : nat) (d : buf) (base xr i : nat)
    (outbuf outbuf2 : buf) (width : nat) {struct cnt} : buf :=
  match cnt with
  | 0 => d
  | S cnt' =>
      let min := outbuf (i * width + j) in
      let max := outbuf2 (i * width + j) in
      let v := if veqb min max then vhalf
               else vdiv (vsub (d (base + (i * xr + j))) min) (vsub max min) in
      normalize_row cnt' (S j) (upd d (base + (i * xr + j)) v)
        base xr i outbuf outbuf2 width
  end.

Fixpoint normalize_rows (cnt i : nat) (d : buf) (base xr : nat)
    (outbuf outbuf2 : buf) (width : nat) {struct cnt} : buf :=
  match cnt with
  | 0 => d
  | S cnt' =>
      normalize_rows cnt' (S i)
        (normalize_row width 0 d base xr i outbuf outbuf2 width)
        base xr outbuf outbuf2 width
  end.

Definition with_data (dfield : GwyDataField) (d : buf) : GwyDataField :=
  mkField (xres dfield) (yres dfield) d.

(** [gwy_data_field_area_filter_min_max_real].  The result is the data
    field after the call; [None] stands for a run that leaves defined
    behaviour (the source does not look at what the analysis returns). *)
Definition gwy_data_field_area_filter_min_max_real (u : Uninit)
    (data_field kernel : GwyDataField) (filtertype : GwyMinMaxFilterType)
    (col row width height : nat) : option GwyDataField :=
  if negb ((0 <? width) && (0 <? height)
           && (col + width <=? xres data_field)
           && (row + height <=? yres data_field))
  then Some data_field                                (* g_return_if_fail *)
  else
    let xr := xres data_field in
    let yr := yres data_field in
    let kxres := xres kernel in
    let kyres := yres kernel in
    let d := data data_field in
    match filtertype with
    | GWY_MIN_MAX_FILTER_MINIMUM | GWY_MIN_MAX_FILTER_MAXIMUM =>
        let is_max :=
          match filtertype with
          | GWY_MIN_MAX_FILTER_MAXIMUM => true
          | _ => false
          end in
        mmp <- gwy_data_field_area_rle_analyse u 0 kernel width ;;
        let mmp := if is_max then mmp_flip mmp else mmp in
        r <- gwy_data_field_area_min_max_execute data_field mmp is_max
               col row width height (u_outbuf u) ;;
        let outbuf := fst r in
        Some (with_data data_field
                (write_rows height 0 d (row * xr + col) xr outbuf width))
    | GWY_MIN_MAX_FILTER_RANGE | GWY_MIN_MAX_FILTER_NORMALIZATION =>
        mmp <- gwy_data_field_area_rle_analyse u 0 kernel width ;;
        r <- gwy_data_field_area_min_max_execute data_field mmp false
               col row width height (u_outbuf u) ;;
        let '(outbuf, mmp) := r in
        let mmp := mmp_flip mmp in
        r <- gwy_data_field_area_min_max_execute data_field mmp true
               col row width height (u_outbuf2 u) ;;
        let outbuf2 := fst r in
        match filtertype with
        | GWY_MIN_MAX_FILTER_RANGE =>
            Some (with_data data_field
                    (range_rows height 0 d (row * xr + col) xr
                                outbuf outbuf2 width))
        | _ =>
            Some (with_data data_field
                    (normalize_rows height 0 d (row * xr + col) xr
                                    outbuf outbuf2 width))
        end
    | GWY_MIN_MAX_FILTER_OPENING | GWY_MIN_MAX_FILTER_CLOSING =>
        let is_closing :=
          match filtertype with
          | GWY_MIN_MAX_FILTER_CLOSING => true
          | _ => false
          end in
        (* the first operation runs in an extended area *)
        let extcol := Nat.max 0 (col - kxres / 2) in
        let extrow := Nat.max 0 (row - kyres / 2) in
        let extwidth := Nat.min xr (col + width + kxres / 2) - extcol in
        let extheight := Nat.min yr (row + height + kyres / 2) - extrow in
        mmp <- gwy_data_field_area_rle_analyse u 0 kernel extwidth ;;
        let mmp := if is_closing then mmp_flip mmp else mmp in
        r <- gwy_data_field_area_min_max_execute data_field mmp
               is_closing extcol extrow extwidth extheight
               (u_tmpfield u) ;;
        let '(tmpdata, mmp) := r in
        let tmpfield := mkField extwidth extheight tmpdata in
        mmp <-
          (if Nat.eqb extcol col && Nat.eqb extrow row
              && Nat.eqb extwidth width && Nat.eqb extheight height
           then
             (* Avoid repeating the analysis for full-field application. *)
             Some (mmp_flip mmp)
           else
             mmp <- gwy_data_field_area_rle_analyse u 1 kernel width ;;
             Some (if negb is_closing then mmp_flip mmp else mmp)) ;;
        r <- gwy_data_field_area_min_max_execute tmpfield mmp
               (negb is_closing) (col - extcol) (row - extrow)
               width height (u_outbuf u) ;;
        let outbuf := fst r in
        Some (with_data data_field
                (write_rows height 0 d (row * xr + col) xr outbuf width))
    end.

(** [gwy_data_field_duplicate] *)
Definition gwy_data_field_duplicate (dfield : GwyDataField) : GwyDataField :=
  mkField (xres dfield) (yres dfield) (data dfield).

(** [gwy_data_field_grains_autocrop] is defined outside the sources at
    hand; it is a parameter of the entry point. *)
Variable gwy_data_field_grains_autocrop : GwyDataField -> GwyDataField.

(** [gwy_data_field_area_filter_min_max].  The result is the pair of the
    data field and of the caller's kernel after the call. *)
Definition gwy_data_field_area_filter_min_max (u : Uninit)
    (data_field kernel : GwyDataField) (filtertype : GwyMinMaxFilterType)
    (col row width height : nat) : option (GwyDataField * GwyDataField) :=
  let redkernel := gwy_data_field_duplicate kernel in
  let redkernel := gwy_data_field_grains_autocrop redkernel in
  if kernel_is_nonempty redkernel then
    data_field' <- gwy_data_field_area_filter_min_max_real u data_field
                     redkernel filtertype col row width height ;;
    Some (data_field', kernel)
  else Some (data_field, kernel).

End Engine.

Arguments mkField {V} xres yres data.
Arguments xres {V} g.
Arguments yres {V} g.
Arguments data {V} g _.
Arguments mkRow {V} prow_each prow_even.
Arguments prow_each {V} m _ _.
Arguments prow_even {V} m _ _.
Arguments mkMmp {V} mmp_mrle mmp_req mmp_prows mmp_extrowbuf mmp_rowbuflen
  mmp_kxres mmp_kyres.
Arguments mmp_mrle {V} m.
Arguments mmp_req {V} m.
Arguments mmp_prows {V} m _.
Arguments mmp_extrowbuf {V} m _.
Arguments mmp_rowbuflen {V} m.
Arguments mmp_kxres {V} m.
Arguments mmp_kyres {V} m.
Arguments mkUninit {V} u_prows u_extrowbuf u_outbuf u_outbuf2 u_tmpfield.
Arguments u_prows {V} u _ _.
Arguments u_extrowbuf {V} u _ _.
Arguments u_outbuf {V} u _.
Arguments u_outbuf2 {V} u _.
Arguments u_tmpfield {V} u _.

(** ** Specifications *)

Section Specs.

Variable V : Type.
Variable ltb : V -> V -> bool.

(** [a] is not above [b], and [a] is not below [b], in the order of [ltb]. *)
Definition le_min (a b : V) : Prop := ltb b a = false.
Definition le_max (a b : V) : Prop := ltb a b = false.

(** [v] is an extremum of the [L] cells of [x] from index [i] on: it is one
    of them and it bounds all of them.  With [le_min] it is their minimum,
    with [le_max] their maximum. *)
Definition is_extremum (le : V -> V -> Prop) (x : nat -> V) (i L : nat) (v : V)
    : Prop :=
  (exists k, i <= k < i + L /\ v = x k) /\
  (forall k, i <= k < i + L -> le v (x k)).

(** The each-buffer of length [L] of a row holds the extrema of [x]. *)
Definition each_valid (le : V -> V -> Prop) (x : nat -> V) (rowlen : nat)
    (prow : MinMaxPrecomputedRow V) (L : nat) : Prop :=
  forall i, i + L <= rowlen -> is_extremum le x i L (prow_each prow L i).

(** The even-buffer of length [L] holds them at the even indices. *)
Definition even_valid (le : V -> V -> Prop) (x : nat -> V) (rowlen : nat)
    (prow : MinMaxPrecomputedRow V) (L : nat) : Prop :=
  forall i, i mod 2 = 0 -> i + L <= rowlen ->
            is_extremum le x i L (prow_even prow L i).

(** All needed buffers of lengths below [B] are valid. *)
Definition row_valid_below (le : V -> V -> Prop) (req : MinMaxPrecomputedReq)
    (x : nat -> V) (rowlen : nat) (prow : MinMaxPrecomputedRow V) (B : nat)
    : Prop :=
  (forall L, L < B -> needed (req_each req L) = true ->
             each_valid le x rowlen prow L) /\
  (forall L, L < B -> needed (req_even req L) = true ->
             even_valid le x rowlen prow L).

(** All needed buffers are valid. *)
Definition row_valid (le : V -> V -> Prop) (req : MinMaxPrecomputedReq)
    (x : nat -> V) (rowlen : nat) (prow : MinMaxPrecomputedRow V) : Prop :=
  (forall L, needed (req_each req L) = true -> each_valid le x rowlen prow L) /\
  (forall L, needed (req_even req L) = true -> even_valid le x rowlen prow L).

(** The cell [(r, c)] of a kernel raster belongs to the structuring
    element. *)
Variable is_nonzero : V -> bool.

Definition kernel_cell (kernel : GwyDataField V) (r c : nat) : Prop :=
  r < yres kernel /\ c < xres kernel /\
  is_nonzero (data kernel (r * xres kernel + c)) = true.

End Specs.

(** The cell [(r, c)] lies on the segment [s]. *)
Definition segment_covers (s : MaskSegment) (r c : nat) : Prop :=
  seg_row s = r /\ seg_col s <= c < seg_col s + seg_len s.

Arguments le_min {V} ltb a b.
Arguments le_max {V} ltb a b.
Arguments is_extremum {V} le x i L v.
Arguments each_valid {V} le x rowlen prow L.
Arguments even_valid {V} le x rowlen prow L.
Arguments row_valid_below {V} le req x rowlen prow B.
Arguments row_valid {V} le req x rowlen prow.
Arguments kernel_cell {V} is_nonzero kernel r c.

Section SweepSpecs.

Variable V : Type.

(** [v] is an extremum of the values that satisfy [P]. *)
Definition is_extremum_of (le : V -> V -> Prop) (P : V -> Prop) (v : V) : Prop :=
  P v /\ forall w, P w -> le v w.

Variable dfield : GwyDataField V.

(** An index moved into [0 .. res-1] from above. *)
Definition clamp (k res : nat) : nat := Nat.min k (res - 1).

(** Row [r] of the field as the sweep extends it for an area that starts
    at column [col], with [el] cells before the area. *)
Definition extended_row (r col el : nat) : nat -> V :=
  fun k => data dfield (xres dfield * r + clamp (col + k - el) (xres dfield)).

(** The values under the segments of [mrle] when the kernel is placed on
    the pixel [(y, x)] with [eu] rows above and [el] columns before it;
    rows and columns outside the field are moved to the nearest edge (the
    truncated subtraction moves them to the edge 0). *)
Definition rle_window (mrle : MaskRLE) (eu el y x : nat) : V -> Prop :=
  fun w => exists s c,
    In s mrle /\ segment_covers s (seg_row s) c /\
    w = data dfield (xres dfield * clamp (y + seg_row s - eu) (yres dfield)
                     + clamp (x + c - el) (xres dfield)).

(** The sample of the border-extended field at the row [y] and the column
    [x], which may lie outside the field. *)
Definition border_sample (y x : Z) : V :=
  data dfield
    (xres dfield
       * Z.to_nat (Z.max 0 (Z.min y (Z.of_nat (yres dfield) - 1)))
     + Z.to_nat (Z.max 0 (Z.min x (Z.of_nat (xres dfield) - 1)))).

Variable is_nonzero : V -> bool.
Variable kernel : GwyDataField V.

(** The neighbourhood of the pixel [(y, x)] for erosion: the kernel with
    its cell [((kyres-1)/2, (kxres-1)/2)] on the pixel. *)
Definition erosion_window (y x : nat) : V -> Prop :=
  fun w => exists kr kc,
    kernel_cell is_nonzero kernel kr kc /\
    w = border_sample
          (Z.of_nat y + Z.of_nat kr - Z.of_nat ((yres kernel - 1) / 2))
          (Z.of_nat x + Z.of_nat kc - Z.of_nat ((xres kernel - 1) / 2)).

(** The neighbourhood for dilation: the same kernel reflected through
    that cell. *)
Definition dilation_window (y x : nat) : V -> Prop :=
  fun w => exists kr kc,
    kernel_cell is_nonzero kernel kr kc /\
    w = border_sample
          (Z.of_nat y - Z.of_nat kr + Z.of_nat ((yres kernel - 1) / 2))
          (Z.of_nat x - Z.of_nat kc + Z.of_nat ((xres kernel - 1) / 2)).

End SweepSpecs.

Arguments is_extremum_of {V} le P v.
Arguments clamp k res : simpl never.
Arguments extended_row {V} dfield r col el _.
Arguments rle_window {V} dfield mrle eu el y x _.
Arguments border_sample {V} dfield y x.
Arguments erosion_window {V} dfield is_nonzero kernel y x _.
Arguments dilation_window {V} dfield is_nonzero kernel y x _.

(** *** The invariant of the sweep *)

Section SweepInvariant.

Variable V : Type.
Variable ltb : V -> V -> bool.
Variable dfield : GwyDataField V.
Variable mmp : MinMaxPrecomputed V.
Variable maximum : bool.
Variables col row : nat.

(** The order in which the sweep looks for the least value. *)
Definition sweep_le : V -> V -> Prop :=
  if maximum then le_max ltb else le_min ltb.

(** The buffers of [p] are valid for row [r] of the field. *)
Definition prow_ok (r : nat) (p : MinMaxPrecomputedRow V) : Prop :=
  row_valid sweep_le (mmp_req mmp)
    (extended_row dfield r col (extend_left V mmp maximum))
    (mmp_rowbuflen mmp) p.

(** The field row that the buffer [t] holds while output row [i] is
    produced. *)
Definition src_row (i t : nat) : nat :=
  clamp (row + i + t - extend_up V mmp maximum) (yres dfield).

(** The [kyres] live buffers hold their rows for output row [i]. *)
Definition rows_ok (i : nat) (prows : nat -> MinMaxPrecomputedRow V) : Prop :=
  forall t, t < mmp_kyres mmp -> prow_ok (src_row i t) (prows t).

End SweepInvariant.

(** *** A kernel analysis that the sweep can run on *)

Definition mmp_ready {V : Type} (mmp : MinMaxPrecomputed V) (width : nat)
    : Prop :=
  plan_ok (mmp_req mmp) /\ 1 <= maxlen_each (mmp_req mmp) /\
  1 <= mmp_kxres mmp /\ 1 <= mmp_kyres mmp /\
  mmp_rowbuflen mmp = width + mmp_kxres mmp - 1 /\
  mmp_mrle mmp <> [] /\
  forall s, In s (mmp_mrle mmp) ->
    seg_row s < mmp_kyres mmp /\ 1 <= seg_len s /\
    seg_col s + seg_len s <= mmp_kxres mmp /\
    needed (req_each (mmp_req mmp) (seg_len s)) = true.

(** ** Rational samples and example rasters *)

(** Samples as exact rationals: the comparison and the arithmetic of the
    source without rounding, infinities and NaN. *)
Module QSample.

Definition ltb (a b : Q) : bool := negb (Qle_bool b a).
Definition is_nonzero (a : Q) : bool := negb (Qeq_bool a 0).
Definition eqb (a b : Q) : bool := Qeq_bool a b.
Definition sub (a b : Q) : Q := Qminus a b.
Definition div (a b : Q) : Q := Qdiv a b.
Definition half : Q := (1 # 2)%Q.

(** [gwy_data_field_area_filter_min_max_real] on rational samples. *)
Definition filter_real :=
  gwy_data_field_area_filter_min_max_real Q ltb is_nonzero eqb sub div half.

(** [gwy_data_field_area_filter_min_max] on rational samples. *)
Definition filter :=
  gwy_data_field_area_filter_min_max Q ltb is_nonzero eqb sub div half.

(** An array with the cells of [l], zero after them. *)
Definition cells (l : list Q) : buf Q := fun k => nth k l 0%Q.

(** A raster from integer cells. *)
Definition raster (xr yr : nat) (l : list Z) : GwyDataField Q :=
  mkField xr yr (cells (map inject_Z l)).

(** Uninitialised memory in which every cell holds [v]. *)
Definition junk (v : Q) : Uninit Q :=
  mkUninit (fun _ _ => mkRow (fun _ _ => v) (fun _ _ => v))
           (fun _ _ => v) (fun _ => v) (fun _ => v) (fun _ => v).

(** A kernel that is its own bounding box is left as it is by the
    autocrop. *)
Definition autocrop_tight (kernel : GwyDataField Q) : GwyDataField Q := kernel.

(** A column of three cells and a column kernel of three cells; an area
    that is the last row of the column. *)
Definition column_image : GwyDataField Q := raster 1 3 [1; 2; 3]%Z.
Definition column_kernel : GwyDataField Q := raster 1 3 [1; 1; 1]%Z.

(** A kernel of two cells on the anti-diagonal of a 2 x 2 box, and two
    images of 3 x 3 cells. *)
Definition skew_kernel : GwyDataField Q := raster 2 2 [0; 1; 1; 0]%Z.
Definition range_image : GwyDataField Q :=
  raster 3 3 [0; 0; 0;  0; 5; 9;  0; 9; 20]%Z.
Definition norm_image : GwyDataField Q :=
  raster 3 3 [0; 2; 0;  2; 5; 1;  0; 1; 0]%Z.

(** A kernel with its centre cell, and a row to filter. *)
Definition cross_kernel : GwyDataField Q :=
  raster 3 3 [0; 1; 0;  1; 1; 1;  0; 1; 0]%Z.
Definition square_image : GwyDataField Q :=
  raster 3 3 [3; 1; 4;  1; 5; 9;  2; 6; 5]%Z.


End QSample.

(** The plan of a set of lengths, for sets that have one. *)
Definition plan_of (blocklens : list nat) : MinMaxPrecomputedReq :=
  match find_required_lengths_for_set blocklens with
  | Some req => req
  | None => mkReq (fun _ => zero_len) (fun _ => zero_len) 0 0 0
  end.

(** ** Rounded arithmetic *)

(** The arithmetic of [gdouble] on finite values: an operation yields its
    exact result rounded to a representable value, [rnd] being the
    rounding.  Infinities and NaN have no counterpart among the
    rationals; what is stated over this arithmetic bounds the operands so
    that no operation overflows. *)
Module Rounded.

Section Ops.

Variable rnd : Q -> Q.

Definition add (a b : Q) : Q := rnd (a + b)%Q.
Definition sub (a b : Q) : Q := rnd (a - b)%Q.
Definition mul (a b : Q) : Q := rnd (a * b)%Q.
Definition div (a b : Q) : Q := rnd (a / b)%Q.

(** [gwy_data_field_area_filter_min_max_real] with the rounded
    operations; the comparisons of finite values are exact. *)
Definition filter_real :=
  gwy_data_field_area_filter_min_max_real Q QSample.ltb QSample.is_nonzero
    QSample.eqb sub div QSample.half.

End Ops.

(** What is used of a rounding to the values [rep], [big] being the
    largest of them: up to [big] in magnitude it keeps the order; it keeps
    0 and 1; and it does not round the difference of two different values
    of [rep] to 0 (the differences of such values are multiples of the
    least positive one). *)
Record rounding (rep : Q -> Prop) (big : Q) (rnd : Q -> Q) : Prop :=
  mkRounding {
    rnd_mono : forall p q : Q,
      (- big <= p)%Q -> (p <= q)%Q -> (q <= big)%Q -> (rnd p <= rnd q)%Q;
    rnd_zero : (rnd 0 == 0)%Q;
    rnd_one : (rnd 1 == 1)%Q;
    big_one : (1 <= big)%Q;
    rnd_diff : forall a b : Q,
      rep a -> rep b -> ~ (a == b)%Q ->
      (- big <= a - b)%Q -> (a - b <= big)%Q -> ~ (rnd (a - b) == 0)%Q
  }.

End Rounded.

(** ** Runs of the encoding *)

(** The segment [s] ends before the segment [t] begins, in the row-major
    order of the cells, with a cell between them when they share a row. *)
Definition segment_before (s t : MaskSegment) : Prop :=
  seg_row s < seg_row t \/
  (seg_row s = seg_row t /\ seg_col s + seg_len s < seg_col t).

(** Every segment of a list ends before each later one begins. *)
Fixpoint segments_ordered (l : MaskRLE) : Prop :=
  match l with
  | [] => True
  | s :: r => (forall t, In t r -> segment_before s t) /\ segments_ordered r
  end.

(** In a raster of rows of [xr] cells the segment [s] is a whole run: the
    cell before it and the cell after it in its row, where the row has one,
    are zero. *)
Definition run_is_maximal {V : Type} (is_nonzero : V -> bool) (d : nat -> V)
    (xr : nat) (s : MaskSegment) : Prop :=
  (seg_col s = 0 \/
   is_nonzero (d (seg_row s * xr + (seg_col s - 1))) = false) /\
  (seg_col s + seg_len s = xr \/
   is_nonzero (d (seg_row s * xr + (seg_col s + seg_len s))) = false).

(** ** Thresholding and clamping *)

(** The statistics a data field caches.  [CBIT(b)] is the bit of the
    statistic [b] in the field's [cached] mask, [CVAL(field, b)] its cached
    value and [CTEST(field, b)] the test of the bit; the macros and
    [gwy_data_field_invalidate], which clears the mask, are defined outside
    the sources at hand. *)
Inductive CacheStat : Type :=
| CACHE_MIN | CACHE_MAX | CACHE_SUM | CACHE_RMS | CACHE_MED
| CACHE_ARF | CACHE_ART.

Record FieldCache : Type := mkCache {
  cached : CacheStat -> bool;
  cval : CacheStat -> Q
}.

Definition gwy_data_field_invalidate (c : FieldCache) : FieldCache :=
  mkCache (fun _ => false) (cval c).

(** [MIN(a, b)] and [MAX(a, b)] of GLib. *)
Definition MIN (a b : Q) : Q := if QSample.ltb a b then a else b.
Definition MAX (a b : Q) : Q := if QSample.ltb b a then a else b.

(** The conversion of a [gint] to [gdouble]. *)
Definition of_gint (n : Z) : Q := inject_Z n.

(** [for (i = n; i; i--, p++)] of [gwy_data_field_threshold]: [cnt]
    cells from [p] on remain. *)
Fixpoint threshold_loop (cnt p : nat) (d : buf Q) (threshval bottom top : Q)
    (tot : nat) {struct cnt} : buf Q * nat :=
  match cnt with
  | 0 => (d, tot)
  | S cnt' =>
      if QSample.ltb (d p) threshval
      then threshold_loop cnt' (S p) (upd d p bottom) threshval bottom top tot
      else threshold_loop cnt' (S p) (upd d p top) threshval bottom top (S tot)
  end.

(** [gwy_data_field_threshold]: the field, its cache and the value
    returned. *)
Definition gwy_data_field_threshold (data_field : GwyDataField Q)
    (cache : FieldCache) (threshval bottom top : Q)
    : GwyDataField Q * FieldCache * nat :=
  let n := xres data_field * yres data_field in
  let '(d, tot) :=
    threshold_loop n 0 (data data_field) threshval bottom top 0 in
  (* We can precompute stats *)
  let qtot := of_gint (Z.of_nat tot) in
  let qn := of_gint (Z.of_nat n) in
  let cache :=
    mkCache
      (fun b => match b with
                | CACHE_MIN | CACHE_MAX | CACHE_SUM | CACHE_RMS | CACHE_MED
                  => true
                | _ => false
                end)
      (fun b => match b with
                | CACHE_MIN => MIN top bottom
                | CACHE_MAX => MAX top bottom
                | CACHE_SUM =>
                    (qtot * top
                     + of_gint (Z.of_nat n - Z.of_nat tot) * bottom)%Q
                | CACHE_RMS =>
                    ((top - bottom) * (top - bottom) * qtot / qn
                     * of_gint (Z.of_nat n - Z.of_nat tot) / qn)%Q
                | CACHE_MED => if n / 2 <? tot then top else bottom
                | _ => cval cache b
                end) in
  (with_data Q data_field d, cache, tot).

(** The inner loop of [gwy_data_field_area_threshold]; [drow] stays where
    it is, the loop has no [drow++]. *)
Fixpoint area_threshold_row (cnt : nat) (d : buf Q) (drow : nat)
    (threshval bottom top : Q) (tot : nat) {struct cnt} : buf Q * nat :=
  match cnt with
  | 0 => (d, tot)
  | S cnt' =>
      if QSample.ltb (d drow) threshval
      then area_threshold_row cnt' (upd d drow bottom) drow
             threshval bottom top tot
      else area_threshold_row cnt' (upd d drow top) drow
             threshval bottom top (S tot)
  end.

(** [for (i = 0; i < height; i++)]: [cnt] rows from [i] on remain. *)
Fixpoint area_threshold_rows (cnt i : nat) (d : buf Q)
    (xr col row width : nat) (threshval bottom top : Q) (tot : nat)
    {struct cnt} : buf Q * nat :=
  match cnt with
  | 0 => (d, tot)
  | S cnt' =>
      let drow := (row + i) * xr + col in
      let '(d, tot) :=
        area_threshold_row width d drow threshval bottom top tot in
      area_threshold_rows cnt' (S i) d xr col row width
        threshval bottom top tot
  end.

(** [gwy_data_field_area_threshold] *)
Definition gwy_data_field_area_threshold (data_field : GwyDataField Q)
    (cache : FieldCache) (col row width height : nat)
    (threshval bottom top : Q) : GwyDataField Q * FieldCache * nat :=
  if negb ((col + width <=? xres data_field)
           && (row + height <=? yres data_field))
  then (data_field, cache, 0)                      (* g_return_val_if_fail *)
  else
    let '(d, tot) :=
      area_threshold_rows height 0 (data data_field) (xres data_field)
        col row width threshval bottom top 0 in
    (with_data Q data_field d, gwy_data_field_invalidate cache, tot).

(** The loop of [gwy_data_field_clamp]. *)
Fixpoint clamp_loop (cnt p : nat) (d : buf Q) (bottom top : Q) (tot : nat)
    {struct cnt} : buf Q * nat :=
  match cnt with
  | 0 => (d, tot)
  | S cnt' =>
      if QSample.ltb (d p) bottom
      then clamp_loop cnt' (S p) (upd d p bottom) bottom top (S tot)
      else if QSample.ltb top (d p)
      then clamp_loop cnt' (S p) (upd d p top) bottom top (S tot)
      else clamp_loop cnt' (S p) d bottom top tot
  end.

(** [gwy_data_field_clamp] *)
Definition gwy_data_field_clamp (data_field : GwyDataField Q)
    (cache : FieldCache) (bottom top : Q)
    : GwyDataField Q * FieldCache * nat :=
  if negb (Qle_bool bottom top)
  then (data_field, cache, 0)                      (* g_return_val_if_fail *)
  else
    let '(d, tot) :=
      clamp_loop (xres data_field * yres data_field) 0 (data data_field)
        bottom top 0 in
    let cache :=
      if negb (Nat.eqb tot 0) then
        (* We can precompute stats *)
        let keep := fun b => match b with
                             | CACHE_MIN | CACHE_MAX | CACHE_MED => cached cache b
                             | _ => false
                             end in
        let med_out := QSample.ltb (cval cache CACHE_MED) bottom
                       || QSample.ltb top (cval cache CACHE_MED) in
        mkCache
          (fun b => match b with
                    | CACHE_MED => keep CACHE_MED
                                   && negb (keep CACHE_MED && med_out)
                    | _ => keep b
                    end)
          (fun b => match b with
                    | CACHE_MIN => MAX bottom (cval cache CACHE_MIN)
                    | CACHE_MAX => MIN top (cval cache CACHE_MAX)
                    | _ => cval cache b
                    end)
      else cache in
    (with_data Q data_field d, cache, tot).

(** The inner loop of [gwy_data_field_area_clamp]; it has no [drow++]
    either. *)
Fixpoint area_clamp_row (cnt : nat) (d : buf Q) (drow : nat)
    (bottom top : Q) (tot : nat) {struct cnt} : buf Q * nat :=
  match cnt with
  | 0 => (d, tot)
  | S cnt' =>
      if QSample.ltb (d drow) bottom
      then area_clamp_row cnt' (upd d drow bottom) drow bottom top (S tot)
      else if QSample.ltb top (d drow)
      then area_clamp_row cnt' (upd d drow top) drow bottom top (S tot)
      else area_clamp_row cnt' d drow bottom top tot
  end.

Fixpoint area_clamp_rows (cnt i : nat) (d : buf Q)
    (xr col row width : nat) (bottom top : Q) (tot : nat)
    {struct cnt} : buf Q * nat :=
  match cnt with
  | 0 => (d, tot)
  | S cnt' =>
      let drow := (row + i) * xr + col in
      let '(d, tot) := area_clamp_row width d drow bottom top tot in
      area_clamp_rows cnt' (S i) d xr col row width bottom top tot
  end.

(** [gwy_data_field_area_clamp] *)
Definition gwy_data_field_area_clamp (data_field : GwyDataField Q)
    (cache : FieldCache) (col row width height : nat) (bottom top : Q)
    : GwyDataField Q * FieldCache * nat :=
  if negb ((col + width <=? xres data_field)
           && (row + height <=? yres data_field))
  then (data_field, cache, 0)                      (* g_return_val_if_fail *)
  else
    let '(d, tot) :=
      area_clamp_rows height 0 (data data_field) (xres data_field)
        col row width bottom top 0 in
    (with_data Q data_field d,
     if negb (Nat.eqb tot 0) then gwy_data_field_invalidate cache else cache,
     tot).

(** *** Counting and summing the cells of a field *)

(** The number of the cells [0 .. n-1] of [d] on which [f] holds. *)
Fixpoint count_cells (f : Q -> bool) (d : buf Q) (n : nat) : nat :=
  match n with
  | 0 => 0
  | S n' => count_cells f d n' + (if f (d n') then 1 else 0)
  end.

(** The sum of the cells [0 .. n-1] of [d]. *)
Fixpoint sum_cells (d : buf Q) (n : nat) : Q :=
  match n with
  | 0 => 0%Q
  | S n' => (sum_cells d n' + d n')%Q
  end.

(** ** Thinning of edge lines *)

(** [pixel_status]; the row and the column are [gint]s, the callers pass
    rows and columns that are at least 1. *)
Definition pixel_status (data_field : GwyDataField Q) (i j : Z) : Z :=
  if Qeq_bool
       (data data_field (Z.to_nat (j + Z.of_nat (xres data_field) * i))) 0
  then 0%Z else 1%Z.

(** The arrays [pi] and [pj] of [znzt_val]: the eight neighbours of
    [(i, j)] in a round, the first one repeated at the end. *)
Definition znzt_pi (i : Z) : list Z :=
  [i + 1; i; i - 1; i - 1; i - 1; i; i + 1; i + 1; i + 1]%Z.
Definition znzt_pj (j : Z) : list Z :=
  [j + 1; j + 1; j + 1; j; j - 1; j - 1; j - 1; j; j + 1]%Z.

(** [for (k = 0; k < 8; k++)] of [znzt_val]: [cnt] turns from [k] on
    remain. *)
Fixpoint znzt_loop (cnt k : nat) (data_field : GwyDataField Q)
    (pi pj : list Z) (ch : Z) {struct cnt} : Z :=
  match cnt with
  | 0 => ch
  | S cnt' =>
      let ch :=
        if (pixel_status data_field (nth k pi 0%Z) (nth k pj 0%Z) =? 0)%Z
           && (pixel_status data_field (nth (k + 1) pi 0%Z)
                 (nth (k + 1) pj 0%Z) =? 1)%Z
        then (ch + 1)%Z else ch in
      znzt_loop cnt' (S k) data_field pi pj ch
  end.

(** [znzt_val]: the number of steps from a zero to a nonzero pixel in the
    round of the neighbours. *)
Definition znzt_val (data_field : GwyDataField Q) (i j : Z) : Z :=
  znzt_loop 8 0 data_field (znzt_pi i) (znzt_pj j) 0%Z.

(** [nzn_val]: the number of nonzero neighbours. *)
Definition nzn_val (data_field : GwyDataField Q) (i j : Z) : Z :=
  fold_left
    (fun ch ip =>
       fold_left
         (fun ch jp =>
            if negb ((ip =? 0)%Z && (jp =? 0)%Z)
            then (ch + pixel_status data_field (i + ip) (j + jp))%Z
            else ch)
         [-1; 0; 1]%Z ch)
    [-1; 0; 1]%Z 0%Z.

(** [pixel_thinnable]; the row [i] is compared with [xres] and the column
    [j] with [yres], as in the source. *)
Definition pixel_thinnable (data_field : GwyDataField Q) (i j : Z) : Z :=
  let xr := Z.of_nat (xres data_field) in
  let yr := Z.of_nat (yres data_field) in
  if (i <=? 1)%Z || (j <=? 1)%Z || (i >=? xr - 2)%Z || (j >=? yr - 2)%Z
  then (-1)%Z
  else
    let c1 := if (znzt_val data_field i j =? 1)%Z then 1%Z else 0%Z in
    let val := nzn_val data_field i j in
    let c2 := if (2 <=? val)%Z && (val <=? 6)%Z then 1%Z else 0%Z in
    let c3 :=
      if negb (znzt_val data_field (i + 1) j =? 1)%Z
         || (pixel_status data_field i (j + 1)
             * pixel_status data_field i (j - 1)
             * pixel_status data_field (i + 1) j =? 0)%Z
      then 1%Z else 0%Z in
    let c4 :=
      if negb (znzt_val data_field i (j + 1) =? 1)%Z
         || (pixel_status data_field i (j + 1)
             * pixel_status data_field (i - 1) j
             * pixel_status data_field (i + 1) j =? 0)%Z
      then 1%Z else 0%Z in
    if (c1 =? 1)%Z && (c2 =? 1)%Z && (c3 =? 1)%Z && (c4 =? 1)%Z
    then 1%Z else 0%Z.

(** [gwy_data_field_clear] (defined outside the sources at hand) fills
    the cells of a field with zeros. *)
Definition gwy_data_field_clear (data_field : GwyDataField Q)
    : GwyDataField Q :=
  with_data Q data_field
    (fun k => if k <? xres data_field * yres data_field
              then 0%Q else data data_field k).

(** The first pair of loops of [thinstep], for one row [i]: [cnt] columns
    from [j] on remain. *)
Fixpoint thin_mark_row (cnt j : nat) (data_field : GwyDataField Q) (i : nat)
    (buffer : buf Q) (ch : nat) {struct cnt} : buf Q * nat :=
  match cnt with
  | 0 => (buffer, ch)
  | S cnt' =>
      if (pixel_status data_field (Z.of_nat i) (Z.of_nat j) =? 1)%Z
         && (pixel_thinnable data_field (Z.of_nat i) (Z.of_nat j) =? 1)%Z
      then thin_mark_row cnt' (S j) data_field i
             (upd buffer (j + xres data_field * i) 1%Q) (S ch)
      else thin_mark_row cnt' (S j) data_field i buffer ch
  end.

(** [for (i = 2; i < yres - 1; i++) for (j = 2; j < xres - 1; j++)] *)
Fixpoint thin_mark_rows (cnt i : nat) (data_field : GwyDataField Q)
    (buffer : buf Q) (ch : nat) {struct cnt} : buf Q * nat :=
  match cnt with
  | 0 => (buffer, ch)
  | S cnt' =>
      let '(buffer, ch) :=
        thin_mark_row (xres data_field - 3) 2 data_field i buffer ch in
      thin_mark_rows cnt' (S i) data_field buffer ch
  end.

(** The second pair of loops, for one row. *)
Fixpoint thin_clear_row (cnt j : nat) (xr i : nat) (buffer d : buf Q)
    {struct cnt} : buf Q :=
  match cnt with
  | 0 => d
  | S cnt' =>
      thin_clear_row cnt' (S j) xr i buffer
        (if Qeq_bool (buffer (j + xr * i)) 1
         then upd d (j + xr * i) 0%Q else d)
  end.

Fixpoint thin_clear_rows (cnt i : nat) (xr : nat) (buffer d : buf Q)
    {struct cnt} : buf Q :=
  match cnt with
  | 0 => d
  | S cnt' =>
      thin_clear_rows cnt' (S i) xr buffer
        (thin_clear_row (xr - 3) 2 xr i buffer d)
  end.

(** [thinstep]: the data field and the buffer after the call, and the
    value returned.  ([gwy_data_field_invalidate] touches the cache of the
    field only.) *)
Definition thinstep (data_field buffer : GwyDataField Q)
    : GwyDataField Q * GwyDataField Q * nat :=
  let buffer := gwy_data_field_clear buffer in
  let '(b, ch) :=
    thin_mark_rows (yres data_field - 3) 2 data_field (data buffer) 0 in
  let d :=
    thin_clear_rows (yres data_field - 3) 2 (xres data_field) b
      (data data_field) in
  (with_data Q data_field d, with_data Q buffer b, ch).

(** [for (k = 0; k < 2000; k++) { n = thinstep(...); if (n == 0) break; }]:
    [fuel] turns from [k] on remain. *)
Fixpoint thin_loop (fuel k : nat) (data_field buffer : GwyDataField Q)
    {struct fuel} : GwyDataField Q * nat :=
  match fuel with
  | 0 => (data_field, k)
  | S fuel' =>
      let '(data_field, buffer, n) := thinstep data_field buffer in
      if Nat.eqb n 0 then (data_field, k)
      else thin_loop fuel' (S k) data_field buffer
  end.

(** [thin_data_field]; [junk] is what [gwy_data_field_new_alike] leaves in
    the cells of the buffer, which it does not initialise. *)
Definition thin_data_field (data_field : GwyDataField Q) (junk : buf Q)
    : GwyDataField Q * nat :=
  thin_loop 2000 0 data_field
    (mkField (xres data_field) (yres data_field) junk).

(** The data field and the buffer after the first [n] calls of [thinstep]
    in a row, and the value that the last of them returned. *)
Fixpoint thin_steps (n : nat) (data_field buffer : GwyDataField Q)
    {struct n} : GwyDataField Q * GwyDataField Q * nat :=
  match n with
  | 0 => (data_field, buffer, 0)
  | S n' =>
      let '(data_field, buffer, _) := thin_steps n' data_field buffer in
      thinstep data_field buffer
  end.

(** A cell is nonzero; a cell of the buffer is marked. *)
Definition is_set (x : Q) : bool := negb (Qeq_bool x 0).
Definition is_marked (x : Q) : bool := Qeq_bool x 1.

(** A field of 5 x 5 cells with a line of three pixels that has a corner
    at the middle cell. *)
Definition corner_image : GwyDataField Q :=
  QSample.raster 5 5 [0; 0; 0; 0; 0;
                      0; 0; 0; 1; 0;
                      0; 0; 1; 1; 0;
                      0; 0; 0; 0; 0;
                      0; 0; 0; 0; 0]%Z.

(** A field of 6 x 5 cells, wider than tall, with a block of pixels in its
    last two rows; and the same field with a nonzero cell behind its last
    cell, where the cell in the column 2 of a sixth row would be. *)
Definition wide_image : GwyDataField Q :=
  QSample.raster 6 5 [0; 0; 0; 0; 0; 0;
                      0; 0; 0; 0; 0; 0;
                      0; 0; 0; 0; 0; 0;
                      0; 1; 1; 1; 0; 0;
                      0; 1; 1; 1; 0; 0]%Z.
Definition wide_image_beyond : GwyDataField Q :=
  with_data Q wide_image (upd (data wide_image) 32 1%Q).

(** ** The storage of a row *)

(** The pointers of a [MinMaxPrecomputedRow] as the allocation leaves
    them: [each[l]] and [even[l]] are offsets into [storage], or [NULL];
    [lay_size] is the number of cells of [storage]. *)
Record RowLayout : Type := mkLayout {
  lay_size : nat;
  lay_each : nat -> option nat;
  lay_even : nat -> option nat
}.

(** [for (...; i <= maxlen; i++) if (tbl[i].needed) { ptrs[i] = p;
    p += rowlen; }]: [cnt] lengths from [i] on remain. *)
Fixpoint alloc_loop (cnt i : nat) (tbl : nat -> MinMaxPrecomputedLen)
    (rowlen : nat) (ptrs : nat -> option nat) (p : nat) {struct cnt}
    : (nat -> option nat) * nat :=
  match cnt with
  | 0 => (ptrs, p)
  | S cnt' =>
      if needed (tbl i)
      then alloc_loop cnt' (S i) tbl rowlen (upd ptrs i (Some p)) (p + rowlen)
      else alloc_loop cnt' (S i) tbl rowlen ptrs p
  end.

(** [min_max_precomputed_row_alloc]; the arrays of pointers come zeroed
    from [g_new0]. *)
Definition min_max_precomputed_row_alloc (req : MinMaxPrecomputedReq)
    (rowlen : nat) : RowLayout :=
  let '(each, p) :=
    alloc_loop (maxlen_each req) 1 (req_each req) rowlen (fun _ => None) 0 in
  let '(even, p) :=
    alloc_loop (maxlen_even req - 1) 2 (req_even req) rowlen
      (fun _ => None) p in
  mkLayout (rowlen * nbuffers req) each even.

(** ** The Kuwahara filter *)

(** What the filter uses of the arithmetic of its samples, [gdouble] in
    the source: the constants [0.0] and [9.0], the four operations, each
    with the rounding it has, and the comparison [<=]. *)
Record SampleOps (A : Type) : Type := mkOps {
  op_zero : A;
  op_nine : A;
  op_add : A -> A -> A;
  op_sub : A -> A -> A;
  op_mul : A -> A -> A;
  op_div : A -> A -> A;
  op_le : A -> A -> bool
}.

Arguments mkOps {A} _ _ _ _ _ _ _.
Arguments op_zero {A} _.
Arguments op_nine {A} _.
Arguments op_add {A} _ _ _.
Arguments op_sub {A} _ _ _.
Arguments op_mul {A} _ _ _.
Arguments op_div {A} _ _ _.
Arguments op_le {A} _ _ _.

(** The exact arithmetic of the rationals. *)
Definition exact_ops : SampleOps Q :=
  mkOps 0%Q (9 # 1)%Q Qplus Qminus Qmult Qdiv Qle_bool.

(** The four quadrants of the 5 x 5 block: [r1], [r2], [r3], [r4]. *)
Definition kuwahara_r1 : list nat := [0; 1; 2; 5; 6; 7; 10; 11; 12].
Definition kuwahara_r2 : list nat := [2; 3; 4; 7; 8; 9; 12; 13; 14].
Definition kuwahara_r3 : list nat := [12; 13; 14; 17; 18; 19; 22; 23; 24].
Definition kuwahara_r4 : list nat := [10; 11; 12; 15; 16; 17; 20; 21; 22].

Section KuwaharaModel.

Variable A : Type.
Variable ops : SampleOps A.

(** [mean += a[r[i]]/9.0] and [var += a[r[i]]*a[r[i]]/9.0] over
    [i = 0 .. 8]; the eight sums of the loop do not depend on each other. *)
Definition kuwahara_mean (a : buf A) (r : list nat) : A :=
  fold_left (fun mean k => op_add ops mean (op_div ops (a k) (op_nine ops)))
    r (op_zero ops).
Definition kuwahara_msq (a : buf A) (r : list nat) : A :=
  fold_left
    (fun var k =>
       op_add ops var (op_div ops (op_mul ops (a k) (a k)) (op_nine ops)))
    r (op_zero ops).

(** [var -= mean * mean] *)
Definition kuwahara_var (a : buf A) (r : list nat) : A :=
  op_sub ops (kuwahara_msq a r)
    (op_mul ops (kuwahara_mean a r) (kuwahara_mean a r)).

(** [kuwahara_block] *)
Definition kuwahara_block (a : buf A) : A :=
  let mean1 := kuwahara_mean a kuwahara_r1 in
  let mean2 := kuwahara_mean a kuwahara_r2 in
  let mean3 := kuwahara_mean a kuwahara_r3 in
  let mean4 := kuwahara_mean a kuwahara_r4 in
  let var1 := kuwahara_var a kuwahara_r1 in
  let var2 := kuwahara_var a kuwahara_r2 in
  let var3 := kuwahara_var a kuwahara_r3 in
  let var4 := kuwahara_var a kuwahara_r4 in
  if op_le ops var1 var2 && op_le ops var1 var3 && op_le ops var1 var4
  then mean1
  else if op_le ops var2 var3 && op_le ops var2 var4 && op_le ops var2 var1
  then mean2
  else if op_le ops var3 var4 && op_le ops var3 var1 && op_le ops var3 var2
  then mean3
  else if op_le ops var4 var1 && op_le ops var4 var2 && op_le ops var4 var3
  then mean4
  else op_zero ops.

(** [CLAMP(x, low, high)] of GLib, on [gint]s. *)
Definition CLAMP (x low high : Z) : Z :=
  if (x >? high)%Z then high else if (x <? low)%Z then low else x.

(** [gwy_data_field_get_val_closest(d, col, row)] *)
Definition gwy_data_field_get_val_closest (d : GwyDataField A) (col row : Z)
    : A :=
  data d (Z.to_nat (CLAMP row 0 (Z.of_nat (yres d) - 1) * Z.of_nat (xres d)
                    + CLAMP col 0 (Z.of_nat (xres d) - 1))).

(** The loops over [y] and [x] from -2 to 2 that fill [kernel[ctr++]]
    for the pixel in the column [c] and the row [r]. *)
Definition kuwahara_gather (data_field : GwyDataField A) (c r : Z)
    (kernel : buf A) : buf A :=
  fst (fold_left
         (fun st y =>
            fold_left
              (fun st x =>
                 let '(kernel, ctr) := st in
                 (upd kernel ctr
                      (gwy_data_field_get_val_closest data_field
                         (c + x) (r + y)),
                  S ctr))
              [-2; -1; 0; 1; 2]%Z st)
         [-2; -1; 0; 1; 2]%Z (kernel, 0)).

(** [for (j = 0; j < width; j++)] of the first pair of loops: [cnt]
    columns from [j] on remain; [kernel] is rewritten for every pixel. *)
Fixpoint kuwahara_row (cnt j : nat) (data_field : GwyDataField A)
    (col row width i : nat) (buffer kernel : buf A) {struct cnt}
    : buf A * buf A :=
  match cnt with
  | 0 => (buffer, kernel)
  | S cnt' =>
      let kernel :=
        kuwahara_gather data_field (Z.of_nat col + Z.of_nat j)
          (Z.of_nat row + Z.of_nat i) kernel in
      kuwahara_row cnt' (S j) data_field col row width i
        (upd buffer (i * width + j) (kuwahara_block kernel)) kernel
  end.

Fixpoint kuwahara_rows (cnt i : nat) (data_field : GwyDataField A)
    (col row width : nat) (buffer kernel : buf A) {struct cnt}
    : buf A * buf A :=
  match cnt with
  | 0 => (buffer, kernel)
  | S cnt' =>
      let '(buffer, kernel) :=
        kuwahara_row width 0 data_field col row width i buffer kernel in
      kuwahara_rows cnt' (S i) data_field col row width buffer kernel
  end.

(** The loops that write the buffer back:
    [data[col + j + xres*(row + i)] = buffer[i*width + j]]. *)
Fixpoint kuwahara_put_row (cnt j : nat) (d : buf A) (xr col row width i : nat)
    (buffer : buf A) {struct cnt} : buf A :=
  match cnt with
  | 0 => d
  | S cnt' =>
      kuwahara_put_row cnt' (S j)
        (upd d (col + j + xr * (row + i)) (buffer (i * width + j)))
        xr col row width i buffer
  end.

Fixpoint kuwahara_put_rows (cnt i : nat) (d : buf A) (xr col row width : nat)
    (buffer : buf A) {struct cnt} : buf A :=
  match cnt with
  | 0 => d
  | S cnt' =>
      kuwahara_put_rows cnt' (S i)
        (kuwahara_put_row width 0 d xr col row width i buffer)
        xr col row width buffer
  end.

(** [gwy_data_field_area_filter_kuwahara]; [junk_buffer] and
    [junk_kernel] are what [g_new] leaves in the two arrays.  The
    arguments of the area are those of a call with non-negative [gint]s
    whose sums [col + width] and [row + height] do not overflow. *)
Definition gwy_data_field_area_filter_kuwahara (data_field : GwyDataField A)
    (junk_buffer junk_kernel : buf A) (col row width height : nat)
    : GwyDataField A :=
  if negb ((0 <? width) && (0 <? height)
           && (col + width <=? xres data_field)
           && (row + height <=? yres data_field))
  then data_field                                     (* g_return_if_fail *)
  else
    let '(buffer, kernel) :=
      kuwahara_rows height 0 data_field col row width
        junk_buffer junk_kernel in
    with_data A data_field
      (kuwahara_put_rows height 0 (data data_field) (xres data_field)
         col row width buffer).

(** [gwy_data_field_filter_kuwahara] *)
Definition gwy_data_field_filter_kuwahara (data_field : GwyDataField A)
    (junk_buffer junk_kernel : buf A) : GwyDataField A :=
  gwy_data_field_area_filter_kuwahara data_field junk_buffer junk_kernel
    0 0 (xres data_field) (yres data_field).

End KuwaharaModel.

Arguments kuwahara_mean {A} ops a r.
Arguments kuwahara_msq {A} ops a r.
Arguments kuwahara_var {A} ops a r.
Arguments kuwahara_block {A} ops a.
Arguments gwy_data_field_get_val_closest {A} d col row.
Arguments kuwahara_gather {A} data_field c r kernel.
Arguments kuwahara_row {A} ops cnt j data_field col row width i buffer kernel.
Arguments kuwahara_rows {A} ops cnt i data_field col row width buffer kernel.
Arguments kuwahara_put_row {A} cnt j d xr col row width i buffer.
Arguments kuwahara_put_rows {A} cnt i d xr col row width buffer.
Arguments gwy_data_field_area_filter_kuwahara {A} ops data_field
  junk_buffer junk_kernel col row width height.
Arguments gwy_data_field_filter_kuwahara {A} ops data_field
  junk_buffer junk_kernel.

(** ** Sums and averages over rectangles *)

Section GatherModel.

Local Open Scope Z_scope.

(** Checked accesses to an array of [n] cells; [None] stands for an access
    outside the array. *)
Definition rd (n : nat) (d : buf Q) (k : Z) : option Q :=
  if (0 <=? k) && (k <? Z.of_nat n) then Some (d (Z.to_nat k)) else None.
Definition wr (n : nat) (d : buf Q) (k : Z) (v : Q) : option (buf Q) :=
  if (0 <=? k) && (k <? Z.of_nat n) then Some (upd d (Z.to_nat k) v)
  else None.

(** [for (j = j0; ...; j++) body] and [for (j = j0; ...; j--) body] with
    [cnt] turns. *)
Fixpoint for_up {St : Type} (cnt : nat) (j : Z) (body : Z -> St -> option St)
    (s : St) {struct cnt} : option St :=
  match cnt with
  | O => Some s
  | S cnt' => s <- body j s ;; for_up cnt' (j + 1) body s
  end.
Fixpoint for_down {St : Type} (cnt : nat) (j : Z)
    (body : Z -> St -> option St) (s : St) {struct cnt} : option St :=
  match cnt with
  | O => Some s
  | S cnt' => s <- body j s ;; for_down cnt' (j - 1) body s
  end.

(** The number of turns of [for (j = a; j <= b; j++)] and of
    [for (j = b; j >= a; j--)]. *)
Definition turns (a b : Z) : nat := Z.to_nat (b - a + 1).

(** [MIN(a, b)] of GLib on [gint]s. *)
Definition ZMIN (a b : Z) : Z := if a <? b then a else b.

(** The rounding of the arithmetic of the samples: a sum, a difference or
    a quotient of two samples is its exact value rounded. *)
Variable rnd : Q -> Q.

(** The body of the loop over the rows [i] that computes the row-wise
    sums: [d] is the data of the data field, an array of [nd] cells, and
    [b] the data of the buffer, an array of [nb] cells. *)
Definition gather_row_sums (nd nb : nat) (d : buf Q)
    (xr col row width hs2m hs2p : Z) (i : Z) (b : buf Q) : option (buf Q) :=
  let srow := (i + row) * xr + col in
  let drow := i * width in
  (* Left half *)
  b <- wr nb b drow 0%Q ;;
  let m := ZMIN hs2p (width - 1) in
  b <- for_up (turns 0 m) 0
         (fun j b =>
            x <- rd nb b drow ;;
            s <- rd nd d (srow + j) ;;
            wr nb b drow (Rounded.add rnd x s)) b ;;
  b <- for_up (turns 1 (Z.quot width 2 - 1)) 1
         (fun j b =>
            p <- (if j + hs2p <? width then rd nd d (srow + (j + hs2p))
                  else Some 0%Q) ;;
            q <- (if j - 1 - hs2m >=? 0 then rd nd d (srow + (j - 1 - hs2m))
                  else Some 0%Q) ;;
            x <- rd nb b (drow + (j - 1)) ;;
            wr nb b (drow + j) (Rounded.add rnd x (Rounded.sub rnd p q))) b ;;
  (* Right half *)
  b <- wr nb b (drow + (width - 1)) 0%Q ;;
  let m := width - 1 - ZMIN hs2m (width - 1) in
  b <- for_down (turns m (width - 1)) (width - 1)
         (fun j b =>
            x <- rd nb b (drow + (width - 1)) ;;
            s <- rd nd d (srow + j) ;;
            wr nb b (drow + (width - 1)) (Rounded.add rnd x s)) b ;;
  for_down (turns (Z.quot width 2) (width - 2)) (width - 2)
    (fun j b =>
       p <- (if j - hs2m >=? 0 then rd nd d (srow + (j - hs2m))
             else Some 0%Q) ;;
       q <- (if j + 1 + hs2p <? width then rd nd d (srow + (j + 1 + hs2p))
             else Some 0%Q) ;;
       x <- rd nb b (drow + (j + 1)) ;;
       wr nb b (drow + j) (Rounded.add rnd x (Rounded.sub rnd p q))) b.

(** [for (j = 0; j < width; j++) drow[j] = f(j, drow)]: a loop over the
    cells of the row of the result that begins at [drow]. *)
Definition gather_set_row (nr : nat) (width drow : Z)
    (f : Z -> buf Q -> option Q) (r : buf Q) : option (buf Q) :=
  for_up (turns 0 (width - 1)) 0
    (fun j r => v <- f j r ;; wr nr r (drow + j) v) r.

(** The column-wise sums: [b] is the data of the buffer and [r] the data
    of the result, an array of [nr] cells. *)
Definition gather_column_sums (nb nr : nat) (b : buf Q)
    (xr col row width height vs2m vs2p : Z) (r : buf Q) : option (buf Q) :=
  (* Top half *)
  let drow := row * xr + col in
  r <- gather_set_row nr width drow (fun _ _ => Some 0%Q) r ;;
  let m := ZMIN vs2p (height - 1) in
  r <- for_up (turns 0 m) 0
         (fun i r =>
            let srow := i * width in
            gather_set_row nr width drow
              (fun j r =>
                 x <- rd nr r (drow + j) ;;
                 s <- rd nb b (srow + j) ;;
                 Some (Rounded.add rnd x s)) r) r ;;
  r <- for_up (turns 1 (Z.quot height 2 - 1)) 1
         (fun i r =>
            let drow := (i + row) * xr + col in
            if i + vs2p <? height then
              let srow := (i + vs2p) * width in
              if i - 1 - vs2m >=? 0 then
                let trow := (i - 1 - vs2m) * width in
                gather_set_row nr width drow
                  (fun j r =>
                     x <- rd nr r (drow + j - xr) ;;
                     s <- rd nb b (srow + j) ;;
                     t <- rd nb b (trow + j) ;;
                     Some (Rounded.add rnd x (Rounded.sub rnd s t))) r
              else
                gather_set_row nr width drow
                  (fun j r =>
                     x <- rd nr r (drow + j - xr) ;;
                     s <- rd nb b (srow + j) ;;
                     Some (Rounded.add rnd x s)) r
            else
              if i - 1 - vs2m >=? 0 then
                (* g_warning: pure subtraction *)
                let trow := (i - 1 - vs2m) * width in
                gather_set_row nr width drow
                  (fun j r =>
                     x <- rd nr r (drow + j - xr) ;;
                     t <- rd nb b (trow + j) ;;
                     Some (Rounded.sub rnd x t)) r
              else
                gather_set_row nr width drow
                  (fun j r => rd nr r (drow + j - xr)) r) r ;;
  (* Bottom half *)
  let drow := (height - 1 + row) * xr + col in
  r <- gather_set_row nr width drow (fun _ _ => Some 0%Q) r ;;
  let m := height - 1 - ZMIN vs2m (height - 1) in
  r <- for_down (turns m (height - 1)) (height - 1)
         (fun i r =>
            let srow := i * width in
            gather_set_row nr width drow
              (fun j r =>
                 x <- rd nr r (drow + j) ;;
                 s <- rd nb b (srow + j) ;;
                 Some (Rounded.add rnd x s)) r) r ;;
  for_down (turns (Z.quot height 2) (height - 2)) (height - 2)
    (fun i r =>
       let drow := (i + row) * xr + col in
       if i + 1 + vs2p <? height then
         let srow := (i + 1 + vs2p) * width in
         if i - vs2m >=? 0 then
           let trow := (i - vs2m) * width in
           gather_set_row nr width drow
             (fun j r =>
                x <- rd nr r (drow + j + xr) ;;
                t <- rd nb b (trow + j) ;;
                s <- rd nb b (srow + j) ;;
                Some (Rounded.add rnd x (Rounded.sub rnd t s))) r
         else
           (* g_warning: pure subtraction *)
           gather_set_row nr width drow
             (fun j r =>
                x <- rd nr r (drow + j + xr) ;;
                s <- rd nb b (srow + j) ;;
                Some (Rounded.sub rnd x s)) r
       else
         if i - vs2m >=? 0 then
           let trow := (i - vs2m) * width in
           gather_set_row nr width drow
             (fun j r =>
                x <- rd nr r (drow + j + xr) ;;
                t <- rd nb b (trow + j) ;;
                Some (Rounded.add rnd x t)) r
         else
           gather_set_row nr width drow
             (fun j r => rd nr r (drow + j + xr)) r) r.

(** The number of samples of a window along one axis, as the last part of
    the function computes it: [iw] for the row [i], [jw] for the column
    [j]. *)
Definition gather_extent (n size s2m s2p i : Z) : Z :=
  let iw := if i <=? s2m then s2p + 1 + i
            else if i >=? n - 1 - s2p then s2m + n - i
            else size in
  ZMIN iw n.

(** Divide sums by the numbers of pixels that entered them. *)
Definition gather_divide (nr : nat)
    (xr col row width height hsize vsize hs2m hs2p vs2m vs2p : Z) (r : buf Q)
    : option (buf Q) :=
  for_up (turns 0 (height - 1)) 0
    (fun i r =>
       let iw := gather_extent height vsize vs2m vs2p i in
       for_up (turns 0 (width - 1)) 0
         (fun j r =>
            let jw := gather_extent width hsize hs2m hs2p j in
            x <- rd nr r ((i + row) * xr + j + col) ;;
            wr nr r ((i + row) * xr + j + col)
              (Rounded.div rnd x (inject_Z (iw * jw))))
         r) r.

(** [gwy_data_field_area_gather]: the result and the data of the buffer
    after the call, or [None] when the call accesses an array outside its
    cells.  The sizes and the coordinates are [gint]s.  [buffer] is the
    scratch field of the caller, a field of its own, or [None] for [NULL];
    then [gwy_data_field_new(width, height, ..., FALSE)], which is defined
    outside the sources at hand, provides a field of [width * height]
    cells that hold [junk].  [result] may be the data field itself, which
    is read before the result is written. *)
Definition gwy_data_field_area_gather (data_field result : GwyDataField Q)
    (buffer : option (GwyDataField Q)) (junk : buf Q)
    (hsize vsize : Z) (average : bool) (col row width height : Z)
    : option (GwyDataField Q * buf Q) :=
  let unchanged :=
    Some (result, match buffer with Some bf => data bf | None => junk end) in
  if negb ((hsize >? 0) && (vsize >? 0)) then unchanged
  else
  let xr := Z.of_nat (xres data_field) in
  let yr := Z.of_nat (yres data_field) in
  if negb ((col >=? 0) && (row >=? 0) && (width >=? 0) && (height >=? 0)
           && (col + width <=? xr) && (row + height <=? yr)) then unchanged
  else if negb (Nat.eqb (xres result) (xres data_field)
                && Nat.eqb (yres result) (yres data_field)) then unchanged
  else if match buffer with
          | Some bf =>
              negb (Z.of_nat (xres bf) * Z.of_nat (yres bf)
                    >=? width * height)
          | None => false
          end then unchanged
  else
  let nb := match buffer with
            | Some bf => (xres bf * yres bf)%nat
            | None => Z.to_nat (width * height)
            end in
  let b := match buffer with Some bf => data bf | None => junk end in
  let nd := (xres data_field * yres data_field)%nat in
  (* Extension to the left and to the right *)
  let hs2m := Z.quot (hsize - 1) 2 in
  let hs2p := Z.quot hsize 2 in
  let vs2m := Z.quot (vsize - 1) 2 in
  let vs2p := Z.quot vsize 2 in
  (* Row-wise sums *)
  b <- for_up (turns 0 (height - 1)) 0
         (gather_row_sums nd nb (data data_field) xr col row width hs2m hs2p)
         b ;;
  (* Column-wise sums *)
  r <- gather_column_sums nb nd b xr col row width height vs2m vs2p
         (data result) ;;
  if negb average then Some (with_data Q result r, b)
  else
    r <- gather_divide nd xr col row width height hsize vsize
           hs2m hs2p vs2m vs2p r ;;
    Some (with_data Q result r, b).

(** [isum lo hi f] is the sum of [f k] over [lo <= k <= hi]. *)
Fixpoint qsum (n : nat) (lo : Z) (f : Z -> Q) : Q :=
  match n with
  | O => 0%Q
  | S n' => (f lo + qsum n' (lo + 1) f)%Q
  end.
Definition isum (lo hi : Z) (f : Z -> Q) : Q := qsum (turns lo hi) lo f.

(** The window of the size [size] around the position [i] of an axis of
    [n] positions, clipped to the axis: it is centred for an odd size and
    reaches one position further up for an even size. *)
Definition window_lo (size i : Z) : Z := Z.max 0 (i - (size - 1) / 2).
Definition window_hi (n size i : Z) : Z := Z.min (n - 1) (i + size / 2).

(** The sum of the samples of the data field in the window of
    [hsize x vsize] cells around the sample in the column [j] and the row
    [i] of the area, clipped to the area. *)
Definition gather_sum (data_field : GwyDataField Q)
    (hsize vsize col row width height i j : Z) : Q :=
  isum (window_lo vsize i) (window_hi height vsize i)
    (fun i' =>
       isum (window_lo hsize j) (window_hi width hsize j)
         (fun j' =>
            data data_field
              (Z.to_nat ((row + i') * Z.of_nat (xres data_field)
                         + (col + j'))))).

(** The number of samples in this window. *)
Definition gather_count (hsize vsize width height i j : Z) : Z :=
  (window_hi height vsize i - window_lo vsize i + 1)
  * (window_hi width hsize j - window_lo hsize j + 1).

(** [x] is a whole number of at most [B] in magnitude. *)
Definition integral (B : Z) (x : Q) : Prop :=
  exists n : Z, Qeq x (inject_Z n) /\ Z.abs n <= B.

End GatherModel.

(** ** The 3 x 3 convolution in place *)

Section ConvolveModel.

Local Open Scope Z_scope.

(** The state of the loop over the rows: the data of the field, the array
    [rm] and the pointer [rp], an offset into the data. *)
Definition Conv3State : Type := (buf Q * buf Q * Z)%type.

(** The loop over the columns [1 .. width-2] of a row that has a row below
    it: [k] is the kernel, [rc] and [rp] the offsets of the row and of the
    row below; the state is the data, [rm] and [t]. *)
Definition conv3_middle (nd nm : nat) (k : buf Q) (rc rp : Z) (j : Z)
    (st : buf Q * buf Q * Q) : option (buf Q * buf Q * Q) :=
  let '(d, rm, t) := st in
  rm_m <- rd nm rm (j - 1) ;; rm_c <- rd nm rm j ;; rm_p <- rd nm rm (j + 1) ;;
  rc_c <- rd nd d (rc + j) ;; rc_p <- rd nd d (rc + (j + 1)) ;;
  rp_m <- rd nd d (rp + (j - 1)) ;; rp_c <- rd nd d (rp + j) ;;
  rp_p <- rd nd d (rp + (j + 1)) ;;
  let v := (k 0%nat * rm_m + k 1%nat * rm_c + k 2%nat * rm_p
            + k 3%nat * t + k 4%nat * rc_c + k 5%nat * rc_p
            + k 6%nat * rp_m + k 7%nat * rp_c + k 8%nat * rp_p)%Q in
  rm <- wr nm rm (j - 1) t ;;
  t <- rd nd d (rc + j) ;;
  d <- wr nd d (rc + j) v ;;
  Some (d, rm, t).

(** The same loop of the last row, which stands for the row below it. *)
Definition conv3_middle_last (nd nm : nat) (k : buf Q) (rc : Z) (j : Z)
    (st : buf Q * buf Q * Q) : option (buf Q * buf Q * Q) :=
  let '(d, rm, t) := st in
  rm_m <- rd nm rm (j - 1) ;; rm_c <- rd nm rm j ;; rm_p <- rd nm rm (j + 1) ;;
  rc_c <- rd nd d (rc + j) ;; rc_p <- rd nd d (rc + (j + 1)) ;;
  let v := (k 0%nat * rm_m + k 1%nat * rm_c + k 2%nat * rm_p
            + k 3%nat * t + k 4%nat * rc_c + k 5%nat * rc_p
            + k 6%nat * t + k 7%nat * rc_c + k 8%nat * rc_p)%Q in
  rm <- wr nm rm (j - 1) t ;;
  t <- rd nd d (rc + j) ;;
  d <- wr nd d (rc + j) v ;;
  Some (d, rm, t).

(** The body of the loop over the rows for [width != 1]. *)
Definition conv3_row (nd nm : nat) (k : buf Q) (xr width height : Z) (i : Z)
    (st : Conv3State) : option Conv3State :=
  let '(d, rm, rp) := st in
  let rc := rp in
  let rp := if i <? height - 1 then rp + xr else rp in
  rm_0 <- rd nm rm 0 ;; rm_1 <- rd nm rm 1 ;;
  rc_0 <- rd nd d (rc + 0) ;; rc_1 <- rd nd d (rc + 1) ;;
  rp_0 <- rd nd d (rp + 0) ;; rp_1 <- rd nd d (rp + 1) ;;
  let v := ((k 0%nat + k 1%nat) * rm_0 + k 2%nat * rm_1
            + (k 3%nat + k 4%nat) * rc_0 + k 5%nat * rc_1
            + (k 6%nat + k 7%nat) * rp_0 + k 8%nat * rp_1)%Q in
  t <- rd nd d (rc + 0) ;;
  d <- wr nd d (rc + 0) v ;;
  (* the value of [j] when the loop over the columns is left *)
  let j := Z.max 1 (width - 1) in
  res <- (if i <? height - 1 then
            st <- for_up (turns 1 (width - 2)) 1
                    (conv3_middle nd nm k rc rp) (d, rm, t) ;;
            let '(d, rm, t) := st in
            rm_m <- rd nm rm (j - 1) ;; rm_c <- rd nm rm j ;;
            rc_c <- rd nd d (rc + j) ;;
            rp_m <- rd nd d (rp + (j - 1)) ;; rp_c <- rd nd d (rp + j) ;;
            Some (d, rm, t,
                  (k 0%nat * rm_m + (k 1%nat + k 2%nat) * rm_c
                   + k 3%nat * t + (k 4%nat + k 5%nat) * rc_c
                   + k 6%nat * rp_m + (k 7%nat + k 8%nat) * rp_c)%Q)
          else
            st <- for_up (turns 1 (width - 2)) 1
                    (conv3_middle_last nd nm k rc) (d, rm, t) ;;
            let '(d, rm, t) := st in
            rm_m <- rd nm rm (j - 1) ;; rm_c <- rd nm rm j ;;
            rc_c <- rd nd d (rc + j) ;;
            Some (d, rm, t,
                  (k 0%nat * rm_m + (k 1%nat + k 2%nat) * rm_c
                   + k 3%nat * t + (k 4%nat + k 5%nat) * rc_c
                   + k 6%nat * t + (k 7%nat + k 8%nat) * rc_c)%Q)) ;;
  let '(d, rm, t, v) := res in
  rm <- wr nm rm (j - 1) t ;;
  rc_j <- rd nd d (rc + j) ;;
  rm <- wr nm rm j rc_j ;;
  d <- wr nd d (rc + j) v ;;
  Some (d, rm, rp).

(** The body of the loop over the rows for [width == 1]; the state is the
    data and [t]. *)
Definition conv3_single (nd : nat) (k : buf Q) (xr col row height : Z)
    (i : Z) (st : buf Q * Q) : option (buf Q * Q) :=
  let '(d, t) := st in
  let rc := (row + i) * xr + col in
  let rp := if i <? height - 1 then rc + xr else rc in
  rc_0 <- rd nd d (rc + 0) ;; rp_0 <- rd nd d (rp + 0) ;;
  let v := ((k 0%nat + k 1%nat + k 2%nat) * t
            + (k 3%nat + k 4%nat + k 5%nat) * rc_0
            + (k 6%nat + k 7%nat + k 8%nat) * rp_0)%Q in
  t <- rd nd d (rc + 0) ;;
  d <- wr nd d (rc + 0) v ;;
  Some (d, t).

(** [gwy_data_field_area_convolve_3x3]: the field after the call, or
    [None] when the call accesses an array outside its cells.  [kernel]
    are the nine cells of the kernel and [junk] is what [g_new] leaves in
    the [width] cells of [rm]. *)
Definition gwy_data_field_area_convolve_3x3 (data_field : GwyDataField Q)
    (kernel : buf Q) (junk : buf Q) (col row width height : Z)
    : option (GwyDataField Q) :=
  let xr := Z.of_nat (xres data_field) in
  let nd := (xres data_field * yres data_field)%nat in
  let rp := row * xr + col in
  if width =? 1 then
    t <- rd nd (data data_field) (rp + 0) ;;
    st <- for_up (turns 0 (height - 1)) 0
            (conv3_single nd kernel xr col row height)
            (data data_field, t) ;;
    Some (with_data Q data_field (fst st))
  else
    let nm := Z.to_nat width in
    (* memcpy(rm, rp, width*sizeof(gdouble)) *)
    rm <- for_up (turns 0 (width - 1)) 0
            (fun j rm => x <- rd nd (data data_field) (rp + j) ;;
                         wr nm rm j x) junk ;;
    st <- for_up (turns 0 (height - 1)) 0
            (conv3_row nd nm kernel xr width height)
            (data data_field, rm, rp) ;;
    Some (with_data Q data_field (fst (fst st))).

(** The sum of the nine products for the sample in the column [j] of the
    row [i], with the rows [im] and [ip] for the rows above and below it:
    [o] are the samples of an area of [w] columns, a neighbour on the left
    or on the right of the area is replaced by the nearest sample of the
    area, and [k[0]] meets the neighbour above on the left. *)
Definition conv3_rows (o : Z -> Z -> Q) (k : buf Q) (w im i ip j : Z) : Q :=
  let jm := Z.max 0 (j - 1) in
  let jp := Z.min (w - 1) (j + 1) in
  (k 0%nat * o im jm + k 1%nat * o im j + k 2%nat * o im jp
   + k 3%nat * o i jm + k 4%nat * o i j + k 5%nat * o i jp
   + k 6%nat * o ip jm + k 7%nat * o ip j + k 8%nat * o ip jp)%Q.

(** The same for an area of [h] rows, a neighbour above or below the area
    being replaced by the nearest sample of the area too. *)
Definition conv3_at (o : Z -> Z -> Q) (k : buf Q) (h w i j : Z) : Q :=
  conv3_rows o k w (Z.max 0 (i - 1)) i (Z.min (h - 1) (i + 1)) j.

(** The sample in the row [i] and the column [j] of the area of a field
    that begins at the column [col] and the row [row]. *)
Definition area_sample (d : GwyDataField Q) (col row i j : Z) : Q :=
  data d (Z.to_nat ((i + row) * Z.of_nat (xres d) + col + j)).

End ConvolveModel.

(** ** The row-wise convolution with a kernel line *)

Section HConvolveModel.

Local Open Scope Z_scope.

(** [k < width ? k : mres-1 - k] *)
Definition hconv_index (width mres k : Z) : Z :=
  if k <? width then k else mres - 1 - k.

(** [buf[k] += kernel[n]*d], with [nk] cells in [buf] and in [kernel]. *)
Definition hconv_add (nk : nat) (kernel : buf Q) (k n : Z) (x : Q)
    (b : buf Q) : option (buf Q) :=
  y <- rd nk b k ;; c <- rd nk kernel n ;; wr nk b k (y + c * x)%Q.

(** The body of the loop over the rows of [gwy_data_field_area_hconvolve]
    for the row that begins at the offset [drow] of the data: the state is
    the data of the field and [buf].  The operands of [%] are not negative
    here; a division by [mres = 0] is an error. *)
Definition hconv_row (nd nk : nat) (kernel : buf Q) (kres width mres k0 : Z)
    (drow : Z) (st : buf Q * buf Q) : option (buf Q * buf Q) :=
  let '(d, b) := st in
  if mres =? 0 then None else
  (* Initialize with a triangular sums, mirror-extend *)
  b <- for_up (turns 0 (kres - 1)) 0 (fun k b => wr nk b k 0%Q) b ;;
  b <- for_up (turns 0 (kres - 1)) 0
         (fun j b =>
            let k := Z.rem (j - Z.quot kres 2 + k0) mres in
            x <- rd nd d (drow + hconv_index width mres k) ;;
            for_up (turns 0 j) 0
              (fun k b => hconv_add nk kernel k (j - k) x b) b) b ;;
  let pos := 0 in
  (* Middle part and tail with mirror extension again *)
  st <- for_up (turns 0 (width - 1)) 0
          (fun j (st : buf Q * buf Q * Z) =>
             let '(d, b, pos) := st in
             y <- rd nk b pos ;;
             d <- wr nd d (drow + j) y ;;
             b <- wr nk b pos 0%Q ;;
             let pos := Z.rem (pos + 1) kres in
             let k := Z.rem (j + kres - Z.quot kres 2 + k0) mres in
             x <- rd nd d (drow + hconv_index width mres k) ;;
             b <- for_up (turns pos (kres - 1)) pos
                    (fun k b =>
                       hconv_add nk kernel k (kres - 1 - (k - pos)) x b) b ;;
             b <- for_up (turns 0 (pos - 1)) 0
                    (fun k b => hconv_add nk kernel k (pos - 1 - k) x b) b ;;
             Some (d, b, pos)) (d, b, pos) ;;
  Some (fst (fst st), snd (fst st)).

(** [gwy_data_field_area_hconvolve]: the field after the call, or [None]
    when the call accesses an array outside its cells or divides by zero.
    [kernel] are the [kres] cells of the kernel line and [junk] is what
    [g_new] leaves in the [kres] cells of [buf]. *)
Definition gwy_data_field_area_hconvolve (data_field : GwyDataField Q)
    (kres : Z) (kernel junk : buf Q) (col row width height : Z)
    : option (GwyDataField Q) :=
  let nd := (xres data_field * yres data_field)%nat in
  let nk := Z.to_nat kres in
  let mres := 2 * width in
  let k0 := (Z.quot kres 2 + 1) * mres in
  st <- for_up (turns 0 (height - 1)) 0
          (fun i st =>
             let drow := (row + i) * Z.of_nat (xres data_field) + col in
             hconv_row nd nk kernel kres width mres k0 drow st)
          (data data_field, junk) ;;
  Some (with_data Q data_field (fst st)).

(** The position in a row of [width] samples that stands for the
    position [s], which may lie on the left or on the right of the row:
    the row is reflected about its ends. *)
Definition hconv_mirror (kres width s : Z) : Z :=
  hconv_index width (2 * width)
    ((s + (kres / 2 + 1) * (2 * width)) mod (2 * width)).

(** The sum of the products of the kernel cells with the samples [o] of
    a row around the position [j], [kernel[0]] with the sample [kres/2]
    positions on the left. *)
Definition hconv_at (o : Z -> Q) (kernel : buf Q) (kres width j : Z) : Q :=
  isum 0 (kres - 1)
    (fun m => (kernel (Z.to_nat m)
               * o (hconv_mirror kres width (j + m - kres / 2)))%Q).

(** The field of one row with the samples 0 and 1, and a kernel line of
    five cells of which the last is 1. *)
Definition step_row : GwyDataField Q := QSample.raster 2 1 [0; 1]%Z.
Definition last_tap (n : nat) : Q := if Nat.eqb n 4 then 1%Q else 0%Q.

End HConvolveModel.

(** ** The column-wise convolution with a kernel line *)

Section VConvolveModel.

Local Open Scope Z_scope.

(** [k < height ? k*xres : (mres-1 - k)*xres] *)
Definition vconv_index (height mres xr k : Z) : Z :=
  if k <? height then k * xr else (mres - 1 - k) * xr.

(** The body of the loop over the columns of
    [gwy_data_field_area_vconvolve] for the column that begins at the
    offset [dcol] of the data. *)
Definition vconv_col (nd nk : nat) (kernel : buf Q)
    (kres height xr mres k0 : Z) (dcol : Z) (st : buf Q * buf Q)
    : option (buf Q * buf Q) :=
  let '(d, b) := st in
  if mres =? 0 then None else
  (* Initialize with a triangular sums, mirror-extend *)
  b <- for_up (turns 0 (kres - 1)) 0 (fun k b => wr nk b k 0%Q) b ;;
  b <- for_up (turns 0 (kres - 1)) 0
         (fun i b =>
            let k := Z.rem (i - Z.quot kres 2 + k0) mres in
            x <- rd nd d (dcol + vconv_index height mres xr k) ;;
            for_up (turns 0 i) 0
              (fun k b => hconv_add nk kernel k (i - k) x b) b) b ;;
  let pos := 0 in
  (* Middle part and tail with mirror extension again *)
  st <- for_up (turns 0 (height - 1)) 0
          (fun i (st : buf Q * buf Q * Z) =>
             let '(d, b, pos) := st in
             y <- rd nk b pos ;;
             d <- wr nd d (dcol + i * xr) y ;;
             b <- wr nk b pos 0%Q ;;
             let pos := Z.rem (pos + 1) kres in
             let k := Z.rem (i + kres - Z.quot kres 2 + k0) mres in
             x <- rd nd d (dcol + vconv_index height mres xr k) ;;
             b <- for_up (turns pos (kres - 1)) pos
                    (fun k b =>
                       hconv_add nk kernel k (kres - 1 - (k - pos)) x b) b ;;
             b <- for_up (turns 0 (pos - 1)) 0
                    (fun k b => hconv_add nk kernel k (pos - 1 - k) x b) b ;;
             Some (d, b, pos)) (d, b, pos) ;;
  Some (fst (fst st), snd (fst st)).

(** [gwy_data_field_area_vconvolve] *)
Definition gwy_data_field_area_vconvolve (data_field : GwyDataField Q)
    (kres : Z) (kernel junk : buf Q) (col row width height : Z)
    : option (GwyDataField Q) :=
  let nd := (xres data_field * yres data_field)%nat in
  let nk := Z.to_nat kres in
  let xr := Z.of_nat (xres data_field) in
  let mres := 2 * height in
  let k0 := (Z.quot kres 2 + 1) * mres in
  st <- for_up (turns 0 (width - 1)) 0
          (fun j st =>
             let dcol := row * xr + (col + j) in
             vconv_col nd nk kernel kres height xr mres k0 dcol st)
          (data data_field, junk) ;;
  Some (with_data Q data_field (fst st)).

(** The field of one column with the samples 0 and 1. *)
Definition step_column : GwyDataField Q := QSample.raster 1 2 [0; 1]%Z.

End VConvolveModel.
Lemma upd_same {A : Type} (f : nat -> A) i v : upd f i v i = v.
Proof. unfold upd. now rewrite Nat.eqb_refl. Qed.

Lemma upd_other {A : Type} (f : nat -> A) i v k : k <> i -> upd f i v k = f k.
Proof. intros H. unfold upd. apply Nat.eqb_neq in H. now rewrite H. Qed.

Lemma req_le_refl req : req_le req req.
Proof. unfold req_le; intuition. Qed.

Lemma req_le_needed_each req req' (Hle : req_le req req') L :
  needed (req_each req L) = true ->
  needed (req_each req' L) = true.
Proof. destruct Hle as (H & _). intros HL. now rewrite (H L HL). Qed.

Lemma req_le_needed_even req req' (Hle : req_le req req') L :
  needed (req_even req L) = true ->
  needed (req_even req' L) = true.
Proof. destruct Hle as (_ & H & _). intros HL. now rewrite (H L HL). Qed.

Lemma req_le_trans r0 r1 r2 : req_le r0 r1 -> req_le r1 r2 -> req_le r0 r2.
Proof.
  intros H01 H12.
  pose proof (req_le_needed_each _ _ H01) as N1.
  pose proof (req_le_needed_even _ _ H01) as N2.
  destruct H01 as (A1 & B1 & C1 & D1 & E1), H12 as (A2 & B2 & C2 & D2 & E2).
  repeat split; try congruence.
  - intros L HL. rewrite A2, A1; auto.
  - intros L HL. rewrite B2, B1; auto.
Qed.

Lemma each_entry_ok_mono req req' L :
  req_le req req' -> needed (req_each req L) = true ->
  each_entry_ok req L -> each_entry_ok req' L.
Proof.
  intros Hle HL (H1 & H2).
  pose proof (req_le_needed_each _ _ Hle) as N1.
  pose proof (req_le_needed_even _ _ Hle) as N2.
  destruct Hle as (A & _).
  unfold each_entry_ok. rewrite (A L HL). split; [assumption|].
  intros H. specialize (H2 H). destruct H2 as (? & ? & ? & ? & ? & H2).
  repeat split; auto.
  destruct (even_odd (req_each req L)); intuition.
Qed.

Lemma even_entry_ok_mono req req' L :
  req_le req req' -> needed (req_even req L) = true ->
  even_entry_ok req L -> even_entry_ok req' L.
Proof.
  intros Hle HL (H1 & H2 & H3 & H4 & H5 & H6).
  pose proof (req_le_needed_each _ _ Hle) as N1.
  pose proof (req_le_needed_even _ _ Hle) as N2.
  destruct Hle as (_ & B & _).
  unfold even_entry_ok. rewrite (B L HL).
  repeat split; auto; intros; intuition.
Qed.

Lemma req_wf_step b req req' :
  req_wf req -> req_le req req' -> new_ok b req req' -> req_wf req'.
Proof.
  intros (W1 & W2) Hle (N1 & N2). split; intros L HL.
  - destruct (needed (req_each req L)) eqn:E.
    + apply each_entry_ok_mono with req; auto.
    + apply N1; auto.
  - destruct (needed (req_even req L)) eqn:E.
    + apply even_entry_ok_mono with req; auto.
    + apply N2; auto.
Qed.

Lemma new_ok_trans b1 b2 b r0 r1 r2 :
  req_le r0 r1 -> req_le r1 r2 -> new_ok b1 r0 r1 -> new_ok b2 r1 r2 ->
  b1 <= b -> b2 <= b -> new_ok b r0 r2.
Proof.
  intros L01 L12 (A1 & B1) (A2 & B2) Hb1 Hb2. split; intros L HL HN.
  - destruct (needed (req_each r1 L)) eqn:E.
    + destruct (A1 L E HN). split; [lia|].
      apply each_entry_ok_mono with r1; auto.
    + destruct (A2 L HL E). split; [lia|assumption].
  - destruct (needed (req_even r1 L)) eqn:E.
    + destruct (B1 L E HN). split; [lia|].
      apply even_entry_ok_mono with r1; auto.
    + destruct (B2 L HL E). split; [lia|assumption].
Qed.

Lemma new_ok_weaken b b' r0 r1 : new_ok b r0 r1 -> b <= b' -> new_ok b' r0 r1.
Proof.
  intros (A & B) Hb. split; intros L H1 H2.
  - destruct (A L H1 H2); split; [lia|assumption].
  - destruct (B L H1 H2); split; [lia|assumption].
Qed.

(** Marking an entry of the even-table, running the calls that make its
    parts needed, and finding the entry well formed at the end. *)
Lemma mark_even_then b b' r0 p r2 :
  needed (req_even r0 b) = false -> needed p = true ->
  req_le (set_req_even r0 b p) r2 -> new_ok b' (set_req_even r0 b p) r2 ->
  b' <= b -> even_entry_ok r2 b ->
  req_le r0 r2 /\ new_ok b r0 r2.
Proof.
  intros Hb Hp Hle (A & B) Hb' Hok.
  destruct Hle as (L1 & L2 & L3 & L4 & L5). simpl in *.
  split.
  - repeat split; auto.
    intros L HL. rewrite L2.
    + apply upd_other. intros ->. congruence.
    + rewrite upd_other; auto. intros ->. congruence.
  - split; intros L HL HN.
    + destruct (A L HL HN). split; [lia|assumption].
    + destruct (Nat.eq_dec L b) as [->|Hne]; [split; [lia|assumption]|].
      destruct (B L HL) as [? ?]; [rewrite upd_other; auto|].
      split; [lia|assumption].
Qed.

Lemma mark_each_then b b' r0 p r2 :
  needed (req_each r0 b) = false -> needed p = true ->
  req_le (set_req_each r0 b p) r2 -> new_ok b' (set_req_each r0 b p) r2 ->
  b' <= b -> each_entry_ok r2 b ->
  req_le r0 r2 /\ new_ok b r0 r2.
Proof.
  intros Hb Hp Hle (A & B) Hb' Hok.
  destruct Hle as (L1 & L2 & L3 & L4 & L5). simpl in *.
  split.
  - repeat split; auto.
    intros L HL. rewrite L1.
    + apply upd_other. intros ->. congruence.
    + rewrite upd_other; auto. intros ->. congruence.
  - split; intros L HL HN.
    + destruct (Nat.eq_dec L b) as [->|Hne]; [split; [lia|assumption]|].
      destruct (A L HL) as [? ?]; [rewrite upd_other; auto|].
      split; [lia|assumption].
    + destruct (B L HL HN). split; [lia|assumption].
Qed.

Lemma new_ok_refl b req : new_ok b req req.
Proof. split; intros; congruence. Qed.
Lemma fill_req_subs_some p s1 s2 eo ee q :
  fill_req_subs p s1 s2 eo ee = Some q ->
  q = mkLen s1 s2 (needed p) ee eo /\
  (eo = true -> s1 mod 2 = 0 /\ ee = false) /\
  (ee = true -> s1 mod 2 = 0 /\ s2 mod 2 = 0).
Proof.
  unfold fill_req_subs, is_even_nat.
  destruct eo, ee; simpl;
    repeat match goal with
           | |- context [Nat.eqb ?a ?b] => destruct (Nat.eqb_spec a b); simpl
           end; intros H; inversion H; intuition; discriminate.
Qed.

Lemma split_loop_even_spec req b : forall cnt i j,
  i + j = b -> 1 <= i -> i + cnt <= (b + 1) / 2 ->
  match split_loop_even req cnt i j with
  | SplitEachEach i' j' =>
      i' + j' = b /\ 1 <= i' /\ 1 <= j' /\
      needed (req_each req i') = true /\ needed (req_each req j') = true
  | SplitNone _ => True
  | _ => False
  end.
Proof.
  induction cnt as [|cnt IH]; intros i j Hij Hi Hc; simpl; [exact I|].
  destruct (needed (req_each req i) && needed (req_each req j)) eqn:E.
  - apply andb_true_iff in E. intuition lia.
  - apply IH; lia.
Qed.

Lemma split_loop_odd_spec req b : forall cnt i j any,
  i + j = b -> 1 <= i -> i + cnt <= (b + 1) / 2 ->
  (any = 0 \/ (1 <= any < i /\ needed (req_each req any) = true)) ->
  match split_loop_odd req cnt i j any with
  | SplitEachEach i' j' =>
      i' + j' = b /\ 1 <= i' /\ 1 <= j' /\
      needed (req_each req i') = true /\ needed (req_each req j') = true
  | SplitEvenEach i' j' =>
      i' + j' = b /\ 1 <= i' /\ 1 <= j' /\
      needed (req_even req i') = true /\ needed (req_each req j') = true
  | SplitEachEven i' j' =>
      i' + j' = b /\ 1 <= i' /\ 1 <= j' /\
      needed (req_each req i') = true /\ needed (req_even req j') = true
  | SplitNone any' =>
      any' = 0 \/
      (1 <= any' /\ any' < (b + 1) / 2 /\ needed (req_each req any') = true)
  end.
Proof.
  induction cnt as [|cnt IH]; intros i j any Hij Hi Hc Hany; simpl.
  - destruct Hany as [->|((? & ?) & ?)]; [now left|right; split; [lia|split; [lia|assumption]]].
  - repeat match goal with
           | |- context [if ?x && ?y then _ else _] =>
               let E := fresh "E" in destruct (x && y) eqn:E;
               [apply andb_true_iff in E; intuition lia|]
           end.
    apply IH; try lia.
    destruct (needed (req_each req i)) eqn:Ei.
    + right. split; [lia|assumption].
    + destruct Hany as [->|((? & ?) & ?)]; [now left|right; split; [lia|assumption]].
Qed.


Lemma each_set_each req b p L :
  req_each (set_req_each req b p) L = if Nat.eqb L b then p else req_each req L.
Proof. reflexivity. Qed.

Lemma even_set_even req b p L :
  req_even (set_req_even req b p) L = if Nat.eqb L b then p else req_even req L.
Proof. reflexivity. Qed.

Lemma each_set_each_ne req b p L :
  L <> b -> req_each (set_req_each req b p) L = req_each req L.
Proof. intros. simpl. now apply upd_other. Qed.

Lemma even_set_even_ne req b p L :
  L <> b -> req_even (set_req_even req b p) L = req_even req L.
Proof. intros. simpl. now apply upd_other. Qed.

Lemma entry_after_even r0 b p r2 :
  needed p = true -> req_le (set_req_even r0 b p) r2 -> req_even r2 b = p.
Proof.
  intros Hp (_ & B & _). rewrite B; simpl; rewrite upd_same; auto.
Qed.

Lemma entry_after_each r0 b p r2 :
  needed p = true -> req_le (set_req_each r0 b p) r2 -> req_each r2 b = p.
Proof.
  intros Hp (A & _). rewrite A; simpl; rewrite upd_same; auto.
Qed.

Ltac fill_some H p E :=
  match type of H with
  | match fill_req_subs ?q ?s1 ?s2 ?eo ?ee with Some _ => _ | None => _ end
    = Some _ =>
      destruct (fill_req_subs q s1 s2 eo ee) as [p|] eqn:E;
      [apply fill_req_subs_some in E; cbn [needed] in E;
       destruct E as (E & ? & ?)
      |discriminate H]
  end.

Ltac recur_some H r E :=
  match type of H with
  | match ?c with Some _ => _ | None => _ end = Some _ =>
      destruct c as [r|] eqn:E; [|discriminate H]
  end.

Lemma each_found req b q i j (eo : bool) :
  needed (req_each req b) = false -> 2 <= b ->
  i + j = b -> 1 <= i -> 1 <= j ->
  needed (req_each (set_req_each req b q) j) = true ->
  (if eo then i mod 2 = 0 /\ j mod 2 = 1 /\
              needed (req_even (set_req_each req b q) i) = true
   else needed (req_each (set_req_each req b q) i) = true) ->
  let req' := set_req_each req b (mkLen i j true false eo) in
  req_le req req' /\ new_ok b req req' /\ needed (req_each req' b) = true.
Proof.
  intros En Hb Hij Hi Hj Nj Ni req'.
  assert (Hent : req_each req' b = mkLen i j true false eo)
    by (unfold req'; simpl; apply upd_same).
  rewrite each_set_each_ne in Nj by lia.
  destruct (mark_each_then b b req (mkLen i j true false eo) req')
    as (R1 & R2); auto using req_le_refl, new_ok_refl.
  - unfold each_entry_ok. rewrite Hent. cbn [sublen1 sublen2 even_even even_odd].
    split; [lia|]. intros _. repeat split; auto.
    + unfold req'. rewrite each_set_each_ne by lia. exact Nj.
    + destruct eo.
      * destruct Ni as (? & ? & Ni). split; [assumption|split; [assumption|exact Ni]].
      * unfold req'. rewrite each_set_each_ne by lia.
        rewrite each_set_each_ne in Ni by lia. exact Ni.
  - rewrite Hent. auto.
Qed.

Lemma find_rec_sound : forall fuel req b e req',
  find_required_lengths_recursive fuel req b e = Some req' ->
  req_le req req' /\ new_ok b req req' /\
  needed ((if e then req_even req' else req_each req') b) = true.
Proof.
  induction fuel as [|fuel IH]; intros req b e req' H; [discriminate|].
  cbn [find_required_lengths_recursive] in H. unfold obind in H.
  destruct (Nat.eqb_spec b 0) as [|Hb0]; [discriminate|].
  destruct e.
  - (* even table *)
    destruct (is_even_nat b) eqn:Eev; [cbn [negb] in H|discriminate].
    apply Nat.eqb_eq in Eev.
    unfold maybe_set_req in H.
    destruct (needed (req_even req b)) eqn:En; cbn iota beta in H.
    { inversion H; subst. auto using req_le_refl, new_ok_refl. }
    cbn [sublen1 sublen2 even_even even_odd] in H.
    destruct (Nat.eqb_spec b 2) as [->|Hb2].
    { fill_some H p E. 
      destruct (IH _ _ _ _ H) as (Hle & Hnew & Hm). cbn beta iota in Hm.
      assert (Hp : needed p = true) by now subst p.
      pose proof (entry_after_even _ _ _ _ Hp Hle) as Hent.
      destruct (mark_even_then 2 1 req p req') as (R1 & R2); auto.
      - unfold even_entry_ok. rewrite Hent. subst p. simpl.
        repeat split; auto; intros; lia.
      - rewrite Hent. auto. }
    destruct (Nat.eqb_spec (b mod 4) 0) as [Hb4|Hb4].
    { fill_some H p E.
      destruct (IH _ _ _ _ H) as (Hle & Hnew & Hm). cbn beta iota in Hm.
      assert (Hp : needed p = true) by now subst p.
      pose proof (entry_after_even _ _ _ _ Hp Hle) as Hent.
      destruct (mark_even_then b (b/2) req p req') as (R1 & R2); auto.
      - lia.
      - unfold even_entry_ok. rewrite Hent. subst p. simpl.
        repeat split; auto; intros; lia.
      - rewrite Hent. auto. }
    destruct (Nat.eqb_spec (b mod 4) 2) as [Hb42|Hb42]; [|discriminate].
    fill_some H p E. recur_some H r Er.
    destruct (IH _ _ _ _ Er) as (Hle1 & Hnew1 & Hm1). cbn beta iota in Hm1.
    destruct (IH _ _ _ _ H) as (Hle2 & Hnew2 & Hm2). cbn beta iota in Hm2.
    assert (Hp : needed p = true) by now subst p.
    pose proof (req_le_trans _ _ _ Hle1 Hle2) as Hle.
    pose proof (entry_after_even _ _ _ _ Hp Hle) as Hent.
    destruct (mark_even_then b (b/2 + 1) req p req') as (R1 & R2); auto.
    + apply new_ok_trans with (b1 := b/2 - 1) (b2 := b/2 + 1) (r1 := r); auto; lia.
    + lia.
    + unfold even_entry_ok. rewrite Hent. subst p. simpl.
      repeat split; auto; intros; try lia.
      apply (req_le_needed_even _ _ Hle2); auto.
    + rewrite Hent. auto.
  - (* each table *)
    unfold maybe_set_req in H.
    destruct (needed (req_each req b)) eqn:En; cbn iota beta in H.
    { inversion H; subst. auto using req_le_refl, new_ok_refl. }
    cbn [sublen1 sublen2 even_even even_odd] in H.
    set (precomp := mkLen (sublen1 (req_each req b)) (sublen2 (req_each req b))
                          true (even_even (req_each req b))
                          (even_odd (req_each req b))) in *.
    destruct (Nat.eqb_spec b 1) as [->|Hb1].
    { inversion H; subst req'.
      destruct (mark_each_then 1 1 req precomp (set_req_each req 1 precomp))
        as (R1 & R2); auto using req_le_refl, new_ok_refl.
      unfold each_entry_ok. split; [lia|intros; lia]. }
    assert (Hb2 : 2 <= b) by lia.
    destruct (is_even_nat b) eqn:Eev.
    { apply Nat.eqb_eq in Eev.
      pose proof (split_loop_even_spec (set_req_each req b precomp) b
                    ((b + 1) / 2 - 1) 1 (b - 1)) as Hs.
      destruct (split_loop_even _ _ _ _) as [i j|i j|i j|any].
      - destruct Hs as (Hij & Hi & Hj & Ni & Nj); try lia.
        fill_some H p E. inversion H; subst req' p.
        apply each_found with (q := precomp); auto.
      - exfalso; apply Hs; lia.
      - exfalso; apply Hs; lia.
      - clear Hs. fill_some H p E.
        destruct (IH _ _ _ _ H) as (Hle & Hnew & Hm). cbn beta iota in Hm.
        assert (Hp : needed p = true) by now subst p.
        pose proof (entry_after_each _ _ _ _ Hp Hle) as Hent.
        destruct (mark_each_then b (b/2) req p req') as (R1 & R2); auto.
        + lia.
        + unfold each_entry_ok. rewrite Hent. subst p. simpl.
          split; [lia|]. intros _. repeat split; auto; lia.
        + rewrite Hent. auto. }
    apply Nat.eqb_neq in Eev.
    pose proof (split_loop_odd_spec (set_req_each req b precomp) b
                  ((b + 1) / 2 - 1) 1 (b - 1) 0) as Hs.
    destruct (split_loop_odd _ _ _ _ _) as [i j|i j|i j|any].
    + destruct Hs as (Hij & Hi & Hj & Ni & Nj); try lia; auto.
      fill_some H p E. inversion H; subst req' p.
      apply each_found with (q := precomp); auto.
    + destruct Hs as (Hij & Hi & Hj & Ni & Nj); try lia; auto.
      fill_some H p E. inversion H; subst req' p.
      apply each_found with (q := precomp); auto.
      split; [tauto|split; [lia|assumption]].
    + destruct Hs as (Hij & Hi & Hj & Ni & Nj); try lia; auto.
      fill_some H p E. inversion H; subst req' p.
      apply each_found with (q := precomp); auto; try lia.
      split; [tauto|split; [lia|assumption]].
    + destruct Hs as [->|(Ha1 & Ha2 & Na)]; try lia; auto.
      * cbn [Nat.eqb negb] in H.
        destruct (Nat.eqb_spec (b mod 4) 1) as [Hb41|Hb41].
        { fill_some H p E. recur_some H r Er.
          destruct (IH _ _ _ _ Er) as (Hle1 & Hnew1 & Hm1). cbn beta iota in Hm1.
          destruct (IH _ _ _ _ H) as (Hle2 & Hnew2 & Hm2). cbn beta iota in Hm2.
          assert (Hp : needed p = true) by now subst p.
          pose proof (req_le_trans _ _ _ Hle1 Hle2) as Hle.
          pose proof (entry_after_each _ _ _ _ Hp Hle) as Hent.
          destruct (mark_each_then b (b/2 + 1) req p req') as (R1 & R2); auto.
          - apply new_ok_trans with (b1 := b/2) (b2 := b/2 + 1) (r1 := r); auto; lia.
          - lia.
          - unfold each_entry_ok. rewrite Hent. subst p. simpl.
            split; [lia|]. intros _. repeat split; auto; try lia.
            apply (req_le_needed_even _ _ Hle2); auto.
          - rewrite Hent. auto. }
        destruct (Nat.eqb_spec (b mod 4) 3) as [Hb43|Hb43]; [|discriminate].
        fill_some H p E. recur_some H r Er.
        destruct (IH _ _ _ _ Er) as (Hle1 & Hnew1 & Hm1). cbn beta iota in Hm1.
        destruct (IH _ _ _ _ H) as (Hle2 & Hnew2 & Hm2). cbn beta iota in Hm2.
        assert (Hp : needed p = true) by now subst p.
        pose proof (req_le_trans _ _ _ Hle1 Hle2) as Hle.
        pose proof (entry_after_each _ _ _ _ Hp Hle) as Hent.
        destruct (mark_each_then b (b/2 + 1) req p req') as (R1 & R2); auto.
        { apply new_ok_trans with (b1 := b/2 + 1) (b2 := b/2) (r1 := r); auto; lia. }
        { lia. }
        { unfold each_entry_ok. rewrite Hent. subst p. simpl.
          split; [lia|]. intros _. repeat split; auto; try lia.
          apply (req_le_needed_even _ _ Hle2); auto. }
        rewrite Hent. auto.
      * destruct (Nat.eqb_spec any 0) as [|_]; [lia|]. cbn [negb] in H.
        fill_some H p E.
        destruct (IH _ _ _ _ H) as (Hle & Hnew & Hm). cbn beta iota in Hm.
        assert (Hp : needed p = true) by now subst p.
        pose proof (entry_after_each _ _ _ _ Hp Hle) as Hent.
        destruct (mark_each_then b (b - any) req p req') as (R1 & R2); auto.
        { lia. }
        { unfold each_entry_ok. rewrite Hent. subst p. simpl.
          split; [lia|]. intros _. repeat split; auto; try lia.
          apply (req_le_needed_each _ _ Hle).
          rewrite each_set_each_ne by lia.
          rewrite each_set_each_ne in Na by lia. exact Na. }
        rewrite Hent. auto.
Qed.

Lemma even_idx_step fuel req b e req' :
  even_idx req ->
  find_required_lengths_recursive fuel req b e = Some req' -> even_idx req'.
Proof.
  intros Hi H. apply find_rec_sound in H. destruct H as (Hle & (_ & Hnew) & _).
  intros L HL. destruct (needed (req_even req L)) eqn:E.
  - now apply Hi.
  - destruct (Hnew L HL E) as (_ & Hok & _). exact Hok.
Qed.

Lemma even_idx_set_each req b p : even_idx req -> even_idx (set_req_each req b p).
Proof. intros H L. simpl. apply H. Qed.

Lemma even_idx_set_even req b p :
  even_idx req -> b mod 2 = 0 -> even_idx (set_req_even req b p).
Proof.
  intros H Hb L. simpl. unfold upd.
  destruct (Nat.eqb_spec L b) as [->|]; auto.
Qed.

Lemma fill_req_subs_ok q s1 s2 (eo ee : bool) :
  (eo = true -> ee = false /\ s1 mod 2 = 0) ->
  (ee = true -> s1 mod 2 = 0 /\ s2 mod 2 = 0) ->
  fill_req_subs q s1 s2 eo ee = Some (mkLen s1 s2 (needed q) ee eo).
Proof.
  unfold fill_req_subs, is_even_nat. intros H1 H2.
  destruct eo, ee; simpl;
    try (destruct H1 as (? & H1); [reflexivity|]);
    try (destruct H2 as (H2 & H3); [reflexivity|]);
    try discriminate;
    repeat match goal with
           | H : ?a = 0 |- context [Nat.eqb ?a 0] => rewrite H; simpl
           end; reflexivity.
Qed.

Lemma find_rec_total : forall fuel req b e,
  b <= fuel -> 1 <= b -> (e = true -> b mod 2 = 0) -> even_idx req ->
  exists req', find_required_lengths_recursive fuel req b e = Some req'.
Proof.
  induction fuel as [|fuel IH]; intros req b e Hf Hb He Hidx; [lia|].
  cbn [find_required_lengths_recursive]. unfold obind.
  destruct (Nat.eqb_spec b 0) as [|_]; [lia|].
  destruct e.
  - specialize (He eq_refl).
    unfold is_even_nat. rewrite He. cbn [Nat.eqb negb].
    unfold maybe_set_req.
    destruct (needed (req_even req b)) eqn:En; cbn iota beta; [eauto|].
    cbn [sublen1 sublen2 even_even even_odd needed].
    destruct (Nat.eqb_spec b 2) as [->|Hb2].
    { rewrite fill_req_subs_ok by (intros; discriminate).
      apply IH; try lia; try discriminate.
      now apply even_idx_set_even. }
    destruct (Nat.eqb_spec (b mod 4) 0) as [Hb4|Hb4].
    { rewrite fill_req_subs_ok by (try (intros; discriminate); intros; lia).
      apply IH; try lia.
      now apply even_idx_set_even. }
    destruct (Nat.eqb_spec (b mod 4) 2) as [Hb42|Hb42]; [|lia].
    rewrite fill_req_subs_ok by (try (intros; discriminate); intros; lia).
    match goal with
    | |- context [find_required_lengths_recursive fuel ?r ?b' true] =>
        destruct (IH r b' true) as (r1 & Hr1); try lia;
        [now apply even_idx_set_even|]
    end.
    rewrite Hr1. apply IH; try lia.
    eapply even_idx_step; [|exact Hr1]. now apply even_idx_set_even.
  - clear He. unfold maybe_set_req.
    destruct (needed (req_each req b)) eqn:En; cbn iota beta; [eauto|].
    cbn [sublen1 sublen2 even_even even_odd needed].
    set (precomp := mkLen (sublen1 (req_each req b)) (sublen2 (req_each req b))
                          true (even_even (req_each req b))
                          (even_odd (req_each req b))) in *.
    destruct (Nat.eqb_spec b 1) as [->|Hb1]; [eauto|].
    destruct (is_even_nat b) eqn:Eev.
    { apply Nat.eqb_eq in Eev.
      destruct (split_loop_even _ _ _ _) as [i j|i j|i j|any];
        rewrite fill_req_subs_ok by (intros; discriminate); eauto;
        apply IH; try lia; try discriminate; now apply even_idx_set_each. }
    apply Nat.eqb_neq in Eev.
    pose proof (split_loop_odd_spec (set_req_each req b precomp) b
                  ((b + 1) / 2 - 1) 1 (b - 1) 0) as Hs.
    destruct (split_loop_odd _ _ _ _ _) as [i j|i j|i j|any].
    + rewrite fill_req_subs_ok by (intros; discriminate); eauto.
    + destruct Hs as (Hij & Hi & Hj & Ni & Nj); try lia; auto.
      rewrite fill_req_subs_ok;
        [eauto|intros _; split; [reflexivity|apply (Hidx i); exact Ni]
        |intros; discriminate].
    + destruct Hs as (Hij & Hi & Hj & Ni & Nj); try lia; auto.
      rewrite fill_req_subs_ok;
        [eauto|intros _; split; [reflexivity|apply (Hidx j); exact Nj]
        |intros; discriminate].
    + destruct Hs as [->|(Ha1 & Ha2 & Na)]; try lia; auto.
      * cbn [Nat.eqb negb].
        destruct (Nat.eqb_spec (b mod 4) 1) as [Hb41|Hb41].
        { rewrite fill_req_subs_ok
            by (first [intros; discriminate|intros; split; [reflexivity|lia]]).
          match goal with
          | |- context [find_required_lengths_recursive fuel ?r ?b' true] =>
              destruct (IH r b' true) as (r1 & Hr1); try lia;
              [now apply even_idx_set_each|]
          end.
          rewrite Hr1. apply IH; try lia; try discriminate.
          eapply even_idx_step; [|exact Hr1]. now apply even_idx_set_each. }
        destruct (Nat.eqb_spec (b mod 4) 3) as [Hb43|Hb43]; [|lia].
        rewrite fill_req_subs_ok
          by (first [intros; discriminate|intros; split; [reflexivity|lia]]).
        match goal with
        | |- context [find_required_lengths_recursive fuel ?r ?b' true] =>
            destruct (IH r b' true) as (r1 & Hr1); try lia;
            [now apply even_idx_set_each|]
        end.
        rewrite Hr1. apply IH; try lia; try discriminate.
        eapply even_idx_step; [|exact Hr1]. now apply even_idx_set_each.
      * destruct (Nat.eqb_spec any 0) as [|_]; [lia|]. cbn [negb].
        rewrite fill_req_subs_ok by (intros; discriminate).
        apply IH; try lia; try discriminate. now apply even_idx_set_each.
Qed.
(** *** Sorting and the set of unique lengths *)

Lemma insert_guint_in x l y : In y (insert_guint x l) <-> y = x \/ In y l.
Proof.
  induction l as [|z r IH]; simpl.
  - intuition.
  - destruct (x <=? z); simpl; rewrite ?IH; intuition.
Qed.

Lemma insert_guint_ascending x l : ascending l -> ascending (insert_guint x l).
Proof.
  induction l as [|z r IH]; simpl; intros H.
  - split; [intros y []|exact I].
  - destruct H as (Hz & Hr).
    destruct (Nat.leb_spec x z); simpl.
    + split; [|split; assumption].
      intros y [<-|Hy]; [assumption|]. specialize (Hz y Hy). lia.
    + split; [|auto].
      intros y Hy. apply insert_guint_in in Hy. destruct Hy as [->|Hy]; [lia|auto].
Qed.

Lemma sort_guint_in l y : In y (sort_guint l) <-> In y l.
Proof.
  induction l as [|x r IH]; simpl; [tauto|].
  rewrite insert_guint_in, IH. intuition.
Qed.

Lemma sort_guint_ascending l : ascending (sort_guint l).
Proof.
  induction l as [|x r IH]; simpl; [exact I|].
  now apply insert_guint_ascending.
Qed.

Lemma unique_loop_in : forall l prev y,
  ascending (prev :: l) ->
  (In y (prev :: unique_loop prev l) <-> In y (prev :: l)).
Proof.
  induction l as [|x r IH]; intros prev y (Hp & Hr); simpl; [tauto|].
  destruct Hr as (Hx & Hr).
  assert (Hxr : ascending (x :: r)) by (split; assumption).
  specialize (IH x y Hxr). simpl in IH.
  destruct (Nat.ltb_spec prev x); simpl.
  - rewrite IH. tauto.
  - assert (x = prev) by (specialize (Hp x (or_introl eq_refl)); lia). subst x.
    rewrite IH. tauto.
Qed.

Lemma unique_loop_ascending : forall l prev,
  ascending (prev :: l) -> ascending (prev :: unique_loop prev l).
Proof.
  induction l as [|x r IH]; intros prev (Hp & Hr); simpl; [tauto|].
  assert (Hxr : ascending (x :: r)) by exact Hr.
  pose proof (IH x Hxr) as (Hx' & Hr').
  destruct (Nat.ltb_spec prev x); simpl.
  - split; [|split; assumption].
    intros y [<-|Hy]; [lia|]. specialize (Hx' y Hy). lia.
  - assert (x = prev) by (specialize (Hp x (or_introl eq_refl)); lia). subst x.
    split; assumption.
Qed.

Lemma unique_lengths_in l y :
  ascending l -> (In y (unique_lengths l) <-> In y l).
Proof.
  destruct l as [|x r]; simpl; [tauto|]. intros H.
  exact (unique_loop_in r x y H).
Qed.

Lemma unique_lengths_ascending l : ascending l -> ascending (unique_lengths l).
Proof.
  destruct l as [|x r]; simpl; [tauto|]. intros H.
  exact (unique_loop_ascending r x H).
Qed.

Lemma last_ascending : forall l d,
  ascending l -> l <> [] ->
  In (last l d) l /\ forall y, In y l -> y <= last l d.
Proof.
  induction l as [|x r IH]; intros d Ha Hne; [congruence|].
  destruct Ha as (Hx & Hr).
  destruct r as [|z r'].
  - simpl. split; [now left|]. intros y [<-|[]]. lia.
  - destruct (IH d Hr) as (Hin & Hmax); [discriminate|].
    change (last (x :: z :: r') d) with (last (z :: r') d).
    split; [now right|].
    intros y [<-|Hy]; [|auto].
    specialize (Hx _ Hin). lia.
Qed.

(** *** The plan of a set of lengths *)

Lemma req_wf_even_idx req : req_wf req -> even_idx req.
Proof. intros (_ & H) L HL. destruct (H L HL) as (? & _). assumption. Qed.

Lemma find_all_spec M : forall blens req,
  req_wf req ->
  (forall b, In b blens -> 1 <= b <= M) ->
  (forall L, needed (req_each req L) = true -> L <= M) ->
  (forall L, needed (req_even req L) = true -> L <= M) ->
  exists req',
    find_required_lengths_all req blens = Some req' /\
    req_wf req' /\ req_le req req' /\
    (forall b, In b blens -> needed (req_each req' b) = true) /\
    (forall L, needed (req_each req' L) = true -> L <= M) /\
    (forall L, needed (req_even req' L) = true -> L <= M).
Proof.
  induction blens as [|b r IH]; intros req Hwf Hb H1 H2; simpl.
  - exists req. split; [reflexivity|]. split; [assumption|].
    split; [apply req_le_refl|]. split; [intros b []|]. split; assumption.
  - destruct (find_rec_total b req b false) as (r1 & Hr1);
      try discriminate; auto using req_wf_even_idx.
    { destruct (Hb b (or_introl eq_refl)). lia. }
    rewrite Hr1. unfold obind.
    destruct (find_rec_sound _ _ _ _ _ Hr1) as (Hle & Hnew & Hm).
    cbn beta iota in Hm.
    destruct (IH r1) as (req' & E & Hwf' & Hle' & Hin' & H1' & H2').
    + eapply req_wf_step; eauto.
    + intros; apply Hb; now right.
    + intros L HL. destruct (needed (req_each req L)) eqn:En; [auto|].
      destruct Hnew as (A & _). destruct (A L HL En) as (? & _).
      destruct (Hb b (or_introl eq_refl)). lia.
    + intros L HL. destruct (needed (req_even req L)) eqn:En; [auto|].
      destruct Hnew as (_ & B). destruct (B L HL En) as (? & _).
      destruct (Hb b (or_introl eq_refl)). lia.
    + exists req'. split; [exact E|]. split; [assumption|].
      split; [eapply req_le_trans; eauto|]. split; [|split; assumption].
      intros b' [<-|Hb']; [|auto].
      apply (req_le_needed_each _ _ Hle'). exact Hm.
Qed.

Lemma last_needed_even_le tbl : forall i, last_needed_even tbl i <= i.
Proof.
  induction i as [|i IH]; simpl; [lia|].
  destruct (needed (tbl (S i))); lia.
Qed.

Lemma last_needed_even_max tbl : forall i L,
  L <= i -> needed (tbl L) = true -> L <= last_needed_even tbl i.
Proof.
  induction i as [|i IH]; intros L HL HN; simpl; [lia|].
  destruct (needed (tbl (S i))) eqn:E; [lia|].
  apply IH; auto.
  destruct (Nat.eq_dec L (S i)) as [->|]; [congruence|lia].
Qed.

(** The planner returns a plan for every non-empty set of positive
    lengths; the plan is well formed and needs every length of the set. *)
Lemma find_required_lengths_for_set_spec blocklens :
  blocklens <> [] -> (forall l, In l blocklens -> 1 <= l) ->
  exists req,
    find_required_lengths_for_set blocklens = Some req /\
    plan_ok req /\
    (forall l, In l blocklens -> needed (req_each req l) = true) /\
    (forall l, In l blocklens -> l <= maxlen_each req) /\
    In (maxlen_each req) blocklens.
Proof.
  intros Hne Hpos. unfold find_required_lengths_for_set.
  pose proof (sort_guint_ascending blocklens) as Hs.
  pose proof (unique_lengths_ascending _ Hs) as Hu.
  assert (Hin : forall y, In y (unique_lengths (sort_guint blocklens))
                          <-> In y blocklens).
  { intros y. rewrite unique_lengths_in by assumption. apply sort_guint_in. }
  destruct (unique_lengths (sort_guint blocklens)) as [|x ul] eqn:Eu.
  { destruct blocklens as [|b r]; [congruence|].
    exfalso. apply (proj2 (Hin b)). now left. }
  set (l := x :: ul) in *.
  destruct (last_ascending l 0 Hu) as (Hlast & Hmax); [discriminate|].
  set (M := last l 0) in *.
  destruct (find_all_spec M l
              (mkReq (fun _ => zero_len) (fun _ => zero_len) M M 0))
    as (req & E & Hwf & Hle & Hneed & H1 & H2).
  - split; intros L HL; discriminate.
  - intros b Hb. split; [apply Hpos; now apply Hin|now apply Hmax].
  - intros L HL; discriminate.
  - intros L HL; discriminate.
  - rewrite E. unfold obind.
    destruct Hle as (_ & _ & Hme & _). simpl in Hme.
    eexists. split; [reflexivity|]. unfold plan_ok. simpl. rewrite Hme.
    split; [split; [exact Hwf|split; [|split]]|split; [|split]].
    + exact H1.
    + intros L HL. apply last_needed_even_max; auto.
    + apply last_needed_even_le.
    + intros y Hy. apply Hneed. now apply Hin.
    + intros y Hy. apply Hmax. now apply Hin.
    + now apply Hin.
Qed.

(** ** The composition loops in closed form *)

Section ComposeFacts.

Variable V : Type.
Variable pick : V -> V -> V.

Lemma compose_each_loop_spec : forall fuel i n s1 (target sub1 sub2 : buf V) k,
  n < fuel + i ->
  compose_each_loop V pick fuel i n s1 target sub1 sub2 k =
  if (i <=? k) && (k <=? n) then pick (sub1 k) (sub2 (s1 + k)) else target k.
Proof.
  induction fuel as [|fuel IH]; intros i n s1 target sub1 sub2 k Hf; simpl.
  - destruct (Nat.leb_spec i k), (Nat.leb_spec k n); simpl; try reflexivity; lia.
  - destruct (Nat.leb_spec i n).
    + rewrite IH by lia. unfold upd.
      destruct (Nat.eqb_spec k i) as [->|Hki].
      * rewrite Nat.leb_refl.
        destruct (Nat.leb_spec (S i) i); [lia|]. simpl.
        destruct (Nat.leb_spec i n); [reflexivity|lia].
      * destruct (Nat.leb_spec (S i) k), (Nat.leb_spec i k), (Nat.leb_spec k n);
          simpl; try reflexivity; lia.
    + destruct (Nat.leb_spec i k), (Nat.leb_spec k n); simpl; try reflexivity; lia.
Qed.

Lemma compose_even_loop_spec : forall fuel i n s1 (target sub1 sub2 : buf V) k,
  n < 2 * fuel + i ->
  compose_even_loop V pick fuel i n s1 target sub1 sub2 k =
  if (i <=? k) && (k <=? n) && Nat.eqb ((k - i) mod 2) 0
  then pick (sub1 k) (sub2 (s1 + k)) else target k.
Proof.
  induction fuel as [|fuel IH]; intros i n s1 target sub1 sub2 k Hf; simpl.
  - destruct (Nat.leb_spec i k), (Nat.leb_spec k n); simpl; try reflexivity; lia.
  - destruct (Nat.leb_spec i n).
    + rewrite IH by lia. unfold upd.
      destruct (Nat.eqb_spec k i) as [->|Hki].
      * rewrite Nat.leb_refl, Nat.sub_diag.
        destruct (Nat.leb_spec (i + 2) i); [lia|]. simpl.
        destruct (Nat.leb_spec i n); [reflexivity|lia].
      * destruct (Nat.leb_spec (i + 2) k), (Nat.leb_spec i k), (Nat.leb_spec k n);
          simpl; try reflexivity; try lia.
        -- replace ((k - i) mod 2) with ((k - (i + 2)) mod 2) by lia. reflexivity.
        -- destruct (Nat.eqb_spec ((k - i) mod 2) 0); [lia|reflexivity].
    + destruct (Nat.leb_spec i k), (Nat.leb_spec k n); simpl; try reflexivity; lia.
Qed.

Lemma compose_two_loop_spec : forall fuel i n (target one : buf V) k,
  n < 2 * fuel + i ->
  compose_two_loop V pick fuel i n target one k =
  if (i <=? k) && (k <=? n) && Nat.eqb ((k - i) mod 2) 0
  then pick (one k) (one (k + 1)) else target k.
Proof.
  induction fuel as [|fuel IH]; intros i n target one k Hf; simpl.
  - destruct (Nat.leb_spec i k), (Nat.leb_spec k n); simpl; try reflexivity; lia.
  - destruct (Nat.leb_spec i n).
    + rewrite IH by lia. unfold upd.
      destruct (Nat.eqb_spec k i) as [->|Hki].
      * rewrite Nat.leb_refl, Nat.sub_diag.
        destruct (Nat.leb_spec (i + 2) i); [lia|]. simpl.
        destruct (Nat.leb_spec i n); [reflexivity|lia].
      * destruct (Nat.leb_spec (i + 2) k), (Nat.leb_spec i k), (Nat.leb_spec k n);
          simpl; try reflexivity; try lia.
        -- replace ((k - i) mod 2) with ((k - (i + 2)) mod 2) by lia. reflexivity.
        -- destruct (Nat.eqb_spec ((k - i) mod 2) 0); [lia|reflexivity].
    + destruct (Nat.leb_spec i k), (Nat.leb_spec k n); simpl; try reflexivity; lia.
Qed.

Lemma compose_even_odd_loop_spec :
  forall fuel i n evenlen oddlen (target even odd : buf V),
  n < 2 * fuel + i + 1 ->
  let r := compose_even_odd_loop V pick fuel i n evenlen oddlen target even odd in
  i <= fst r /\ (fst r - i) mod 2 = 0 /\ n < fst r + 1 /\
  (fst r = i \/ fst r <= n + 1) /\
  forall k,
    snd r k =
    if (i <=? k) && (k <? fst r) then
      if Nat.eqb ((k - i) mod 2) 0
      then pick (even k) (odd (evenlen + k))
      else pick (even (oddlen + k)) (odd k)
    else target k.
Proof.
  induction fuel as [|fuel IH]; intros i n evenlen oddlen target even odd Hf;
    cbn [compose_even_odd_loop].
  - simpl. repeat split; try lia.
    intros k. destruct (Nat.leb_spec i k), (Nat.ltb_spec k i); simpl; try reflexivity; lia.
  - destruct (Nat.leb_spec (i + 1) n) as [Hin|Hin].
    + cbv zeta.
      specialize (IH (i + 2) n evenlen oddlen
                     (upd (upd target i (pick (even i) (odd (evenlen + i))))
                          (i + 1) (pick (even (oddlen + 1 + i)) (odd (1 + i))))
                     even odd).
      destruct IH as (H1 & H2 & H3 & H4 & H5); [lia|].
      set (r := compose_even_odd_loop V pick fuel (i + 2) n evenlen oddlen _ even odd) in *.
      repeat split; try lia.
      intros k. rewrite H5. unfold upd.
      destruct (Nat.eqb_spec k (i + 1)) as [->|Hk1].
      * destruct (Nat.leb_spec (i + 2) (i + 1)); [lia|].
        destruct (Nat.leb_spec i (i + 1)); [|lia].
        destruct (Nat.ltb_spec (i + 1) (fst r)); [|lia]. simpl.
        replace ((i + 1 - i) mod 2) with 1 by lia. simpl.
        f_equal; f_equal; lia.
      * destruct (Nat.eqb_spec k i) as [->|Hk0].
        -- destruct (Nat.leb_spec (i + 2) i); [lia|].
           rewrite Nat.leb_refl.
           destruct (Nat.ltb_spec i (fst r)); [|lia]. simpl.
           rewrite Nat.sub_diag. reflexivity.
        -- destruct (Nat.leb_spec (i + 2) k), (Nat.leb_spec i k),
             (Nat.ltb_spec k (fst r)); simpl; try reflexivity; try lia.
           replace ((k - i) mod 2) with ((k - (i + 2)) mod 2) by lia. reflexivity.
    + simpl. repeat split; try lia.
      intros k. destruct (Nat.leb_spec i k), (Nat.ltb_spec k i); simpl; try reflexivity; lia.
Qed.

Lemma compose_row_data_even_odd_spec
    (target even : buf V) evenlen (odd : buf V) oddlen rowlen k :
  evenlen + oddlen <= rowlen -> evenlen mod 2 = 0 ->
  compose_row_data_even_odd V pick target even evenlen odd oddlen rowlen k =
  if k <=? rowlen - (evenlen + oddlen) then
    if Nat.eqb (k mod 2) 0
    then pick (even k) (odd (evenlen + k))
    else pick (even (oddlen + k)) (odd k)
  else target k.
Proof.
  intros Hlen Hev. unfold compose_row_data_even_odd, is_even_nat.
  destruct (Nat.leb_spec (evenlen + oddlen) rowlen); [|lia].
  rewrite Hev. change (0 =? 0) with true. cbn [andb].
  set (n := rowlen - (evenlen + oddlen)).
  pose proof (compose_even_odd_loop_spec (S n) 0 n evenlen oddlen target even odd)
    as Hs.
  cbv zeta in Hs.
  destruct (compose_even_odd_loop V pick (S n) 0 n evenlen oddlen target even odd)
    as [i0 t0].
  simpl fst in Hs; simpl snd in Hs.
  destruct Hs as (H1 & H2 & H3 & H4 & H5); [lia|].
  rewrite Nat.sub_0_r in H2.
  destruct (Nat.leb_spec i0 n) as [Hi0|Hi0].
  - assert (i0 = n) by lia. subst i0.
    destruct (Nat.leb_spec (S n) n); [lia|].
    unfold upd. destruct (Nat.eqb_spec k n) as [->|Hkn].
    + rewrite Nat.leb_refl. rewrite H2. reflexivity.
    + rewrite H5. rewrite Nat.sub_0_r. simpl.
      destruct (Nat.ltb_spec k n), (Nat.leb_spec k n); try reflexivity; lia.
  - destruct (Nat.leb_spec i0 n); [lia|].
    rewrite H5. rewrite Nat.sub_0_r. simpl.
    destruct (Nat.ltb_spec k i0), (Nat.leb_spec k n); try reflexivity; lia.
Qed.

Lemma compose_row_data_each_spec
    (target sub1 : buf V) sublen1 (sub2 : buf V) sublen2 rowlen k :
  sublen1 + sublen2 <= rowlen ->
  compose_row_data_each V pick target sub1 sublen1 sub2 sublen2 rowlen k =
  if k <=? rowlen - (sublen1 + sublen2)
  then pick (sub1 k) (sub2 (sublen1 + k)) else target k.
Proof.
  intros Hlen. unfold compose_row_data_each.
  destruct (Nat.leb_spec (sublen1 + sublen2) rowlen); [|lia].
  rewrite compose_each_loop_spec by lia. reflexivity.
Qed.

Lemma compose_row_data_even_spec
    (target sub1 : buf V) sublen1 (sub2 : buf V) sublen2 rowlen k :
  sublen1 + sublen2 <= rowlen -> sublen1 mod 2 = 0 -> sublen2 mod 2 = 0 ->
  compose_row_data_even V pick target sub1 sublen1 sub2 sublen2 rowlen k =
  if (k <=? rowlen - (sublen1 + sublen2)) && Nat.eqb (k mod 2) 0
  then pick (sub1 k) (sub2 (sublen1 + k)) else target k.
Proof.
  intros Hlen H1 H2. unfold compose_row_data_even, is_even_nat.
  destruct (Nat.leb_spec (sublen1 + sublen2) rowlen); [|lia].
  rewrite H1, H2. change (0 =? 0) with true. cbn [andb].
  rewrite compose_even_loop_spec by lia. rewrite Nat.sub_0_r. reflexivity.
Qed.

Lemma compose_row_data_two_spec (target one : buf V) rowlen k :
  2 <= rowlen ->
  compose_row_data_two V pick target one rowlen k =
  if (k <=? rowlen - 2) && Nat.eqb (k mod 2) 0
  then pick (one k) (one (k + 1)) else target k.
Proof.
  intros Hlen. unfold compose_row_data_two.
  destruct (Nat.leb_spec 2 rowlen); [|lia].
  rewrite compose_two_loop_spec by lia. rewrite Nat.sub_0_r. reflexivity.
Qed.

Lemma compose_unguarded_each (target sub1 : buf V) s1 (sub2 : buf V) s2 rowlen :
  rowlen < s1 + s2 ->
  compose_row_data_each V pick target sub1 s1 sub2 s2 rowlen = target.
Proof.
  intros H. unfold compose_row_data_each.
  destruct (Nat.leb_spec (s1 + s2) rowlen); [lia|reflexivity].
Qed.

End ComposeFacts.

(** ** Correctness of the row fill *)

Section RowFill.

Variable V : Type.
Variable le : V -> V -> Prop.
Variable pick : V -> V -> V.
Hypothesis le_refl : forall a, le a a.
Hypothesis le_trans : forall a b c, le a b -> le b c -> le a c.
Hypothesis pick_cases : forall a b, pick a b = a \/ pick a b = b.
Hypothesis pick_le_l : forall a b, le (pick a b) a.
Hypothesis pick_le_r : forall a b, le (pick a b) b.

Lemma is_extremum_single (x : nat -> V) i : is_extremum le x i 1 (x i).
Proof.
  split.
  - exists i. split; [lia|reflexivity].
  - intros k Hk. replace k with i by lia. apply le_refl.
Qed.

Lemma is_extremum_cover (x : nat -> V) i L i1 L1 i2 L2 v1 v2 :
  is_extremum le x i1 L1 v1 -> is_extremum le x i2 L2 v2 ->
  i <= i1 -> i1 + L1 <= i + L -> i <= i2 -> i2 + L2 <= i + L ->
  (forall k, i <= k < i + L -> i1 <= k < i1 + L1 \/ i2 <= k < i2 + L2) ->
  is_extremum le x i L (pick v1 v2).
Proof.
  intros ((k1 & Hk1 & E1) & B1) ((k2 & Hk2 & E2) & B2) Ha Hb Hc Hd Hcov.
  split.
  - destruct (pick_cases v1 v2) as [->| ->].
    + exists k1. split; [lia|assumption].
    + exists k2. split; [lia|assumption].
  - intros k Hk. destruct (Hcov k Hk) as [H|H].
    + eapply le_trans; [apply pick_le_l|]. now apply B1.
    + eapply le_trans; [apply pick_le_r|]. now apply B2.
Qed.

Variable req : MinMaxPrecomputedReq.
Variable x : nat -> V.
Variable rowlen : nat.
Hypothesis Hplan : plan_ok req.

Lemma each_step_valid (prow : MinMaxPrecomputedRow V) B :
  2 <= B -> needed (req_each req B) = true ->
  row_valid_below le req x rowlen prow B ->
  let p := req_each req B in
  even_even p = false /\
  each_valid le x rowlen
    (set_prow_each V prow B
       (if even_odd p
        then compose_row_data_even_odd V pick (prow_each prow B)
               (prow_even prow (sublen1 p)) (sublen1 p)
               (prow_each prow (sublen2 p)) (sublen2 p) rowlen
        else compose_row_data_each V pick (prow_each prow B)
               (prow_each prow (sublen1 p)) (sublen1 p)
               (prow_each prow (sublen2 p)) (sublen2 p) rowlen)) B.
Proof.
  intros HB HN (Hv1 & Hv2) p.
  destruct Hplan as ((W1 & _) & _).
  destruct (W1 B HN) as (_ & Hok). specialize (Hok HB).
  fold p in Hok. destruct Hok as (Hee & Hsum & Hs1 & Hs2 & N2 & Hcase).
  split; [assumption|].
  intros i Hi. simpl. rewrite upd_same.
  assert (V2 : each_valid le x rowlen prow (sublen2 p)) by (apply Hv1; [lia|assumption]).
  destruct (even_odd p).
  - destruct Hcase as (Hev & Hodd & N1).
    assert (V1 : even_valid le x rowlen prow (sublen1 p)) by (apply Hv2; [lia|assumption]).
    rewrite compose_row_data_even_odd_spec by lia.
    destruct (Nat.leb_spec i (rowlen - (sublen1 p + sublen2 p))); [|lia].
    destruct (Nat.eqb_spec (i mod 2) 0).
    + eapply is_extremum_cover; [apply (V1 i)|apply (V2 (sublen1 p + i))|..]; lia.
    + eapply is_extremum_cover; [apply (V1 (sublen2 p + i))|apply (V2 i)|..]; lia.
  - assert (V1 : each_valid le x rowlen prow (sublen1 p)) by (apply Hv1; [lia|assumption]).
    rewrite compose_row_data_each_spec by lia.
    destruct (Nat.leb_spec i (rowlen - (sublen1 p + sublen2 p))); [|lia].
    eapply is_extremum_cover; [apply (V1 i)|apply (V2 (sublen1 p + i))|..]; lia.
Qed.

Lemma even_step_valid (prow : MinMaxPrecomputedRow V) B :
  2 <= B -> needed (req_even req B) = true ->
  row_valid_below le req x rowlen prow B ->
  let p := req_even req B in
  even_odd p = false /\
  (even_even p = false -> B = 2 /\ sublen1 p = 1) /\
  even_valid le x rowlen
    (set_prow_even V prow B
       (if even_even p
        then compose_row_data_even V pick (prow_even prow B)
               (prow_even prow (sublen1 p)) (sublen1 p)
               (prow_even prow (sublen2 p)) (sublen2 p) rowlen
        else compose_row_data_two V pick (prow_even prow B)
               (prow_each prow (sublen1 p)) rowlen)) B.
Proof.
  intros HB HN (Hv1 & Hv2) p.
  destruct Hplan as ((_ & W2) & _).
  destruct (W2 B HN) as (Hev & _ & Heo & R2 & R4 & R42). fold p in Heo, R2, R4, R42.
  split; [assumption|].
  destruct (Nat.eq_dec B 2) as [->|HB2].
  - destruct (R2 eq_refl) as (Hee & Hs1 & Hs2 & N1).
    split; [auto|]. rewrite Hee.
    intros i Hi0 Hi. simpl. rewrite upd_same.
    rewrite compose_row_data_two_spec by lia.
    destruct (Nat.leb_spec i (rowlen - 2)); [|lia].
    rewrite Hi0. simpl. rewrite Hs1.
    assert (V1 : each_valid le x rowlen prow 1) by (apply Hv1; [lia|assumption]).
    eapply is_extremum_cover; [apply (V1 i)|apply (V1 (i + 1))|..]; lia.
  - assert (Hcase : even_even p = true /\ sublen1 p + sublen2 p = B /\
                    sublen1 p mod 2 = 0 /\ sublen2 p mod 2 = 0 /\
                    2 <= sublen1 p /\ 2 <= sublen2 p /\
                    needed (req_even req (sublen1 p)) = true /\
                    needed (req_even req (sublen2 p)) = true).
    { assert (B mod 4 = 0 \/ B mod 4 = 2) as [H4|H4] by lia.
      - destruct R4 as (? & -> & -> & ?); [lia|assumption|].
        repeat split; auto; lia.
      - destruct R42 as (? & -> & -> & ? & ?); [lia|assumption|].
        repeat split; auto; lia. }
    destruct Hcase as (Hee & Hsum & He1 & He2 & Hs1 & Hs2 & N1 & N2).
    split; [intros; congruence|]. rewrite Hee.
    intros i Hi0 Hi. simpl. rewrite upd_same.
    rewrite compose_row_data_even_spec by lia.
    destruct (Nat.leb_spec i (rowlen - (sublen1 p + sublen2 p))); [|lia].
    rewrite Hi0. simpl.
    assert (V1 : even_valid le x rowlen prow (sublen1 p)) by (apply Hv2; [lia|assumption]).
    assert (V2 : even_valid le x rowlen prow (sublen2 p)) by (apply Hv2; [lia|assumption]).
    eapply is_extremum_cover; [apply (V1 i)|apply (V2 (sublen1 p + i))|..]; lia.
Qed.

Lemma row_valid_below_set_each (prow : MinMaxPrecomputedRow V) B b :
  row_valid_below le req x rowlen prow B ->
  row_valid_below le req x rowlen (set_prow_each V prow B b) B.
Proof.
  intros (H1 & H2). split; intros L HL HN i.
  - simpl. rewrite upd_other by lia. now apply H1.
  - simpl. now apply H2.
Qed.

Lemma row_valid_below_set_even (prow : MinMaxPrecomputedRow V) B b :
  row_valid_below le req x rowlen prow B ->
  row_valid_below le req x rowlen (set_prow_even V prow B b) B.
Proof.
  intros (H1 & H2). split; intros L HL HN i.
  - simpl. now apply H1.
  - simpl. rewrite upd_other by lia. now apply H2.
Qed.

Lemma each_valid_set_even (prow : MinMaxPrecomputedRow V) B b L :
  each_valid le x rowlen prow L ->
  each_valid le x rowlen (set_prow_even V prow B b) L.
Proof. intros H i. simpl. apply H. Qed.

Lemma row_fill_step_valid is_max (prow : MinMaxPrecomputedRow V) B :
  2 <= B -> B <= maxlen_each req ->
  row_valid_below le req x rowlen prow B ->
  exists prow',
    row_fill_step V pick is_max req rowlen B prow = Some prow' /\
    row_valid_below le req x rowlen prow' (S B).
Proof.
  intros HB HBm Hv. unfold row_fill_step.
  (* the each-buffer *)
  set (p := req_each req B).
  assert (exists prow1,
    (if needed p then
       if even_even p then None
       else if even_odd p then
         Some (set_prow_each V prow B
                 (compose_row_data_even_odd V pick (prow_each prow B)
                    (prow_even prow (sublen1 p)) (sublen1 p)
                    (prow_each prow (sublen2 p)) (sublen2 p) rowlen))
       else
         Some (set_prow_each V prow B
                 (compose_row_data_each V pick (prow_each prow B)
                    (prow_each prow (sublen1 p)) (sublen1 p)
                    (prow_each prow (sublen2 p)) (sublen2 p) rowlen))
     else Some prow) = Some prow1 /\
    row_valid_below le req x rowlen prow1 B /\
    (needed p = true -> each_valid le x rowlen prow1 B)) as (prow1 & -> & Hv1 & He).
  { destruct (needed p) eqn:HN.
    - destruct (each_step_valid prow B HB HN Hv) as (Hee & Hval).
      fold p in Hee, Hval. rewrite Hee.
      destruct (even_odd p); eexists; (split; [reflexivity|]);
        (split; [now apply row_valid_below_set_each|intros _; exact Hval]).
    - exists prow. split; [reflexivity|]. split; [assumption|discriminate]. }
  unfold obind.
  (* the even-buffer *)
  set (q := req_even req B).
  assert (Hfin : forall prow2,
            row_valid_below le req x rowlen prow2 B ->
            (needed p = true -> each_valid le x rowlen prow2 B) ->
            (needed q = true -> even_valid le x rowlen prow2 B) ->
            row_valid_below le req x rowlen prow2 (S B)).
  { intros prow2 (A1 & A2) A3 A4. split; intros L HL HN.
    - destruct (Nat.eq_dec L B) as [->|]; [now apply A3|apply A1; [lia|assumption]].
    - destruct (Nat.eq_dec L B) as [->|]; [now apply A4|apply A2; [lia|assumption]]. }
  destruct (Nat.ltb_spec (maxlen_even req) B) as [Hme|Hme].
  { exists prow1. split; [reflexivity|]. apply Hfin; auto.
    intros HN. destruct Hplan as (_ & _ & Hb & _). apply Hb in HN. lia. }
  destruct (needed q) eqn:HN.
  - destruct (even_step_valid prow1 B HB HN Hv1) as (Heo & Hee & Hval).
    fold q in Heo, Hee, Hval. rewrite Heo.
    destruct (even_even q) eqn:Eee.
    + eexists. split; [reflexivity|]. apply Hfin.
      * now apply row_valid_below_set_even.
      * intros Hp. apply each_valid_set_even. auto.
      * intros _. exact Hval.
    + destruct (Hee eq_refl) as (-> & Hs1). rewrite Hs1. simpl.
      rewrite andb_false_r.
      eexists. split; [reflexivity|]. apply Hfin.
      * now apply row_valid_below_set_even.
      * intros Hp. apply each_valid_set_even. auto.
      * intros _. rewrite Hs1 in Hval. exact Hval.
  - exists prow1. split; [reflexivity|]. apply Hfin; auto. discriminate.
Qed.

Lemma row_fill_loop_valid is_max : forall cnt B (prow : MinMaxPrecomputedRow V),
  2 <= B -> B + cnt <= S (maxlen_each req) ->
  row_valid_below le req x rowlen prow B ->
  exists prow',
    row_fill_loop V pick is_max req rowlen cnt B prow = Some prow' /\
    row_valid_below le req x rowlen prow' (B + cnt).
Proof.
  induction cnt as [|cnt IH]; intros B prow HB Hc Hv; simpl.
  - exists prow. rewrite Nat.add_0_r. auto.
  - destruct (row_fill_step_valid is_max prow B) as (prow1 & -> & Hv1); auto; [lia|].
    unfold obind.
    destruct (IH (S B) prow1) as (prow' & E & Hv'); auto; [lia|].
    exists prow'. split; [assumption|].
    replace (B + S cnt) with (S B + cnt) by lia. assumption.
Qed.

(** The fill of a row of [rowlen] cells returns, and every needed buffer
    then holds the extrema of the row. *)
Lemma precomputed_row_fill_valid is_max (prow : MinMaxPrecomputedRow V) :
  1 <= maxlen_each req ->
  exists prow',
    precomputed_row_fill V pick is_max req prow x rowlen = Some prow' /\
    row_valid le req x rowlen prow'.
Proof.
  intros Hm. unfold precomputed_row_fill.
  destruct (row_fill_loop_valid is_max (maxlen_each req - 1) 2
              (set_prow_each V prow 1 (gwy_assign V (prow_each prow 1) 0 x 0 rowlen)))
    as (prow' & E & (H1 & H2)); try lia.
  - split; intros L HL HN.
    + assert (L = 1).
      { destruct Hplan as ((W1 & _) & _). destruct (W1 L HN). lia. }
      subst L. intros i Hi. simpl. rewrite upd_same. unfold gwy_assign.
      destruct (Nat.leb_spec 0 i); [|lia].
      destruct (Nat.ltb_spec i (0 + rowlen)); [|lia]. simpl.
      replace (i - 0) with i by lia. apply is_extremum_single.
    + destruct Hplan as ((_ & W2) & _). destruct (W2 L HN) as (_ & ? & _). lia.
  - exists prow'. split; [assumption|].
    destruct Hplan as (_ & Hb1 & Hb2 & Hb3).
    split; intros L HN.
    + apply H1; auto. apply Hb1 in HN. lia.
    + apply H2; auto. apply Hb2 in HN. lia.
Qed.

End RowFill.

(** *** The two comparators *)

Section Comparators.

Variable V : Type.
Variable ltb : V -> V -> bool.
Hypothesis ltb_asym : forall a b, ltb a b = true -> ltb b a = false.
Hypothesis ltb_ntrans :
  forall a b c, ltb a b = false -> ltb b c = false -> ltb a c = false.

Lemma ltb_irrefl a : ltb a a = false.
Proof.
  destruct (ltb a a) eqn:E; [|reflexivity].
  pose proof (ltb_asym a a E) as E'. congruence.
Qed.

Lemma le_min_refl a : le_min ltb a a.
Proof. apply ltb_irrefl. Qed.

Lemma le_min_trans a b c : le_min ltb a b -> le_min ltb b c -> le_min ltb a c.
Proof. unfold le_min. intros H1 H2. exact (ltb_ntrans c b a H2 H1). Qed.

Lemma pick_min_cases a b : pick_min V ltb a b = a \/ pick_min V ltb a b = b.
Proof. unfold pick_min. destruct (ltb b a); auto. Qed.

Lemma pick_min_le_l a b : le_min ltb (pick_min V ltb a b) a.
Proof.
  unfold pick_min, le_min. destruct (ltb b a) eqn:E.
  - now apply ltb_asym.
  - apply ltb_irrefl.
Qed.

Lemma pick_min_le_r a b : le_min ltb (pick_min V ltb a b) b.
Proof.
  unfold pick_min, le_min. destruct (ltb b a) eqn:E.
  - apply ltb_irrefl.
  - assumption.
Qed.

Lemma le_max_refl a : le_max ltb a a.
Proof. apply ltb_irrefl. Qed.

Lemma le_max_trans a b c : le_max ltb a b -> le_max ltb b c -> le_max ltb a c.
Proof. unfold le_max. intros H1 H2. exact (ltb_ntrans a b c H1 H2). Qed.

Lemma pick_max_cases a b : pick_max V ltb a b = a \/ pick_max V ltb a b = b.
Proof. unfold pick_max. destruct (ltb a b); auto. Qed.

Lemma pick_max_le_l a b : le_max ltb (pick_max V ltb a b) a.
Proof.
  unfold pick_max, le_max. destruct (ltb a b) eqn:E.
  - now apply ltb_asym.
  - apply ltb_irrefl.
Qed.

Lemma pick_max_le_r a b : le_max ltb (pick_max V ltb a b) b.
Proof.
  unfold pick_max, le_max. destruct (ltb a b) eqn:E.
  - apply ltb_irrefl.
  - assumption.
Qed.

Lemma min_precomputed_row_fill_valid req x rowlen prow :
  plan_ok req -> 1 <= maxlen_each req ->
  exists prow',
    min_precomputed_row_fill V ltb req prow x rowlen = Some prow' /\
    row_valid (le_min ltb) req x rowlen prow'.
Proof.
  intros Hp Hm. unfold min_precomputed_row_fill.
  apply (precomputed_row_fill_valid V (le_min ltb) (pick_min V ltb)
           le_min_refl le_min_trans pick_min_cases pick_min_le_l pick_min_le_r
           req x rowlen Hp false prow Hm).
Qed.

Lemma max_precomputed_row_fill_valid req x rowlen prow :
  plan_ok req -> 1 <= maxlen_each req ->
  exists prow',
    max_precomputed_row_fill V ltb req prow x rowlen = Some prow' /\
    row_valid (le_max ltb) req x rowlen prow'.
Proof.
  intros Hp Hm. unfold max_precomputed_row_fill.
  apply (precomputed_row_fill_valid V (le_max ltb) (pick_max V ltb)
           le_max_refl le_max_trans pick_max_cases pick_max_le_l pick_max_le_r
           req x rowlen Hp true prow Hm).
Qed.

End Comparators.

(** ** The kernel encoder *)

Section Encoder.

Variable V : Type.
Variable is_nonzero : V -> bool.
Variable d : buf V.
Variable xr : nat.

(** The segments the scan of row [i] appends: they lie in the row, on
    nonzero cells, and every nonzero cell the scan has passed is on one. *)
Lemma rle_row_loop_spec i : forall fuel j l segs,
  xr <= fuel + (j + l) -> j + l <= xr ->
  (forall c, j <= c < j + l -> is_nonzero (d (i * xr + c)) = true) ->
  exists j' l' new,
    rle_row_loop V is_nonzero fuel d xr i j l segs = (j', l', segs ++ new) /\
    j' + l' = xr /\ j <= j' /\
    (forall c, j' <= c < xr -> is_nonzero (d (i * xr + c)) = true) /\
    (forall s, In s new ->
       seg_row s = i /\ 1 <= seg_len s /\ j <= seg_col s /\
       seg_col s + seg_len s <= j' /\
       forall c, seg_col s <= c < seg_col s + seg_len s ->
                 is_nonzero (d (i * xr + c)) = true) /\
    (forall c, j <= c < j' -> is_nonzero (d (i * xr + c)) = true ->
               exists s, In s new /\ segment_covers s i c).
Proof.
  induction fuel as [|fuel IH]; intros j l segs Hf Hjl Hrun; simpl.
  - exists j, l, []. rewrite app_nil_r. split; [reflexivity|].
    split; [lia|]. split; [lia|].
    split; [intros c Hc; apply Hrun; lia|].
    split; [intros s []|intros c Hc; lia].
  - destruct (Nat.ltb_spec (j + l) xr) as [Hlt|Hge].
    + destruct (is_nonzero (d (i * xr + (j + l)))) eqn:Enz.
      * destruct (IH j (S l) segs) as (j' & l' & new & E & H1 & H2 & H3 & H4 & H5);
          [lia|lia| |].
        { intros c Hc. destruct (Nat.eq_dec c (j + l)) as [->|]; [assumption|].
          apply Hrun. lia. }
        exists j', l', new. auto 10.
      * destruct (Nat.eqb_spec l 0) as [->|Hl]; simpl.
        -- destruct (IH (j + 1) 0 segs) as (j' & l' & new & E & H1 & H2 & H3 & H4 & H5);
             [lia|lia|intros c Hc; lia|].
           exists j', l', new. split; [assumption|]. split; [assumption|].
           split; [lia|]. split; [assumption|]. split.
           ++ intros s Hs. destruct (H4 s Hs) as (? & ? & ? & ? & ?).
              repeat split; auto; lia.
           ++ intros c Hc Hnz. destruct (Nat.eq_dec c j) as [->|].
              ** rewrite Nat.add_0_r in Enz. congruence.
              ** apply H5; [lia|assumption].
        -- destruct (IH (j + l + 1) 0 (segs ++ [mkSeg i j l]))
             as (j' & l' & new & E & H1 & H2 & H3 & H4 & H5);
             [lia|lia|intros c Hc; lia|].
           exists j', l', (mkSeg i j l :: new).
           split; [rewrite E; now rewrite <- app_assoc|].
           split; [assumption|]. split; [lia|]. split; [assumption|]. split.
           ++ intros s [<-|Hs]; simpl.
              ** repeat split; try lia. intros c Hc. apply Hrun. lia.
              ** destruct (H4 s Hs) as (? & ? & ? & ? & ?).
                 repeat split; auto; lia.
           ++ intros c Hc Hnz.
              destruct (Nat.ltb_spec c (j + l)) as [Hc1|Hc1].
              ** exists (mkSeg i j l). split; [now left|].
                 unfold segment_covers; simpl. lia.
              ** destruct (Nat.eq_dec c (j + l)) as [->|]; [congruence|].
                 destruct (H5 c) as (s & Hs & Hcov); [lia|assumption|].
                 exists s. split; [now right|assumption].
    + exists j, l, []. rewrite app_nil_r. split; [reflexivity|].
      split; [lia|]. split; [lia|].
      split; [intros c Hc; apply Hrun; lia|].
      split; [intros s []|intros c Hc; lia].
Qed.

Lemma rle_rows_spec : forall cnt i segs,
  exists new,
    rle_rows V is_nonzero cnt d xr i segs = segs ++ new /\
    (forall s, In s new ->
       i <= seg_row s < i + cnt /\ 1 <= seg_len s /\
       seg_col s + seg_len s <= xr /\
       forall c, seg_col s <= c < seg_col s + seg_len s ->
                 is_nonzero (d (seg_row s * xr + c)) = true) /\
    (forall r c, i <= r < i + cnt -> c < xr ->
                 is_nonzero (d (r * xr + c)) = true ->
                 exists s, In s new /\ segment_covers s r c).
Proof.
  induction cnt as [|cnt IH]; intros i segs; simpl.
  - exists []. rewrite app_nil_r. split; [reflexivity|]. split.
    + intros s [].
    + intros r c Hr. lia.
  - destruct (rle_row_loop_spec i xr 0 0 segs)
      as (j' & l' & new & E & H1 & H2 & H3 & H4 & H5);
      [lia|lia|intros c Hc; lia|].
    rewrite E.
    set (new1 := if negb (l' =? 0) then new ++ [mkSeg i j' l'] else new).
    assert (E1 : (if negb (l' =? 0) then (segs ++ new) ++ [mkSeg i j' l']
                  else segs ++ new) = segs ++ new1).
    { unfold new1. destruct (negb (l' =? 0)); [now rewrite app_assoc|reflexivity]. }
    rewrite E1.
    destruct (IH (S i) (segs ++ new1)) as (new2 & E2 & G1 & G2).
    exists (new1 ++ new2). split; [rewrite E2; now rewrite app_assoc|].
    assert (Hnew1 : forall s, In s new1 ->
              seg_row s = i /\ 1 <= seg_len s /\ seg_col s + seg_len s <= xr /\
              forall c, seg_col s <= c < seg_col s + seg_len s ->
                        is_nonzero (d (i * xr + c)) = true).
    { intros s Hs. unfold new1 in Hs.
      assert (In s new \/ (l' <> 0 /\ s = mkSeg i j' l')) as [Hin|(Hl & ->)].
      { destruct (Nat.eqb_spec l' 0); simpl in Hs; [now left|].
        apply in_app_or in Hs. destruct Hs as [|[<-|[]]]; auto. }
      - destruct (H4 s Hin) as (? & ? & ? & ? & ?). repeat split; auto; lia.
      - simpl. repeat split; try lia. intros c Hc. apply H3. lia. }
    split.
    + intros s Hs. apply in_app_or in Hs. destruct Hs as [Hs|Hs].
      * destruct (Hnew1 s Hs) as (Hr & ? & ? & Hnz). rewrite Hr.
        repeat split; auto; lia.
      * destruct (G1 s Hs) as (? & ? & ? & ?). repeat split; auto; lia.
    + intros r c Hr Hc Hnz.
      destruct (Nat.eq_dec r i) as [->|Hri].
      * destruct (Nat.ltb_spec c j') as [Hcj|Hcj].
        -- destruct (H5 c) as (s & Hs & Hcov); [lia|assumption|].
           exists s. split; [|assumption]. apply in_or_app. left.
           unfold new1. destruct (negb (l' =? 0)); [apply in_or_app; now left|assumption].
        -- exists (mkSeg i j' l'). split.
           ++ apply in_or_app. left. unfold new1.
              destruct (Nat.eqb_spec l' 0); simpl; [lia|].
              apply in_or_app. right. now left.
           ++ unfold segment_covers. simpl. lia.
      * destruct (G2 r c) as (s & Hs & Hcov); [lia|assumption|assumption|].
        exists s. split; [apply in_or_app; now right|assumption].
Qed.

End Encoder.

Section EncoderSpec.

Variable V : Type.
Variable is_nonzero : V -> bool.

(** The segments of the encoding lie on cells of the kernel, and every
    cell of the kernel is on a segment. *)
Lemma run_length_encode_mask_sound (kernel : GwyDataField V) s :
  In s (run_length_encode_mask V is_nonzero kernel) ->
  seg_row s < yres kernel /\ 1 <= seg_len s /\
  seg_col s + seg_len s <= xres kernel /\
  forall c, segment_covers s (seg_row s) c ->
            kernel_cell is_nonzero kernel (seg_row s) c.
Proof.
  unfold run_length_encode_mask. intros Hs.
  destruct (rle_rows_spec V is_nonzero (data kernel) (xres kernel)
              (yres kernel) 0 []) as (new & E & G1 & _).
  rewrite E in Hs. simpl in Hs.
  destruct (G1 s Hs) as (? & ? & ? & Hnz).
  repeat split; auto; try lia.
  - destruct H2 as (_ & ?). lia.
  - apply Hnz. destruct H2. lia.
Qed.

Lemma run_length_encode_mask_complete (kernel : GwyDataField V) r c :
  kernel_cell is_nonzero kernel r c ->
  exists s, In s (run_length_encode_mask V is_nonzero kernel) /\
            segment_covers s r c.
Proof.
  unfold run_length_encode_mask. intros (Hr & Hc & Hnz).
  destruct (rle_rows_spec V is_nonzero (data kernel) (xres kernel)
              (yres kernel) 0 []) as (new & E & _ & G2).
  rewrite E. simpl. apply G2; auto. lia.
Qed.

Lemma kernel_nonempty_loop_true (d : buf V) : forall cnt i,
  kernel_nonempty_loop V is_nonzero cnt i d = true ->
  exists k, i <= k < i + cnt /\ is_nonzero (d k) = true.
Proof.
  induction cnt as [|cnt IH]; intros i H; simpl in H; [discriminate|].
  destruct (is_nonzero (d i)) eqn:E.
  - exists i. split; [lia|assumption].
  - destruct (IH (S i) H) as (k & Hk & Hnz). exists k. split; [lia|assumption].
Qed.

Lemma kernel_is_nonempty_cell (kernel : GwyDataField V) :
  kernel_is_nonempty V is_nonzero kernel = true ->
  exists r c, kernel_cell is_nonzero kernel r c.
Proof.
  unfold kernel_is_nonempty. intros H.
  apply kernel_nonempty_loop_true in H. destruct H as (k & Hk & Hnz).
  assert (Hx : xres kernel <> 0) by (intros E; rewrite E in Hk; lia).
  exists (k / xres kernel), (k mod xres kernel).
  unfold kernel_cell.
  pose proof (Nat.div_mod_eq k (xres kernel)) as Hdm.
  pose proof (Nat.mod_upper_bound k (xres kernel) Hx) as Hmod.
  split; [|split].
  - apply Nat.Div0.div_lt_upper_bound. lia.
  - assumption.
  - replace (k / xres kernel * xres kernel + k mod xres kernel) with k by lia.
    assumption.
Qed.

End EncoderSpec.

(** ** Border extension *)

Section Extension.

Variable V : Type.

Lemma fill_block_spec : forall len (d : buf V) off v k,
  fill_block V d off len v k =
  if (off <=? k) && (k <? off + len) then v else d k.
Proof.
  induction len as [|len IH]; intros d off v k; simpl.
  - destruct (Nat.leb_spec off k), (Nat.ltb_spec k (off + 0)); simpl; try reflexivity; lia.
  - rewrite IH. unfold upd.
    destruct (Nat.eqb_spec k off) as [->|Hne].
    + destruct (Nat.leb_spec (S off) off); [lia|]. simpl.
      rewrite Nat.leb_refl.
      destruct (Nat.ltb_spec off (off + S len)); [reflexivity|lia].
    + destruct (Nat.leb_spec (S off) k), (Nat.leb_spec off k),
        (Nat.ltb_spec k (S off + len)), (Nat.ltb_spec k (off + S len));
        simpl; try reflexivity; lia.
Qed.

(** The extended row: cell [k] is the cell of the source row at the
    column [pos + k - extend_left], moved into the row when it lies
    before or after it. *)
Lemma row_extend_border_spec (inrow out : buf V) pos width res
    extend_left extend_right k :
  pos + width <= res -> 1 <= res ->
  row_extend_border V inrow out pos width res extend_left extend_right k =
  if k <? extend_left + width + extend_right
  then inrow (Nat.min (pos + k - extend_left) (res - 1))
  else out k.
Proof.
  intros Hpw Hres. unfold row_extend_border, row_extend_base.
  rewrite !fill_block_spec. unfold gwy_assign.
  set (e2r := Nat.min extend_right (res - (pos + width))).
  set (e2l := Nat.min extend_left pos).
  destruct (Nat.ltb_spec k (extend_left + width + extend_right)) as [Hk|Hk].
  - destruct (Nat.leb_spec 0 k); [|lia]. simpl.
    destruct (Nat.ltb_spec k (extend_left - e2l)) as [H1|H1].
    + f_equal. lia.
    + destruct (Nat.leb_spec (extend_left - e2l + (width + e2r + e2l)) k) as [H2|H2].
      * destruct (Nat.ltb_spec k (extend_left - e2l + (width + e2r + e2l)
                                  + (extend_right - e2r))); [|lia].
        simpl. f_equal. lia.
      * simpl.
        destruct (Nat.leb_spec (extend_left - e2l) k); [|lia].
        destruct (Nat.ltb_spec k (extend_left - e2l + (width + e2r + e2l))); [|lia].
        simpl. f_equal. lia.
  - destruct (Nat.leb_spec 0 k); [|lia]. simpl.
    destruct (Nat.ltb_spec k (extend_left - e2l)); [lia|].
    destruct (Nat.leb_spec (extend_left - e2l + (width + e2r + e2l)) k); [|lia].
    destruct (Nat.ltb_spec k (extend_left - e2l + (width + e2r + e2l)
                                + (extend_right - e2r))); [lia|].
    simpl.
    destruct (Nat.leb_spec (extend_left - e2l) k); [|lia].
    destruct (Nat.ltb_spec k (extend_left - e2l + (width + e2r + e2l))); [lia|].
    reflexivity.
Qed.

End Extension.

(** ** The window sweep executor *)

Section FoldSegments.

Variable V : Type.
Variable le : V -> V -> Prop.
Variable pick : V -> V -> V.
Hypothesis le_trans : forall a b c, le a b -> le b c -> le a c.
Hypothesis pick_cases : forall a b, pick a b = a \/ pick a b = b.
Hypothesis pick_le_l : forall a b, le (pick a b) a.
Hypothesis pick_le_r : forall a b, le (pick a b) b.

Lemma is_extremum_of_union (P Q : V -> Prop) v1 v2 :
  is_extremum_of le P v1 -> is_extremum_of le Q v2 ->
  is_extremum_of le (fun w => P w \/ Q w) (pick v1 v2).
Proof.
  intros (P1 & B1) (Q2 & B2). split.
  - destruct (pick_cases v1 v2) as [->| ->]; auto.
  - intros w [Hw|Hw].
    + eapply le_trans; [apply pick_le_l|auto].
    + eapply le_trans; [apply pick_le_r|auto].
Qed.

Lemma is_extremum_of_iff (P Q : V -> Prop) v :
  (forall w, P w <-> Q w) -> is_extremum_of le P v -> is_extremum_of le Q v.
Proof.
  intros H (H1 & H2). split; [now apply H|]. intros w Hw. apply H2. now apply H.
Qed.

Lemma is_extremum_window (x : nat -> V) i L v :
  is_extremum le x i L v ->
  is_extremum_of le (fun w => exists k, i <= k < i + L /\ w = x k) v.
Proof.
  intros (H1 & H2). split; [assumption|].
  intros w (k & Hk & ->). now apply H2.
Qed.

Lemma fold_segment_spec : forall cnt j (outbuf : buf V) off (segdata : buf V) soff k,
  fold_segment V pick cnt j outbuf off segdata soff k =
  if (off + j <=? k) && (k <? off + j + cnt)
  then pick (outbuf k) (segdata (soff + (k - off)))
  else outbuf k.
Proof.
  induction cnt as [|cnt IH]; intros j outbuf off segdata soff k; simpl.
  - destruct (Nat.leb_spec (off + j) k), (Nat.ltb_spec k (off + j + 0));
      simpl; try reflexivity; lia.
  - rewrite IH. unfold upd.
    destruct (Nat.eqb_spec k (off + j)) as [->|Hne].
    + destruct (Nat.leb_spec (off + S j) (off + j)); [lia|]. simpl.
      rewrite Nat.leb_refl.
      destruct (Nat.ltb_spec (off + j) (off + j + S cnt)); [|lia]. simpl.
      f_equal. f_equal. lia.
    + destruct (Nat.leb_spec (off + S j) k), (Nat.leb_spec (off + j) k),
        (Nat.ltb_spec k (off + S j + cnt)), (Nat.ltb_spec k (off + j + S cnt));
        simpl; try reflexivity; lia.
Qed.

Variable bufval : MaskSegment -> buf V.
Variable W : MaskSegment -> nat -> V -> Prop.
Variables off width : nat.

(** Folding the segments [rest] into an output row whose cells already are
    the extrema of the values [P0]. *)
Lemma fold_segments_spec : forall (rest : MaskRLE) (outbuf : buf V)
    (P0 : nat -> V -> Prop),
  (forall j, j < width -> is_extremum_of le (P0 j) (outbuf (off + j))) ->
  (forall s j, In s rest -> j < width ->
               is_extremum_of le (W s j) (bufval s (seg_col s + j))) ->
  let out' :=
    fold_left (fun outbuf seg =>
                 fold_segment V pick width 0 outbuf off (bufval seg) (seg_col seg))
              rest outbuf in
  (forall j, j < width ->
     is_extremum_of le (fun w => P0 j w \/ exists s, In s rest /\ W s j w)
                    (out' (off + j))) /\
  (forall k, ~ (off <= k < off + width) -> out' k = outbuf k).
Proof.
  induction rest as [|s r IH]; intros outbuf P0 H0 Hr; simpl.
  - split; [|reflexivity].
    intros j Hj. eapply is_extremum_of_iff; [|apply (H0 j Hj)].
    intros w. split; [auto|]. intros [?|(s & [] & _)]. assumption.
  - destruct (IH (fold_segment V pick width 0 outbuf off (bufval s) (seg_col s))
                 (fun j w => P0 j w \/ W s j w)) as (I1 & I2).
    + intros j Hj. rewrite fold_segment_spec.
      destruct (Nat.leb_spec (off + 0) (off + j)); [|lia].
      destruct (Nat.ltb_spec (off + j) (off + 0 + width)); [|lia]. simpl.
      replace (off + j - off) with j by lia.
      apply is_extremum_of_union; [apply H0; assumption|].
      apply Hr; [now left|assumption].
    + intros s' j Hs' Hj. apply Hr; [now right|assumption].
    + split.
      * intros j Hj. eapply is_extremum_of_iff; [|apply (I1 j Hj)].
        intros w. simpl. split.
        -- intros [[?|?]|(s' & ? & ?)]; eauto.
        -- intros [?|(s' & [<-|?] & ?)]; eauto.
      * intros k Hk. rewrite I2 by assumption. rewrite fold_segment_spec.
        destruct (Nat.leb_spec (off + 0) k), (Nat.ltb_spec k (off + 0 + width));
          simpl; try reflexivity; lia.
Qed.

End FoldSegments.

(** *** The sweep returns on every valid area *)

Section SweepTotal.

Variable V : Type.
Variable ltb : V -> V -> bool.
Variable dfield : GwyDataField V.
Variable mmp : MinMaxPrecomputed V.
Variable maximum : bool.
Variables col row width height : nat.

Local Abbreviation req := (mmp_req mmp).
Local Abbreviation ky := (mmp_kyres mmp).
Local Abbreviation eu := (extend_up V mmp maximum).
Local Abbreviation ed := (extend_down V mmp maximum).

Hypothesis Hplan : plan_ok req.
Hypothesis Hmax1 : 1 <= maxlen_each req.

(** The fill returns whatever the comparison is: no assertion fails on a
    well-formed plan. *)
Lemma precomp_row_fill_total (prow : MinMaxPrecomputedRow V) x rowlen :
  exists prow', precomp_row_fill V ltb maximum req prow x rowlen = Some prow'.
Proof.
  unfold precomp_row_fill, max_precomputed_row_fill, min_precomputed_row_fill.
  destruct maximum.
  - destruct (precomputed_row_fill_valid V (fun _ _ => True) (pick_max V ltb))
      with (req := req) (x := x) (rowlen := rowlen) (is_max := true) (prow := prow)
      as (p & E & _); auto.
    + intros a b. unfold pick_max. destruct (ltb a b); auto.
    + eauto.
  - destruct (precomputed_row_fill_valid V (fun _ _ => True) (pick_min V ltb))
      with (req := req) (x := x) (rowlen := rowlen) (is_max := false) (prow := prow)
      as (p & E & _); auto.
    + intros a b. unfold pick_min. destruct (ltb b a); auto.
    + eauto.
Qed.

Lemma fill_prow_total r t (st : sweep_state V) :
  exists st', fill_prow V ltb dfield mmp maximum col width r t st = Some st'.
Proof.
  destruct st as [prows extrowbuf]. unfold fill_prow.
  destruct (precomp_row_fill_total (prows t)
              (extend_field_row V dfield mmp maximum col width r extrowbuf)
              (mmp_rowbuflen mmp)) as (p & E).
  rewrite E. unfold obind. eauto.
Qed.

Lemma seed_down_total : forall cnt i (st : sweep_state V),
  exists st', seed_down V ltb dfield mmp maximum col row width cnt i st = Some st'.
Proof.
  induction cnt as [|cnt IH]; intros i st; simpl; [eauto|].
  destruct (row + i <? yres dfield).
  - destruct (fill_prow_total (row + i) (i + eu) st) as (st' & E).
    rewrite E. unfold obind. apply IH.
  - unfold obind. apply IH.
Qed.

Lemma seed_up_total : forall cnt i (st : sweep_state V),
  exists st', seed_up V ltb dfield mmp maximum col row width cnt i st = Some st'.
Proof.
  induction cnt as [|cnt IH]; intros i st; simpl; [eauto|].
  destruct (i <=? row).
  - destruct (fill_prow_total (row - i) (eu - i) st) as (st' & E).
    rewrite E. unfold obind. apply IH.
  - unfold obind. apply IH.
Qed.

Hypothesis Hky : 1 <= ky.
Hypothesis Hheight : 1 <= height.
Hypothesis Hrow : row + height <= yres dfield.
Hypothesis Hnonempty : mmp_mrle mmp <> [].

Lemma sweep_rows_total : forall fuel i (st : sweep_state V) (outbuf : buf V),
  i + fuel = height -> 1 <= fuel ->
  exists r,
    sweep_rows V ltb dfield mmp maximum col row width height fuel i st outbuf
    = Some r.
Proof.
  induction fuel as [|fuel IH]; intros i st outbuf Hc Hf; [lia|].
  cbn [sweep_rows]. destruct st as [prows extrowbuf].
  unfold mask_rle_execute_min_max.
  destruct (mmp_mrle mmp) as [|s0 rest] eqn:Em; [congruence|].
  unfold obind. cbv zeta.
  destruct (Nat.eqb_spec (S i) height) as [Hlast|Hmore]; [eauto|].
  destruct (Nat.ltb_spec (row + S i + ed) (yres dfield)) as [Hin|Hout].
  - destruct (fill_prow_total (row + S i + ed) (ky - 1)
                (rotate_prows V mmp prows, extrowbuf)) as (st' & E).
    rewrite E. apply IH; lia.
  - destruct (Nat.leb_spec 2 ky) as [Hk2|Hk2]; [apply IH; lia|].
    exfalso. unfold extend_down in Hout. destruct maximum; lia.
Qed.

Lemma min_max_execute_total (outbuf : buf V) :
  exists out' mmp',
    gwy_data_field_area_min_max_execute V ltb dfield mmp maximum
      col row width height outbuf = Some (out', mmp') /\
    mmp_mrle mmp' = mmp_mrle mmp /\ mmp_req mmp' = req /\
    mmp_rowbuflen mmp' = mmp_rowbuflen mmp /\
    mmp_kxres mmp' = mmp_kxres mmp /\ mmp_kyres mmp' = ky.
Proof.
  unfold gwy_data_field_area_min_max_execute, seed_rows.
  destruct (seed_down_total (S ed) 0 (mmp_prows mmp, mmp_extrowbuf mmp))
    as (st1 & E1).
  rewrite E1. unfold obind.
  destruct (seed_up_total eu 1 st1) as (st2 & E2). rewrite E2.
  destruct (sweep_rows_total height 0 st2 outbuf) as (r & E3); [lia|lia|].
  rewrite E3. destruct r as [out' [prows' ext']].
  eexists. eexists. split; [reflexivity|]. simpl. auto.
Qed.

End SweepTotal.

Section Sweep.

Variable V : Type.
Variable ltb : V -> V -> bool.
Hypothesis ltb_asym : forall a b, ltb a b = true -> ltb b a = false.
Hypothesis ltb_ntrans :
  forall a b c, ltb a b = false -> ltb b c = false -> ltb a c = false.

Variable dfield : GwyDataField V.
Variable mmp : MinMaxPrecomputed V.
Variable maximum : bool.
Variables col row width height : nat.

Local Abbreviation le := (sweep_le V ltb maximum).
Local Abbreviation pick := (if maximum then pick_max V ltb else pick_min V ltb).
Local Abbreviation req := (mmp_req mmp).
Local Abbreviation rowbuflen := (mmp_rowbuflen mmp).
Local Abbreviation kx := (mmp_kxres mmp).
Local Abbreviation ky := (mmp_kyres mmp).
Local Abbreviation eu := (extend_up V mmp maximum).
Local Abbreviation ed := (extend_down V mmp maximum).
Local Abbreviation el := (extend_left V mmp maximum).
Local Abbreviation er := (extend_right V mmp maximum).

Hypothesis Hplan : plan_ok req.
Hypothesis Hmax1 : 1 <= maxlen_each req.
Hypothesis Hkx : 1 <= kx.
Hypothesis Hky : 1 <= ky.
Hypothesis Hrowbuf : rowbuflen = width + kx - 1.
Hypothesis Hwidth : 1 <= width.
Hypothesis Hcol : col + width <= xres dfield.

Lemma sweep_le_trans a b c : le a b -> le b c -> le a c.
Proof.
  unfold sweep_le. destruct maximum; [apply le_max_trans|apply le_min_trans]; assumption.
Qed.

Lemma sweep_pick_cases a b : pick a b = a \/ pick a b = b.
Proof. destruct maximum; [apply pick_max_cases|apply pick_min_cases]. Qed.

Lemma sweep_pick_le_l a b : le (pick a b) a.
Proof.
  unfold sweep_le. destruct maximum; [apply pick_max_le_l|apply pick_min_le_l]; assumption.
Qed.

Lemma sweep_pick_le_r a b : le (pick a b) b.
Proof.
  unfold sweep_le. destruct maximum; [apply pick_max_le_r|apply pick_min_le_r]; assumption.
Qed.

Lemma extents_sum : eu + ed + 1 = ky /\ el + er + 1 = kx.
Proof.
  unfold extend_up, extend_down, extend_left, extend_right.
  destruct maximum; lia.
Qed.

Lemma precomp_row_fill_valid prow x :
  exists prow',
    precomp_row_fill V ltb maximum req prow x rowbuflen = Some prow' /\
    row_valid le req x rowbuflen prow'.
Proof.
  unfold precomp_row_fill, sweep_le. destruct maximum.
  - now apply max_precomputed_row_fill_valid.
  - now apply min_precomputed_row_fill_valid.
Qed.

Lemma row_valid_agree (x x' : nat -> V) rowlen prow :
  (forall k, k < rowlen -> x k = x' k) ->
  row_valid le req x rowlen prow -> row_valid le req x' rowlen prow.
Proof.
  intros Hx (H1 & H2).
  assert (Hext : forall i L v, i + L <= rowlen ->
            is_extremum le x i L v -> is_extremum le x' i L v).
  { intros i L v HiL ((k & Hk & E) & B). split.
    - exists k. split; [assumption|]. rewrite <- Hx by lia. assumption.
    - intros k' Hk'. rewrite <- Hx by lia. now apply B. }
  split; intros L HN i.
  - intros Hi. apply Hext; [assumption|]. now apply H1.
  - intros Hi0 Hi. apply Hext; [assumption|]. now apply H2.
Qed.

Local Abbreviation prow_ok_at := (prow_ok V ltb dfield mmp maximum col).
Local Abbreviation src_row_at := (src_row V dfield mmp maximum row).
Local Abbreviation rows_ok_at := (rows_ok V ltb dfield mmp maximum col row).

Lemma fill_prow_ok r t (st : sweep_state V) :
  exists p,
    fill_prow V ltb dfield mmp maximum col width r t st
    = Some (upd (fst st) t p,
            extend_field_row V dfield mmp maximum col width r (snd st)) /\
    prow_ok_at r p.
Proof.
  destruct st as [prows extrowbuf]. unfold fill_prow. simpl fst; simpl snd.
  destruct (precomp_row_fill_valid (prows t)
              (extend_field_row V dfield mmp maximum col width r extrowbuf))
    as (p & E & Hv).
  rewrite E. unfold obind. exists p. split; [reflexivity|].
  unfold prow_ok. eapply row_valid_agree; [|exact Hv].
  intros k Hk. unfold extend_field_row.
  destruct extents_sum as (_ & Hx).
  rewrite row_extend_border_spec by lia.
  destruct (Nat.ltb_spec k (el + width + er)); [|lia].
  unfold field_row, extended_row, clamp. reflexivity.
Qed.

Hypothesis Hheight : 1 <= height.
Hypothesis Hrow : row + height <= yres dfield.
Hypothesis Hnoslip : eu = 0 \/ row + ed < yres dfield.

Lemma seed_down_ok : forall cnt i (st : sweep_state V),
  i + cnt = S ed ->
  (forall i', i' < i -> prow_ok_at (src_row_at 0 (i' + eu)) (fst st (i' + eu))) ->
  exists st',
    seed_down V ltb dfield mmp maximum col row width cnt i st = Some st' /\
    forall i', i' <= ed -> prow_ok_at (src_row_at 0 (i' + eu)) (fst st' (i' + eu)).
Proof.
  induction cnt as [|cnt IH]; intros i st Hc Hinv; simpl.
  - exists st. split; [reflexivity|]. intros i' Hi'. apply Hinv. lia.
  - destruct (Nat.ltb_spec (row + i) (yres dfield)) as [Hin|Hout].
    + destruct (fill_prow_ok (row + i) (i + eu) st) as (p & E & Hp).
      rewrite E. unfold obind. apply IH; [lia|].
      intros i' Hi'. simpl fst. unfold upd.
      destruct (Nat.eqb_spec (i' + eu) (i + eu)) as [Heq|Hne].
      * assert (i' = i) by lia. subst i'.
        replace (src_row_at 0 (i + eu)) with (row + i); [assumption|].
        unfold src_row, clamp. lia.
      * apply Hinv. lia.
    + unfold obind. apply IH; [lia|].
      assert (Heu : eu = 0) by lia.
      destruct st as [prows extrowbuf].
      unfold copy_prow, min_max_precomputed_row_copy. simpl fst in *.
      intros i' Hi'. unfold upd. rewrite Heu, Nat.add_0_r.
      destruct (Nat.eqb_spec i' i) as [->|Hne].
      * specialize (Hinv (i - 1)). rewrite Heu, Nat.add_0_r in Hinv.
        replace (src_row_at 0 i) with (src_row_at 0 (i - 1)); [apply Hinv; lia|].
        unfold src_row, clamp. lia.
      * specialize (Hinv i'). rewrite Heu, Nat.add_0_r in Hinv. apply Hinv. lia.
Qed.

Lemma seed_up_ok : forall cnt i (st : sweep_state V),
  i + cnt = S eu -> 1 <= i ->
  (forall t, eu + 1 - i <= t <= eu + ed -> prow_ok_at (src_row_at 0 t) (fst st t)) ->
  exists st',
    seed_up V ltb dfield mmp maximum col row width cnt i st = Some st' /\
    forall t, t <= eu + ed -> prow_ok_at (src_row_at 0 t) (fst st' t).
Proof.
  induction cnt as [|cnt IH]; intros i st Hc Hi Hinv; simpl.
  - exists st. split; [reflexivity|]. intros t Ht. apply Hinv. lia.
  - destruct extents_sum as (Hy & _).
    destruct (Nat.leb_spec i row) as [Hin|Hout].
    + destruct (fill_prow_ok (row - i) (eu - i) st) as (p & E & Hp).
      rewrite E. unfold obind. apply IH; [lia|lia|].
      intros t Ht. simpl fst. unfold upd.
      destruct (Nat.eqb_spec t (eu - i)) as [->|Hne].
      * replace (src_row_at 0 (eu - i)) with (row - i); [assumption|].
        unfold src_row, clamp. lia.
      * apply Hinv. lia.
    + unfold obind. apply IH; [lia|lia|].
      destruct st as [prows extrowbuf].
      unfold copy_prow, min_max_precomputed_row_copy. simpl fst in *.
      rewrite (Nat.mod_small (eu - i + 1) ky) by lia.
      intros t Ht. unfold upd.
      destruct (Nat.eqb_spec t (eu - i)) as [->|Hne].
      * replace (src_row_at 0 (eu - i)) with (src_row_at 0 (eu - i + 1));
          [apply Hinv; lia|].
        unfold src_row, clamp. lia.
      * apply Hinv. lia.
Qed.

(** After the seeding every live buffer holds the data of its (edge
    replicated) source row. *)
Lemma seed_rows_ok (st : sweep_state V) :
  exists st',
    seed_rows V ltb dfield mmp maximum col row width st = Some st' /\
    rows_ok_at 0 (fst st').
Proof.
  unfold seed_rows.
  destruct (seed_down_ok (S ed) 0 st) as (st1 & E1 & H1); [lia|intros; lia|].
  rewrite E1. unfold obind.
  destruct (seed_up_ok eu 1 st1) as (st2 & E2 & H2); [lia|lia| |].
  - intros t Ht. replace t with (t - eu + eu) by lia. apply H1. lia.
  - exists st2. split; [assumption|].
    intros t Ht. apply H2. destruct extents_sum. lia.
Qed.

Hypothesis Hsegs : forall s, In s (mmp_mrle mmp) ->
  seg_row s < ky /\ 1 <= seg_len s /\ seg_col s + seg_len s <= kx /\
  needed (req_each req (seg_len s)) = true.
Hypothesis Hnonempty : mmp_mrle mmp <> [].

(** One output row: every cell is the extremum of the values under the
    segments of the kernel. *)
Lemma mask_rle_execute_ok i prows (outbuf : buf V) :
  rows_ok_at i prows ->
  exists out',
    mask_rle_execute_min_max V ltb (mmp_mrle mmp) prows outbuf
      (i * width) width maximum = Some out' /\
    (forall j, j < width ->
       is_extremum_of le
         (rle_window dfield (mmp_mrle mmp) eu el (row + i) (col + j))
         (out' (i * width + j))) /\
    (forall k, ~ (i * width <= k < i * width + width) -> out' k = outbuf k).
Proof.
  intros Hrows. unfold mask_rle_execute_min_max.
  destruct (mmp_mrle mmp) as [|s0 rest] eqn:Em; [congruence|].
  eexists. split; [reflexivity|].
  set (bufval := fun s : MaskSegment => prow_each (prows (seg_row s)) (seg_len s)).
  set (W := fun (s : MaskSegment) (j : nat) (w : V) =>
              exists k, seg_col s + j <= k < seg_col s + j + seg_len s /\
                        w = extended_row dfield (src_row_at i (seg_row s)) col el k).
  assert (HW : forall s j, In s (s0 :: rest) -> j < width ->
                 is_extremum_of le (W s j) (bufval s (seg_col s + j))).
  { intros s j Hs Hj. destruct (Hsegs s Hs) as (Hr & Hl & Hc & Hn).
    apply is_extremum_window.
    destruct (Hrows (seg_row s) Hr) as (Hv & _).
    apply (Hv (seg_len s) Hn). lia. }
  destruct (fold_segments_spec V le pick sweep_le_trans sweep_pick_cases
              sweep_pick_le_l sweep_pick_le_r bufval W (i * width) width rest
              (gwy_assign V outbuf (i * width) (bufval s0) (seg_col s0) width)
              (W s0)) as (F1 & F2).
  - intros j Hj. unfold gwy_assign.
    destruct (Nat.leb_spec (i * width) (i * width + j)); [|lia].
    destruct (Nat.ltb_spec (i * width + j) (i * width + width)); [|lia]. simpl.
    replace (i * width + j - i * width) with j by lia.
    apply HW; [now left|assumption].
  - intros s j Hs Hj. apply HW; [now right|assumption].
  - split.
    + intros j Hj. eapply is_extremum_of_iff; [|apply (F1 j Hj)].
      intros w. unfold rle_window, W, segment_covers. split.
      * intros [(k & Hk & ->)|(s & Hs & k & Hk & ->)].
        -- exists s0, (k - j). split; [now left|]. split; [lia|].
           unfold extended_row, src_row. f_equal. f_equal. f_equal. lia.
        -- exists s, (k - j). split; [now right|]. split; [lia|].
           unfold extended_row, src_row. f_equal. f_equal. f_equal. lia.
      * intros (s & c & [<-|Hs] & (_ & Hc) & ->).
        -- left. exists (c + j). split; [lia|].
           unfold extended_row, src_row. f_equal. f_equal. f_equal. lia.
        -- right. exists s. split; [assumption|]. exists (c + j). split; [lia|].
           unfold extended_row, src_row. f_equal. f_equal. f_equal. lia.
    + intros k Hk. rewrite F2 by assumption. unfold gwy_assign.
      destruct (Nat.leb_spec (i * width) k), (Nat.ltb_spec k (i * width + width));
        simpl; try reflexivity; lia.
Qed.

Lemma shift_prows_spec : forall cnt ii (prows : nat -> MinMaxPrecomputedRow V) t,
  shift_prows V cnt ii prows t =
  if (ii <=? t) && (t <? ii + cnt) then prows (S t) else prows t.
Proof.
  induction cnt as [|cnt IH]; intros ii prows t; cbn [shift_prows].
  - destruct (Nat.leb_spec ii t), (Nat.ltb_spec t (ii + 0)); simpl; try reflexivity; lia.
  - rewrite IH. unfold upd.
    destruct (Nat.eqb_spec t ii) as [->|Hne].
    + destruct (Nat.leb_spec (S ii) ii); [lia|]. cbn [andb].
      rewrite Nat.leb_refl.
      destruct (Nat.ltb_spec ii (ii + S cnt)); [reflexivity|lia].
    + destruct (Nat.eqb_spec (S t) ii); [|].
      * destruct (Nat.leb_spec (S ii) t), (Nat.leb_spec ii t); try lia.
        reflexivity.
      * destruct (Nat.leb_spec (S ii) t), (Nat.leb_spec ii t),
          (Nat.ltb_spec t (S ii + cnt)), (Nat.ltb_spec t (ii + S cnt));
          cbn [andb]; try lia; try reflexivity.
Qed.

Lemma rotate_prows_spec (prows : nat -> MinMaxPrecomputedRow V) t :
  t < ky ->
  rotate_prows V mmp prows t = if t <? ky - 1 then prows (S t) else prows 0.
Proof.
  intros Ht. unfold rotate_prows, upd.
  destruct (Nat.eqb_spec t (ky - 1)) as [->|Hne].
  - destruct (Nat.ltb_spec (ky - 1) (ky - 1)); [lia|reflexivity].
  - rewrite shift_prows_spec.
    destruct (Nat.leb_spec 0 t); [|lia].
    destruct (Nat.ltb_spec t (0 + (ky - 1))), (Nat.ltb_spec t (ky - 1));
      simpl; try reflexivity; lia.
Qed.

Lemma sweep_rows_ok : forall fuel i (st : sweep_state V) (outbuf : buf V),
  i + fuel = height -> 1 <= fuel -> rows_ok_at i (fst st) ->
  exists out' st',
    sweep_rows V ltb dfield mmp maximum col row width height fuel i st outbuf
    = Some (out', st') /\
    (forall i' j, i <= i' < height -> j < width ->
       is_extremum_of le
         (rle_window dfield (mmp_mrle mmp) eu el (row + i') (col + j))
         (out' (i' * width + j))) /\
    (forall k, k < i * width -> out' k = outbuf k).
Proof.
  induction fuel as [|fuel IH]; intros i st outbuf Hc Hf Hrows; [lia|].
  cbn [sweep_rows]. destruct st as [prows extrowbuf]. simpl fst in Hrows.
  destruct (mask_rle_execute_ok i prows outbuf Hrows) as (out1 & E1 & H1 & H2).
  rewrite E1. unfold obind. cbv zeta.
  destruct (Nat.eqb_spec (S i) height) as [Hlast|Hmore].
  - exists out1, (prows, extrowbuf). split; [reflexivity|]. split.
    + intros i' j Hi' Hj. assert (i' = i) by lia. subst i'. now apply H1.
    + intros k Hk. apply H2. lia.
  - destruct extents_sum as (Hy & _).
    assert (Hrot : forall t, t < ky - 1 ->
              prow_ok_at (src_row_at (S i) t) (rotate_prows V mmp prows t)).
    { intros t Ht. rewrite rotate_prows_spec by lia.
      destruct (Nat.ltb_spec t (ky - 1)); [|lia].
      replace (src_row_at (S i) t) with (src_row_at i (S t)).
      - apply Hrows. lia.
      - unfold src_row. f_equal. lia. }
    assert (exists st1,
      (if row + S i + ed <? yres dfield
       then fill_prow V ltb dfield mmp maximum col width (row + S i + ed)
              (ky - 1) (rotate_prows V mmp prows, extrowbuf)
       else if 2 <=? ky
            then Some (copy_prow V mmp (ky - 1) (ky - 2)
                         (rotate_prows V mmp prows, extrowbuf))
            else None) = Some st1 /\ rows_ok_at (S i) (fst st1)) as (st1 & -> & Hst1).
    { destruct (Nat.ltb_spec (row + S i + ed) (yres dfield)) as [Hin|Hout].
      - destruct (fill_prow_ok (row + S i + ed) (ky - 1)
                    (rotate_prows V mmp prows, extrowbuf)) as (p & E & Hp).
        rewrite E. eexists. split; [reflexivity|]. simpl fst.
        intros t Ht. unfold upd.
        destruct (Nat.eqb_spec t (ky - 1)) as [->|Hne].
        + replace (src_row_at (S i) (ky - 1)) with (row + S i + ed); [assumption|].
          unfold src_row, clamp. lia.
        + apply Hrot. lia.
      - destruct (Nat.leb_spec 2 ky) as [Hk2|Hk2].
        + eexists. split; [reflexivity|].
          unfold copy_prow, min_max_precomputed_row_copy. simpl fst.
          intros t Ht. unfold upd.
          destruct (Nat.eqb_spec t (ky - 1)) as [->|Hne].
          * replace (src_row_at (S i) (ky - 1)) with (src_row_at (S i) (ky - 2)).
            -- apply Hrot. lia.
            -- unfold src_row, clamp. lia.
          * apply Hrot. lia.
        + exfalso. assert (ed = 0) by lia. lia. }
    destruct (IH (S i) st1 out1) as (out' & st' & E & G1 & G2); [lia|lia|assumption|].
    exists out', st'. split; [assumption|]. split.
    + intros i' j Hi' Hj. destruct (Nat.eq_dec i' i) as [->|Hne].
      * rewrite G2 by (simpl; lia). now apply H1.
      * apply G1; [lia|assumption].
    + intros k Hk. rewrite G2 by (simpl; lia). apply H2. lia.
Qed.

(** The sweep returns, and cell [(i, j)] of its output is the extremum of
    the values of the border-extended field under the segments of the
    kernel placed on the pixel [(row + i, col + j)]. *)
Lemma min_max_execute_ok (outbuf : buf V) :
  exists out' mmp',
    gwy_data_field_area_min_max_execute V ltb dfield mmp maximum
      col row width height outbuf = Some (out', mmp') /\
    mmp_mrle mmp' = mmp_mrle mmp /\ mmp_req mmp' = req /\
    mmp_rowbuflen mmp' = rowbuflen /\ mmp_kxres mmp' = kx /\
    mmp_kyres mmp' = ky /\
    forall i j, i < height -> j < width ->
      is_extremum_of le
        (rle_window dfield (mmp_mrle mmp) eu el (row + i) (col + j))
        (out' (i * width + j)).
Proof.
  unfold gwy_data_field_area_min_max_execute.
  destruct (seed_rows_ok (mmp_prows mmp, mmp_extrowbuf mmp)) as (st & E & Hst).
  rewrite E. unfold obind.
  destruct (sweep_rows_ok height 0 st outbuf) as (out' & st' & E' & G1 & _);
    [lia|lia|assumption|].
  rewrite E'. destruct st' as [prows' ext'].
  eexists. eexists. split; [reflexivity|]. simpl.
  do 5 (split; [reflexivity|]).
  intros i j Hi Hj. apply G1; [lia|assumption].
Qed.

End Sweep.

(** ** The analysis of a kernel and its reflection *)

Lemma insert_segment_in s l t : In t (insert_segment s l) <-> t = s \/ In t l.
Proof.
  induction l as [|u r IH]; simpl.
  - intuition.
  - destruct (segment_leb s u); simpl; rewrite ?IH; intuition.
Qed.

Lemma sort_segments_in l t : In t (sort_segments l) <-> In t l.
Proof.
  induction l as [|s r IH]; simpl; [tauto|].
  rewrite insert_segment_in, IH. intuition.
Qed.

Lemma rle_flip_in mrle kxres kyres t :
  In t (gwy_data_field_area_rle_flip mrle kxres kyres) <->
  exists s, In s mrle /\
            t = mkSeg (kyres - 1 - seg_row s)
                      (kxres - seg_col s - seg_len s) (seg_len s).
Proof.
  unfold gwy_data_field_area_rle_flip. rewrite sort_segments_in, in_map_iff.
  split; intros (s & H1 & H2); exists s; auto.
Qed.

Section Analysis.

Variable V : Type.
Variable is_nonzero : V -> bool.

(** The analysis of a kernel with at least one cell succeeds; its plan is
    well formed and needs the length of every segment. *)
Lemma rle_analyse_ok (u : Uninit V) n (kernel : GwyDataField V) width :
  (exists r c, kernel_cell is_nonzero kernel r c) ->
  exists mmp,
    gwy_data_field_area_rle_analyse V is_nonzero u n kernel width = Some mmp /\
    mmp_mrle mmp = run_length_encode_mask V is_nonzero kernel /\
    mmp_kxres mmp = xres kernel /\ mmp_kyres mmp = yres kernel /\
    mmp_rowbuflen mmp = width + xres kernel - 1 /\
    mmp_prows mmp = u_prows u n /\ mmp_extrowbuf mmp = u_extrowbuf u n /\
    plan_ok (mmp_req mmp) /\ 1 <= maxlen_each (mmp_req mmp) /\
    forall s, In s (mmp_mrle mmp) ->
              needed (req_each (mmp_req mmp) (seg_len s)) = true.
Proof.
  intros (r & c & Hcell). unfold gwy_data_field_area_rle_analyse.
  destruct (run_length_encode_mask_complete V is_nonzero kernel r c Hcell)
    as (s0 & Hs0 & _).
  set (mrle := run_length_encode_mask V is_nonzero kernel) in *.
  destruct (Nat.eqb_spec (length mrle) 0) as [Hl|_].
  { destruct mrle; [destruct Hs0|discriminate]. }
  unfold find_required_lengths_for_rle.
  destruct (find_required_lengths_for_set_spec (map seg_len mrle))
    as (req & E & Hplan & Hneed & Hle & Hmax).
  - destruct mrle; [destruct Hs0|discriminate].
  - intros l Hl. apply in_map_iff in Hl. destruct Hl as (s & <- & Hs).
    apply (run_length_encode_mask_sound V is_nonzero kernel s Hs).
  - rewrite E. unfold obind. eexists. split; [reflexivity|]. simpl.
    do 6 (split; [reflexivity|]). split; [assumption|]. split.
    + apply in_map_iff in Hmax. destruct Hmax as (s & <- & Hs).
      apply (run_length_encode_mask_sound V is_nonzero kernel s Hs).
    + intros s Hs. apply Hneed. now apply in_map.
Qed.

Variable dfield : GwyDataField V.
Variable kernel : GwyDataField V.

Lemma border_sample_clamp (y ky cy x kx cx : nat) :
  border_sample dfield
    (Z.of_nat y + Z.of_nat ky - Z.of_nat cy)
    (Z.of_nat x + Z.of_nat kx - Z.of_nat cx)
  = data dfield (xres dfield * clamp (y + ky - cy) (yres dfield)
                 + clamp (x + kx - cx) (xres dfield)).
Proof. unfold border_sample, clamp. f_equal. f_equal; [f_equal|]; lia. Qed.

(** Under the segments of the encoded kernel lie the values of the erosion
    neighbourhood. *)
Lemma rle_window_erosion y x w :
  rle_window dfield (run_length_encode_mask V is_nonzero kernel)
    ((yres kernel - 1) / 2) ((xres kernel - 1) / 2) y x w <->
  erosion_window dfield is_nonzero kernel y x w.
Proof.
  unfold rle_window, erosion_window. split.
  - intros (s & c & Hs & Hcov & ->).
    destruct (run_length_encode_mask_sound V is_nonzero kernel s Hs)
      as (_ & _ & _ & Hcell).
    exists (seg_row s), c. split; [now apply Hcell|].
    now rewrite border_sample_clamp.
  - intros (kr & kc & Hcell & ->).
    destruct (run_length_encode_mask_complete V is_nonzero kernel kr kc Hcell)
      as (s & Hs & Hr & Hc).
    exists s, kc. split; [assumption|]. split; [split; [reflexivity|assumption]|].
    rewrite border_sample_clamp. now rewrite Hr.
Qed.

(** Under the segments of the reflected encoding lie the values of the
    dilation neighbourhood. *)
Lemma rle_window_dilation y x w :
  rle_window dfield
    (gwy_data_field_area_rle_flip
       (run_length_encode_mask V is_nonzero kernel) (xres kernel) (yres kernel))
    (yres kernel / 2) (xres kernel / 2) y x w <->
  dilation_window dfield is_nonzero kernel y x w.
Proof.
  unfold rle_window, dilation_window. split.
  - intros (t & c & Ht & (_ & Hc) & ->).
    apply rle_flip_in in Ht. destruct Ht as (s & Hs & ->). simpl in *.
    destruct (run_length_encode_mask_sound V is_nonzero kernel s Hs)
      as (Hr & Hl & Hb & Hcell).
    exists (seg_row s), (xres kernel - 1 - c). split.
    + apply Hcell. split; [reflexivity|lia].
    + unfold border_sample, clamp. f_equal. f_equal; [f_equal|]; lia.
  - intros (kr & kc & Hcell & ->).
    destruct (run_length_encode_mask_complete V is_nonzero kernel kr kc Hcell)
      as (s & Hs & Hr & Hc).
    destruct (run_length_encode_mask_sound V is_nonzero kernel s Hs)
      as (Hr' & Hl & Hb & _).
    exists (mkSeg (yres kernel - 1 - seg_row s)
                  (xres kernel - seg_col s - seg_len s) (seg_len s)),
           (xres kernel - 1 - kc).
    split; [apply rle_flip_in; exists s; auto|].
    split; [split; [reflexivity|simpl; lia]|]. simpl.
    unfold border_sample, clamp. f_equal. f_equal; [f_equal|]; lia.
Qed.

End Analysis.

(** ** Writing the result back into the field *)

Section WriteBack.

Variable V : Type.
Variable veqb : V -> V -> bool.
Variable vsub : V -> V -> V.
Variable vdiv : V -> V -> V.
Variable vhalf : V.
Variables base xr width : nat.
Variables outbuf outbuf2 : buf V.
Hypothesis Hwx : width <= xr.

Lemma row_stride i i' : i < i' -> i * xr + xr <= i' * xr.
Proof.
  intros H. pose proof (Nat.mul_le_mono_r (S i) i' xr H) as H1.
  simpl in H1. lia.
Qed.

Lemma write_rows_frame : forall cnt i (d : buf V) k,
  (forall i' j, i <= i' < i + cnt -> j < width -> k <> base + (i' * xr + j)) ->
  write_rows V cnt i d base xr outbuf width k = d k.
Proof.
  induction cnt as [|cnt IH]; intros i d k Hk; simpl; [reflexivity|].
  rewrite IH by (intros i' j Hi' Hj; apply Hk; [lia|assumption]).
  unfold gwy_assign.
  destruct (Nat.leb_spec (base + i * xr) k); [|reflexivity].
  destruct (Nat.ltb_spec k (base + i * xr + width)); [|reflexivity].
  exfalso. apply (Hk i (k - (base + i * xr))); lia.
Qed.

Lemma write_rows_at : forall cnt i (d : buf V) i' j,
  i <= i' < i + cnt -> j < width ->
  write_rows V cnt i d base xr outbuf width (base + (i' * xr + j))
  = outbuf (i' * width + j).
Proof.
  induction cnt as [|cnt IH]; intros i d i' j Hi' Hj; simpl; [lia|].
  destruct (Nat.eq_dec i' i) as [->|Hne].
  - rewrite write_rows_frame.
    + unfold gwy_assign.
      destruct (Nat.leb_spec (base + i * xr) (base + (i * xr + j))); [|lia].
      destruct (Nat.ltb_spec (base + (i * xr + j)) (base + i * xr + width)); [|lia].
      simpl. f_equal. lia.
    + intros i'' j'' Hi'' Hj''. pose proof (row_stride i i''). lia.
  - apply IH; [lia|assumption].
Qed.

Lemma range_row_spec i : forall cnt j (d : buf V) k,
  range_row V vsub cnt j d base xr i outbuf outbuf2 width k =
  if (base + (i * xr + j) <=? k) && (k <? base + (i * xr + j) + cnt)
  then vsub (outbuf2 (i * width + (k - (base + i * xr))))
            (outbuf (i * width + (k - (base + i * xr))))
  else d k.
Proof.
  induction cnt as [|cnt IH]; intros j d k; cbn [range_row].
  - destruct (Nat.leb_spec (base + (i * xr + j)) k),
      (Nat.ltb_spec k (base + (i * xr + j) + 0)); simpl; try reflexivity; lia.
  - rewrite IH. unfold upd.
    destruct (Nat.eqb_spec k (base + (i * xr + j))) as [->|Hne].
    + destruct (Nat.leb_spec (base + (i * xr + S j)) (base + (i * xr + j))); [lia|].
      rewrite Nat.leb_refl.
      destruct (Nat.ltb_spec (base + (i * xr + j)) (base + (i * xr + j) + S cnt)); [|lia].
      cbn [andb]. f_equal; f_equal; lia.
    + destruct (Nat.leb_spec (base + (i * xr + S j)) k),
        (Nat.leb_spec (base + (i * xr + j)) k),
        (Nat.ltb_spec k (base + (i * xr + S j) + cnt)),
        (Nat.ltb_spec k (base + (i * xr + j) + S cnt));
        cbn [andb]; try reflexivity; lia.
Qed.

Lemma range_rows_frame : forall cnt i (d : buf V) k,
  (forall i' j, i <= i' < i + cnt -> j < width -> k <> base + (i' * xr + j)) ->
  range_rows V vsub cnt i d base xr outbuf outbuf2 width k = d k.
Proof.
  induction cnt as [|cnt IH]; intros i d k Hk; simpl; [reflexivity|].
  rewrite IH by (intros i' j Hi' Hj; apply Hk; [lia|assumption]).
  rewrite range_row_spec.
  destruct (Nat.leb_spec (base + (i * xr + 0)) k); [|reflexivity].
  destruct (Nat.ltb_spec k (base + (i * xr + 0) + width)); [|reflexivity].
  exfalso. apply (Hk i (k - (base + i * xr))); lia.
Qed.

Lemma range_rows_at : forall cnt i (d : buf V) i' j,
  i <= i' < i + cnt -> j < width ->
  range_rows V vsub cnt i d base xr outbuf outbuf2 width (base + (i' * xr + j))
  = vsub (outbuf2 (i' * width + j)) (outbuf (i' * width + j)).
Proof.
  induction cnt as [|cnt IH]; intros i d i' j Hi' Hj; simpl; [lia|].
  destruct (Nat.eq_dec i' i) as [->|Hne].
  - rewrite range_rows_frame.
    + rewrite range_row_spec.
      destruct (Nat.leb_spec (base + (i * xr + 0)) (base + (i * xr + j))); [|lia].
      destruct (Nat.ltb_spec (base + (i * xr + j)) (base + (i * xr + 0) + width)); [|lia].
      cbn [andb]. f_equal; f_equal; lia.
    + intros i'' j'' Hi'' Hj''. pose proof (row_stride i i''). lia.
  - apply IH; [lia|assumption].
Qed.

Lemma normalize_row_spec i : forall cnt j (d : buf V) k,
  normalize_row V veqb vsub vdiv vhalf cnt j d base xr i outbuf outbuf2 width k =
  if (base + (i * xr + j) <=? k) && (k <? base + (i * xr + j) + cnt)
  then
    let min := outbuf (i * width + (k - (base + i * xr))) in
    let max := outbuf2 (i * width + (k - (base + i * xr))) in
    if veqb min max then vhalf else vdiv (vsub (d k) min) (vsub max min)
  else d k.
Proof.
  induction cnt as [|cnt IH]; intros j d k; cbn [normalize_row].
  - destruct (Nat.leb_spec (base + (i * xr + j)) k),
      (Nat.ltb_spec k (base + (i * xr + j) + 0)); simpl; try reflexivity; lia.
  - cbv zeta. rewrite IH. unfold upd.
    destruct (Nat.eqb_spec k (base + (i * xr + j))) as [->|Hne].
    + destruct (Nat.leb_spec (base + (i * xr + S j)) (base + (i * xr + j))); [lia|].
      rewrite Nat.leb_refl.
      destruct (Nat.ltb_spec (base + (i * xr + j)) (base + (i * xr + j) + S cnt)); [|lia].
      cbn [andb]. cbv zeta.
      replace (base + (i * xr + j) - (base + i * xr)) with j by lia. reflexivity.
    + destruct (Nat.leb_spec (base + (i * xr + S j)) k),
        (Nat.leb_spec (base + (i * xr + j)) k),
        (Nat.ltb_spec k (base + (i * xr + S j) + cnt)),
        (Nat.ltb_spec k (base + (i * xr + j) + S cnt));
        cbn [andb]; try reflexivity; lia.
Qed.

Lemma normalize_rows_frame : forall cnt i (d : buf V) k,
  (forall i' j, i <= i' < i + cnt -> j < width -> k <> base + (i' * xr + j)) ->
  normalize_rows V veqb vsub vdiv vhalf cnt i d base xr outbuf outbuf2 width k
  = d k.
Proof.
  induction cnt as [|cnt IH]; intros i d k Hk; simpl; [reflexivity|].
  rewrite IH by (intros i' j Hi' Hj; apply Hk; [lia|assumption]).
  rewrite normalize_row_spec.
  destruct (Nat.leb_spec (base + (i * xr + 0)) k); [|reflexivity].
  destruct (Nat.ltb_spec k (base + (i * xr + 0) + width)); [|reflexivity].
  exfalso. apply (Hk i (k - (base + i * xr))); lia.
Qed.

Lemma normalize_rows_at : forall cnt i (d : buf V) i' j,
  i <= i' < i + cnt -> j < width ->
  normalize_rows V veqb vsub vdiv vhalf cnt i d base xr outbuf outbuf2 width
    (base + (i' * xr + j))
  = if veqb (outbuf (i' * width + j)) (outbuf2 (i' * width + j)) then vhalf
    else vdiv (vsub (d (base + (i' * xr + j))) (outbuf (i' * width + j)))
              (vsub (outbuf2 (i' * width + j)) (outbuf (i' * width + j))).
Proof.
  induction cnt as [|cnt IH]; intros i d i' j Hi' Hj; simpl; [lia|].
  destruct (Nat.eq_dec i' i) as [->|Hne].
  - rewrite normalize_rows_frame.
    + rewrite normalize_row_spec.
      destruct (Nat.leb_spec (base + (i * xr + 0)) (base + (i * xr + j))); [|lia].
      destruct (Nat.ltb_spec (base + (i * xr + j)) (base + (i * xr + 0) + width)); [|lia].
      cbn [andb]. cbv zeta.
      replace (base + (i * xr + j) - (base + i * xr)) with j by lia. reflexivity.
    + intros i'' j'' Hi'' Hj''. pose proof (row_stride i i''). lia.
  - rewrite IH by (try lia; assumption).
    rewrite normalize_row_spec.
    destruct (Nat.leb_spec (base + (i * xr + 0)) (base + (i' * xr + j)));
      [|reflexivity].
    destruct (Nat.ltb_spec (base + (i' * xr + j)) (base + (i * xr + 0) + width));
      [|reflexivity].
    exfalso. pose proof (row_stride i i'). lia.
Qed.

End WriteBack.

(** ** The morphological operations *)

(** The area that Opening and Closing extend for their first pass lies in
    the field and contains the area of the call. *)
Lemma ext_area_bounds (xr yr col row width height hx hy : nat) :
  1 <= width -> 1 <= height -> col + width <= xr -> row + height <= yr ->
  let extcol := Nat.max 0 (col - hx) in
  let extrow := Nat.max 0 (row - hy) in
  let extwidth := Nat.min xr (col + width + hx) - extcol in
  let extheight := Nat.min yr (row + height + hy) - extrow in
  1 <= extwidth /\ 1 <= extheight /\
  extcol + extwidth <= xr /\ extrow + extheight <= yr /\
  col - extcol + width <= extwidth /\ row - extrow + height <= extheight.
Proof.
  intros Hw Hh Hc Hr. cbv zeta. rewrite !Nat.max_0_l.
  assert (Hx : forall a b w h : nat, 1 <= w -> b + w <= a ->
             1 <= Nat.min a (b + w + h) - (b - h) /\
             b - h + (Nat.min a (b + w + h) - (b - h)) <= a /\
             b - (b - h) + w <= Nat.min a (b + w + h) - (b - h)).
  { intros a b w h H1 H2.
    destruct (Nat.min_spec a (b + w + h)) as [[H ->]|[H ->]].
    - split; [lia|]. split; lia.
    - split; [lia|]. split; lia. }
  destruct (Hx xr col width hx Hw Hc) as (A1 & A2 & A3).
  destruct (Hx yr row height hy Hh Hr) as (B1 & B2 & B3).
  split; [exact A1|]. split; [exact B1|]. split; [exact A2|].
  split; [exact B2|]. split; [exact A3|exact B3].
Qed.

Section Operations.

Variable V : Type.
Variable ltb : V -> V -> bool.
Variable is_nonzero : V -> bool.
Variable veqb : V -> V -> bool.
Variable vsub : V -> V -> V.
Variable vdiv : V -> V -> V.
Variable vhalf : V.

Lemma analyse_ready (u : Uninit V) n (kernel : GwyDataField V) width :
  (exists r c, kernel_cell is_nonzero kernel r c) ->
  exists mmp,
    gwy_data_field_area_rle_analyse V is_nonzero u n kernel width = Some mmp /\
    mmp_mrle mmp = run_length_encode_mask V is_nonzero kernel /\
    mmp_kxres mmp = xres kernel /\ mmp_kyres mmp = yres kernel /\
    mmp_ready mmp width.
Proof.
  intros Hcell.
  destruct (rle_analyse_ok V is_nonzero u n kernel width Hcell)
    as (mmp & E & Hm & Hx & Hy & Hb & _ & _ & Hplan & Hmax & Hneed).
  exists mmp. do 4 (split; [assumption|]).
  destruct Hcell as (r & c & Hcell).
  destruct (run_length_encode_mask_complete V is_nonzero kernel r c Hcell)
    as (s0 & Hs0 & _).
  unfold mmp_ready. rewrite Hx, Hy, Hm.
  split; [assumption|]. split; [assumption|].
  destruct Hcell as (Hr & Hc & _).
  split; [lia|]. split; [lia|]. split; [assumption|].
  split; [intros E0; rewrite E0 in Hs0; destruct Hs0|].
  intros s Hs.
  destruct (run_length_encode_mask_sound V is_nonzero kernel s Hs)
    as (? & ? & ? & _).
  repeat split; auto. apply Hneed. now rewrite Hm.
Qed.

Lemma flip_ready (mmp : MinMaxPrecomputed V) width :
  mmp_ready mmp width -> mmp_ready (mmp_flip V mmp) width.
Proof.
  intros (Hplan & Hmax & Hkx & Hky & Hb & Hne & Hsegs).
  unfold mmp_ready, mmp_flip. simpl.
  do 5 (split; [assumption|]). split.
  - destruct (mmp_mrle mmp) as [|s0 rest]; [congruence|].
    intros E.
    assert (Hin : In (mkSeg (mmp_kyres mmp - 1 - seg_row s0)
                            (mmp_kxres mmp - seg_col s0 - seg_len s0)
                            (seg_len s0))
                     (gwy_data_field_area_rle_flip (s0 :: rest)
                        (mmp_kxres mmp) (mmp_kyres mmp))).
    { apply rle_flip_in. exists s0. split; [now left|reflexivity]. }
    rewrite E in Hin. destruct Hin.
  - intros t Ht. apply rle_flip_in in Ht. destruct Ht as (s & Hs & ->). simpl.
    destruct (Hsegs s Hs) as (? & ? & ? & ?). repeat split; auto; lia.
Qed.

Lemma ready_same (mmp mmp' : MinMaxPrecomputed V) width :
  mmp_mrle mmp' = mmp_mrle mmp -> mmp_req mmp' = mmp_req mmp ->
  mmp_rowbuflen mmp' = mmp_rowbuflen mmp -> mmp_kxres mmp' = mmp_kxres mmp ->
  mmp_kyres mmp' = mmp_kyres mmp ->
  mmp_ready mmp width -> mmp_ready mmp' width.
Proof.
  intros E1 E2 E3 E4 E5. unfold mmp_ready. now rewrite E1, E2, E3, E4, E5.
Qed.

(** The sweep over a valid area on a ready analysis returns. *)
Lemma execute_total_ready (dfield : GwyDataField V) (mmp : MinMaxPrecomputed V)
    (maximum : bool) col row width height (outbuf : buf V) :
  mmp_ready mmp width ->
  1 <= height -> row + height <= yres dfield ->
  exists out' mmp',
    gwy_data_field_area_min_max_execute V ltb dfield mmp maximum
      col row width height outbuf = Some (out', mmp') /\
    mmp_mrle mmp' = mmp_mrle mmp /\ mmp_kxres mmp' = mmp_kxres mmp /\
    mmp_kyres mmp' = mmp_kyres mmp /\ mmp_ready mmp' width.
Proof.
  intros Hr Hh Hrw.
  pose proof Hr as (Hplan & Hmax & Hkx & Hky & Hb & Hne & Hsegs).
  destruct (min_max_execute_total V ltb dfield mmp maximum
              col row width height Hplan Hmax Hky Hh Hrw Hne outbuf)
    as (out' & mmp' & E & E1 & E2 & E3 & E4 & E5).
  exists out', mmp'. split; [assumption|]. split; [assumption|].
  split; [assumption|]. split; [assumption|].
  now apply (ready_same mmp).
Qed.

Lemma region_guard (dfield : GwyDataField V) col row width height :
  1 <= width -> 1 <= height ->
  col + width <= xres dfield -> row + height <= yres dfield ->
  negb ((0 <? width) && (0 <? height) && (col + width <=? xres dfield)
        && (row + height <=? yres dfield)) = false.
Proof.
  intros. destruct (Nat.ltb_spec 0 width); [|lia].
  destruct (Nat.ltb_spec 0 height); [|lia].
  destruct (Nat.leb_spec (col + width) (xres dfield)); [|lia].
  destruct (Nat.leb_spec (row + height) (yres dfield)); [|lia].
  reflexivity.
Qed.

Lemma region_index row col xr i j :
  (row + i) * xr + (col + j) = row * xr + col + (i * xr + j).
Proof. rewrite Nat.mul_add_distr_r. lia. Qed.

Local Abbreviation real :=
  (gwy_data_field_area_filter_min_max_real V ltb is_nonzero veqb vsub vdiv vhalf).

(** Minimum and Maximum return on every valid area. *)
Lemma real_minimum_total (u : Uninit V) (data_field kernel : GwyDataField V)
    (is_max : bool) col row width height :
  (exists r c, kernel_cell is_nonzero kernel r c) ->
  1 <= width -> 1 <= height ->
  col + width <= xres data_field -> row + height <= yres data_field ->
  exists outbuf,
    real u data_field kernel
      (if is_max then GWY_MIN_MAX_FILTER_MAXIMUM else GWY_MIN_MAX_FILTER_MINIMUM)
      col row width height
    = Some (with_data V data_field
              (write_rows V height 0 (data data_field)
                 (row * xres data_field + col) (xres data_field)
                 outbuf width)).
Proof.
  intros Hcell Hw Hh Hc Hr.
  unfold gwy_data_field_area_filter_min_max_real.
  rewrite region_guard by assumption.
  destruct (analyse_ready u 0 kernel width Hcell) as (mmp & E & Em & Ex & Ey & Hrd).
  destruct is_max; rewrite E; unfold obind.
  - destruct (execute_total_ready data_field (mmp_flip V mmp) true col row width
                height (u_outbuf u) (flip_ready mmp width Hrd) Hh Hr)
      as (out' & mmp' & E' & _).
    rewrite E'. eexists. reflexivity.
  - destruct (execute_total_ready data_field mmp false col row width height
                (u_outbuf u) Hrd Hh Hr) as (out' & mmp' & E' & _).
    rewrite E'. eexists. reflexivity.
Qed.

(** Opening and Closing return on every valid area. *)
Lemma real_opening_total (u : Uninit V) (data_field kernel : GwyDataField V)
    (is_closing : bool) col row width height :
  (exists r c, kernel_cell is_nonzero kernel r c) ->
  1 <= width -> 1 <= height ->
  col + width <= xres data_field -> row + height <= yres data_field ->
  exists outbuf,
    real u data_field kernel
      (if is_closing then GWY_MIN_MAX_FILTER_CLOSING
       else GWY_MIN_MAX_FILTER_OPENING)
      col row width height
    = Some (with_data V data_field
              (write_rows V height 0 (data data_field)
                 (row * xres data_field + col) (xres data_field)
                 outbuf width)).
Proof.
  intros Hcell Hw Hh Hc Hr.
  unfold gwy_data_field_area_filter_min_max_real.
  rewrite region_guard by assumption.
  set (extcol := Nat.max 0 (col - xres kernel / 2)).
  set (extrow := Nat.max 0 (row - yres kernel / 2)).
  set (extwidth := Nat.min (xres data_field) (col + width + xres kernel / 2)
                   - extcol).
  set (extheight := Nat.min (yres data_field) (row + height + yres kernel / 2)
                    - extrow).
  assert (Hext : 1 <= extwidth /\ 1 <= extheight /\
                 extcol + extwidth <= xres data_field /\
                 extrow + extheight <= yres data_field /\
                 col - extcol + width <= extwidth /\
                 row - extrow + height <= extheight).
  { exact (ext_area_bounds (xres data_field) (yres data_field) col row
             width height (xres kernel / 2) (yres kernel / 2) Hw Hh Hc Hr). }
  destruct Hext as (X1 & X2 & X3 & X4 & X5 & X6).
  destruct (analyse_ready u 0 kernel extwidth Hcell)
    as (mmp & E & Em & Ex & Ey & Hrd).
  destruct (analyse_ready u 1 kernel width Hcell)
    as (mmpb & Eb & Emb & Exb & Eyb & Hrdb).
  assert (Hpass2 : forall (tmpdata : buf V) (m : MinMaxPrecomputed V) mx,
            mmp_ready m width ->
            exists r,
              gwy_data_field_area_min_max_execute V ltb
                (mkField extwidth extheight tmpdata) m mx
                (col - extcol) (row - extrow) width height (u_outbuf u)
              = Some r).
  { intros tmpdata m mx Hm.
    destruct (execute_total_ready (mkField extwidth extheight tmpdata) m mx
                (col - extcol) (row - extrow) width height (u_outbuf u)
                Hm Hh) as (out' & mmp' & E' & _); simpl; try lia.
    eauto. }
  destruct is_closing; rewrite E; unfold obind, negb.
  - destruct (execute_total_ready data_field (mmp_flip V mmp) true
                extcol extrow extwidth extheight (u_tmpfield u)
                (flip_ready mmp extwidth Hrd) X2 X4)
      as (tmp & mmp1 & E1 & _ & _ & _ & Hrd1).
    rewrite E1.
    destruct ((extcol =? col) && (extrow =? row) && (extwidth =? width)
              && (extheight =? height)) eqn:Hfull.
    + assert (extwidth = width).
      { rewrite !andb_true_iff in Hfull. destruct Hfull as ((_ & H) & _).
        now apply Nat.eqb_eq in H. }
      destruct (Hpass2 tmp (mmp_flip V mmp1) false) as (r & Er).
      { apply flip_ready. congruence. }
      rewrite Er. eexists. reflexivity.
    + rewrite Eb.
      destruct (Hpass2 tmp mmpb false Hrdb) as (r & Er).
      rewrite Er. eexists. reflexivity.
  - destruct (execute_total_ready data_field mmp false
                extcol extrow extwidth extheight (u_tmpfield u)
                Hrd X2 X4)
      as (tmp & mmp1 & E1 & _ & _ & _ & Hrd1).
    rewrite E1.
    destruct ((extcol =? col) && (extrow =? row) && (extwidth =? width)
              && (extheight =? height)) eqn:Hfull.
    + assert (extwidth = width).
      { rewrite !andb_true_iff in Hfull. destruct Hfull as ((_ & H) & _).
        now apply Nat.eqb_eq in H. }
      destruct (Hpass2 tmp (mmp_flip V mmp1) true) as (r & Er).
      { apply flip_ready. congruence. }
      rewrite Er. eexists. reflexivity.
    + rewrite Eb.
      destruct (Hpass2 tmp (mmp_flip V mmpb) true (flip_ready mmpb width Hrdb))
        as (r & Er).
      rewrite Er. eexists. reflexivity.
Qed.

(** Range and Normalization run the two sweeps and return. *)
Lemma real_two_pass_total (u : Uninit V) (data_field kernel : GwyDataField V)
    col row width height :
  (exists r c, kernel_cell is_nonzero kernel r c) ->
  1 <= width -> 1 <= height ->
  col + width <= xres data_field -> row + height <= yres data_field ->
  exists mmp outbuf mmp1 outbuf2 mmp2,
    gwy_data_field_area_rle_analyse V is_nonzero u 0 kernel width = Some mmp /\
    gwy_data_field_area_min_max_execute V ltb data_field mmp false
      col row width height (u_outbuf u) = Some (outbuf, mmp1) /\
    gwy_data_field_area_min_max_execute V ltb data_field (mmp_flip V mmp1) true
      col row width height (u_outbuf2 u) = Some (outbuf2, mmp2) /\
    real u data_field kernel GWY_MIN_MAX_FILTER_RANGE col row width height
    = Some (with_data V data_field
              (range_rows V vsub height 0 (data data_field)
                 (row * xres data_field + col) (xres data_field)
                 outbuf outbuf2 width)) /\
    real u data_field kernel GWY_MIN_MAX_FILTER_NORMALIZATION
      col row width height
    = Some (with_data V data_field
              (normalize_rows V veqb vsub vdiv vhalf height 0 (data data_field)
                 (row * xres data_field + col) (xres data_field)
                 outbuf outbuf2 width)).
Proof.
  intros Hcell Hw Hh Hc Hr.
  unfold gwy_data_field_area_filter_min_max_real.
  rewrite region_guard by assumption.
  destruct (analyse_ready u 0 kernel width Hcell) as (mmp & E & Em & Ex & Ey & Hrd).
  rewrite E. unfold obind.
  destruct (execute_total_ready data_field mmp false col row width height
              (u_outbuf u) Hrd Hh Hr) as (out1 & mmp1 & E1 & _ & _ & _ & Hrd1).
  rewrite E1.
  destruct (execute_total_ready data_field (mmp_flip V mmp1) true col row width
              height (u_outbuf2 u) (flip_ready mmp1 width Hrd1) Hh Hr)
    as (out2 & mmp2 & E2 & _).
  rewrite E2. exists mmp, out1, mmp1, out2, mmp2. auto.
Qed.

(** Every operation returns, keeps the resolution, and changes no cell
    outside the area. *)
Lemma real_frame (u : Uninit V) (data_field kernel : GwyDataField V)
    filtertype col row width height :
  (exists r c, kernel_cell is_nonzero kernel r c) ->
  exists data_field',
    real u data_field kernel filtertype col row width height
    = Some data_field' /\
    xres data_field' = xres data_field /\ yres data_field' = yres data_field /\
    forall k,
      (forall i j, i < height -> j < width ->
                   k <> (row + i) * xres data_field + (col + j)) ->
      data data_field' k = data data_field k.
Proof.
  intros Hcell.
  destruct (negb ((0 <? width) && (0 <? height)
                  && (col + width <=? xres data_field)
                  && (row + height <=? yres data_field))) eqn:Hg.
  { unfold gwy_data_field_area_filter_min_max_real. rewrite Hg.
    exists data_field. auto. }
  assert (Hreg : 1 <= width /\ 1 <= height /\ col + width <= xres data_field
                 /\ row + height <= yres data_field).
  { apply negb_false_iff in Hg. rewrite !andb_true_iff in Hg.
    destruct Hg as (((H1 & H2) & H3) & H4).
    apply Nat.ltb_lt in H1, H2. apply Nat.leb_le in H3, H4. lia. }
  destruct Hreg as (Hw & Hh & Hc & Hr).
  assert (Hframe : forall (out : buf V) k,
            (forall i j, i < height -> j < width ->
                         k <> (row + i) * xres data_field + (col + j)) ->
            write_rows V height 0 (data data_field)
              (row * xres data_field + col) (xres data_field) out width k
            = data data_field k).
  { intros out k Hk. apply (write_rows_frame V veqb vsub vdiv vhalf); [lia|].
    intros i j Hi Hj. rewrite <- region_index. apply Hk; [lia|assumption]. }
  destruct filtertype.
  - destruct (real_minimum_total u data_field kernel false col row width height)
      as (out & E); auto.
    rewrite E. eexists. split; [reflexivity|]. simpl. auto.
  - destruct (real_minimum_total u data_field kernel true col row width height)
      as (out & E); auto.
    rewrite E. eexists. split; [reflexivity|]. simpl. auto.
  - destruct (real_opening_total u data_field kernel false col row width height)
      as (out & E); auto.
    rewrite E. eexists. split; [reflexivity|]. simpl. auto.
  - destruct (real_opening_total u data_field kernel true col row width height)
      as (out & E); auto.
    rewrite E. eexists. split; [reflexivity|]. simpl. auto.
  - destruct (real_two_pass_total u data_field kernel col row width height)
      as (m0 & out1 & m1 & out2 & m2 & _ & _ & _ & E & _); auto.
    rewrite E. eexists. split; [reflexivity|]. simpl.
    split; [reflexivity|]. split; [reflexivity|].
    intros k Hk. apply (range_rows_frame V veqb vsub vdiv vhalf); [lia|].
    intros i j Hi Hj. rewrite <- region_index. apply Hk; [lia|assumption].
  - destruct (real_two_pass_total u data_field kernel col row width height)
      as (m0 & out1 & m1 & out2 & m2 & _ & _ & _ & _ & E); auto.
    rewrite E. eexists. split; [reflexivity|]. simpl.
    split; [reflexivity|]. split; [reflexivity|].
    intros k Hk. apply (normalize_rows_frame V veqb vsub vdiv vhalf); [lia|].
    intros i j Hi Hj. rewrite <- region_index. apply Hk; [lia|assumption].
Qed.

(** *** The values the operations compute *)

Hypothesis ltb_asym : forall a b, ltb a b = true -> ltb b a = false.
Hypothesis ltb_ntrans :
  forall a b c, ltb a b = false -> ltb b c = false -> ltb a c = false.

(** The output of a sweep whose first row has its rows below it in the
    field (or that needs no row above it). *)
Lemma execute_window (dfield : GwyDataField V) (mmp : MinMaxPrecomputed V)
    (maximum : bool) col row width height (outbuf out' : buf V) mmp' :
  mmp_ready mmp width ->
  1 <= width -> 1 <= height ->
  col + width <= xres dfield -> row + height <= yres dfield ->
  extend_up V mmp maximum = 0 \/
  row + extend_down V mmp maximum < yres dfield ->
  gwy_data_field_area_min_max_execute V ltb dfield mmp maximum
    col row width height outbuf = Some (out', mmp') ->
  forall i j, i < height -> j < width ->
    is_extremum_of (sweep_le V ltb maximum)
      (rle_window dfield (mmp_mrle mmp) (extend_up V mmp maximum)
         (extend_left V mmp maximum) (row + i) (col + j))
      (out' (i * width + j)).
Proof.
  intros (Hplan & Hmax & Hkx & Hky & Hb & Hne & Hsegs) Hw Hh Hc Hrw Hnoslip E.
  destruct (min_max_execute_ok V ltb ltb_asym ltb_ntrans dfield mmp maximum
              col row width height Hplan Hmax Hkx Hky Hb Hw Hc Hh Hrw Hnoslip
              Hsegs Hne outbuf)
    as (out2 & mmp2 & E' & _ & _ & _ & _ & _ & Hwin).
  rewrite E in E'. inversion E'; subst out2 mmp2. exact Hwin.
Qed.

(** Erosion: every pixel of the area becomes a minimum of its erosion
    neighbourhood in the border-extended field, and no other cell of the
    field changes. *)
Lemma real_minimum_ok (u : Uninit V) (data_field kernel : GwyDataField V)
    col row width height :
  (exists r c, kernel_cell is_nonzero kernel r c) ->
  1 <= width -> 1 <= height ->
  col + width <= xres data_field -> row + height <= yres data_field ->
  yres kernel <= 2 \/ row + yres kernel / 2 < yres data_field ->
  exists data_field',
    real u data_field kernel GWY_MIN_MAX_FILTER_MINIMUM col row width height
    = Some data_field' /\
    xres data_field' = xres data_field /\ yres data_field' = yres data_field /\
    (forall i j, i < height -> j < width ->
       is_extremum_of (le_min ltb)
         (erosion_window data_field is_nonzero kernel (row + i) (col + j))
         (data data_field' ((row + i) * xres data_field + (col + j)))) /\
    (forall k,
       (forall i j, i < height -> j < width ->
                    k <> (row + i) * xres data_field + (col + j)) ->
       data data_field' k = data data_field k).
Proof.
  intros Hcell Hw Hh Hc Hr Hslip.
  unfold gwy_data_field_area_filter_min_max_real.
  rewrite region_guard by assumption.
  destruct (analyse_ready u 0 kernel width Hcell) as (mmp & E & Em & Ex & Ey & Hrd).
  rewrite E. unfold obind.
  destruct (execute_total_ready data_field mmp false col row width height
              (u_outbuf u) Hrd Hh Hr) as (out' & mmp' & E' & _).
  pose proof (fun Hn => execute_window data_field mmp false col row width height
                          (u_outbuf u) out' mmp' Hrd Hw Hh Hc Hr Hn E') as Hwin.
  rewrite E'. eexists. split; [reflexivity|]. simpl.
  split; [reflexivity|]. split; [reflexivity|]. split.
  - intros i j Hi Hj. rewrite region_index.
    rewrite (write_rows_at V veqb vsub vdiv vhalf) by lia.
    eapply is_extremum_of_iff; [|apply Hwin; auto].
    + intros w. unfold extend_up, extend_left. rewrite Em, Ex, Ey.
      apply rle_window_erosion.
    + unfold extend_up, extend_down. rewrite Ey. lia.
  - intros k Hk. apply (write_rows_frame V veqb vsub vdiv vhalf); [lia|].
    intros i j Hi Hj. rewrite <- region_index. apply Hk; [lia|assumption].
Qed.

(** Dilation: every pixel of the area becomes a maximum of its dilation
    neighbourhood, the neighbourhood of the reflected kernel. *)
Lemma real_maximum_ok (u : Uninit V) (data_field kernel : GwyDataField V)
    col row width height :
  (exists r c, kernel_cell is_nonzero kernel r c) ->
  1 <= width -> 1 <= height ->
  col + width <= xres data_field -> row + height <= yres data_field ->
  yres kernel <= 1 \/ row + (yres kernel - 1) / 2 < yres data_field ->
  exists data_field',
    real u data_field kernel GWY_MIN_MAX_FILTER_MAXIMUM col row width height
    = Some data_field' /\
    xres data_field' = xres data_field /\ yres data_field' = yres data_field /\
    (forall i j, i < height -> j < width ->
       is_extremum_of (le_max ltb)
         (dilation_window data_field is_nonzero kernel (row + i) (col + j))
         (data data_field' ((row + i) * xres data_field + (col + j)))) /\
    (forall k,
       (forall i j, i < height -> j < width ->
                    k <> (row + i) * xres data_field + (col + j)) ->
       data data_field' k = data data_field k).
Proof.
  intros Hcell Hw Hh Hc Hr Hslip.
  unfold gwy_data_field_area_filter_min_max_real.
  rewrite region_guard by assumption.
  destruct (analyse_ready u 0 kernel width Hcell) as (mmp & E & Em & Ex & Ey & Hrd).
  rewrite E. unfold obind.
  destruct (execute_total_ready data_field (mmp_flip V mmp) true col row width
              height (u_outbuf u) (flip_ready mmp width Hrd) Hh Hr)
    as (out' & mmp' & E' & _).
  pose proof (fun Hn => execute_window data_field (mmp_flip V mmp) true col row
                          width height (u_outbuf u) out' mmp'
                          (flip_ready mmp width Hrd) Hw Hh Hc Hr Hn E') as Hwin.
  rewrite E'. eexists. split; [reflexivity|]. simpl.
  split; [reflexivity|]. split; [reflexivity|]. split.
  - intros i j Hi Hj. rewrite region_index.
    rewrite (write_rows_at V veqb vsub vdiv vhalf) by lia.
    eapply is_extremum_of_iff; [|apply Hwin; auto].
    + intros w. unfold extend_up, extend_left, mmp_flip. simpl.
      rewrite Em, Ex, Ey. apply rle_window_dilation.
    + unfold extend_up, extend_down, mmp_flip. simpl. rewrite Ey.
      destruct (analyse_ready u 0 kernel width Hcell) as (? & _).
      destruct Hrd as (_ & _ & _ & Hky & _). lia.
  - intros k Hk. apply (write_rows_frame V veqb vsub vdiv vhalf); [lia|].
    intros i j Hi Hj. rewrite <- region_index. apply Hk; [lia|assumption].
Qed.

(** Range and Normalization: the two sweeps and what is written back. *)
Lemma real_two_pass_ok (u : Uninit V) (data_field kernel : GwyDataField V)
    col row width height :
  (exists r c, kernel_cell is_nonzero kernel r c) ->
  1 <= width -> 1 <= height ->
  col + width <= xres data_field -> row + height <= yres data_field ->
  exists outbuf outbuf2,
    real u data_field kernel GWY_MIN_MAX_FILTER_RANGE col row width height
    = Some (with_data V data_field
              (range_rows V vsub height 0 (data data_field)
                 (row * xres data_field + col) (xres data_field)
                 outbuf outbuf2 width)) /\
    real u data_field kernel GWY_MIN_MAX_FILTER_NORMALIZATION
      col row width height
    = Some (with_data V data_field
              (normalize_rows V veqb vsub vdiv vhalf height 0 (data data_field)
                 (row * xres data_field + col) (xres data_field)
                 outbuf outbuf2 width)) /\
    (yres kernel <= 2 \/ row + yres kernel / 2 < yres data_field ->
     forall i j, i < height -> j < width ->
       is_extremum_of (le_min ltb)
         (erosion_window data_field is_nonzero kernel (row + i) (col + j))
         (outbuf (i * width + j)) /\
       is_extremum_of (le_max ltb)
         (dilation_window data_field is_nonzero kernel (row + i) (col + j))
         (outbuf2 (i * width + j))).
Proof.
  intros Hcell Hw Hh Hc Hr.
  destruct (real_two_pass_total u data_field kernel col row width height
              Hcell Hw Hh Hc Hr)
    as (mmp & out1 & mmp1 & out2 & mmp2 & E & E1 & E2 & R1 & R2).
  exists out1, out2. split; [assumption|]. split; [assumption|].
  destruct (analyse_ready u 0 kernel width Hcell)
    as (mmp0 & E0 & Em & Ex & Ey & Hrd).
  rewrite E in E0. inversion E0; subst mmp0.
  destruct (execute_total_ready data_field mmp false col row width height
              (u_outbuf u) Hrd Hh Hr)
    as (out1' & mmp1' & E1' & Em1 & Ex1 & Ey1 & Hrd1).
  rewrite E1 in E1'. inversion E1'; subst out1' mmp1'.
  intros Hslip i j Hi Hj.
  assert (Hky : 1 <= yres kernel)
    by (destruct Hrd as (_ & _ & _ & Hky & _); lia).
  split.
  - eapply is_extremum_of_iff;
      [|apply (execute_window data_field mmp false col row width height
                 (u_outbuf u) out1 mmp1 Hrd Hw Hh Hc Hr); auto].
    + intros w. unfold extend_up, extend_left. rewrite Em, Ex, Ey.
      apply rle_window_erosion.
    + unfold extend_up, extend_down. rewrite Ey. lia.
  - eapply is_extremum_of_iff;
      [|apply (execute_window data_field (mmp_flip V mmp1) true col row width
                 height (u_outbuf2 u) out2 mmp2 (flip_ready mmp1 width Hrd1)
                 Hw Hh Hc Hr); auto].
    + intros w. unfold extend_up, extend_left, mmp_flip. simpl.
      rewrite Em1, Ex1, Ey1, Em, Ex, Ey. apply rle_window_dilation.
    + unfold extend_up, extend_down, mmp_flip. simpl. rewrite Ey1, Ey. lia.
Qed.

End Operations.

(** ** The properties of the specification *)

(** *** The planner *)

Lemma find_all_positive : forall blens req req',
  find_required_lengths_all req blens = Some req' ->
  forall b, In b blens -> 1 <= b.
Proof.
  induction blens as [|b0 r IH]; intros req req' H b Hb; [destruct Hb|].
  simpl in H. unfold obind in H.
  destruct (find_required_lengths_recursive b0 req b0 false) as [r1|] eqn:E;
    [|discriminate].
  destruct Hb as [<-|Hb]; [|eapply IH; eauto].
  destruct b0; [discriminate E|lia].
Qed.

(** A plan the planner returns is well formed, and it was asked for a
    non-empty set of positive lengths. *)
Lemma find_required_lengths_for_set_some blocklens req :
  find_required_lengths_for_set blocklens = Some req ->
  plan_ok req /\ 1 <= maxlen_each req /\
  (forall l, In l blocklens -> needed (req_each req l) = true).
Proof.
  intros H.
  assert (Hne : blocklens <> []) by (intros ->; discriminate H).
  assert (Hpos : forall l, In l blocklens -> 1 <= l).
  { unfold find_required_lengths_for_set in H.
    pose proof (sort_guint_ascending blocklens) as Hs.
    destruct (unique_lengths (sort_guint blocklens)) as [|x ul] eqn:Eu;
      [discriminate|].
    unfold obind in H.
    destruct (find_required_lengths_all _ (x :: ul)) as [r|] eqn:E;
      [|discriminate].
    intros l Hl. eapply find_all_positive; [exact E|].
    rewrite <- Eu. apply unique_lengths_in; [assumption|].
    now apply sort_guint_in. }
  destruct (find_required_lengths_for_set_spec blocklens Hne Hpos)
    as (req0 & E & Hplan & Hneed & Hle & Hmax).
  rewrite E in H. inversion H; subst req0.
  split; [assumption|]. split; [|assumption].
  apply Hpos. assumption.
Qed.

(** *** C1: the row fill *)

(** C1.  After the fill of a row of [rowlen] cells under a plan of the
    planner, every needed each-buffer holds at every start index [i] with
    [i + L <= rowlen] the exact minimum (min fill) or maximum (max fill) of
    the cells [i .. i+L-1] of the row, and every needed even-buffer holds
    it at every even start index; both fills return.  The order of the
    samples is assumed to be a strict weak order, as [<] is on numbers. *)
Theorem row_fill_exact_extrema :
  forall (V : Type) (ltb : V -> V -> bool),
    (forall a b, ltb a b = true -> ltb b a = false) ->
    (forall a b c, ltb a b = false -> ltb b c = false -> ltb a c = false) ->
  forall blocklens req (x : buf V) rowlen (prow : MinMaxPrecomputedRow V),
    find_required_lengths_for_set blocklens = Some req ->
    exists pmin pmax,
      min_precomputed_row_fill V ltb req prow x rowlen = Some pmin /\
      max_precomputed_row_fill V ltb req prow x rowlen = Some pmax /\
      (forall L i, needed (req_each req L) = true -> i + L <= rowlen ->
         is_extremum (le_min ltb) x i L (prow_each pmin L i) /\
         is_extremum (le_max ltb) x i L (prow_each pmax L i)) /\
      (forall L i, needed (req_even req L) = true ->
         i mod 2 = 0 -> i + L <= rowlen ->
         is_extremum (le_min ltb) x i L (prow_even pmin L i) /\
         is_extremum (le_max ltb) x i L (prow_even pmax L i)).
Proof.
  intros V ltb Hasym Hntrans blocklens req x rowlen prow Hreq.
  destruct (find_required_lengths_for_set_some blocklens req Hreq)
    as (Hplan & Hmax & _).
  destruct (min_precomputed_row_fill_valid V ltb Hasym Hntrans req x rowlen prow
              Hplan Hmax) as (pmin & Emin & (A1 & A2)).
  destruct (max_precomputed_row_fill_valid V ltb Hasym Hntrans req x rowlen prow
              Hplan Hmax) as (pmax & Emax & (B1 & B2)).
  exists pmin, pmax. split; [assumption|]. split; [assumption|]. split.
  - intros L i HN Hi. split; [now apply A1|now apply B1].
  - intros L i HN Hi0 Hi. split; [now apply A2|now apply B2].
Qed.

(** Rational samples are ordered as the fill needs. *)
Lemma Qltb_false a b : QSample.ltb a b = false <-> (b <= a)%Q.
Proof.
  unfold QSample.ltb. rewrite negb_false_iff. apply Qle_bool_iff.
Qed.

Lemma Qltb_true a b : QSample.ltb a b = true <-> (a < b)%Q.
Proof.
  unfold QSample.ltb. rewrite negb_true_iff. split.
  - intros H. apply Qnot_le_lt. intros Hle. apply Qle_bool_iff in Hle. congruence.
  - intros H. destruct (Qle_bool b a) eqn:E; [|reflexivity].
    apply Qle_bool_iff in E. exfalso. exact (Qlt_not_le _ _ H E).
Qed.

Lemma Qltb_asym a b : QSample.ltb a b = true -> QSample.ltb b a = false.
Proof. rewrite Qltb_true, Qltb_false. apply Qlt_le_weak. Qed.

Lemma Qltb_ntrans a b c :
  QSample.ltb a b = false -> QSample.ltb b c = false -> QSample.ltb a c = false.
Proof. rewrite !Qltb_false. intros H1 H2. eapply Qle_trans; eauto. Qed.

Lemma row_fill_exact_extrema_witness :
  find_required_lengths_for_set [3; 5] = Some (plan_of [3; 5]) /\
  exists pmin pmax,
    min_precomputed_row_fill Q QSample.ltb (plan_of [3; 5])
      (mkRow (fun _ _ => 0%Q) (fun _ _ => 0%Q))
      (QSample.cells (map inject_Z [3; 1; 4; 1; 5; 9; 2]%Z)) 7 = Some pmin /\
    max_precomputed_row_fill Q QSample.ltb (plan_of [3; 5])
      (mkRow (fun _ _ => 0%Q) (fun _ _ => 0%Q))
      (QSample.cells (map inject_Z [3; 1; 4; 1; 5; 9; 2]%Z)) 7 = Some pmax /\
    (forall L i, needed (req_each (plan_of [3; 5]) L) = true -> i + L <= 7 ->
       is_extremum (le_min QSample.ltb)
         (QSample.cells (map inject_Z [3; 1; 4; 1; 5; 9; 2]%Z)) i L
         (prow_each pmin L i) /\
       is_extremum (le_max QSample.ltb)
         (QSample.cells (map inject_Z [3; 1; 4; 1; 5; 9; 2]%Z)) i L
         (prow_each pmax L i)) /\
    (forall L i, needed (req_even (plan_of [3; 5]) L) = true ->
       i mod 2 = 0 -> i + L <= 7 ->
       is_extremum (le_min QSample.ltb)
         (QSample.cells (map inject_Z [3; 1; 4; 1; 5; 9; 2]%Z)) i L
         (prow_even pmin L i) /\
       is_extremum (le_max QSample.ltb)
         (QSample.cells (map inject_Z [3; 1; 4; 1; 5; 9; 2]%Z)) i L
         (prow_even pmax L i)).
Proof.
  assert (H : find_required_lengths_for_set [3; 5] = Some (plan_of [3; 5]))
    by (vm_compute; reflexivity).
  split; [exact H|].
  exact (row_fill_exact_extrema Q QSample.ltb Qltb_asym Qltb_ntrans [3; 5]
           (plan_of [3; 5]) _ 7 _ H).
Defined.

(** *** C5: the rules of the even-table *)

(** The plan for the single length 11 needs Even(6), that is Even(4m+2)
    with m = 1; its entry records the sub-lengths 2 and 4, in this order,
    not 2m+2 = 4 followed by 2m = 2. *)
Lemma even_rule_order_counterexample :
  exists req,
    find_required_lengths_for_set [11] = Some req /\
    needed (req_even req 6) = true /\
    sublen1 (req_even req 6) = 2 /\ sublen2 (req_even req 6) = 4 /\
    ~ (sublen1 (req_even req 6) = 2 * 1 + 2 /\
       sublen2 (req_even req 6) = 2 * 1).
Proof.
  exists (plan_of [11]).
  split; [vm_compute; reflexivity|].
  split; [vm_compute; reflexivity|].
  split; [vm_compute; reflexivity|].
  split; [vm_compute; reflexivity|].
  vm_compute. intros (H & _). discriminate H.
Qed.

(** C5 (amended).  In a plan of the planner every needed entry of the
    even-table records its rule: Even(2) = Each(1) + Each(1);
    Even(4m) = Even(2m) + Even(2m); Even(4m+2) is composed of Even(2m) and
    Even(2m+2), recorded in this order (the shorter part first); the parts
    are needed themselves.  In both tables the two sub-lengths of a
    composed entry sum to its length. *)
Theorem even_rules_recorded :
  forall blocklens req,
    find_required_lengths_for_set blocklens = Some req ->
    (forall L, needed (req_even req L) = true ->
       let p := req_even req L in
       even_odd p = false /\
       (L = 2 ->
          sublen1 p = 1 /\ sublen2 p = 1 /\ even_even p = false /\
          needed (req_each req 1) = true) /\
       (forall m, 1 <= m -> L = 4 * m ->
          sublen1 p = 2 * m /\ sublen2 p = 2 * m /\ even_even p = true /\
          needed (req_even req (2 * m)) = true) /\
       (forall m, 1 <= m -> L = 4 * m + 2 ->
          sublen1 p = 2 * m /\ sublen2 p = 2 * m + 2 /\ even_even p = true /\
          needed (req_even req (2 * m)) = true /\
          needed (req_even req (2 * m + 2)) = true) /\
       (exists m, L = 2 \/ (1 <= m /\ (L = 4 * m \/ L = 4 * m + 2))) /\
       sublen1 p + sublen2 p = L) /\
    (forall L, 2 <= L -> needed (req_each req L) = true ->
       sublen1 (req_each req L) + sublen2 (req_each req L) = L).
Proof.
  intros blocklens req Hreq.
  destruct (find_required_lengths_for_set_some blocklens req Hreq)
    as (((W1 & W2) & _) & _).
  split.
  - intros L HN p.
    destruct (W2 L HN) as (Hev & HL & Heo & R2 & R4 & R42). fold p in Heo, R2, R4, R42.
    split; [assumption|]. split; [|split; [|split; [|split]]].
    + intros ->. destruct (R2 eq_refl) as (? & ? & ? & ?). auto.
    + intros m Hm ->. destruct R4 as (? & ? & ? & ?); [lia|lia|].
      replace (4 * m / 2) with (2 * m) in * by lia. auto.
    + intros m Hm ->. destruct R42 as (? & ? & ? & ? & ?); [lia|lia|].
      replace ((4 * m + 2) / 2 - 1) with (2 * m) in * by lia.
      replace ((4 * m + 2) / 2 + 1) with (2 * m + 2) in * by lia. auto.
    + exists (L / 4). lia.
    + destruct (Nat.eq_dec L 2) as [->|Hne].
      * destruct (R2 eq_refl) as (? & -> & -> & ?). reflexivity.
      * assert (L mod 4 = 0 \/ L mod 4 = 2) as [H4|H4] by lia.
        -- destruct R4 as (? & -> & -> & ?); [lia|assumption|]. lia.
        -- destruct R42 as (? & -> & -> & ?); [lia|assumption|]. lia.
  - intros L HL HN. destruct (W1 L HN) as (_ & Hok).
    destruct (Hok HL) as (_ & Hsum & _). exact Hsum.
Qed.

Lemma even_rules_recorded_witness :
  find_required_lengths_for_set [11] = Some (plan_of [11]) /\
  sublen1 (req_even (plan_of [11]) 6) = 2 /\
  sublen2 (req_even (plan_of [11]) 6) = 4.
Proof.
  assert (H : find_required_lengths_for_set [11] = Some (plan_of [11]))
    by (vm_compute; reflexivity).
  split; [exact H|].
  destruct (even_rules_recorded [11] (plan_of [11]) H) as (He & _).
  destruct (He 6 eq_refl) as (_ & _ & _ & R & _).
  destruct (R 1) as (H1 & H2 & _); [lia|reflexivity|].
  split; assumption.
Defined.

(** *** The extension amounts *)

(** With [k] the extent of the kernel along an axis, a minimum pass
    computes the amounts [(k-1)/2] before the data and [k/2] after it, a
    maximum pass [k/2] before and [(k-1)/2] after, along rows and along
    columns alike; and cell [j] of the row that a pass extends holds the
    sample of the source row at the column [col + j] less the amount
    before, moved into the row where it falls outside. *)
Lemma extension_amounts :
  forall (V : Type) (dfield : GwyDataField V) (mmp : MinMaxPrecomputed V)
         col width r (extrowbuf : buf V) j,
    1 <= mmp_kxres mmp -> 1 <= width -> col + width <= xres dfield ->
    j < width + mmp_kxres mmp - 1 ->
    (extend_left V mmp false = (mmp_kxres mmp - 1) / 2 /\
     extend_right V mmp false = mmp_kxres mmp / 2 /\
     extend_up V mmp false = (mmp_kyres mmp - 1) / 2 /\
     extend_down V mmp false = mmp_kyres mmp / 2) /\
    (extend_left V mmp true = mmp_kxres mmp / 2 /\
     extend_right V mmp true = (mmp_kxres mmp - 1) / 2 /\
     extend_up V mmp true = mmp_kyres mmp / 2 /\
     extend_down V mmp true = (mmp_kyres mmp - 1) / 2) /\
    extend_field_row V dfield mmp false col width r extrowbuf j
    = data dfield (xres dfield * r
                   + clamp (col + j - (mmp_kxres mmp - 1) / 2) (xres dfield)) /\
    extend_field_row V dfield mmp true col width r extrowbuf j
    = data dfield (xres dfield * r
                   + clamp (col + j - mmp_kxres mmp / 2) (xres dfield)).
Proof.
  intros V dfield mmp col width r extrowbuf j Hkx Hw Hc Hj.
  split; [repeat split|]. split; [repeat split|].
  unfold extend_field_row, extend_left, extend_right.
  rewrite !row_extend_border_spec by lia.
  destruct (Nat.ltb_spec j ((mmp_kxres mmp - 1) / 2 + width + mmp_kxres mmp / 2));
    [|lia].
  destruct (Nat.ltb_spec j (mmp_kxres mmp / 2 + width + (mmp_kxres mmp - 1) / 2));
    [|lia].
  unfold field_row, clamp. split; reflexivity.
Qed.

Lemma extension_amounts_witness :
  extend_field_row Q (QSample.raster 5 1 [3; 1; 4; 1; 5]%Z)
    (mkMmp [] (plan_of [4]) (fun _ => mkRow (fun _ _ => 0%Q) (fun _ _ => 0%Q))
           (fun _ => 0%Q) 8 4 1)
    false 0 5 0 (fun _ => 0%Q) 0
  = 3%Q /\
  extend_field_row Q (QSample.raster 5 1 [3; 1; 4; 1; 5]%Z)
    (mkMmp [] (plan_of [4]) (fun _ => mkRow (fun _ _ => 0%Q) (fun _ _ => 0%Q))
           (fun _ => 0%Q) 8 4 1)
    true 0 5 0 (fun _ => 0%Q) 7
  = 5%Q.
Proof.
  split.
  - destruct (extension_amounts Q (QSample.raster 5 1 [3; 1; 4; 1; 5]%Z)
                (mkMmp [] (plan_of [4])
                   (fun _ => mkRow (fun _ _ => 0%Q) (fun _ _ => 0%Q))
                   (fun _ => 0%Q) 8 4 1)
                0 5 0 (fun _ => 0%Q) 0) as (_ & _ & H & _);
      [simpl; lia|lia|simpl; lia|simpl; lia|].
    rewrite H. reflexivity.
  - destruct (extension_amounts Q (QSample.raster 5 1 [3; 1; 4; 1; 5]%Z)
                (mkMmp [] (plan_of [4])
                   (fun _ => mkRow (fun _ _ => 0%Q) (fun _ _ => 0%Q))
                   (fun _ => 0%Q) 8 4 1)
                0 5 0 (fun _ => 0%Q) 7) as (_ & _ & _ & H);
      [simpl; lia|lia|simpl; lia|simpl; lia|].
    rewrite H. reflexivity.
Defined.

(** *** C8, C9, C10: the entry point *)

(** C8.  When the autocropped kernel has no nonzero cell the entry point
    does nothing: for every operation and every area it returns with the
    data field (and the kernel) as they were. *)
Theorem empty_kernel_is_noop :
  forall (V : Type) (ltb : V -> V -> bool) (is_nonzero : V -> bool)
         (veqb : V -> V -> bool) (vsub vdiv : V -> V -> V) (vhalf : V)
         (autocrop : GwyDataField V -> GwyDataField V)
         (u : Uninit V) (data_field kernel : GwyDataField V)
         filtertype col row width height,
    kernel_is_nonempty V is_nonzero
      (autocrop (gwy_data_field_duplicate V kernel)) = false ->
    gwy_data_field_area_filter_min_max V ltb is_nonzero veqb vsub vdiv vhalf
      autocrop u data_field kernel filtertype col row width height
    = Some (data_field, kernel).
Proof.
  intros V ltb is_nonzero veqb vsub vdiv vhalf autocrop u data_field kernel
         filtertype col row width height H.
  unfold gwy_data_field_area_filter_min_max. rewrite H. reflexivity.
Qed.

Lemma empty_kernel_is_noop_witness :
  kernel_is_nonempty Q QSample.is_nonzero
    (QSample.autocrop_tight
       (gwy_data_field_duplicate Q (QSample.raster 2 2 [0; 0; 0; 0]%Z))) = false /\
  QSample.filter QSample.autocrop_tight (QSample.junk 0%Q)
    (QSample.raster 3 1 [3; 1; 4]%Z) (QSample.raster 2 2 [0; 0; 0; 0]%Z)
    GWY_MIN_MAX_FILTER_OPENING 0 0 3 1
  = Some (QSample.raster 3 1 [3; 1; 4]%Z, QSample.raster 2 2 [0; 0; 0; 0]%Z).
Proof.
  assert (H : kernel_is_nonempty Q QSample.is_nonzero
                (QSample.autocrop_tight
                   (gwy_data_field_duplicate Q
                      (QSample.raster 2 2 [0; 0; 0; 0]%Z))) = false)
    by reflexivity.
  split; [exact H|].
  exact (empty_kernel_is_noop Q QSample.ltb QSample.is_nonzero QSample.eqb
           QSample.sub QSample.div QSample.half QSample.autocrop_tight
           (QSample.junk 0%Q) (QSample.raster 3 1 [3; 1; 4]%Z)
           (QSample.raster 2 2 [0; 0; 0; 0]%Z) GWY_MIN_MAX_FILTER_OPENING
           0 0 3 1 H).
Defined.

(** C9.  For every operation, area and kernel the entry point returns; the
    data field keeps its resolution and every cell outside the area keeps
    its value; the caller's kernel is as it was. *)
Theorem filter_changes_only_the_area :
  forall (V : Type) (ltb : V -> V -> bool) (is_nonzero : V -> bool)
         (veqb : V -> V -> bool) (vsub vdiv : V -> V -> V) (vhalf : V)
         (autocrop : GwyDataField V -> GwyDataField V)
         (u : Uninit V) (data_field kernel : GwyDataField V)
         filtertype col row width height,
    exists data_field',
      gwy_data_field_area_filter_min_max V ltb is_nonzero veqb vsub vdiv vhalf
        autocrop u data_field kernel filtertype col row width height
      = Some (data_field', kernel) /\
      xres data_field' = xres data_field /\
      yres data_field' = yres data_field /\
      forall k,
        (forall i j, i < height -> j < width ->
                     k <> (row + i) * xres data_field + (col + j)) ->
        data data_field' k = data data_field k.
Proof.
  intros V ltb is_nonzero veqb vsub vdiv vhalf autocrop u data_field kernel
         filtertype col row width height.
  unfold gwy_data_field_area_filter_min_max.
  destruct (kernel_is_nonempty V is_nonzero
              (autocrop (gwy_data_field_duplicate V kernel))) eqn:Hk.
  - apply kernel_is_nonempty_cell in Hk.
    destruct (real_frame V ltb is_nonzero veqb vsub vdiv vhalf u data_field
                (autocrop (gwy_data_field_duplicate V kernel)) filtertype
                col row width height Hk) as (df' & E & Hx & Hy & Hf).
    rewrite E. exists df'. auto.
  - exists data_field. auto.
Qed.

(** C10.  The encoding of a kernel with a nonzero cell has a segment, and
    the entry point runs the operation only on such a kernel: with a
    nonzero cell in the autocropped kernel the encoding that reaches the
    sweep is not empty and the call returns, without one the call returns
    at once. *)
Theorem executor_always_has_a_segment :
  forall (V : Type) (ltb : V -> V -> bool) (is_nonzero : V -> bool)
         (veqb : V -> V -> bool) (vsub vdiv : V -> V -> V) (vhalf : V)
         (autocrop : GwyDataField V -> GwyDataField V)
         (u : Uninit V) (data_field kernel : GwyDataField V)
         filtertype col row width height,
    let redkernel := autocrop (gwy_data_field_duplicate V kernel) in
    (forall k : GwyDataField V,
       kernel_is_nonempty V is_nonzero k = true ->
       1 <= length (run_length_encode_mask V is_nonzero k) /\
       1 <= length (gwy_data_field_area_rle_flip
                      (run_length_encode_mask V is_nonzero k)
                      (xres k) (yres k))) /\
    (kernel_is_nonempty V is_nonzero redkernel = true ->
     gwy_data_field_area_filter_min_max V ltb is_nonzero veqb vsub vdiv vhalf
       autocrop u data_field kernel filtertype col row width height
     = obind (gwy_data_field_area_filter_min_max_real V ltb is_nonzero veqb
                vsub vdiv vhalf u data_field redkernel filtertype
                col row width height)
             (fun data_field' => Some (data_field', kernel)) /\
     exists data_field',
       gwy_data_field_area_filter_min_max_real V ltb is_nonzero veqb
         vsub vdiv vhalf u data_field redkernel filtertype col row width height
       = Some data_field') /\
    (kernel_is_nonempty V is_nonzero redkernel = false ->
     gwy_data_field_area_filter_min_max V ltb is_nonzero veqb vsub vdiv vhalf
       autocrop u data_field kernel filtertype col row width height
     = Some (data_field, kernel)).
Proof.
  intros V ltb is_nonzero veqb vsub vdiv vhalf autocrop u data_field kernel
         filtertype col row width height redkernel.
  split; [|split].
  - intros k Hk. apply kernel_is_nonempty_cell in Hk.
    destruct Hk as (r & c & Hcell).
    destruct (run_length_encode_mask_complete V is_nonzero k r c Hcell)
      as (s & Hs & _).
    assert (Hf : In (mkSeg (yres k - 1 - seg_row s)
                           (xres k - seg_col s - seg_len s) (seg_len s))
                    (gwy_data_field_area_rle_flip
                       (run_length_encode_mask V is_nonzero k)
                       (xres k) (yres k)))
      by (apply rle_flip_in; exists s; auto).
    split.
    + destruct (run_length_encode_mask V is_nonzero k); [destruct Hs|simpl; lia].
    + destruct (gwy_data_field_area_rle_flip _ _ _); [destruct Hf|simpl; lia].
  - intros Hk. split.
    + unfold gwy_data_field_area_filter_min_max. fold redkernel. rewrite Hk.
      reflexivity.
    + apply kernel_is_nonempty_cell in Hk.
      destruct (real_frame V ltb is_nonzero veqb vsub vdiv vhalf u data_field
                  redkernel filtertype col row width height Hk)
        as (df' & E & _).
      eauto.
  - intros Hk. unfold gwy_data_field_area_filter_min_max. fold redkernel.
    rewrite Hk. reflexivity.
Qed.

(** *** C2 and C3: the first row of an area at the bottom edge *)

(** C3, at the last row of a column of three cells under a column kernel
    of three cells (one row above the pixel, one below): the row below is
    outside the field.  The seeding copies the still uninitialised buffer
    0 over buffer 1, which held the row of the pixel, and never writes
    buffer 2; the live buffers do not hold the data of the edge-replicated
    rows.  The uninitialised cells hold -7 here. *)
Theorem seeding_below_the_field_evaluated :
  match gwy_data_field_area_rle_analyse Q QSample.is_nonzero
          (QSample.junk (-7 # 1)) 0 QSample.column_kernel 1 with
  | Some mmp =>
      match seed_rows Q QSample.ltb QSample.column_image mmp false 0 2 1
              (mmp_prows mmp, mmp_extrowbuf mmp) with
      | Some st =>
          extend_up Q mmp false = 1 /\ extend_down Q mmp false = 1 /\
          prow_each (fst st 0) 1 0 = inject_Z 2 /\
          prow_each (fst st 1) 1 0 = (-7 # 1)%Q /\
          prow_each (fst st 2) 1 0 = (-7 # 1)%Q /\
          ~ rows_ok Q QSample.ltb QSample.column_image mmp false 0 2 0 (fst st)
      | None => False
      end
  | None => False
  end.
Proof.
  destruct (gwy_data_field_area_rle_analyse Q QSample.is_nonzero
              (QSample.junk (-7 # 1)) 0 QSample.column_kernel 1) as [mmp|] eqn:Ea;
    [|vm_compute in Ea; discriminate Ea].
  vm_compute in Ea. inversion Ea as [Em]. clear Ea.
  destruct (seed_rows Q QSample.ltb QSample.column_image mmp false 0 2 1
              (mmp_prows mmp, mmp_extrowbuf mmp)) as [st|] eqn:Es;
    [|subst mmp; vm_compute in Es; discriminate Es].
  subst mmp. vm_compute in Es. inversion Es as [Est]. clear Es.
  split; [reflexivity|]. split; [reflexivity|].
  split; [reflexivity|]. split; [reflexivity|]. split; [reflexivity|].
  intros Hrows.
  specialize (Hrows 2 ltac:(simpl; lia)).
  destruct Hrows as (H1 & _).
  specialize (H1 1 eq_refl 0 ltac:(simpl; lia)).
  destruct H1 as ((k & Hk & E) & _).
  assert (k = 0) by lia. subst k.
  vm_compute in E. discriminate E.
Qed.

(** C2, at Erosion of the last row of a column of three cells
    [1; 2; 3] under a column kernel of three cells.  The
    neighbourhood of the pixel holds the values 2 and 3 (the row below is
    the edge row again), so its minimum is 2; the filter writes the
    content of the uninitialised row buffers, -7 here, which is not a
    value of the neighbourhood at all. *)
Theorem erosion_at_bottom_edge_evaluated :
  match QSample.filter_real (QSample.junk (-7 # 1)) QSample.column_image
          QSample.column_kernel GWY_MIN_MAX_FILTER_MINIMUM 0 2 1 1 with
  | Some data_field' =>
      data data_field' 2 = (-7 # 1)%Q /\
      is_extremum_of (le_min QSample.ltb)
        (erosion_window QSample.column_image QSample.is_nonzero
           QSample.column_kernel 2 0) (inject_Z 2) /\
      ~ erosion_window QSample.column_image QSample.is_nonzero
          QSample.column_kernel 2 0 (data data_field' 2)
  | None => False
  end.
Proof.
  destruct (QSample.filter_real (QSample.junk (-7 # 1)) QSample.column_image
              QSample.column_kernel GWY_MIN_MAX_FILTER_MINIMUM 0 2 1 1)
    as [data_field'|] eqn:Ef; [|vm_compute in Ef; discriminate Ef].
  assert (Ed : data data_field' 2 = (-7 # 1)%Q).
  { vm_compute in Ef. inversion Ef. reflexivity. }
  clear Ef. rewrite Ed.
  assert (Hcells : forall kr kc,
             kernel_cell QSample.is_nonzero QSample.column_kernel kr kc ->
             kc = 0 /\ (kr = 0 \/ kr = 1 \/ kr = 2)).
  { intros kr kc (Hr & Hc & _). simpl in Hr, Hc. lia. }
  split; [reflexivity|]. split.
  - split.
    + exists 0, 0. split; [|reflexivity].
      split; [simpl; lia|]. split; [simpl; lia|]. reflexivity.
    + intros w (kr & kc & Hcell & Ew).
      destruct (Hcells kr kc Hcell) as (-> & [-> | [-> | ->]]);
        subst w; vm_compute; reflexivity.
  - intros (kr & kc & Hcell & Ew).
    destruct (Hcells kr kc Hcell) as (-> & [-> | [-> | ->]]);
      vm_compute in Ew; discriminate Ew.
Qed.

(** *** C7: the rows after the data at the bottom edge *)



(** *** C4 and C6: the two-pass operations *)

(** The comparison of the rational samples is the order of [Q]. *)
Lemma le_min_Qle a b : le_min QSample.ltb a b <-> (a <= b)%Q.
Proof. unfold le_min. apply Qltb_false. Qed.

Lemma le_max_Qle a b : le_max QSample.ltb a b <-> (b <= a)%Q.
Proof. unfold le_max. apply Qltb_false. Qed.

(** The sample of a pixel of the field at offset zero is the pixel. *)
Lemma border_sample_inside {V : Type} (dfield : GwyDataField V) (y x cy cx : nat) :
  y < yres dfield -> x < xres dfield ->
  border_sample dfield (Z.of_nat y + Z.of_nat cy - Z.of_nat cy)
                       (Z.of_nat x + Z.of_nat cx - Z.of_nat cx)
  = data dfield (y * xres dfield + x).
Proof.
  intros Hy Hx. unfold border_sample.
  replace (Z.to_nat (Z.max 0 (Z.min (Z.of_nat y + Z.of_nat cy - Z.of_nat cy)
                                    (Z.of_nat (yres dfield) - 1)))) with y by lia.
  replace (Z.to_nat (Z.max 0 (Z.min (Z.of_nat x + Z.of_nat cx - Z.of_nat cx)
                                    (Z.of_nat (xres dfield) - 1)))) with x by lia.
  now rewrite (Nat.mul_comm (xres dfield) y).
Qed.

(** Two kernel cells that are symmetric about the centre cell put one
    sample into both neighbourhoods of a pixel. *)
Lemma windows_share_a_sample {V : Type} (is_nonzero : V -> bool)
    (dfield kernel : GwyDataField V) (y x kr kc kr' kc' : nat) :
  kernel_cell is_nonzero kernel kr kc ->
  kernel_cell is_nonzero kernel kr' kc' ->
  kr + kr' = 2 * ((yres kernel - 1) / 2) ->
  kc + kc' = 2 * ((xres kernel - 1) / 2) ->
  exists w, erosion_window dfield is_nonzero kernel y x w /\
            dilation_window dfield is_nonzero kernel y x w.
Proof.
  intros Hc Hc' Hr Hk.
  exists (border_sample dfield
            (Z.of_nat y + Z.of_nat kr - Z.of_nat ((yres kernel - 1) / 2))
            (Z.of_nat x + Z.of_nat kc - Z.of_nat ((xres kernel - 1) / 2))).
  split.
  - exists kr, kc. split; [exact Hc|reflexivity].
  - exists kr', kc'. split; [exact Hc'|].
    f_equal; lia.
Qed.

(** The minimum of a set of rationals is below the maximum of a set that
    it meets. *)
Lemma extrema_ordered (P P' : Q -> Prop) (mn mx : Q) :
  is_extremum_of (le_min QSample.ltb) P mn ->
  is_extremum_of (le_max QSample.ltb) P' mx ->
  (exists w, P w /\ P' w) ->
  (mn <= mx)%Q.
Proof.
  intros (_ & Hmn) (_ & Hmx) (w & Hw & Hw').
  apply Hmn in Hw. apply Hmx in Hw'.
  apply le_min_Qle in Hw. apply le_max_Qle in Hw'.
  now apply Qle_trans with w.
Qed.

(** Under a kernel of the two cells of an anti-diagonal the erosion
    neighbourhood of the middle pixel of [range_image] is its right and
    lower neighbours (9 and 9) and the dilation neighbourhood its left and
    upper neighbours (0 and 0): Range writes 0 - 9. *)
Lemma range_negative_counterexample :
  match QSample.filter_real (QSample.junk 0%Q) QSample.range_image
          QSample.skew_kernel GWY_MIN_MAX_FILTER_RANGE 1 1 1 1 with
  | Some data_field' => data data_field' 4 = (-9 # 1)%Q /\
                        Qlt (data data_field' 4) 0
  | None => False
  end.
Proof. vm_compute. split; reflexivity. Qed.

(** C4 (amended).  For an area in the field whose first row has the rows
    below it that the kernel reaches (or a kernel of at most two rows),
    Range writes to every pixel of the area the maximum of its dilation
    neighbourhood minus the minimum of its erosion neighbourhood.  The
    result is non-negative when the kernel has two cells that are symmetric
    about the cell [((kyres-1)/2, (kxres-1)/2)], as it has when that cell is
    in the kernel. *)
Theorem range_is_dilation_minus_erosion :
  forall (u : Uninit Q) (data_field kernel : GwyDataField Q)
         (col row width height : nat),
    (exists r c, kernel_cell QSample.is_nonzero kernel r c) ->
    1 <= width -> 1 <= height ->
    col + width <= xres data_field -> row + height <= yres data_field ->
    (yres kernel <= 2 \/ row + yres kernel / 2 < yres data_field) ->
    exists data_field',
      QSample.filter_real u data_field kernel GWY_MIN_MAX_FILTER_RANGE
        col row width height = Some data_field' /\
      forall i j, i < height -> j < width ->
        exists mn mx,
          is_extremum_of (le_min QSample.ltb)
            (erosion_window data_field QSample.is_nonzero kernel
               (row + i) (col + j)) mn /\
          is_extremum_of (le_max QSample.ltb)
            (dilation_window data_field QSample.is_nonzero kernel
               (row + i) (col + j)) mx /\
          data data_field' ((row + i) * xres data_field + (col + j))
          = (mx - mn)%Q /\
          ((exists kr kc kr' kc',
               kernel_cell QSample.is_nonzero kernel kr kc /\
               kernel_cell QSample.is_nonzero kernel kr' kc' /\
               kr + kr' = 2 * ((yres kernel - 1) / 2) /\
               kc + kc' = 2 * ((xres kernel - 1) / 2)) ->
           Qle 0 (data data_field' ((row + i) * xres data_field + (col + j)))).
Proof.
  intros u data_field kernel col row width height Hnonempty Hw Hh Hcx Hry Hseed.
  destruct (real_two_pass_ok Q QSample.ltb QSample.is_nonzero QSample.eqb
              QSample.sub QSample.div QSample.half Qltb_asym Qltb_ntrans
              u data_field kernel col row width height
              Hnonempty Hw Hh Hcx Hry)
    as (outbuf & outbuf2 & Hrange & _ & Hext).
  eexists. split; [exact Hrange|].
  intros i j Hi Hj.
  destruct (Hext Hseed i j Hi Hj) as (Hmn & Hmx).
  exists (outbuf (i * width + j)), (outbuf2 (i * width + j)).
  assert (Hval : data (with_data Q data_field
                         (range_rows Q QSample.sub height 0 (data data_field)
                            (row * xres data_field + col) (xres data_field)
                            outbuf outbuf2 width))
                      ((row + i) * xres data_field + (col + j))
                 = Qminus (outbuf2 (i * width + j)) (outbuf (i * width + j))).
  { simpl.
    rewrite (region_index Q QSample.ltb QSample.is_nonzero QSample.eqb
               QSample.sub QSample.div QSample.half).
    rewrite (range_rows_at Q QSample.eqb QSample.sub QSample.div QSample.half);
      [reflexivity|lia|lia|exact Hj]. }
  split; [exact Hmn|]. split; [exact Hmx|]. split; [exact Hval|].
  intros (kr & kc & kr' & kc' & Hc & Hc' & Hr & Hk).
  rewrite Hval.
  assert (Hord : Qle (outbuf (i * width + j)) (outbuf2 (i * width + j))).
  { apply (extrema_ordered _ _ _ _ Hmn Hmx).
    exact (windows_share_a_sample QSample.is_nonzero data_field kernel
             (row + i) (col + j) kr kc kr' kc' Hc Hc' Hr Hk). }
  lra.
Qed.

Lemma range_is_dilation_minus_erosion_witness :
  exists data_field',
    QSample.filter_real (QSample.junk 0%Q) QSample.square_image
      QSample.cross_kernel GWY_MIN_MAX_FILTER_RANGE 0 0 3 2
    = Some data_field' /\
    forall i j, i < 2 -> j < 3 ->
      exists mn mx,
        is_extremum_of (le_min QSample.ltb)
          (erosion_window QSample.square_image QSample.is_nonzero
             QSample.cross_kernel (0 + i) (0 + j)) mn /\
        is_extremum_of (le_max QSample.ltb)
          (dilation_window QSample.square_image QSample.is_nonzero
             QSample.cross_kernel (0 + i) (0 + j)) mx /\
        data data_field' ((0 + i) * xres QSample.square_image + (0 + j))
        = (mx - mn)%Q /\
        ((exists kr kc kr' kc',
             kernel_cell QSample.is_nonzero QSample.cross_kernel kr kc /\
             kernel_cell QSample.is_nonzero QSample.cross_kernel kr' kc' /\
             kr + kr' = 2 * ((yres QSample.cross_kernel - 1) / 2) /\
             kc + kc' = 2 * ((xres QSample.cross_kernel - 1) / 2)) ->
         Qle 0 (data data_field'
                  ((0 + i) * xres QSample.square_image + (0 + j)))).
Proof.
  apply (range_is_dilation_minus_erosion (QSample.junk 0%Q)
           QSample.square_image QSample.cross_kernel 0 0 3 2).
  - exists 1, 1. split; [simpl; lia|]. split; [simpl; lia|]. reflexivity.
  - lia.
  - lia.
  - simpl; lia.
  - simpl; lia.
  - right. vm_compute. lia.
Defined.

(** Under the anti-diagonal kernel the middle pixel of [norm_image], 5,
    has the erosion neighbourhood [1; 1] and the dilation neighbourhood
    [2; 2]: Normalization writes (5 - 1) / (2 - 1). *)
Lemma normalization_above_one_counterexample :
  match QSample.filter_real (QSample.junk 0%Q) QSample.norm_image
          QSample.skew_kernel GWY_MIN_MAX_FILTER_NORMALIZATION 1 1 1 1 with
  | Some data_field' => Qeq (data data_field' 4) (4 # 1) /\
                        ~ Qle (data data_field' 4) 1
  | None => False
  end.
Proof. vm_compute. split; [reflexivity|]. intros H. now apply H. Qed.

(** A clamped position of the border-extended field is a cell of the
    field. *)
Lemma border_sample_in_field {V : Type} (dfield : GwyDataField V) (y x : Z) :
  1 <= xres dfield -> 1 <= yres dfield ->
  exists c, c < xres dfield * yres dfield /\
            border_sample dfield y x = data dfield c.
Proof.
  intros Hx Hy. unfold border_sample.
  eexists. split; [|reflexivity].
  set (a := Z.to_nat (Z.max 0 (Z.min y (Z.of_nat (yres dfield) - 1)))).
  set (b := Z.to_nat (Z.max 0 (Z.min x (Z.of_nat (xres dfield) - 1)))).
  assert (Ha : a < yres dfield) by (unfold a; lia).
  assert (Hb : b < xres dfield) by (unfold b; lia).
  clearbody a b. nia.
Qed.

(** The rounded quotient of two rounded differences whose exact values
    are ordered lies in the unit interval. *)
Lemma rounded_in_unit (rep : Q -> Prop) (big : Q) (rnd : Q -> Q)
    (x mn mx : Q) :
  Rounded.rounding rep big rnd ->
  rep mn -> rep mx ->
  (- big <= 2 * x <= big)%Q -> (- big <= 2 * mn <= big)%Q ->
  (- big <= 2 * mx <= big)%Q ->
  (mn <= x)%Q -> (x <= mx)%Q -> ~ (mn == mx)%Q ->
  (0 <= Rounded.div rnd (Rounded.sub rnd x mn) (Rounded.sub rnd mx mn)
   /\ Rounded.div rnd (Rounded.sub rnd x mn) (Rounded.sub rnd mx mn) <= 1)%Q.
Proof.
  intros [Hmono H0 H1 Hbig Hdiff] Rmn Rmx Bx Bmn Bmx L1 L2 Hne.
  unfold Rounded.div, Rounded.sub.
  assert (Ha : (0 <= rnd (x - mn))%Q).
  { rewrite <- H0. apply Hmono; lra. }
  assert (Hab : (rnd (x - mn) <= rnd (mx - mn))%Q)
    by (apply Hmono; lra).
  assert (Hb : (0 < rnd (mx - mn))%Q).
  { assert (Hnz : ~ (rnd (mx - mn) == 0)%Q).
    { apply Hdiff; [exact Rmx|exact Rmn| |lra|lra].
      intros E. apply Hne. now symmetry. }
    destruct (Qlt_le_dec 0%Q (rnd (mx - mn)%Q)) as [Hl|Hl]; [exact Hl|].
    exfalso. apply Hnz. apply Qle_antisym; lra. }
  assert (Hq : (0 <= rnd (x - mn) / rnd (mx - mn)
                /\ rnd (x - mn) / rnd (mx - mn) <= 1)%Q).
  { split.
    - apply Qle_shift_div_l; [exact Hb|]. lra.
    - apply Qle_shift_div_r; [exact Hb|]. lra. }
  split.
  - rewrite <- H0. apply Hmono; lra.
  - rewrite <- H1. apply Hmono; lra.
Qed.

(** C6 (amended).  For an area in the field whose first row has the rows
    below it that the kernel reaches (or a kernel of at most two rows),
    Normalization writes to every pixel of the area, with [x] its value
    before, [mn] the minimum of its erosion neighbourhood and [mx] the
    maximum of its dilation neighbourhood: one half when [mn] equals [mx]
    and otherwise [(x - mn) / (mx - mn)] as the arithmetic of the samples
    evaluates it, each of the three operations rounded.  The result is in
    the unit interval when the cell [((kyres-1)/2, (kxres-1)/2)] is in the
    kernel and the samples of the field are representable values of at
    most half the largest one in magnitude, so that no difference
    overflows. *)
Theorem normalization_value_and_bounds :
  forall (rep : Q -> Prop) (big : Q) (rnd : Q -> Q)
         (u : Uninit Q) (data_field kernel : GwyDataField Q)
         (col row width height : nat),
    (exists r c, kernel_cell QSample.is_nonzero kernel r c) ->
    1 <= width -> 1 <= height ->
    col + width <= xres data_field -> row + height <= yres data_field ->
    (yres kernel <= 2 \/ row + yres kernel / 2 < yres data_field) ->
    exists data_field',
      Rounded.filter_real rnd u data_field kernel
        GWY_MIN_MAX_FILTER_NORMALIZATION col row width height
      = Some data_field' /\
      forall i j, i < height -> j < width ->
        let k := (row + i) * xres data_field + (col + j) in
        exists mn mx,
          is_extremum_of (le_min QSample.ltb)
            (erosion_window data_field QSample.is_nonzero kernel
               (row + i) (col + j)) mn /\
          is_extremum_of (le_max QSample.ltb)
            (dilation_window data_field QSample.is_nonzero kernel
               (row + i) (col + j)) mx /\
          (Qeq mn mx -> data data_field' k = (1 # 2)%Q) /\
          (~ Qeq mn mx ->
           data data_field' k
           = rnd (Qdiv (rnd (Qminus (data data_field k) mn))
                       (rnd (Qminus mx mn)))) /\
          (Rounded.rounding rep big rnd ->
           (forall c, c < xres data_field * yres data_field ->
              rep (data data_field c) /\
              Qle (- big) (2 * data data_field c) /\
              Qle (2 * data data_field c) big) ->
           kernel_cell QSample.is_nonzero kernel
             ((yres kernel - 1) / 2) ((xres kernel - 1) / 2) ->
           Qle 0 (data data_field' k) /\ Qle (data data_field' k) 1).
Proof.
  intros rep big rnd u data_field kernel col row width height
         Hnonempty Hw Hh Hcx Hry Hseed.
  destruct (real_two_pass_ok Q QSample.ltb QSample.is_nonzero QSample.eqb
              (Rounded.sub rnd) (Rounded.div rnd) QSample.half
              Qltb_asym Qltb_ntrans
              u data_field kernel col row width height
              Hnonempty Hw Hh Hcx Hry)
    as (outbuf & outbuf2 & _ & Hnorm & Hext).
  eexists. split; [exact Hnorm|].
  intros i j Hi Hj k.
  destruct (Hext Hseed i j Hi Hj) as (Hmn & Hmx).
  set (mn := outbuf (i * width + j)) in *.
  set (mx := outbuf2 (i * width + j)) in *.
  exists mn, mx.
  assert (Hval : data (with_data Q data_field
                         (normalize_rows Q QSample.eqb (Rounded.sub rnd)
                            (Rounded.div rnd) QSample.half height 0
                            (data data_field)
                            (row * xres data_field + col) (xres data_field)
                            outbuf outbuf2 width)) k
                 = if Qeq_bool mn mx then (1 # 2)%Q
                   else Rounded.div rnd
                          (Rounded.sub rnd (data data_field k) mn)
                          (Rounded.sub rnd mx mn)).
  { simpl. unfold k.
    rewrite (region_index Q QSample.ltb QSample.is_nonzero QSample.eqb
               (Rounded.sub rnd) (Rounded.div rnd) QSample.half).
    rewrite normalize_rows_at; [reflexivity|lia|lia|exact Hj]. }
  split; [exact Hmn|]. split; [exact Hmx|].
  split; [|split].
  - intros E. rewrite Hval. apply Qeq_eq_bool in E. now rewrite E.
  - intros E. rewrite Hval.
    destruct (Qeq_bool mn mx) eqn:Eb; [|reflexivity].
    apply Qeq_bool_eq in Eb. contradiction.
  - intros Hrnd Hdata Hcentre. rewrite Hval.
    destruct (Qeq_bool mn mx) eqn:Eb.
    + split; [discriminate|discriminate].
    + assert (Hne : ~ Qeq mn mx) by (now apply Qeq_bool_neq).
      assert (Hx : data data_field k
                   = border_sample data_field
                       (Z.of_nat (row + i)
                        + Z.of_nat ((yres kernel - 1) / 2)
                        - Z.of_nat ((yres kernel - 1) / 2))
                       (Z.of_nat (col + j)
                        + Z.of_nat ((xres kernel - 1) / 2)
                        - Z.of_nat ((xres kernel - 1) / 2))).
      { rewrite border_sample_inside; [reflexivity|lia|lia]. }
      assert (Hcell : forall w,
                (erosion_window data_field QSample.is_nonzero kernel
                   (row + i) (col + j) w
                 \/ dilation_window data_field QSample.is_nonzero kernel
                      (row + i) (col + j) w) ->
                rep w /\ Qle (- big) (2 * w) /\ Qle (2 * w) big).
      { intros w [(kr & kc & _ & ->)|(kr & kc & _ & ->)].
        - destruct (border_sample_in_field data_field
                      (Z.of_nat (row + i) + Z.of_nat kr
                       - Z.of_nat ((yres kernel - 1) / 2))
                      (Z.of_nat (col + j) + Z.of_nat kc
                       - Z.of_nat ((xres kernel - 1) / 2)))
            as (c & Hc & ->); [lia|lia|]. now apply Hdata.
        - destruct (border_sample_in_field data_field
                      (Z.of_nat (row + i) - Z.of_nat kr
                       + Z.of_nat ((yres kernel - 1) / 2))
                      (Z.of_nat (col + j) - Z.of_nat kc
                       + Z.of_nat ((xres kernel - 1) / 2)))
            as (c & Hc & ->); [lia|lia|]. now apply Hdata. }
      destruct (Hcell mn (or_introl (proj1 Hmn))) as (Rmn & Bmn1 & Bmn2).
      destruct (Hcell mx (or_intror (proj1 Hmx))) as (Rmx & Bmx1 & Bmx2).
      assert (Hk : k < xres data_field * yres data_field)
        by (unfold k; nia).
      destruct (Hdata k Hk) as (_ & Bx1 & Bx2).
      apply (rounded_in_unit rep big rnd); auto.
      * apply le_min_Qle. apply Hmn.
        exists ((yres kernel - 1) / 2), ((xres kernel - 1) / 2).
        split; [exact Hcentre|exact Hx].
      * apply le_max_Qle. apply Hmx.
        exists ((yres kernel - 1) / 2), ((xres kernel - 1) / 2).
        split; [exact Hcentre|].
        rewrite Hx. unfold border_sample. f_equal. f_equal; f_equal; lia.
Qed.

Lemma normalization_value_and_bounds_witness :
  exists data_field',
    Rounded.filter_real (fun x => x) (QSample.junk 0%Q) QSample.square_image
      QSample.cross_kernel GWY_MIN_MAX_FILTER_NORMALIZATION 0 0 3 2
    = Some data_field' /\
    forall i j, i < 2 -> j < 3 ->
      Qle 0 (data data_field' ((0 + i) * xres QSample.square_image + (0 + j)))
      /\ Qle (data data_field'
                ((0 + i) * xres QSample.square_image + (0 + j))) 1.
Proof.
  destruct (normalization_value_and_bounds (fun _ => True) (18 # 1)%Q
              (fun x => x) (QSample.junk 0%Q)
              QSample.square_image QSample.cross_kernel 0 0 3 2)
    as (data_field' & E & H).
  - exists 1, 1. split; [simpl; lia|]. split; [simpl; lia|]. reflexivity.
  - lia.
  - lia.
  - simpl; lia.
  - simpl; lia.
  - right. vm_compute. lia.
  - exists data_field'. split; [exact E|].
    intros i j Hi Hj.
    destruct (H i j Hi Hj) as (mn & mx & _ & _ & _ & _ & Hb).
    apply Hb.
    + constructor.
      * intros p q _ Hpq _. exact Hpq.
      * reflexivity.
      * reflexivity.
      * discriminate.
      * intros a b _ _ Hab _ _ Ez. apply Hab. lra.
    + intros c Hc. split; [exact I|].
      simpl in Hc.
      assert (Hc9 : c = 0 \/ c = 1 \/ c = 2 \/ c = 3 \/ c = 4 \/ c = 5
                    \/ c = 6 \/ c = 7 \/ c = 8) by lia.
      destruct Hc9 as [->|[->|[->|[->|[->|[->|[->|[->| ->]]]]]]]];
        vm_compute; split; discriminate.
    + split; [simpl; lia|]. split; [simpl; lia|]. reflexivity.
Defined.

(** ** Further properties of the planner, the encoder and the sweep *)

(** *** The planner *)

(** X1.  For every non-empty set of positive block lengths the planner
    returns a plan (none of its assertions fails); every length of the set
    is needed in the each-table, [maxlen_each] is the largest length of the
    set, and no needed entry of either table lies beyond its [maxlen]. *)
Theorem planner_covers_requested_lengths :
  forall blocklens,
    blocklens <> [] -> (forall l, In l blocklens -> 1 <= l) ->
    exists req,
      find_required_lengths_for_set blocklens = Some req /\
      (forall l, In l blocklens -> needed (req_each req l) = true) /\
      In (maxlen_each req) blocklens /\
      (forall l, In l blocklens -> l <= maxlen_each req) /\
      (forall L, needed (req_each req L) = true -> 1 <= L <= maxlen_each req) /\
      (forall L, needed (req_even req L) = true ->
         2 <= L <= maxlen_even req /\ L mod 2 = 0) /\
      maxlen_even req <= maxlen_each req.
Proof.
  intros blocklens Hne Hpos.
  destruct (find_required_lengths_for_set_spec blocklens Hne Hpos)
    as (req & E & ((W1 & W2) & M1 & M2 & M3) & Hneed & Hle & Hmax).
  exists req. split; [exact E|]. split; [exact Hneed|].
  split; [exact Hmax|]. split; [exact Hle|]. split; [|split].
  - intros L HN. split; [|now apply M1].
    destruct (W1 L HN) as (H1 & _). exact H1.
  - intros L HN. destruct (W2 L HN) as (Hev & H2 & _).
    split; [split; [exact H2|now apply M2]|exact Hev].
  - exact M3.
Qed.

Lemma planner_covers_requested_lengths_witness :
  exists req,
    find_required_lengths_for_set [7; 3; 7] = Some req /\
    (forall l, In l [7; 3; 7] -> needed (req_each req l) = true) /\
    In (maxlen_each req) [7; 3; 7] /\
    (forall l, In l [7; 3; 7] -> l <= maxlen_each req) /\
    (forall L, needed (req_each req L) = true -> 1 <= L <= maxlen_each req) /\
    (forall L, needed (req_even req L) = true ->
       2 <= L <= maxlen_even req /\ L mod 2 = 0) /\
    maxlen_even req <= maxlen_each req.
Proof.
  apply (planner_covers_requested_lengths [7; 3; 7]).
  - discriminate.
  - intros l [<-|[<-|[<-|[]]]]; lia.
Defined.

(** Every plan needs the row itself: a needed length of the each-table
    leads, through second parts, down to length 1. *)
Lemma each_one_needed (req : MinMaxPrecomputedReq) :
  req_wf req ->
  forall n L, L <= n -> needed (req_each req L) = true ->
              needed (req_each req 1) = true.
Proof.
  intros (W1 & _).
  induction n as [|n IH]; intros L HL HN.
  - destruct (W1 L HN) as (H1 & _). lia.
  - destruct (W1 L HN) as (H1 & Hc).
    destruct (Nat.eq_dec L 1) as [->|Hne]; [exact HN|].
    destruct Hc as (_ & Hsum & Hs1 & Hs2 & HN2 & _); [lia|].
    apply (IH (sublen2 (req_each req L))); [lia|exact HN2].
Qed.

(** X2.  In a plan of the planner Each(1), the row itself, is always
    needed, and every needed entry of the each-table of a length [L >= 2]
    is composed of two parts that are shorter than [L] and needed
    themselves: the second in the each-table; the first in the each-table
    too, or, for an even-odd entry, an even first part in the even-table
    with an odd second part. *)
Theorem plan_entries_reach_the_row :
  forall blocklens req,
    find_required_lengths_for_set blocklens = Some req ->
    needed (req_each req 1) = true /\
    forall L, 2 <= L -> needed (req_each req L) = true ->
      let p := req_each req L in
      1 <= sublen1 p < L /\ 1 <= sublen2 p < L /\
      needed (req_each req (sublen2 p)) = true /\
      (even_odd p = true ->
         sublen1 p mod 2 = 0 /\ sublen2 p mod 2 = 1 /\
         needed (req_even req (sublen1 p)) = true) /\
      (even_odd p = false -> needed (req_each req (sublen1 p)) = true).
Proof.
  intros blocklens req Hreq.
  destruct (find_required_lengths_for_set_some blocklens req Hreq)
    as ((Hwf & _) & _ & Hneed).
  split.
  - assert (Hne : blocklens <> []) by (intros ->; discriminate Hreq).
    destruct blocklens as [|l rest]; [congruence|].
    apply (each_one_needed req Hwf l l); [lia|].
    apply Hneed. now left.
  - intros L HL HN p. destruct Hwf as (W1 & _).
    destruct (W1 L HN) as (_ & Hc).
    destruct (Hc HL) as (_ & Hsum & Hs1 & Hs2 & HN2 & Hrule). fold p in Hsum, Hs1, Hs2, HN2, Hrule.
    split; [lia|]. split; [lia|]. split; [exact HN2|].
    destruct (even_odd p); split; intros E; try discriminate E; assumption.
Qed.

Lemma plan_entries_reach_the_row_witness :
  needed (req_each (plan_of [11]) 1) = true /\
  sublen1 (req_each (plan_of [11]) 11) = 6 /\
  sublen2 (req_each (plan_of [11]) 11) = 5.
Proof.
  assert (H : find_required_lengths_for_set [11] = Some (plan_of [11]))
    by (vm_compute; reflexivity).
  destruct (plan_entries_reach_the_row [11] (plan_of [11]) H) as (H1 & _).
  split; [exact H1|]. split; reflexivity.
Defined.

(** *** The kernel encoder *)

Section EncoderRuns.

Variable V : Type.
Variable is_nonzero : V -> bool.
Variable d : buf V.
Variable xr : nat.

Lemma segments_ordered_snoc (segs : MaskRLE) (t : MaskSegment) :
  segments_ordered segs -> (forall s, In s segs -> segment_before s t) ->
  segments_ordered (segs ++ [t]).
Proof.
  induction segs as [|s r IH]; intros Ho Hb; simpl.
  - split; [intros u []|exact I].
  - destruct Ho as (Hs & Hr). split.
    + intros u Hu. apply in_app_or in Hu. destruct Hu as [Hu|[<-|[]]].
      * now apply Hs.
      * apply Hb. now left.
    + apply IH; [exact Hr|]. intros u Hu. apply Hb. now right.
Qed.

(** The scan of row [i] keeps the segments in order and whole: with the
    segments so far ending before column [j] of row [i], and the cell
    before column [j] zero. *)
Lemma rle_row_loop_runs i : forall fuel j l segs,
  segments_ordered segs ->
  (forall s, In s segs ->
     seg_row s < i \/ (seg_row s = i /\ seg_col s + seg_len s < j)) ->
  (j = 0 \/ is_nonzero (d (i * xr + (j - 1))) = false) ->
  (forall s, In s segs -> run_is_maximal is_nonzero d xr s) ->
  forall j' l' segs',
    rle_row_loop V is_nonzero fuel d xr i j l segs = (j', l', segs') ->
    segments_ordered segs' /\
    (forall s, In s segs' ->
       seg_row s < i \/ (seg_row s = i /\ seg_col s + seg_len s < j')) /\
    (j' = 0 \/ is_nonzero (d (i * xr + (j' - 1))) = false) /\
    (forall s, In s segs' -> run_is_maximal is_nonzero d xr s).
Proof.
  induction fuel as [|fuel IH]; intros j l segs Ho Hb Hz Hm j' l' segs' E;
    simpl in E.
  - inversion E; subst. split; [exact Ho|]. split; [exact Hb|].
    split; assumption.
  - destruct (Nat.ltb_spec (j + l) xr) as [Hlt|Hge].
    + destruct (is_nonzero (d (i * xr + (j + l)))) eqn:Enz.
      * eapply IH; eauto.
      * destruct (Nat.eqb_spec l 0) as [->|Hl]; simpl in E.
        -- eapply (IH (j + 1) 0 segs); eauto.
           ++ intros s Hs. destruct (Hb s Hs) as [?|(? & ?)];
                [now left|right; split; [assumption|lia]].
           ++ right. replace (j + 1 - 1) with (j + 0) by lia. exact Enz.
        -- eapply (IH (j + l + 1) 0 (segs ++ [mkSeg i j l])); eauto.
           ++ apply segments_ordered_snoc; [exact Ho|].
              intros s Hs. unfold segment_before. simpl.
              destruct (Hb s Hs) as [?|(? & ?)];
                [now left|right; split; assumption].
           ++ intros s Hs. apply in_app_or in Hs. destruct Hs as [Hs|[<-|[]]].
              ** destruct (Hb s Hs) as [?|(? & ?)];
                   [now left|right; split; [assumption|lia]].
              ** simpl. right. split; [reflexivity|lia].
           ++ right. replace (j + l + 1 - 1) with (j + l) by lia. exact Enz.
           ++ intros s Hs. apply in_app_or in Hs. destruct Hs as [Hs|[<-|[]]].
              ** now apply Hm.
              ** unfold run_is_maximal. simpl. split; [exact Hz|].
                 right. exact Enz.
    + inversion E; subst. split; [exact Ho|]. split; [exact Hb|].
      split; assumption.
Qed.

Lemma rle_rows_runs : forall cnt i segs,
  segments_ordered segs ->
  (forall s, In s segs -> seg_row s < i) ->
  (forall s, In s segs -> run_is_maximal is_nonzero d xr s) ->
  segments_ordered (rle_rows V is_nonzero cnt d xr i segs) /\
  (forall s, In s (rle_rows V is_nonzero cnt d xr i segs) ->
     run_is_maximal is_nonzero d xr s).
Proof.
  induction cnt as [|cnt IH]; intros i segs Ho Hb Hm; simpl.
  - split; assumption.
  - destruct (rle_row_loop V is_nonzero xr d xr i 0 0 segs)
      as [[j' l'] segs'] eqn:E.
    destruct (rle_row_loop_spec V is_nonzero d xr i xr 0 0 segs)
      as (j0 & l0 & new & E0 & Hsum & _); [lia|lia|intros c Hc; lia|].
    rewrite E in E0. injection E0 as Ej El Es. subst j0 l0. clear Es new.
    destruct (rle_row_loop_runs i xr 0 0 segs Ho
                (fun s Hs => or_introl (Hb s Hs)) (or_introl eq_refl) Hm
                j' l' segs' E) as (Ho' & Hb' & Hz' & Hm').
    apply IH.
    + destruct (Nat.eqb_spec l' 0); simpl; [exact Ho'|].
      apply segments_ordered_snoc; [exact Ho'|].
      intros s Hs. unfold segment_before. simpl.
      destruct (Hb' s Hs) as [?|(? & ?)]; [now left|right; split; assumption].
    + intros s Hs.
      assert (Hrow : forall t, In t segs' -> seg_row t < S i).
      { intros t Ht. destruct (Hb' t Ht) as [?|(? & ?)]; lia. }
      destruct (Nat.eqb_spec l' 0); simpl in Hs; [now apply Hrow|].
      apply in_app_or in Hs. destruct Hs as [Hs|[<-|[]]];
        [now apply Hrow|simpl; lia].
    + intros s Hs.
      destruct (Nat.eqb_spec l' 0); simpl in Hs; [now apply Hm'|].
      apply in_app_or in Hs. destruct Hs as [Hs|[<-|[]]]; [now apply Hm'|].
      unfold run_is_maximal. simpl. split; [exact Hz'|]. left. exact Hsum.
Qed.

End EncoderRuns.

(** X3.  Decoding the encoding of a kernel gives the kernel back: a cell
    lies on a segment of the encoding exactly when it is a nonzero cell of
    the kernel; and every segment has a cell and lies within the kernel. *)
Theorem encoding_covers_exactly_the_kernel :
  forall (V : Type) (is_nonzero : V -> bool) (kernel : GwyDataField V),
    (forall s, In s (run_length_encode_mask V is_nonzero kernel) ->
       seg_row s < yres kernel /\ 1 <= seg_len s /\
       seg_col s + seg_len s <= xres kernel) /\
    (forall r c,
       (exists s, In s (run_length_encode_mask V is_nonzero kernel) /\
                  segment_covers s r c) <->
       kernel_cell is_nonzero kernel r c).
Proof.
  intros V is_nonzero kernel. split.
  - intros s Hs.
    destruct (run_length_encode_mask_sound V is_nonzero kernel s Hs)
      as (H1 & H2 & H3 & _).
    split; [exact H1|]. split; [exact H2|exact H3].
  - intros r c. split.
    + intros (s & Hs & Hcov).
      destruct (run_length_encode_mask_sound V is_nonzero kernel s Hs)
        as (_ & _ & _ & Hcell).
      destruct Hcov as (Hr & Hc). subst r.
      apply Hcell. split; [reflexivity|exact Hc].
    + apply run_length_encode_mask_complete.
Qed.

(** X4.  The segments of the encoding are the whole runs of nonzero cells
    of the rows, in row-major order: every segment ends before each later
    one begins (so no two of them overlap or touch), and the cells next to
    a segment in its row are zero. *)
Theorem encoding_is_ordered_whole_runs :
  forall (V : Type) (is_nonzero : V -> bool) (kernel : GwyDataField V),
    segments_ordered (run_length_encode_mask V is_nonzero kernel) /\
    forall s, In s (run_length_encode_mask V is_nonzero kernel) ->
      run_is_maximal is_nonzero (data kernel) (xres kernel) s.
Proof.
  intros V is_nonzero kernel. unfold run_length_encode_mask.
  apply rle_rows_runs.
  - exact I.
  - intros s [].
  - intros s [].
Qed.

(** *** Reflection of the encoding *)

Lemma insert_segment_length s l :
  length (insert_segment s l) = S (length l).
Proof.
  induction l as [|t r IH]; simpl; [reflexivity|].
  destruct (segment_leb s t); simpl; [reflexivity|now rewrite IH].
Qed.

Lemma sort_segments_length l : length (sort_segments l) = length l.
Proof.
  induction l as [|s r IH]; simpl; [reflexivity|].
  now rewrite insert_segment_length, IH.
Qed.

(** X5.  Reflecting an encoding keeps the number of segments and the set
    of their lengths (so the plan of the analysis stays valid).  When the
    segments lie within the kernel box, so do the reflected ones, and
    reflecting twice gives the segments of the encoding back. *)
Theorem reflection_keeps_lengths_and_undoes_itself :
  forall (mrle : MaskRLE) (kxres kyres : nat),
    length (gwy_data_field_area_rle_flip mrle kxres kyres) = length mrle /\
    (forall l, In l (map seg_len (gwy_data_field_area_rle_flip mrle kxres kyres))
               <-> In l (map seg_len mrle)) /\
    ((forall s, In s mrle ->
        seg_row s < kyres /\ seg_col s + seg_len s <= kxres) ->
     (forall t, In t (gwy_data_field_area_rle_flip mrle kxres kyres) ->
        seg_row t < kyres /\ seg_col t + seg_len t <= kxres) /\
     (forall s, In s (gwy_data_field_area_rle_flip
                        (gwy_data_field_area_rle_flip mrle kxres kyres)
                        kxres kyres)
                <-> In s mrle)).
Proof.
  intros mrle kxres kyres. split; [|split].
  - unfold gwy_data_field_area_rle_flip.
    now rewrite sort_segments_length, length_map.
  - intros l. rewrite !in_map_iff. split.
    + intros (t & <- & Ht). apply rle_flip_in in Ht.
      destruct Ht as (s & Hs & ->). exists s. split; [reflexivity|exact Hs].
    + intros (s & <- & Hs).
      exists (mkSeg (kyres - 1 - seg_row s)
                    (kxres - seg_col s - seg_len s) (seg_len s)).
      split; [reflexivity|]. apply rle_flip_in. exists s. auto.
  - intros Hfit.
    assert (Hback : forall s, In s mrle ->
              mkSeg (kyres - 1 - (kyres - 1 - seg_row s))
                    (kxres - (kxres - seg_col s - seg_len s) - seg_len s)
                    (seg_len s) = s).
    { intros s Hs. destruct (Hfit s Hs) as (Hr & Hc).
      destruct s as [r c l]. simpl in *. f_equal; lia. }
    split.
    + intros t Ht. apply rle_flip_in in Ht. destruct Ht as (s & Hs & ->).
      destruct (Hfit s Hs) as (Hr & Hc). simpl. lia.
    + intros s. rewrite rle_flip_in. split.
      * intros (t & Ht & ->). apply rle_flip_in in Ht.
        destruct Ht as (s0 & Hs0 & ->). simpl.
        now rewrite (Hback s0 Hs0).
      * intros Hs.
        exists (mkSeg (kyres - 1 - seg_row s)
                      (kxres - seg_col s - seg_len s) (seg_len s)).
        split; [apply rle_flip_in; exists s; auto|].
        simpl. symmetry. now apply Hback.
Qed.

(** *** The kernel test *)

Lemma kernel_nonempty_loop_complete {V : Type} (is_nonzero : V -> bool)
    (d : buf V) : forall cnt i k,
  i <= k < i + cnt -> is_nonzero (d k) = true ->
  kernel_nonempty_loop V is_nonzero cnt i d = true.
Proof.
  induction cnt as [|cnt IH]; intros i k Hk Hnz; simpl; [lia|].
  destruct (is_nonzero (d i)) eqn:E; [reflexivity|].
  apply (IH (S i) k); [|exact Hnz].
  destruct (Nat.eq_dec k i) as [->|]; [congruence|lia].
Qed.

(** X6.  [kernel_is_nonempty] answers TRUE exactly when the raster has a
    nonzero cell. *)
Theorem kernel_is_nonempty_iff_a_cell :
  forall (V : Type) (is_nonzero : V -> bool) (kernel : GwyDataField V),
    kernel_is_nonempty V is_nonzero kernel = true <->
    exists r c, kernel_cell is_nonzero kernel r c.
Proof.
  intros V is_nonzero kernel. split.
  - apply kernel_is_nonempty_cell.
  - intros (r & c & Hr & Hc & Hnz). unfold kernel_is_nonempty.
    apply (kernel_nonempty_loop_complete is_nonzero (data kernel)
             (xres kernel * yres kernel) 0 (r * xres kernel + c));
      [|exact Hnz].
    split; [lia|]. simpl.
    apply Nat.lt_le_trans with (S r * xres kernel); [simpl; lia|].
    rewrite (Nat.mul_comm (xres kernel) (yres kernel)).
    apply Nat.mul_le_mono_r. lia.
Qed.

(** *** Erosion, dilation, opening and closing on areas that are swept
    right *)

(** Reflecting a segment of the kernel box twice gives it back. *)
Lemma seg_flip_back (kx ky : nat) (s : MaskSegment) :
  seg_row s < ky -> seg_col s + seg_len s <= kx ->
  mkSeg (ky - 1 - (ky - 1 - seg_row s))
        (kx - (kx - seg_col s - seg_len s) - seg_len s) (seg_len s) = s.
Proof.
  intros H1 H2. destruct s as [sr sc sl]. simpl in *. f_equal; lia.
Qed.

(** The second pass of Opening and Closing is seeded right when the first
    row of the area has the rows below it that the pass reaches. *)
Lemma second_pass_seeded (yr row height ky : nat) (is_closing : bool) :
  1 <= height -> row + height <= yr ->
  (if is_closing
   then ky <= 2 \/ row + ky / 2 < yr
   else ky <= 1 \/ row + (ky - 1) / 2 < yr) ->
  (if negb is_closing then ky / 2 else (ky - 1) / 2) = 0 \/
  row - (row - ky / 2) + (if negb is_closing then (ky - 1) / 2 else ky / 2)
  < Nat.min yr (row + height + ky / 2) - (row - ky / 2).
Proof.
  intros Hh Hr Hsafe.
  assert (H1 : ky <= 1 -> ky / 2 = 0) by lia.
  assert (H2 : ky <= 2 -> (ky - 1) / 2 = 0) by lia.
  assert (H3 : (ky - 1) / 2 <= ky / 2) by lia.
  revert Hsafe H1 H2 H3.
  generalize (ky / 2) as h1. generalize ((ky - 1) / 2) as h2.
  intros h2 h1 Hsafe H1 H2 H3.
  destruct (Nat.min_spec yr (row + height + h1)) as [[Hlt ->]|[Hlt ->]];
    destruct is_closing; simpl negb; cbv iota; cbv iota in Hsafe;
    destruct Hsafe as [Hk|Hk]; lia.
Qed.

Section OpenClose.

Variable V : Type.
Variable ltb : V -> V -> bool.
Variable is_nonzero : V -> bool.
Variable veqb : V -> V -> bool.
Variable vsub : V -> V -> V.
Variable vdiv : V -> V -> V.
Variable vhalf : V.

Hypothesis ltb_asym : forall a b, ltb a b = true -> ltb b a = false.
Hypothesis ltb_ntrans :
  forall a b c, ltb a b = false -> ltb b c = false -> ltb a c = false.

Local Abbreviation real :=
  (gwy_data_field_area_filter_min_max_real V ltb is_nonzero veqb vsub vdiv vhalf).

Local Abbreviation analyse_ready_ :=
  (analyse_ready V ltb is_nonzero veqb vsub vdiv vhalf).
Local Abbreviation flip_ready_ :=
  (flip_ready V ltb is_nonzero veqb vsub vdiv vhalf).
Local Abbreviation region_guard_ :=
  (region_guard V ltb is_nonzero veqb vsub vdiv vhalf).

(** The neighbourhood of a pass: of dilation for a maximum pass, of
    erosion for a minimum pass. *)
Local Abbreviation pass_window maximum dfield kernel :=
  (if (maximum : bool) then dilation_window dfield is_nonzero kernel
   else erosion_window dfield is_nonzero kernel).

(** A pass over a valid area on a ready analysis of [kernel], reflected
    for a maximum pass, gives the extrema of the neighbourhoods. *)
Lemma pass_window_ok (dfield kernel : GwyDataField V)
    (mmp : MinMaxPrecomputed V) (maximum : bool)
    col row width height (outbuf out' : buf V) mmp' :
  mmp_ready mmp width ->
  mmp_mrle mmp
  = (if maximum
     then gwy_data_field_area_rle_flip
            (run_length_encode_mask V is_nonzero kernel)
            (xres kernel) (yres kernel)
     else run_length_encode_mask V is_nonzero kernel) ->
  mmp_kxres mmp = xres kernel -> mmp_kyres mmp = yres kernel ->
  1 <= width -> 1 <= height ->
  col + width <= xres dfield -> row + height <= yres dfield ->
  (if maximum
   then yres kernel <= 1 \/ row + (yres kernel - 1) / 2 < yres dfield
   else yres kernel <= 2 \/ row + yres kernel / 2 < yres dfield) ->
  gwy_data_field_area_min_max_execute V ltb dfield mmp maximum
    col row width height outbuf = Some (out', mmp') ->
  forall i j, i < height -> j < width ->
    is_extremum_of (sweep_le V ltb maximum)
      (pass_window maximum dfield kernel (row + i) (col + j))
      (out' (i * width + j)).
Proof.
  intros Hrd Em Ex Ey Hw Hh Hc Hr Hsafe E i j Hi Hj.
  assert (Hky : 1 <= yres kernel)
    by (destruct Hrd as (_ & _ & _ & Hky & _); lia).
  eapply is_extremum_of_iff;
    [|apply (execute_window V ltb ltb_asym ltb_ntrans dfield mmp maximum
               col row width height outbuf out' mmp' Hrd Hw Hh Hc Hr);
      [|exact E|exact Hi|exact Hj]].
  - intros w. unfold extend_up, extend_left. rewrite Em, Ex, Ey.
    destruct maximum; [apply rle_window_dilation|apply rle_window_erosion].
  - unfold extend_up, extend_down. rewrite Ey. destruct maximum; lia.
Qed.

(** Opening and Closing: the first pass over the extended area, then the
    opposite pass over the temporary field that holds its result. *)
Lemma real_open_close_ok (u : Uninit V) (data_field kernel : GwyDataField V)
    (is_closing : bool) col row width height :
  (exists r c, kernel_cell is_nonzero kernel r c) ->
  1 <= width -> 1 <= height ->
  col + width <= xres data_field -> row + height <= yres data_field ->
  let extcol := Nat.max 0 (col - xres kernel / 2) in
  let extrow := Nat.max 0 (row - yres kernel / 2) in
  let extwidth := Nat.min (xres data_field) (col + width + xres kernel / 2)
                  - extcol in
  let extheight := Nat.min (yres data_field) (row + height + yres kernel / 2)
                   - extrow in
  (if is_closing
   then yres kernel <= 1 \/ extrow + (yres kernel - 1) / 2 < yres data_field
   else yres kernel <= 2 \/ extrow + yres kernel / 2 < yres data_field) ->
  (if is_closing
   then yres kernel <= 2 \/ row + yres kernel / 2 < yres data_field
   else yres kernel <= 1 \/ row + (yres kernel - 1) / 2 < yres data_field) ->
  exists tmpdata data_field',
    real u data_field kernel
      (if is_closing then GWY_MIN_MAX_FILTER_CLOSING
       else GWY_MIN_MAX_FILTER_OPENING) col row width height
    = Some data_field' /\
    (forall r c, r < extheight -> c < extwidth ->
       is_extremum_of (sweep_le V ltb is_closing)
         (pass_window is_closing data_field kernel (extrow + r) (extcol + c))
         (tmpdata (r * extwidth + c))) /\
    (forall i j, i < height -> j < width ->
       is_extremum_of (sweep_le V ltb (negb is_closing))
         (pass_window (negb is_closing) (mkField extwidth extheight tmpdata)
            kernel (row - extrow + i) (col - extcol + j))
         (data data_field' ((row + i) * xres data_field + (col + j)))).
Proof.
  intros Hcell Hw Hh Hc Hr extcol extrow extwidth extheight Hsafe1 Hsafe2.
  destruct (ext_area_bounds (xres data_field) (yres data_field) col row
              width height (xres kernel / 2) (yres kernel / 2) Hw Hh Hc Hr)
    as (X1 & X2 & X3 & X4 & X5 & X6).
  fold extcol extrow in X1, X2, X3, X4, X5, X6.
  fold extwidth extheight in X1, X2, X3, X4, X5, X6.
  destruct (analyse_ready_ u 0 kernel extwidth Hcell)
    as (mmp & E & Em & Ex & Ey & Hrd).
  destruct (analyse_ready_ u 1 kernel width Hcell)
    as (mmpb & Eb & Emb & Exb & Eyb & Hrdb).
  assert (Hky : 1 <= yres kernel)
    by (destruct Hrd as (_ & _ & _ & Hky & _); lia).
  (* the analysis as the first pass uses it *)
  set (mmpa := if is_closing then mmp_flip V mmp else mmp).
  assert (Hrda : mmp_ready mmpa extwidth)
    by (unfold mmpa; destruct is_closing; [now apply flip_ready_|exact Hrd]).
  assert (Ema : mmp_mrle mmpa
                = if is_closing
                  then gwy_data_field_area_rle_flip
                         (run_length_encode_mask V is_nonzero kernel)
                         (xres kernel) (yres kernel)
                  else run_length_encode_mask V is_nonzero kernel).
  { unfold mmpa, mmp_flip. destruct is_closing; simpl;
      [now rewrite Em, Ex, Ey|exact Em]. }
  assert (Exa : mmp_kxres mmpa = xres kernel)
    by (unfold mmpa, mmp_flip; destruct is_closing; simpl; exact Ex).
  assert (Eya : mmp_kyres mmpa = yres kernel)
    by (unfold mmpa, mmp_flip; destruct is_closing; simpl; exact Ey).
  destruct (execute_total_ready V ltb data_field mmpa is_closing
              extcol extrow extwidth extheight (u_tmpfield u) Hrda X2 X4)
    as (tmp & mmp1 & E1 & Em1 & Ex1 & Ey1 & Hrd1).
  (* the analysis as the second pass uses it *)
  set (full := Nat.eqb extcol col && Nat.eqb extrow row
               && Nat.eqb extwidth width && Nat.eqb extheight height).
  set (mmpc := if full then mmp_flip V mmp1
               else if negb is_closing then mmp_flip V mmpb else mmpb).
  assert (Hrdc : mmp_ready mmpc width).
  { unfold mmpc. destruct full eqn:Hfull.
    - assert (Ewd : extwidth = width).
      { unfold full in Hfull. rewrite !andb_true_iff in Hfull.
        destruct Hfull as ((_ & H) & _). now apply Nat.eqb_eq in H. }
      apply flip_ready_. rewrite <- Ewd. exact Hrd1.
    - destruct is_closing; simpl; [exact Hrdb|now apply flip_ready_]. }
  assert (Hflip2 : forall l,
            (forall s, In s l ->
               seg_row s < yres kernel /\
               seg_col s + seg_len s <= xres kernel) ->
            forall y x (w : V) (dfield : GwyDataField V),
              rle_window dfield
                (gwy_data_field_area_rle_flip
                   (gwy_data_field_area_rle_flip l (xres kernel) (yres kernel))
                   (xres kernel) (yres kernel))
                ((yres kernel - 1) / 2) ((xres kernel - 1) / 2) y x w <->
              rle_window dfield l
                ((yres kernel - 1) / 2) ((xres kernel - 1) / 2) y x w).
  { intros l Hfit y x w dfield. unfold rle_window.
    assert (Hback : forall s, In s l ->
              mkSeg (yres kernel - 1 - (yres kernel - 1 - seg_row s))
                    (xres kernel - (xres kernel - seg_col s - seg_len s)
                     - seg_len s) (seg_len s) = s).
    { intros s Hs. destruct (Hfit s Hs) as (H1 & H2).
      now apply seg_flip_back. }
    split; intros (t & c & Ht & Hrest).
    - exists t, c. split; [|exact Hrest].
      apply rle_flip_in in Ht. destruct Ht as (t1 & Ht1 & ->).
      apply rle_flip_in in Ht1. destruct Ht1 as (s & Hs & ->). simpl.
      now rewrite (Hback s Hs).
    - exists t, c. split; [|exact Hrest].
      apply rle_flip_in.
      exists (mkSeg (yres kernel - 1 - seg_row t)
                    (xres kernel - seg_col t - seg_len t) (seg_len t)).
      split; [apply rle_flip_in; exists t; auto|].
      simpl. symmetry. now apply Hback. }
  destruct (execute_total_ready V ltb (mkField extwidth extheight tmp) mmpc
              (negb is_closing) (col - extcol) (row - extrow) width height
              (u_outbuf u) Hrdc Hh) as (out & mmp2 & E2 & _);
    [simpl; lia|].
  exists tmp.
  exists (with_data V data_field
            (write_rows V height 0 (data data_field)
               (row * xres data_field + col) (xres data_field) out width)).
  split; [|split].
  - unfold gwy_data_field_area_filter_min_max_real.
    rewrite region_guard_ by assumption.
    fold extcol extrow. fold extwidth extheight.
    unfold mmpa in E1. unfold mmpc, full in E2. revert E2.
    destruct is_closing; cbv iota in E1; rewrite E; unfold obind;
      rewrite E1; simpl negb; cbv iota;
      (destruct ((extcol =? col) && (extrow =? row) && (extwidth =? width)
                 && (extheight =? height));
       intros E2; [|rewrite Eb]; rewrite E2; reflexivity).
  - intros r c Hr0 Hc0.
    apply (pass_window_ok data_field kernel mmpa is_closing extcol extrow
             extwidth extheight (u_tmpfield u) tmp mmp1 Hrda Ema Exa Eya
             X1 X2 X3 X4 Hsafe1 E1 r c Hr0 Hc0).
  - intros i j Hi Hj. simpl data.
    rewrite (region_index V ltb is_nonzero veqb vsub vdiv vhalf).
    rewrite (write_rows_at V veqb vsub vdiv vhalf) by lia.
    assert (Emc : mmp_mrle mmpc
                  = (if negb is_closing
                     then gwy_data_field_area_rle_flip
                            (run_length_encode_mask V is_nonzero kernel)
                            (xres kernel) (yres kernel)
                     else run_length_encode_mask V is_nonzero kernel)
                  \/ (is_closing = true /\
                      mmp_mrle mmpc
                      = gwy_data_field_area_rle_flip
                          (gwy_data_field_area_rle_flip
                             (run_length_encode_mask V is_nonzero kernel)
                             (xres kernel) (yres kernel))
                          (xres kernel) (yres kernel))).
    { unfold mmpc, mmp_flip. destruct full; simpl.
      - rewrite Em1, Ex1, Ey1, Ema, Exa, Eya.
        destruct is_closing; simpl; [right; auto|left; reflexivity].
      - destruct is_closing; simpl;
          [left; exact Emb|left; now rewrite Emb, Exb, Eyb]. }
    assert (Exc : mmp_kxres mmpc = xres kernel).
    { unfold mmpc, mmp_flip. destruct full; simpl;
        [now rewrite Ex1|destruct is_closing; simpl; exact Exb]. }
    assert (Eyc : mmp_kyres mmpc = yres kernel).
    { unfold mmpc, mmp_flip. destruct full; simpl;
        [now rewrite Ey1|destruct is_closing; simpl; exact Eyb]. }
    assert (Hsafe2' :
              extend_up V mmpc (negb is_closing) = 0 \/
              row - extrow + extend_down V mmpc (negb is_closing) < extheight).
    { unfold extend_up, extend_down. rewrite Eyc.
      unfold extheight, extrow. rewrite Nat.max_0_l.
      apply second_pass_seeded; assumption. }
    eapply is_extremum_of_iff;
      [|apply (execute_window V ltb ltb_asym ltb_ntrans
                 (mkField extwidth extheight tmp) mmpc (negb is_closing)
                 (col - extcol) (row - extrow) width height (u_outbuf u)
                 out mmp2 Hrdc Hw Hh);
        [simpl; lia|simpl; lia|exact Hsafe2'|exact E2|exact Hi|exact Hj]].
    intros w. unfold extend_up, extend_left. rewrite Exc, Eyc.
    destruct Emc as [Emc|(-> & Emc)]; rewrite Emc.
    + destruct is_closing; simpl negb; cbv iota;
        [apply rle_window_erosion|apply rle_window_dilation].
    + simpl negb. cbv iota. rewrite Hflip2.
      * apply rle_window_erosion.
      * intros s Hs.
        destruct (run_length_encode_mask_sound V is_nonzero kernel s Hs)
          as (? & ? & ? & _). split; assumption.
Qed.

End OpenClose.

(** X7.  Erosion and dilation agree with the brute-force extrema on every
    area that the sweep seeds right: for a kernel with a nonzero cell and a
    valid area whose first row has [kyres/2] rows below it in the field (or
    [kyres <= 2]), the Minimum operation sets every pixel of the area to
    the minimum of its erosion neighbourhood in the edge-replicated field;
    with [(kyres-1)/2] rows below (or [kyres <= 1]) the Maximum operation
    sets it to the maximum of its dilation neighbourhood, the neighbourhood
    of the point-reflected kernel.  The comparison of the samples is
    assumed to be a strict weak order. *)
Theorem erosion_and_dilation_match_brute_force :
  forall (V : Type) (ltb : V -> V -> bool) (is_nonzero : V -> bool)
         (veqb : V -> V -> bool) (vsub vdiv : V -> V -> V) (vhalf : V),
    (forall a b, ltb a b = true -> ltb b a = false) ->
    (forall a b c, ltb a b = false -> ltb b c = false -> ltb a c = false) ->
  forall (u : Uninit V) (data_field kernel : GwyDataField V)
         col row width height,
    (exists r c, kernel_cell is_nonzero kernel r c) ->
    1 <= width -> 1 <= height ->
    col + width <= xres data_field -> row + height <= yres data_field ->
    (yres kernel <= 2 \/ row + yres kernel / 2 < yres data_field ->
     exists data_field',
       gwy_data_field_area_filter_min_max_real V ltb is_nonzero veqb vsub
         vdiv vhalf u data_field kernel GWY_MIN_MAX_FILTER_MINIMUM
         col row width height = Some data_field' /\
       forall i j, i < height -> j < width ->
         is_extremum_of (le_min ltb)
           (erosion_window data_field is_nonzero kernel (row + i) (col + j))
           (data data_field' ((row + i) * xres data_field + (col + j)))) /\
    (yres kernel <= 1 \/ row + (yres kernel - 1) / 2 < yres data_field ->
     exists data_field',
       gwy_data_field_area_filter_min_max_real V ltb is_nonzero veqb vsub
         vdiv vhalf u data_field kernel GWY_MIN_MAX_FILTER_MAXIMUM
         col row width height = Some data_field' /\
       forall i j, i < height -> j < width ->
         is_extremum_of (le_max ltb)
           (dilation_window data_field is_nonzero kernel (row + i) (col + j))
           (data data_field' ((row + i) * xres data_field + (col + j)))).
Proof.
  intros V ltb is_nonzero veqb vsub vdiv vhalf Hasym Hntrans
         u data_field kernel col row width height Hcell Hw Hh Hc Hr.
  split; intros Hsafe.
  - destruct (real_minimum_ok V ltb is_nonzero veqb vsub vdiv vhalf
                Hasym Hntrans u data_field kernel col row width height
                Hcell Hw Hh Hc Hr Hsafe) as (df' & E & _ & _ & Hmin & _).
    exists df'. split; [exact E|exact Hmin].
  - destruct (real_maximum_ok V ltb is_nonzero veqb vsub vdiv vhalf
                Hasym Hntrans u data_field kernel col row width height
                Hcell Hw Hh Hc Hr Hsafe) as (df' & E & _ & _ & Hmax & _).
    exists df'. split; [exact E|exact Hmax].
Qed.

Lemma erosion_and_dilation_match_brute_force_witness :
  exists data_field',
    QSample.filter_real (QSample.junk 0%Q) QSample.square_image
      QSample.cross_kernel GWY_MIN_MAX_FILTER_MINIMUM 0 0 3 2
    = Some data_field' /\
    forall i j, i < 2 -> j < 3 ->
      is_extremum_of (le_min QSample.ltb)
        (erosion_window QSample.square_image QSample.is_nonzero
           QSample.cross_kernel (0 + i) (0 + j))
        (data data_field' ((0 + i) * xres QSample.square_image + (0 + j))).
Proof.
  destruct (erosion_and_dilation_match_brute_force Q QSample.ltb
              QSample.is_nonzero QSample.eqb QSample.sub QSample.div
              QSample.half Qltb_asym Qltb_ntrans (QSample.junk 0%Q)
              QSample.square_image QSample.cross_kernel 0 0 3 2)
    as (Hmin & _).
  - exists 1, 1. split; [simpl; lia|]. split; [simpl; lia|]. reflexivity.
  - lia.
  - lia.
  - simpl; lia.
  - simpl; lia.
  - apply Hmin. right. vm_compute. lia.
Defined.

(** X8.  Opening is the dilation of the eroded extended area.  The first
    pass erodes the area extended by half a kernel and clipped to the
    field into a temporary field; the second pass dilates the temporary
    field, replicating the edges of the temporary field, not of the data
    field.  This holds when both passes are seeded right: the first row of
    the extended area has [kyres/2] rows below it in the field (or
    [kyres <= 2]) and the first row of the area [(kyres-1)/2] (or
    [kyres <= 1]). *)
Theorem opening_is_dilation_of_the_eroded_area :
  forall (V : Type) (ltb : V -> V -> bool) (is_nonzero : V -> bool)
         (veqb : V -> V -> bool) (vsub vdiv : V -> V -> V) (vhalf : V),
    (forall a b, ltb a b = true -> ltb b a = false) ->
    (forall a b c, ltb a b = false -> ltb b c = false -> ltb a c = false) ->
  forall (u : Uninit V) (data_field kernel : GwyDataField V)
         col row width height,
    (exists r c, kernel_cell is_nonzero kernel r c) ->
    1 <= width -> 1 <= height ->
    col + width <= xres data_field -> row + height <= yres data_field ->
    let extcol := Nat.max 0 (col - xres kernel / 2) in
    let extrow := Nat.max 0 (row - yres kernel / 2) in
    let extwidth := Nat.min (xres data_field) (col + width + xres kernel / 2)
                    - extcol in
    let extheight := Nat.min (yres data_field) (row + height + yres kernel / 2)
                     - extrow in
    (yres kernel <= 2 \/ extrow + yres kernel / 2 < yres data_field) ->
    (yres kernel <= 1 \/ row + (yres kernel - 1) / 2 < yres data_field) ->
    exists tmpdata data_field',
      gwy_data_field_area_filter_min_max_real V ltb is_nonzero veqb vsub
        vdiv vhalf u data_field kernel GWY_MIN_MAX_FILTER_OPENING
        col row width height = Some data_field' /\
      (forall r c, r < extheight -> c < extwidth ->
         is_extremum_of (le_min ltb)
           (erosion_window data_field is_nonzero kernel
              (extrow + r) (extcol + c))
           (tmpdata (r * extwidth + c))) /\
      (forall i j, i < height -> j < width ->
         is_extremum_of (le_max ltb)
           (dilation_window (mkField extwidth extheight tmpdata) is_nonzero
              kernel (row - extrow + i) (col - extcol + j))
           (data data_field' ((row + i) * xres data_field + (col + j)))).
Proof.
  intros V ltb is_nonzero veqb vsub vdiv vhalf Hasym Hntrans
         u data_field kernel col row width height Hcell Hw Hh Hc Hr
         extcol extrow extwidth extheight Hsafe1 Hsafe2.
  destruct (real_open_close_ok V ltb is_nonzero veqb vsub vdiv vhalf
              Hasym Hntrans u data_field kernel false col row width height
              Hcell Hw Hh Hc Hr Hsafe1 Hsafe2)
    as (tmpdata & df' & E & H1 & H2).
  exists tmpdata, df'. split; [exact E|]. split; [exact H1|exact H2].
Qed.

Lemma opening_is_dilation_of_the_eroded_area_witness :
  exists tmpdata data_field',
    QSample.filter_real (QSample.junk 0%Q) QSample.square_image
      QSample.cross_kernel GWY_MIN_MAX_FILTER_OPENING 0 0 3 2
    = Some data_field' /\
    (forall r c, r < 3 -> c < 3 ->
       is_extremum_of (le_min QSample.ltb)
         (erosion_window QSample.square_image QSample.is_nonzero
            QSample.cross_kernel (0 + r) (0 + c))
         (tmpdata (r * 3 + c))) /\
    (forall i j, i < 2 -> j < 3 ->
       is_extremum_of (le_max QSample.ltb)
         (dilation_window (mkField 3 3 tmpdata) QSample.is_nonzero
            QSample.cross_kernel (0 - 0 + i) (0 - 0 + j))
         (data data_field' ((0 + i) * 3 + (0 + j)))).
Proof.
  apply (opening_is_dilation_of_the_eroded_area Q QSample.ltb
           QSample.is_nonzero QSample.eqb QSample.sub QSample.div
           QSample.half Qltb_asym Qltb_ntrans (QSample.junk 0%Q)
           QSample.square_image QSample.cross_kernel 0 0 3 2).
  - exists 1, 1. split; [simpl; lia|]. split; [simpl; lia|]. reflexivity.
  - lia.
  - lia.
  - simpl; lia.
  - simpl; lia.
  - right. vm_compute. lia.
  - right. vm_compute. lia.
Defined.

(** X9.  Closing is the erosion of the dilated extended area: the first
    pass dilates the extended area into a temporary field, the second
    erodes the temporary field.  This holds when the first row of the
    extended area has [(kyres-1)/2] rows below it in the field (or
    [kyres <= 1]) and the first row of the area [kyres/2] (or
    [kyres <= 2]). *)
Theorem closing_is_erosion_of_the_dilated_area :
  forall (V : Type) (ltb : V -> V -> bool) (is_nonzero : V -> bool)
         (veqb : V -> V -> bool) (vsub vdiv : V -> V -> V) (vhalf : V),
    (forall a b, ltb a b = true -> ltb b a = false) ->
    (forall a b c, ltb a b = false -> ltb b c = false -> ltb a c = false) ->
  forall (u : Uninit V) (data_field kernel : GwyDataField V)
         col row width height,
    (exists r c, kernel_cell is_nonzero kernel r c) ->
    1 <= width -> 1 <= height ->
    col + width <= xres data_field -> row + height <= yres data_field ->
    let extcol := Nat.max 0 (col - xres kernel / 2) in
    let extrow := Nat.max 0 (row - yres kernel / 2) in
    let extwidth := Nat.min (xres data_field) (col + width + xres kernel / 2)
                    - extcol in
    let extheight := Nat.min (yres data_field) (row + height + yres kernel / 2)
                     - extrow in
    (yres kernel <= 1 \/ extrow + (yres kernel - 1) / 2 < yres data_field) ->
    (yres kernel <= 2 \/ row + yres kernel / 2 < yres data_field) ->
    exists tmpdata data_field',
      gwy_data_field_area_filter_min_max_real V ltb is_nonzero veqb vsub
        vdiv vhalf u data_field kernel GWY_MIN_MAX_FILTER_CLOSING
        col row width height = Some data_field' /\
      (forall r c, r < extheight -> c < extwidth ->
         is_extremum_of (le_max ltb)
           (dilation_window data_field is_nonzero kernel
              (extrow + r) (extcol + c))
           (tmpdata (r * extwidth + c))) /\
      (forall i j, i < height -> j < width ->
         is_extremum_of (le_min ltb)
           (erosion_window (mkField extwidth extheight tmpdata) is_nonzero
              kernel (row - extrow + i) (col - extcol + j))
           (data data_field' ((row + i) * xres data_field + (col + j)))).
Proof.
  intros V ltb is_nonzero veqb vsub vdiv vhalf Hasym Hntrans
         u data_field kernel col row width height Hcell Hw Hh Hc Hr
         extcol extrow extwidth extheight Hsafe1 Hsafe2.
  destruct (real_open_close_ok V ltb is_nonzero veqb vsub vdiv vhalf
              Hasym Hntrans u data_field kernel true col row width height
              Hcell Hw Hh Hc Hr Hsafe1 Hsafe2)
    as (tmpdata & df' & E & H1 & H2).
  exists tmpdata, df'. split; [exact E|]. split; [exact H1|exact H2].
Qed.

Lemma closing_is_erosion_of_the_dilated_area_witness :
  exists tmpdata data_field',
    QSample.filter_real (QSample.junk 0%Q) QSample.square_image
      QSample.cross_kernel GWY_MIN_MAX_FILTER_CLOSING 1 1 2 1
    = Some data_field' /\
    (forall r c, r < 3 -> c < 3 ->
       is_extremum_of (le_max QSample.ltb)
         (dilation_window QSample.square_image QSample.is_nonzero
            QSample.cross_kernel (0 + r) (0 + c))
         (tmpdata (r * 3 + c))) /\
    (forall i j, i < 1 -> j < 2 ->
       is_extremum_of (le_min QSample.ltb)
         (erosion_window (mkField 3 3 tmpdata) QSample.is_nonzero
            QSample.cross_kernel (1 - 0 + i) (1 - 0 + j))
         (data data_field' ((1 + i) * 3 + (1 + j)))).
Proof.
  apply (closing_is_erosion_of_the_dilated_area Q QSample.ltb
           QSample.is_nonzero QSample.eqb QSample.sub QSample.div
           QSample.half Qltb_asym Qltb_ntrans (QSample.junk 0%Q)
           QSample.square_image QSample.cross_kernel 1 1 2 1).
  - exists 1, 1. split; [simpl; lia|]. split; [simpl; lia|]. reflexivity.
  - lia.
  - lia.
  - simpl; lia.
  - simpl; lia.
  - right. vm_compute. lia.
  - right. vm_compute. lia.
Defined.

(** X10.  Seeding when no row below the area's first row is missing.  For
    a kernel with a nonzero cell and a valid area the analysis succeeds,
    and when the first row of the area has the rows below it that the pass
    reaches (or the pass reaches no row above), the two seeding loops of
    the sweep return and leave in each of the [kyres] row buffers the
    extrema of the extended field row that the buffer stands for, rows
    above the field being replaced by the first row. *)
Theorem seeding_holds_the_clamped_rows :
  forall (V : Type) (ltb : V -> V -> bool) (is_nonzero : V -> bool),
    (forall a b, ltb a b = true -> ltb b a = false) ->
    (forall a b c, ltb a b = false -> ltb b c = false -> ltb a c = false) ->
  forall (u : Uninit V) (dfield kernel : GwyDataField V)
         col row width height,
    (exists r c, kernel_cell is_nonzero kernel r c) ->
    1 <= width -> 1 <= height ->
    col + width <= xres dfield -> row + height <= yres dfield ->
    exists mmp,
      gwy_data_field_area_rle_analyse V is_nonzero u 0 kernel width
      = Some mmp /\
      (yres kernel <= 2 \/ row + yres kernel / 2 < yres dfield ->
       forall st, exists st',
         seed_rows V ltb dfield mmp false col row width st = Some st' /\
         rows_ok V ltb dfield mmp false col row 0 (fst st')) /\
      (yres kernel <= 1 \/ row + (yres kernel - 1) / 2 < yres dfield ->
       forall st, exists st',
         seed_rows V ltb dfield (mmp_flip V mmp) true col row width st
         = Some st' /\
         rows_ok V ltb dfield (mmp_flip V mmp) true col row 0 (fst st')).
Proof.
  intros V ltb is_nonzero Hasym Hntrans u dfield kernel col row width height
         Hcell Hw Hh Hc Hr.
  destruct (analyse_ready V ltb is_nonzero (fun _ _ => true)
              (fun a _ => a) (fun a _ => a)
              (data kernel 0) u 0 kernel width Hcell)
    as (mmp & E & Em & Ex & Ey & Hrd).
  exists mmp. split; [exact E|].
  pose proof (flip_ready V ltb is_nonzero (fun _ _ => true)
                (fun a _ => a) (fun a _ => a) (data kernel 0)
                mmp width Hrd) as Hrdf.
  assert (Hky : 1 <= yres kernel)
    by (destruct Hrd as (_ & _ & _ & Hky & _); lia).
  split; intros Hsafe st.
  - destruct Hrd as (Hplan & Hmax & Hkx & Hky' & Hb & _).
    apply (seed_rows_ok V ltb Hasym Hntrans dfield mmp false col row width
             height Hplan Hmax Hkx Hky' Hb Hw Hc Hh Hr).
    unfold extend_up, extend_down. rewrite Ey. lia.
  - destruct Hrdf as (Hplan & Hmax & Hkx & Hky' & Hb & _).
    apply (seed_rows_ok V ltb Hasym Hntrans dfield (mmp_flip V mmp) true
             col row width height Hplan Hmax Hkx Hky' Hb Hw Hc Hh Hr).
    unfold extend_up, extend_down, mmp_flip. simpl. rewrite Ey. lia.
Qed.

Lemma seeding_holds_the_clamped_rows_witness :
  exists mmp,
    gwy_data_field_area_rle_analyse Q QSample.is_nonzero (QSample.junk 0%Q)
      0 QSample.cross_kernel 3 = Some mmp /\
    forall st, exists st',
      seed_rows Q QSample.ltb QSample.square_image mmp false 0 0 3 st
      = Some st' /\
      rows_ok Q QSample.ltb QSample.square_image mmp false 0 0 0 (fst st').
Proof.
  destruct (seeding_holds_the_clamped_rows Q QSample.ltb QSample.is_nonzero
              Qltb_asym Qltb_ntrans (QSample.junk 0%Q) QSample.square_image
              QSample.cross_kernel 0 0 3 2) as (mmp & E & Hmin & _).
  - exists 1, 1. split; [simpl; lia|]. split; [simpl; lia|]. reflexivity.
  - lia.
  - lia.
  - simpl; lia.
  - simpl; lia.
  - exists mmp. split; [exact E|]. apply Hmin. right. vm_compute. lia.
Defined.

(** ** Thresholding and clamping *)

Section Levels.

Variables threshval bottom top : Q.

(** The value thresholding gives a cell, and the cells it counts. *)
Local Abbreviation thr x := (if QSample.ltb x threshval then bottom else top).
Local Abbreviation above x := (negb (QSample.ltb x threshval)).

Lemma threshold_loop_spec (d0 : buf Q) : forall cnt p d tot,
  (forall k, p <= k -> d k = d0 k) ->
  (forall k, k < p -> d k = thr (d0 k)) ->
  tot = count_cells (fun x => above x) d0 p ->
  forall d' tot',
    threshold_loop cnt p d threshval bottom top tot = (d', tot') ->
    (forall k, k < p + cnt -> d' k = thr (d0 k)) /\
    (forall k, p + cnt <= k -> d' k = d0 k) /\
    tot' = count_cells (fun x => above x) d0 (p + cnt).
Proof.
  induction cnt as [|cnt IH]; intros p d tot Hhi Hlo Htot d' tot' E;
    simpl in E.
  - inversion E; subst d' tot'. rewrite Nat.add_0_r.
    split; [exact Hlo|]. split; [exact Hhi|exact Htot].
  - replace (p + S cnt) with (S p + cnt) by lia.
    assert (Ep : d p = d0 p) by (apply Hhi; lia).
    destruct (QSample.ltb (d p) threshval) eqn:Elt; rewrite Ep in Elt.
    + apply (IH (S p) (upd d p bottom) tot); [| | |exact E].
      * intros k Hk. unfold upd.
        destruct (Nat.eqb_spec k p); [lia|apply Hhi; lia].
      * intros k Hk. unfold upd. destruct (Nat.eqb_spec k p) as [->|].
        -- now rewrite Elt.
        -- apply Hlo. lia.
      * simpl. rewrite Elt. simpl. lia.
    + apply (IH (S p) (upd d p top) (S tot)); [| | |exact E].
      * intros k Hk. unfold upd.
        destruct (Nat.eqb_spec k p); [lia|apply Hhi; lia].
      * intros k Hk. unfold upd. destruct (Nat.eqb_spec k p) as [->|].
        -- now rewrite Elt.
        -- apply Hlo. lia.
      * simpl. rewrite Elt. simpl. lia.
Qed.

(** The sum of a field of two levels. *)
Lemma sum_two_levels (d0 d' : buf Q) : forall n,
  (forall k, k < n -> d' k = thr (d0 k)) ->
  (sum_cells d' n
   == of_gint (Z.of_nat (count_cells (fun x => above x) d0 n)) * top
      + of_gint (Z.of_nat n - Z.of_nat (count_cells (fun x => above x) d0 n))
        * bottom)%Q.
Proof.
  unfold of_gint.
  induction n as [|n IH]; intros H.
  - simpl. unfold inject_Z. ring.
  - simpl sum_cells. rewrite IH by (intros k Hk; apply H; lia).
    rewrite (H n) by lia. simpl count_cells.
    set (c := count_cells (fun x => negb (QSample.ltb x threshval)) d0 n).
    destruct (QSample.ltb (d0 n) threshval); simpl negb; cbv iota.
    + replace (Z.of_nat (S n) - Z.of_nat (c + 0))%Z
        with (Z.of_nat n - Z.of_nat c + 1)%Z by lia.
      replace (c + 0) with c by lia.
      rewrite inject_Z_plus. ring.
    + replace (Z.of_nat (S n) - Z.of_nat (c + 1))%Z
        with (Z.of_nat n - Z.of_nat c)%Z by lia.
      replace (Z.of_nat (c + 1)) with (Z.of_nat c + 1)%Z by lia.
      rewrite inject_Z_plus. ring.
Qed.

End Levels.

(** What [gwy_data_field_threshold] leaves in the cells and returns. *)
Lemma gwy_data_field_threshold_cells (data_field : GwyDataField Q)
    (cache : FieldCache) (threshval bottom top : Q) :
  let n := xres data_field * yres data_field in
  forall data_field' cache' tot,
    gwy_data_field_threshold data_field cache threshval bottom top
    = (data_field', cache', tot) ->
    xres data_field' = xres data_field /\
    yres data_field' = yres data_field /\
    (forall k, k < n ->
       data data_field' k
       = if QSample.ltb (data data_field k) threshval then bottom else top) /\
    (forall k, n <= k -> data data_field' k = data data_field k) /\
    tot = count_cells (fun x => negb (QSample.ltb x threshval))
            (data data_field) n.
Proof.
  intros n data_field' cache' tot E.
  unfold gwy_data_field_threshold in E. fold n in E.
  destruct (threshold_loop n 0 (data data_field) threshval bottom top 0)
    as [d' tot0] eqn:El.
  destruct (threshold_loop_spec threshval bottom top (data data_field)
              n 0 (data data_field) 0) with (d' := d') (tot' := tot0)
    as (H1 & H2 & H3); [reflexivity|intros k Hk; lia|reflexivity|exact El|].
  simpl in H1, H2, H3. inversion E; subst data_field' tot. simpl.
  split; [reflexivity|]. split; [reflexivity|]. split; [exact H1|].
  split; [exact H2|exact H3].
Qed.

Lemma count_cells_le (f : Q -> bool) (d : buf Q) n : count_cells f d n <= n.
Proof. induction n as [|m IH]; simpl; [lia|]. destruct (f (d m)); lia. Qed.

Lemma count_cells_ext (f g : Q -> bool) (d d' : buf Q) n :
  (forall k, k < n -> f (d k) = g (d' k)) ->
  count_cells f d n = count_cells g d' n.
Proof.
  induction n as [|m IH]; intros H; simpl; [reflexivity|].
  rewrite IH by (intros k Hk; apply H; lia). now rewrite (H m) by lia.
Qed.

(** X11.  [gwy_data_field_threshold] sets every cell of the field to
    [bottom] when it is below the threshold and to [top] otherwise, keeps
    the resolution, returns the number of cells that were not below the
    threshold, and caches as the sum the sum of the cells it leaves
    (samples are exact rationals here). *)
Theorem threshold_sets_two_levels_and_counts :
  forall (data_field : GwyDataField Q) (cache : FieldCache)
         (threshval bottom top : Q),
    let n := xres data_field * yres data_field in
    match gwy_data_field_threshold data_field cache threshval bottom top with
    | (data_field', cache', tot) =>
        xres data_field' = xres data_field /\
        yres data_field' = yres data_field /\
        (forall k, k < n ->
           data data_field' k
           = if QSample.ltb (data data_field k) threshval
             then bottom else top) /\
        (forall k, n <= k -> data data_field' k = data data_field k) /\
        tot = count_cells (fun x => negb (QSample.ltb x threshval))
                (data data_field) n /\
        tot <= n /\
        cached cache' CACHE_SUM = true /\
        Qeq (cval cache' CACHE_SUM) (sum_cells (data data_field') n)
    end.
Proof.
  intros data_field cache threshval bottom top n.
  destruct (gwy_data_field_threshold data_field cache threshval bottom top)
    as [[data_field' cache'] tot] eqn:E.
  destruct (gwy_data_field_threshold_cells data_field cache threshval bottom
              top data_field' cache' tot E) as (Hx & Hy & H1 & H2 & H3).
  fold n in H1, H2, H3.
  split; [exact Hx|]. split; [exact Hy|]. split; [exact H1|].
  split; [exact H2|]. split; [exact H3|]. split.
  - rewrite H3. apply count_cells_le.
  - unfold gwy_data_field_threshold in E. fold n in E.
    destruct (threshold_loop n 0 (data data_field) threshval bottom top 0)
      as [d' tot0]. injection E as Edf Ecache Etot.
    subst cache' data_field'. simpl in H1 |- *.
    split; [reflexivity|].
    rewrite (sum_two_levels threshval bottom top (data data_field) d' n H1).
    rewrite Etot, H3. reflexivity.
Qed.

(** X12.  With [bottom] below the threshold and [top] not below it,
    thresholding a thresholded field again changes no cell and returns the
    same count. *)
Theorem threshold_twice_changes_nothing :
  forall (data_field : GwyDataField Q) (cache : FieldCache)
         (threshval bottom top : Q),
    QSample.ltb bottom threshval = true ->
    QSample.ltb top threshval = false ->
    match gwy_data_field_threshold data_field cache threshval bottom top with
    | (data_field1, cache1, tot1) =>
        match gwy_data_field_threshold data_field1 cache1
                threshval bottom top with
        | (data_field2, cache2, tot2) =>
            (forall k, data data_field2 k = data data_field1 k) /\
            tot2 = tot1
        end
    end.
Proof.
  intros data_field cache threshval bottom top Hb Ht.
  destruct (gwy_data_field_threshold data_field cache threshval bottom top)
    as [[df1 c1] tot1] eqn:E1.
  destruct (gwy_data_field_threshold df1 c1 threshval bottom top)
    as [[df2 c2] tot2] eqn:E2.
  destruct (gwy_data_field_threshold_cells data_field cache threshval bottom
              top df1 c1 tot1 E1) as (Hx & Hy & H1 & H2 & H3).
  destruct (gwy_data_field_threshold_cells df1 c1 threshval bottom
              top df2 c2 tot2 E2) as (_ & _ & G1 & G2 & G3).
  rewrite Hx, Hy in G1, G2, G3.
  set (n := xres data_field * yres data_field) in *.
  assert (Hlevel : forall k, k < n ->
            QSample.ltb (data df1 k) threshval
            = QSample.ltb (data data_field k) threshval).
  { intros k Hk. rewrite (H1 k Hk).
    destruct (QSample.ltb (data data_field k) threshval); assumption. }
  split.
  - intros k. destruct (Nat.lt_ge_cases k n) as [Hk|Hk].
    + rewrite (G1 k Hk), (Hlevel k Hk). symmetry. apply H1. exact Hk.
    + apply G2. exact Hk.
  - rewrite G3, H3. apply count_cells_ext.
    intros k Hk. now rewrite (Hlevel k Hk).
Qed.

Lemma threshold_twice_changes_nothing_witness :
  match gwy_data_field_threshold QSample.square_image
          (mkCache (fun _ => false) (fun _ => 0%Q)) (4 # 1) 0 (9 # 1) with
  | (data_field1, cache1, tot1) =>
      match gwy_data_field_threshold data_field1 cache1 (4 # 1) 0 (9 # 1) with
      | (data_field2, cache2, tot2) =>
          (forall k, data data_field2 k = data data_field1 k) /\
          tot2 = tot1
      end
  end.
Proof.
  apply (threshold_twice_changes_nothing QSample.square_image
           (mkCache (fun _ => false) (fun _ => 0%Q)) (4 # 1) 0 (9 # 1));
    reflexivity.
Defined.

(** *** The area variants: the row pointer that does not move *)

Section AreaThreshold.

Variables threshval bottom top : Q.

Local Abbreviation thr x := (if QSample.ltb x threshval then bottom else top).
Local Abbreviation above x := (negb (QSample.ltb x threshval)).

(** The inner loop writes the one cell [drow]. *)
Lemma area_threshold_row_frame drow : forall cnt d tot d' tot',
  area_threshold_row cnt d drow threshval bottom top tot = (d', tot') ->
  (forall k, k <> drow -> d' k = d k) /\
  (1 <= cnt -> d' drow = bottom \/ d' drow = top).
Proof.
  induction cnt as [|cnt IH]; intros d tot d' tot' E; simpl in E.
  - inversion E; subst. split; [reflexivity|lia].
  - destruct (QSample.ltb (d drow) threshval).
    + destruct (IH _ _ _ _ E) as (H1 & H2). split.
      * intros k Hk. rewrite (H1 k Hk). unfold upd.
        destruct (Nat.eqb_spec k drow); [contradiction|reflexivity].
      * intros _. destruct cnt as [|cnt']; [|apply H2; lia].
        simpl in E. inversion E; subst. left. unfold upd.
        now rewrite Nat.eqb_refl.
    + destruct (IH _ _ _ _ E) as (H1 & H2). split.
      * intros k Hk. rewrite (H1 k Hk). unfold upd.
        destruct (Nat.eqb_spec k drow); [contradiction|reflexivity].
      * intros _. destruct cnt as [|cnt']; [|apply H2; lia].
        simpl in E. inversion E; subst. right. unfold upd.
        now rewrite Nat.eqb_refl.
Qed.

Hypothesis bottom_below : QSample.ltb bottom threshval = true.
Hypothesis top_above : QSample.ltb top threshval = false.

(** On a cell that holds one of the two levels the loop only counts. *)
Lemma area_threshold_row_level drow : forall cnt d tot d' tot',
  d drow = bottom \/ d drow = top ->
  area_threshold_row cnt d drow threshval bottom top tot = (d', tot') ->
  d' drow = d drow /\
  tot' = tot + (if above (d drow) then cnt else 0).
Proof.
  induction cnt as [|cnt IH]; intros d tot d' tot' Hl E; simpl in E.
  - inversion E; subst. split; [reflexivity|]. destruct (above (d' drow)); lia.
  - destruct Hl as [Hl|Hl]; rewrite Hl in E |- *.
    + rewrite bottom_below in E |- *. simpl.
      destruct (IH (upd d drow bottom) tot d' tot') as (G1 & G2);
        [left; unfold upd; now rewrite Nat.eqb_refl|exact E|].
      unfold upd in G1, G2. rewrite Nat.eqb_refl in G1, G2.
      rewrite bottom_below in G2. simpl in G2. split; [exact G1|lia].
    + rewrite top_above in E |- *. simpl.
      destruct (IH (upd d drow top) (S tot) d' tot') as (G1 & G2);
        [right; unfold upd; now rewrite Nat.eqb_refl|exact E|].
      unfold upd in G1, G2. rewrite Nat.eqb_refl in G1, G2.
      rewrite top_above in G2. simpl in G2. split; [exact G1|lia].
Qed.

Lemma area_threshold_row_normal drow cnt d tot d' tot' :
  1 <= cnt ->
  area_threshold_row cnt d drow threshval bottom top tot = (d', tot') ->
  d' drow = thr (d drow) /\
  tot' = tot + (if above (d drow) then cnt else 0).
Proof.
  intros Hc E. destruct cnt as [|cnt]; [lia|]. simpl in E.
  destruct (QSample.ltb (d drow) threshval) eqn:Elt; simpl.
  - destruct (area_threshold_row_level drow cnt (upd d drow bottom) tot d' tot')
      as (G1 & G2); [left; unfold upd; now rewrite Nat.eqb_refl|exact E|].
    unfold upd in G1, G2. rewrite Nat.eqb_refl in G1, G2.
    rewrite bottom_below in G2. simpl in G2. split; [exact G1|lia].
  - destruct (area_threshold_row_level drow cnt (upd d drow top) (S tot) d' tot')
      as (G1 & G2); [right; unfold upd; now rewrite Nat.eqb_refl|exact E|].
    unfold upd in G1, G2. rewrite Nat.eqb_refl in G1, G2.
    rewrite top_above in G2. simpl in G2. split; [exact G1|lia].
Qed.

End AreaThreshold.

(** Different cells of a raster have different indices. *)
Lemma cells_differ (xr r r' c c' : nat) :
  c < xr -> c' < xr -> r <> r' \/ c <> c' -> r * xr + c <> r' * xr + c'.
Proof.
  intros Hc Hc' Hne E.
  destruct (Nat.lt_trichotomy r r') as [H|[H|H]].
  - pose proof (Nat.mul_le_mono_r (S r) r' xr H) as Hm. simpl in Hm. lia.
  - subst r'. lia.
  - pose proof (Nat.mul_le_mono_r (S r') r xr H) as Hm. simpl in Hm. lia.
Qed.

(** The first cells of the rows of an area are different cells. *)
Lemma first_cells_differ (xr col row i i' : nat) :
  col < xr -> i <> i' -> (row + i) * xr + col <> (row + i') * xr + col.
Proof. intros Hc Hne. apply cells_differ; [exact Hc|exact Hc|left; lia]. Qed.

Lemma area_threshold_rows_frame (threshval bottom top : Q)
    (xr col row width : nat) : forall cnt i d tot d' tot',
  area_threshold_rows cnt i d xr col row width threshval bottom top tot
  = (d', tot') ->
  (forall k, (forall i', i <= i' < i + cnt -> k <> (row + i') * xr + col) ->
             d' k = d k) /\
  (1 <= width -> col < xr ->
   forall i', i <= i' < i + cnt ->
     d' ((row + i') * xr + col) = bottom \/
     d' ((row + i') * xr + col) = top).
Proof.
  induction cnt as [|cnt IH]; intros i d tot d' tot' E; simpl in E.
  - inversion E; subst d' tot'. split; [reflexivity|intros; lia].
  - destruct (area_threshold_row width d ((row + i) * xr + col)
                threshval bottom top tot) as [d1 tot1] eqn:Er.
    destruct (area_threshold_row_frame threshval bottom top _ _ _ _ _ _ Er)
      as (F1 & F2).
    destruct (IH (S i) d1 tot1 d' tot' E) as (G1 & G2).
    split.
    + intros k Hk. rewrite G1 by (intros i' Hi'; apply Hk; lia).
      apply F1. apply Hk. lia.
    + intros Hw Hc i' Hi'. destruct (Nat.eq_dec i' i) as [->|Hne].
      * rewrite G1; [apply F2; exact Hw|].
        intros i2 Hi2. apply first_cells_differ; [exact Hc|lia].
      * apply G2; [exact Hw|exact Hc|lia].
Qed.

Lemma area_threshold_rows_normal (threshval bottom top : Q) (d0 : buf Q)
    (xr col row width : nat) :
  1 <= width -> col < xr ->
  QSample.ltb bottom threshval = true -> QSample.ltb top threshval = false ->
  forall cnt i d tot d' tot',
    area_threshold_rows cnt i d xr col row width threshval bottom top tot
    = (d', tot') ->
    (forall i', i <= i' ->
       d ((row + i') * xr + col) = d0 ((row + i') * xr + col)) ->
    tot = width * count_cells (fun x => negb (QSample.ltb x threshval))
                    (fun i' => d0 ((row + i') * xr + col)) i ->
    (forall i', i <= i' < i + cnt ->
       d' ((row + i') * xr + col)
       = if QSample.ltb (d0 ((row + i') * xr + col)) threshval
         then bottom else top) /\
    tot' = width * count_cells (fun x => negb (QSample.ltb x threshval))
                     (fun i' => d0 ((row + i') * xr + col)) (i + cnt).
Proof.
  intros Hw Hc Hb Ht.
  induction cnt as [|cnt IH]; intros i d tot d' tot' E Hd Htot; simpl in E.
  - inversion E; subst d' tot'. split; [intros; lia|].
    now rewrite Nat.add_0_r.
  - destruct (area_threshold_row width d ((row + i) * xr + col)
                threshval bottom top tot) as [d1 tot1] eqn:Er.
    destruct (area_threshold_row_frame threshval bottom top _ _ _ _ _ _ Er)
      as (F1 & _).
    destruct (area_threshold_row_normal threshval bottom top Hb Ht
                _ _ _ _ _ _ Hw Er) as (N1 & N2).
    rewrite (Hd i) in N1, N2 by lia.
    destruct (area_threshold_rows_frame threshval bottom top xr col row width
                cnt (S i) d1 tot1 d' tot' E) as (G1 & _).
    replace (i + S cnt) with (S i + cnt) by lia.
    destruct (IH (S i) d1 tot1 d' tot' E) as (R1 & R2).
    + intros i' Hi'. rewrite F1; [apply Hd; lia|].
      apply first_cells_differ; [exact Hc|lia].
    + simpl count_cells. rewrite N2, Htot.
      destruct (negb (QSample.ltb (d0 ((row + i) * xr + col)) threshval));
        lia.
    + split; [|exact R2].
      intros i' Hi'. destruct (Nat.eq_dec i' i) as [->|Hne].
      * rewrite G1; [exact N1|].
        intros i2 Hi2. apply first_cells_differ; [exact Hc|lia].
      * apply R1. lia.
Qed.

(** X13.  [gwy_data_field_area_threshold] does not advance its row
    pointer, so in every row of the area it thresholds the first cell
    [width] times and no other cell: every cell of the field but the first
    cells of the rows of the area keeps its value, among them the cells of
    the area in its other columns; the first cells end at [bottom] or
    [top]; and with [bottom] below the threshold and [top] not below it the
    value returned is [width] times the number of rows whose first cell was
    not below the threshold. *)
Theorem area_threshold_changes_first_column_only :
  forall (data_field : GwyDataField Q) (cache : FieldCache)
         (col row width height : nat) (threshval bottom top : Q),
    match gwy_data_field_area_threshold data_field cache col row width height
            threshval bottom top with
    | (data_field', cache', tot) =>
        xres data_field' = xres data_field /\
        yres data_field' = yres data_field /\
        (forall k,
           (forall i, i < height -> k <> (row + i) * xres data_field + col) ->
           data data_field' k = data data_field k) /\
        (col + width <= xres data_field ->
         forall i j, i < height -> 1 <= j < width ->
           data data_field' ((row + i) * xres data_field + (col + j))
           = data data_field ((row + i) * xres data_field + (col + j))) /\
        (1 <= width -> col + width <= xres data_field ->
         row + height <= yres data_field ->
         (forall i, i < height ->
            data data_field' ((row + i) * xres data_field + col) = bottom \/
            data data_field' ((row + i) * xres data_field + col) = top) /\
         (QSample.ltb bottom threshval = true ->
          QSample.ltb top threshval = false ->
          (forall i, i < height ->
             data data_field' ((row + i) * xres data_field + col)
             = if QSample.ltb
                    (data data_field ((row + i) * xres data_field + col))
                    threshval
               then bottom else top) /\
          tot = width
                * count_cells (fun x => negb (QSample.ltb x threshval))
                    (fun i => data data_field
                                ((row + i) * xres data_field + col))
                    height))
    end.
Proof.
  intros data_field cache col row width height threshval bottom top.
  unfold gwy_data_field_area_threshold.
  destruct (Nat.leb_spec (col + width) (xres data_field)) as [Hc|Hc];
    [destruct (Nat.leb_spec (row + height) (yres data_field)) as [Hr|Hr]|];
    simpl.
  2, 3: (split; [reflexivity|]; split; [reflexivity|];
         split; [reflexivity|]; split; [reflexivity|]; intros; exfalso; lia).
  destruct (area_threshold_rows height 0 (data data_field) (xres data_field)
              col row width threshval bottom top 0) as [d' tot] eqn:E.
  destruct (area_threshold_rows_frame threshval bottom top _ _ _ _ _ _ _ _ _ _ E)
    as (F1 & F2).
  simpl.
  split; [reflexivity|]. split; [reflexivity|]. split; [|split; [|split]].
  - intros k Hk. apply F1. intros i' Hi'. apply Hk. lia.
  - intros _ i j Hi Hj. apply F1. intros i' Hi'.
    apply cells_differ; [lia|lia|right; lia].
  - intros i Hi. apply F2; lia.
  - intros Hb Ht.
    destruct (area_threshold_rows_normal threshval bottom top
                (data data_field) (xres data_field) col row width
                H ltac:(lia) Hb Ht height 0 (data data_field) 0 d' tot E)
      as (R1 & R2); [reflexivity|simpl; lia|].
    split; [intros i Hi; apply R1; lia|exact R2].
Qed.

(** *** Clamping *)

Section Clamp.

Variables bottom top : Q.

(** The value clamping gives a cell, and the cells it counts. *)
Local Abbreviation clampval x :=
  (if QSample.ltb x bottom then bottom
   else if QSample.ltb top x then top else x%Q).
Local Abbreviation outside x := (QSample.ltb x bottom || QSample.ltb top x).

Lemma clamp_loop_spec (d0 : buf Q) : forall cnt p d tot,
  (forall k, p <= k -> d k = d0 k) ->
  (forall k, k < p -> d k = clampval (d0 k)) ->
  tot = count_cells (fun x => outside x) d0 p ->
  forall d' tot',
    clamp_loop cnt p d bottom top tot = (d', tot') ->
    (forall k, k < p + cnt -> d' k = clampval (d0 k)) /\
    (forall k, p + cnt <= k -> d' k = d0 k) /\
    tot' = count_cells (fun x => outside x) d0 (p + cnt).
Proof.
  induction cnt as [|cnt IH]; intros p d tot Hhi Hlo Htot d' tot' E;
    simpl in E.
  - inversion E; subst d' tot'. rewrite Nat.add_0_r.
    split; [exact Hlo|]. split; [exact Hhi|exact Htot].
  - replace (p + S cnt) with (S p + cnt) by lia.
    assert (Ep : d p = d0 p) by (apply Hhi; lia).
    rewrite Ep in E.
    destruct (QSample.ltb (d0 p) bottom) eqn:Elo;
      [|destruct (QSample.ltb top (d0 p)) eqn:Ehi].
    + apply (IH (S p) (upd d p bottom) (S tot)); [| | |exact E].
      * intros k Hk. unfold upd.
        destruct (Nat.eqb_spec k p); [lia|apply Hhi; lia].
      * intros k Hk. unfold upd. destruct (Nat.eqb_spec k p) as [->|].
        -- now rewrite Elo.
        -- apply Hlo. lia.
      * simpl. rewrite Elo. simpl. lia.
    + apply (IH (S p) (upd d p top) (S tot)); [| | |exact E].
      * intros k Hk. unfold upd.
        destruct (Nat.eqb_spec k p); [lia|apply Hhi; lia].
      * intros k Hk. unfold upd. destruct (Nat.eqb_spec k p) as [->|].
        -- now rewrite Elo, Ehi.
        -- apply Hlo. lia.
      * simpl. rewrite Elo, Ehi. simpl. lia.
    + apply (IH (S p) d tot); [| | |exact E].
      * intros k Hk. apply Hhi. lia.
      * intros k Hk. destruct (Nat.eq_dec k p) as [->|].
        -- now rewrite Elo, Ehi.
        -- apply Hlo. lia.
      * simpl. rewrite Elo, Ehi. simpl. lia.
Qed.

(** The inner loop of the area variant writes the one cell [drow]. *)
Lemma area_clamp_row_frame drow : forall cnt d tot d' tot',
  area_clamp_row cnt d drow bottom top tot = (d', tot') ->
  forall k, k <> drow -> d' k = d k.
Proof.
  induction cnt as [|cnt IH]; intros d tot d' tot' E k Hk; simpl in E.
  - now inversion E.
  - destruct (QSample.ltb (d drow) bottom);
      [|destruct (QSample.ltb top (d drow))].
    + rewrite (IH _ _ _ _ E k Hk). unfold upd.
      destruct (Nat.eqb_spec k drow); [contradiction|reflexivity].
    + rewrite (IH _ _ _ _ E k Hk). unfold upd.
      destruct (Nat.eqb_spec k drow); [contradiction|reflexivity].
    + apply (IH _ _ _ _ E k Hk).
Qed.

Hypothesis bottom_le_top : Qle bottom top.

(** A clamped value lies in the range, and clamping keeps it. *)
Lemma clampval_in_range x :
  Qle bottom (clampval x) /\ Qle (clampval x) top /\
  outside (clampval x) = false.
Proof.
  destruct (QSample.ltb x bottom) eqn:Elo;
    [|destruct (QSample.ltb top x) eqn:Ehi].
  - split; [apply Qle_refl|]. split; [exact bottom_le_top|].
    assert (E1 : QSample.ltb bottom bottom = false)
      by (apply Qltb_false; apply Qle_refl).
    assert (E2 : QSample.ltb top bottom = false)
      by (apply Qltb_false; exact bottom_le_top).
    now rewrite E1, E2.
  - split; [exact bottom_le_top|]. split; [apply Qle_refl|].
    assert (E1 : QSample.ltb top bottom = false)
      by (apply Qltb_false; exact bottom_le_top).
    assert (E2 : QSample.ltb top top = false)
      by (apply Qltb_false; apply Qle_refl).
    now rewrite E1, E2.
  - split; [now apply Qltb_false|]. split; [now apply Qltb_false|].
    now rewrite Elo, Ehi.
Qed.

(** With [bottom <= top] the first turn of the inner loop clamps the
    cell and the later turns find it in the range. *)
Lemma area_clamp_row_spec drow : forall cnt d tot d' tot',
  area_clamp_row cnt d drow bottom top tot = (d', tot') ->
  (forall k, k <> drow -> d' k = d k) /\
  (1 <= cnt ->
   d' drow = clampval (d drow) /\
   tot' = tot + (if outside (d drow) then 1 else 0)).
Proof.
  assert (Hstay : forall cnt d tot, outside (d drow) = false ->
            area_clamp_row cnt d drow bottom top tot = (d, tot)).
  { induction cnt as [|cnt IH]; intros d tot Ho; simpl; [reflexivity|].
    destruct (QSample.ltb (d drow) bottom) eqn:E1; [discriminate Ho|].
    destruct (QSample.ltb top (d drow)) eqn:E2; [discriminate Ho|].
    apply IH. now rewrite E1, E2. }
  intros cnt d tot d' tot' E. destruct cnt as [|cnt]; simpl in E.
  - inversion E; subst. split; [reflexivity|lia].
  - destruct (QSample.ltb (d drow) bottom) eqn:Elo;
      [|destruct (QSample.ltb top (d drow)) eqn:Ehi].
    + rewrite Hstay in E.
      * inversion E; subst. split.
        -- intros k Hk. unfold upd.
           destruct (Nat.eqb_spec k drow); [contradiction|reflexivity].
        -- intros _. unfold upd. rewrite Nat.eqb_refl. simpl.
           split; [reflexivity|lia].
      * unfold upd. rewrite Nat.eqb_refl.
        pose proof (clampval_in_range (d drow)) as (_ & _ & H).
        now rewrite Elo in H.
    + rewrite Hstay in E.
      * inversion E; subst. split.
        -- intros k Hk. unfold upd.
           destruct (Nat.eqb_spec k drow); [contradiction|reflexivity].
        -- intros _. unfold upd. rewrite Nat.eqb_refl. simpl.
           split; [reflexivity|lia].
      * unfold upd. rewrite Nat.eqb_refl.
        pose proof (clampval_in_range (d drow)) as (_ & _ & H).
        now rewrite Elo, Ehi in H.
    + rewrite Hstay in E by (now rewrite Elo, Ehi).
      inversion E; subst. split; [reflexivity|]. intros _. simpl.
      split; [reflexivity|lia].
Qed.

End Clamp.

Lemma area_clamp_rows_frame (bottom top : Q) (xr col row width : nat) :
  forall cnt i d tot d' tot',
    area_clamp_rows cnt i d xr col row width bottom top tot = (d', tot') ->
    forall k, (forall i', i <= i' < i + cnt -> k <> (row + i') * xr + col) ->
              d' k = d k.
Proof.
  induction cnt as [|cnt IH]; intros i d tot d' tot' E k Hk; simpl in E.
  - now inversion E.
  - destruct (area_clamp_row width d ((row + i) * xr + col) bottom top tot)
      as [d1 tot1] eqn:Er.
    rewrite (IH (S i) d1 tot1 d' tot' E k)
      by (intros i' Hi'; apply Hk; lia).
    apply (area_clamp_row_frame bottom top _ _ _ _ _ _ Er). apply Hk. lia.
Qed.

Lemma area_clamp_rows_spec (bottom top : Q) (d0 : buf Q)
    (xr col row width : nat) :
  Qle bottom top -> 1 <= width -> col < xr ->
  forall cnt i d tot d' tot',
    area_clamp_rows cnt i d xr col row width bottom top tot = (d', tot') ->
    (forall i', i <= i' ->
       d ((row + i') * xr + col) = d0 ((row + i') * xr + col)) ->
    tot = count_cells (fun x => QSample.ltb x bottom || QSample.ltb top x)
            (fun i' => d0 ((row + i') * xr + col)) i ->
    (forall i', i <= i' < i + cnt ->
       d' ((row + i') * xr + col)
       = let x := d0 ((row + i') * xr + col) in
         if QSample.ltb x bottom then bottom
         else if QSample.ltb top x then top else x) /\
    tot' = count_cells (fun x => QSample.ltb x bottom || QSample.ltb top x)
             (fun i' => d0 ((row + i') * xr + col)) (i + cnt).
Proof.
  intros Hbt Hw Hc.
  induction cnt as [|cnt IH]; intros i d tot d' tot' E Hd Htot; simpl in E.
  - inversion E; subst d' tot'. split; [intros; lia|].
    now rewrite Nat.add_0_r.
  - destruct (area_clamp_row width d ((row + i) * xr + col) bottom top tot)
      as [d1 tot1] eqn:Er.
    destruct (area_clamp_row_spec bottom top Hbt _ _ _ _ _ _ Er)
      as (F1 & N).
    destruct (N Hw) as (N1 & N2). rewrite (Hd i) in N1, N2 by lia.
    replace (i + S cnt) with (S i + cnt) by lia.
    destruct (IH (S i) d1 tot1 d' tot' E) as (R1 & R2).
    + intros i' Hi'. rewrite F1; [apply Hd; lia|].
      apply first_cells_differ; [exact Hc|lia].
    + simpl count_cells. rewrite N2, Htot. reflexivity.
    + split; [|exact R2].
      intros i' Hi'. destruct (Nat.eq_dec i' i) as [->|Hne].
      * rewrite (area_clamp_rows_frame bottom top xr col row width
                   cnt (S i) d1 tot1 d' tot' E); [exact N1|].
        intros i2 Hi2. apply first_cells_differ; [exact Hc|lia].
      * apply R1. lia.
Qed.

(** What [gwy_data_field_clamp] leaves in the cells and returns when
    [bottom <= top]. *)
Lemma gwy_data_field_clamp_cells (data_field : GwyDataField Q)
    (cache : FieldCache) (bottom top : Q) :
  Qle_bool bottom top = true ->
  let n := xres data_field * yres data_field in
  forall data_field' cache' tot,
    gwy_data_field_clamp data_field cache bottom top
    = (data_field', cache', tot) ->
    xres data_field' = xres data_field /\
    yres data_field' = yres data_field /\
    (forall k, k < n ->
       data data_field' k
       = let x := data data_field k in
         if QSample.ltb x bottom then bottom
         else if QSample.ltb top x then top else x) /\
    (forall k, n <= k -> data data_field' k = data data_field k) /\
    tot = count_cells (fun x => QSample.ltb x bottom || QSample.ltb top x)
            (data data_field) n /\
    (tot = 0 -> cache' = cache).
Proof.
  intros Hbt n data_field' cache' tot E.
  unfold gwy_data_field_clamp in E. rewrite Hbt in E. simpl negb in E.
  cbv iota in E. fold n in E.
  destruct (clamp_loop n 0 (data data_field) bottom top 0)
    as [d' tot0] eqn:El.
  destruct (clamp_loop_spec bottom top (data data_field)
              n 0 (data data_field) 0) with (d' := d') (tot' := tot0)
    as (H1 & H2 & H3); [reflexivity|intros k Hk; lia|reflexivity|exact El|].
  simpl in H1, H2, H3. injection E as Edf Ecache Etot.
  subst data_field'. simpl.
  split; [reflexivity|]. split; [reflexivity|]. split; [exact H1|].
  split; [exact H2|]. split; [now rewrite <- Etot|].
  intros E0. rewrite <- Etot in E0. rewrite E0 in Ecache. simpl in Ecache.
  now symmetry.
Qed.

(** X14.  [gwy_data_field_clamp] with [bottom > top] returns 0 and leaves
    the field and its cache as they were.  With [bottom <= top] it
    replaces every cell below [bottom] by [bottom] and every cell above
    [top] by [top], keeps the other cells, so that every cell lies in
    [[bottom, top]] afterwards, and returns the number of cells that were
    outside the range; when that is 0 the cache is kept. *)
Theorem clamp_limits_cells_and_counts :
  forall (data_field : GwyDataField Q) (cache : FieldCache) (bottom top : Q),
    let n := xres data_field * yres data_field in
    (Qle_bool bottom top = false ->
     gwy_data_field_clamp data_field cache bottom top
     = (data_field, cache, 0)) /\
    (Qle_bool bottom top = true ->
     match gwy_data_field_clamp data_field cache bottom top with
     | (data_field', cache', tot) =>
         xres data_field' = xres data_field /\
         yres data_field' = yres data_field /\
         (forall k, k < n ->
            data data_field' k
            = (let x := data data_field k in
               if QSample.ltb x bottom then bottom
               else if QSample.ltb top x then top else x) /\
            Qle bottom (data data_field' k) /\
            Qle (data data_field' k) top) /\
         (forall k, n <= k -> data data_field' k = data data_field k) /\
         tot = count_cells
                 (fun x => QSample.ltb x bottom || QSample.ltb top x)
                 (data data_field) n /\
         (tot = 0 -> cache' = cache)
     end).
Proof.
  intros data_field cache bottom top n. split; intros Hbt.
  - unfold gwy_data_field_clamp. now rewrite Hbt.
  - destruct (gwy_data_field_clamp data_field cache bottom top)
      as [[data_field' cache'] tot] eqn:E.
    destruct (gwy_data_field_clamp_cells data_field cache bottom top Hbt
                data_field' cache' tot E) as (Hx & Hy & H1 & H2 & H3 & H4).
    fold n in H1, H2, H3.
    split; [exact Hx|]. split; [exact Hy|]. split; [|auto].
    intros k Hk. split; [apply H1; exact Hk|].
    rewrite (H1 k Hk).
    apply Qle_bool_iff in Hbt.
    destruct (clampval_in_range bottom top Hbt (data data_field k))
      as (G1 & G2 & _).
    split; [exact G1|exact G2].
Qed.

(** X15.  Clamping a clamped field again returns 0 and changes neither a
    cell nor the cache. *)
Theorem clamp_twice_changes_nothing :
  forall (data_field : GwyDataField Q) (cache : FieldCache) (bottom top : Q),
    match gwy_data_field_clamp data_field cache bottom top with
    | (data_field1, cache1, tot1) =>
        match gwy_data_field_clamp data_field1 cache1 bottom top with
        | (data_field2, cache2, tot2) =>
            tot2 = 0 /\ cache2 = cache1 /\
            forall k, data data_field2 k = data data_field1 k
        end
    end.
Proof.
  intros data_field cache bottom top.
  destruct (Qle_bool bottom top) eqn:Hbt.
  - destruct (gwy_data_field_clamp data_field cache bottom top)
      as [[df1 c1] tot1] eqn:E1.
    destruct (gwy_data_field_clamp df1 c1 bottom top)
      as [[df2 c2] tot2] eqn:E2.
    destruct (gwy_data_field_clamp_cells data_field cache bottom top Hbt
                df1 c1 tot1 E1) as (Hx & Hy & H1 & H2 & H3 & _).
    destruct (gwy_data_field_clamp_cells df1 c1 bottom top Hbt
                df2 c2 tot2 E2) as (_ & _ & G1 & G2 & G3 & G4).
    rewrite Hx, Hy in G1, G2, G3.
    set (n := xres data_field * yres data_field) in *.
    pose proof Hbt as Hle. apply Qle_bool_iff in Hle.
    assert (Hin : forall k, k < n ->
              QSample.ltb (data df1 k) bottom || QSample.ltb top (data df1 k)
              = false).
    { intros k Hk. rewrite (H1 k Hk).
      apply (clampval_in_range bottom top Hle (data data_field k)). }
    assert (Htot : tot2 = 0).
    { rewrite G3. clear - Hin. induction n as [|m IH]; simpl; [reflexivity|].
      rewrite IH by (intros k Hk; apply Hin; lia).
      now rewrite (Hin m) by lia. }
    split; [exact Htot|]. split; [now apply G4|].
    intros k. destruct (Nat.lt_ge_cases k n) as [Hk|Hk].
    + rewrite (G1 k Hk). cbv zeta.
      pose proof (Hin k Hk) as Ho.
      destruct (QSample.ltb (data df1 k) bottom); [discriminate Ho|].
      destruct (QSample.ltb top (data df1 k)); [discriminate Ho|reflexivity].
    + apply G2. exact Hk.
  - unfold gwy_data_field_clamp. rewrite Hbt. simpl.
    split; [reflexivity|]. split; reflexivity.
Qed.

(** X16.  [gwy_data_field_area_clamp] does not advance its row pointer
    either: every cell of the field but the first cells of the rows of the
    area keeps its value, among them the cells of the area in its other
    columns.  With [bottom <= top] the first cell of every row of the area
    is clamped, and the value returned is the number of rows whose first
    cell was outside the range. *)
Theorem area_clamp_changes_first_column_only :
  forall (data_field : GwyDataField Q) (cache : FieldCache)
         (col row width height : nat) (bottom top : Q),
    match gwy_data_field_area_clamp data_field cache col row width height
            bottom top with
    | (data_field', cache', tot) =>
        xres data_field' = xres data_field /\
        yres data_field' = yres data_field /\
        (forall k,
           (forall i, i < height -> k <> (row + i) * xres data_field + col) ->
           data data_field' k = data data_field k) /\
        (col + width <= xres data_field ->
         forall i j, i < height -> 1 <= j < width ->
           data data_field' ((row + i) * xres data_field + (col + j))
           = data data_field ((row + i) * xres data_field + (col + j))) /\
        (1 <= width -> col + width <= xres data_field ->
         row + height <= yres data_field -> Qle bottom top ->
         (forall i, i < height ->
            data data_field' ((row + i) * xres data_field + col)
            = let x := data data_field ((row + i) * xres data_field + col) in
              if QSample.ltb x bottom then bottom
              else if QSample.ltb top x then top else x) /\
         tot = count_cells
                 (fun x => QSample.ltb x bottom || QSample.ltb top x)
                 (fun i => data data_field
                             ((row + i) * xres data_field + col))
                 height)
    end.
Proof.
  intros data_field cache col row width height bottom top.
  unfold gwy_data_field_area_clamp.
  destruct (Nat.leb_spec (col + width) (xres data_field)) as [Hc|Hc];
    [destruct (Nat.leb_spec (row + height) (yres data_field)) as [Hr|Hr]|];
    simpl.
  2, 3: (split; [reflexivity|]; split; [reflexivity|];
         split; [reflexivity|]; split; [reflexivity|];
         intros; exfalso; lia).
  destruct (area_clamp_rows height 0 (data data_field) (xres data_field)
              col row width bottom top 0) as [d' tot] eqn:E.
  pose proof (area_clamp_rows_frame bottom top _ _ _ _ _ _ _ _ _ _ E) as F1.
  simpl.
  split; [reflexivity|]. split; [reflexivity|]. split; [|split].
  - intros k Hk. apply F1. intros i' Hi'. apply Hk. lia.
  - intros _ i j Hi Hj. apply F1. intros i' Hi'.
    apply cells_differ; [lia|lia|right; lia].
  - intros Hw _ _ Hbt.
    destruct (area_clamp_rows_spec bottom top (data data_field)
                (xres data_field) col row width Hbt Hw ltac:(lia)
                height 0 (data data_field) 0 d' tot E)
      as (R1 & R2); [reflexivity|reflexivity|].
    split; [intros i Hi; apply R1; lia|exact R2].
Qed.

(** ** Thinning *)

Lemma count_cells_upd_beyond (f : Q -> bool) (d : buf Q) (k : nat) (v : Q) :
  forall n, n <= k -> count_cells f (upd d k v) n = count_cells f d n.
Proof.
  induction n as [|m IH]; intros Hk; simpl; [reflexivity|].
  rewrite IH by lia. unfold upd.
  destruct (Nat.eqb_spec m k); [lia|reflexivity].
Qed.

Lemma count_cells_upd (f : Q -> bool) (d : buf Q) (k : nat) (v : Q) :
  forall n, k < n ->
    count_cells f (upd d k v) n + (if f (d k) then 1 else 0)
    = count_cells f d n + (if f v then 1 else 0).
Proof.
  induction n as [|m IH]; intros Hk; [lia|]. simpl.
  destruct (Nat.eq_dec k m) as [->|Hne].
  - rewrite count_cells_upd_beyond by lia.
    unfold upd. rewrite Nat.eqb_refl. lia.
  - unfold upd at 2. destruct (Nat.eqb_spec m k); [lia|].
    specialize (IH ltac:(lia)). lia.
Qed.

(** Different cells have different indices, in the form [j + xr * i]. *)
Lemma cells_differ' (xr i i' j j' : nat) :
  j < xr -> j' < xr -> i <> i' -> j + xr * i <> j' + xr * i'.
Proof.
  intros Hj Hj' Hne E.
  apply (cells_differ xr i i' j j' Hj Hj' (or_introl Hne)). lia.
Qed.

Section Thin.

Variable data_field : GwyDataField Q.

Local Abbreviation xr := (xres data_field).
Local Abbreviation yr := (yres data_field).

(** The test of the first pair of loops. *)
Local Abbreviation cond i j :=
  ((pixel_status data_field (Z.of_nat i) (Z.of_nat j) =? 1)%Z
   && (pixel_thinnable data_field (Z.of_nat i) (Z.of_nat j) =? 1)%Z).

(** A pixel that passes the test is set and lies where [pixel_thinnable]
    lets it. *)
Lemma cond_true i j :
  cond i j = true ->
  is_set (data data_field (j + xr * i)) = true /\
  2 <= i /\ 2 <= j /\ i + 2 < xr /\ j + 2 < yr.
Proof.
  intros H. apply andb_true_iff in H as (Hs & Ht). split.
  - unfold pixel_status in Hs.
    replace (Z.to_nat (Z.of_nat j + Z.of_nat xr * Z.of_nat i))
      with (j + xr * i) in Hs by lia.
    unfold is_set. destruct (Qeq_bool (data data_field (j + xr * i)) 0);
      [discriminate Hs|reflexivity].
  - unfold pixel_thinnable in Ht.
    destruct ((Z.of_nat i <=? 1)%Z || (Z.of_nat j <=? 1)%Z
              || (Z.of_nat i >=? Z.of_nat xr - 2)%Z
              || (Z.of_nat j >=? Z.of_nat yr - 2)%Z) eqn:G;
      [discriminate Ht|].
    apply orb_false_elim in G as (G & G4).
    apply orb_false_elim in G as (G & G3).
    apply orb_false_elim in G as (G1 & G2).
    lia.
Qed.

(** *** The marking loops *)

Lemma thin_mark_row_spec i : forall cnt j b ch b' ch',
  thin_mark_row cnt j data_field i b ch = (b', ch') ->
  ch <= ch' /\
  (forall k, b' k = b k \/
             (b' k = 1%Q /\ exists j', j <= j' < j + cnt /\
                                       k = j' + xr * i /\ cond i j' = true)) /\
  (forall j', j <= j' < j + cnt -> cond i j' = true ->
              b' (j' + xr * i) = 1%Q /\ ch < ch') /\
  (forall n, (forall j', j <= j' < j + cnt -> j' + xr * i < n) ->
             (forall j', j <= j' < j + cnt ->
                         is_marked (b (j' + xr * i)) = false) ->
             count_cells is_marked b' n + ch
             = count_cells is_marked b n + ch') /\
  ((forall j', j <= j' < j + cnt -> cond i j' = false) ->
   b' = b /\ ch' = ch).
Proof.
  induction cnt as [|cnt IH]; intros j b ch b' ch' E; simpl in E.
  - inversion E; subst b' ch'. split; [lia|]. split; [now left|].
    split; [intros; lia|]. split; [reflexivity|now split].
  - destruct (cond i j) eqn:Ec.
    + destruct (IH _ _ _ _ _ E) as (H0 & H1 & H2 & H3 & _).
      split; [lia|]. split; [|split; [|split]].
      * intros k. destruct (H1 k) as [Hk|(Hk & j' & Hj' & -> & Hc)].
        -- rewrite Hk. unfold upd. destruct (Nat.eqb_spec k (j + xr * i)) as [->|].
           ++ right. split; [reflexivity|].
              exists j. split; [lia|]. split; [reflexivity|exact Ec].
           ++ now left.
        -- right. split; [exact Hk|].
           exists j'. split; [lia|]. split; [reflexivity|exact Hc].
      * intros j' Hj' Hc. destruct (Nat.eq_dec j' j) as [->|Hne].
        -- split; [|lia]. destruct (H1 (j + xr * i)) as [Hk|(Hk & _)];
             [|exact Hk].
           rewrite Hk. unfold upd. now rewrite Nat.eqb_refl.
        -- destruct (H2 j') as (G1 & G2); [lia|exact Hc|].
           split; [exact G1|lia].
      * intros n Hn Hfresh.
        assert (Hc3 : count_cells is_marked b' n + S ch
                      = count_cells is_marked (upd b (j + xr * i) 1%Q) n + ch').
        { apply H3.
          - intros j' Hj'. apply Hn. lia.
          - intros j' Hj'. unfold upd.
            destruct (Nat.eqb_spec (j' + xr * i) (j + xr * i)); [lia|].
            apply Hfresh. lia. }
        pose proof (count_cells_upd is_marked b (j + xr * i) 1%Q n
                      (Hn j ltac:(lia))) as Hu.
        rewrite (Hfresh j) in Hu by lia.
        replace (is_marked 1) with true in Hu by reflexivity. lia.
      * intros Hnone. rewrite (Hnone j) in Ec by lia. discriminate Ec.
    + destruct (IH _ _ _ _ _ E) as (H0 & H1 & H2 & H3 & H4).
      split; [exact H0|]. split; [|split; [|split]].
      * intros k. destruct (H1 k) as [Hk|(Hk & j' & Hj' & -> & Hc)].
        -- now left.
        -- right. split; [exact Hk|].
           exists j'. split; [lia|]. split; [reflexivity|exact Hc].
      * intros j' Hj' Hc. destruct (Nat.eq_dec j' j) as [->|Hne];
          [rewrite Hc in Ec; discriminate Ec|].
        apply H2; [lia|exact Hc].
      * intros n Hn Hfresh. apply H3.
        -- intros j' Hj'. apply Hn. lia.
        -- intros j' Hj'. apply Hfresh. lia.
      * intros Hnone. apply H4. intros j' Hj'. apply Hnone. lia.
Qed.

(** The pixels the loops visit. *)
Local Abbreviation visited i0 cnt i' j' :=
  (i0 <= i' < i0 + cnt /\ 2 <= j' < 2 + (xr - 3)).

Lemma thin_mark_rows_spec : forall cnt i b ch b' ch',
  thin_mark_rows cnt i data_field b ch = (b', ch') ->
  ch <= ch' /\
  (forall k, b' k = b k \/
             (b' k = 1%Q /\ exists i' j', visited i cnt i' j' /\
                                          k = j' + xr * i' /\
                                          cond i' j' = true)) /\
  (forall i' j', visited i cnt i' j' -> cond i' j' = true ->
                 b' (j' + xr * i') = 1%Q /\ ch < ch') /\
  (forall n, (forall i' j', visited i cnt i' j' -> j' + xr * i' < n) ->
             (forall i' j', visited i cnt i' j' ->
                            is_marked (b (j' + xr * i')) = false) ->
             count_cells is_marked b' n + ch
             = count_cells is_marked b n + ch') /\
  ((forall i' j', visited i cnt i' j' -> cond i' j' = false) ->
   b' = b /\ ch' = ch).
Proof.
  induction cnt as [|cnt IH]; intros i b ch b' ch' E; simpl in E.
  - inversion E; subst b' ch'. split; [lia|]. split; [now left|].
    split; [intros; lia|]. split; [reflexivity|now split].
  - destruct (thin_mark_row (xr - 3) 2 data_field i b ch)
      as [b1 ch1] eqn:Er.
    destruct (thin_mark_row_spec i _ _ _ _ _ _ Er)
      as (R0 & R1 & R2 & R3 & R4).
    destruct (IH _ _ _ _ _ E) as (H0 & H1 & H2 & H3 & H4).
    split; [lia|]. split; [|split; [|split]].
    + intros k.
      destruct (H1 k) as [Hk|(Hk & i' & j' & Hv & -> & Hc)].
      * rewrite Hk. destruct (R1 k) as [Hk1|(Hk1 & j' & Hj' & -> & Hc)];
          [now left|].
        right. split; [exact Hk1|].
        exists i, j'. split; [lia|]. split; [reflexivity|exact Hc].
      * right. split; [exact Hk|].
        exists i', j'. split; [lia|]. split; [reflexivity|exact Hc].
    + intros i' j' Hv Hc. destruct (Nat.eq_dec i' i) as [->|Hne].
      * destruct (R2 j') as (G1 & G2); [lia|exact Hc|].
        split; [|lia].
        destruct (H1 (j' + xr * i)) as [Hk|(Hk & _)]; [|exact Hk].
        now rewrite Hk.
      * destruct (H2 i' j') as (G1 & G2); [lia|exact Hc|].
        split; [exact G1|lia].
    + intros n Hn Hfresh.
      assert (Hrow : count_cells is_marked b1 n + ch
                     = count_cells is_marked b n + ch1).
      { apply R3.
        - intros j' Hj'. apply Hn. lia.
        - intros j' Hj'. apply Hfresh. lia. }
      assert (Hrest : count_cells is_marked b' n + ch1
                      = count_cells is_marked b1 n + ch').
      { apply H3.
        - intros i' j' Hv. apply Hn. lia.
        - intros i' j' Hv.
          destruct (R1 (j' + xr * i')) as [Hk|(_ & j2 & Hj2 & Hk & Hc)].
          + rewrite Hk. apply Hfresh. lia.
          + exfalso. destruct (cond_true _ _ Hc) as (_ & _ & _ & Hx & _).
            revert Hk. apply (cells_differ' xr i' i j' j2); lia. }
      lia.
    + intros Hnone.
      destruct R4 as (-> & ->); [intros j' Hj'; apply Hnone; lia|].
      apply H4. intros i' j' Hv. apply Hnone. lia.
Qed.

(** *** The clearing loops *)

Lemma thin_clear_row_spec i (b : buf Q) : forall cnt j d,
  let d' := thin_clear_row cnt j xr i b d in
  (forall k, d' k = d k \/
             (d' k = 0%Q /\ is_marked (b k) = true /\
              exists j', j <= j' < j + cnt /\ k = j' + xr * i)) /\
  (forall j', j <= j' < j + cnt -> is_marked (b (j' + xr * i)) = true ->
              d' (j' + xr * i) = 0%Q) /\
  ((forall j', j <= j' < j + cnt -> is_marked (b (j' + xr * i)) = false) ->
   d' = d).
Proof.
  induction cnt as [|cnt IH]; intros j d; simpl.
  - split; [now left|]. split; [intros; lia|reflexivity].
  - destruct (IH (S j) (if Qeq_bool (b (j + xr * i)) 1
                        then upd d (j + xr * i) 0%Q else d))
      as (H1 & H2 & H3).
    split; [|split].
    + intros k. destruct (H1 k) as [Hk|(Hk & Hm & j' & Hj' & ->)].
      * rewrite Hk. destruct (Qeq_bool (b (j + xr * i)) 1) eqn:Em;
          [|now left].
        unfold upd. destruct (Nat.eqb_spec k (j + xr * i)) as [->|];
          [|now left].
        right. split; [reflexivity|]. split; [exact Em|].
        exists j. split; [lia|reflexivity].
      * right. split; [exact Hk|]. split; [exact Hm|].
        exists j'. split; [lia|reflexivity].
    + intros j' Hj' Hm. destruct (Nat.eq_dec j' j) as [->|Hne].
      * destruct (H1 (j + xr * i)) as [Hk|(Hk & _)]; [|exact Hk].
        rewrite Hk. unfold is_marked in Hm. rewrite Hm.
        unfold upd. now rewrite Nat.eqb_refl.
      * apply H2; [lia|exact Hm].
    + intros Hnone. rewrite H3 by (intros j' Hj'; apply Hnone; lia).
      pose proof (Hnone j ltac:(lia)) as Hj. unfold is_marked in Hj.
      now rewrite Hj.
Qed.

Lemma thin_clear_rows_spec (b : buf Q) : forall cnt i d,
  let d' := thin_clear_rows cnt i xr b d in
  (forall k, d' k = d k \/
             (d' k = 0%Q /\ is_marked (b k) = true /\
              exists i' j', visited i cnt i' j' /\ k = j' + xr * i')) /\
  (forall i' j', visited i cnt i' j' ->
                 is_marked (b (j' + xr * i')) = true ->
                 d' (j' + xr * i') = 0%Q) /\
  ((forall i' j', visited i cnt i' j' ->
                  is_marked (b (j' + xr * i')) = false) ->
   d' = d).
Proof.
  induction cnt as [|cnt IH]; intros i d; simpl.
  - split; [now left|]. split; [intros; lia|reflexivity].
  - destruct (thin_clear_row_spec i b (xr - 3) 2 d) as (R1 & R2 & R3).
    destruct (IH (S i) (thin_clear_row (xr - 3) 2 xr i b d))
      as (H1 & H2 & H3).
    split; [|split].
    + intros k. destruct (H1 k) as [Hk|(Hk & Hm & i' & j' & Hv & ->)].
      * rewrite Hk. destruct (R1 k) as [Hk1|(Hk1 & Hm & j' & Hj' & ->)];
          [now left|].
        right. split; [exact Hk1|]. split; [exact Hm|].
        exists i, j'. split; [lia|reflexivity].
      * right. split; [exact Hk|]. split; [exact Hm|].
        exists i', j'. split; [lia|reflexivity].
    + intros i' j' Hv Hm. destruct (Nat.eq_dec i' i) as [->|Hne].
      * destruct (H1 (j' + xr * i)) as [Hk|(Hk & _)]; [|exact Hk].
        rewrite Hk. apply R2; [lia|exact Hm].
      * apply H2; [lia|exact Hm].
    + intros Hnone. rewrite H3 by (intros i' j' Hv; apply Hnone; lia).
      apply R3. intros j' Hj'. apply Hnone. lia.
Qed.

(** *** One step *)

(** The cells visited lie in the field. *)
Lemma visited_in_field i' j' :
  visited 2 (yr - 3) i' j' -> j' + xr * i' < xr * yr.
Proof.
  intros (Hi & Hj).
  apply Nat.lt_le_trans with (xr * S i'); [rewrite Nat.mul_succ_r; lia|].
  apply Nat.mul_le_mono_l. lia.
Qed.

Lemma count_cells_split (f g : Q -> bool) (d d' b : buf Q) : forall n,
  (forall k, k < n ->
     if g (b k) then f (d k) = true /\ f (d' k) = false else d' k = d k) ->
  count_cells f d' n + count_cells g b n = count_cells f d n.
Proof.
  induction n as [|m IH]; intros H; simpl; [reflexivity|].
  specialize (IH (fun k Hk => H k (Nat.lt_lt_succ_r _ _ Hk))).
  pose proof (H m (Nat.lt_succ_diag_r m)) as Hm.
  destruct (g (b m)).
  - destruct Hm as (-> & ->). lia.
  - rewrite Hm. destruct (f (d m)); lia.
Qed.

Lemma count_cells_none (f : Q -> bool) (d : buf Q) : forall n,
  (forall k, k < n -> f (d k) = false) -> count_cells f d n = 0.
Proof.
  induction n as [|m IH]; intros H; simpl; [reflexivity|].
  rewrite IH by (intros k Hk; apply H; lia). now rewrite (H m) by lia.
Qed.

Lemma clear_not_marked (buffer : GwyDataField Q) k :
  xres buffer = xr -> yres buffer = yr -> k < xr * yr ->
  is_marked (data (gwy_data_field_clear buffer) k) = false.
Proof.
  intros Hx Hy Hk. unfold gwy_data_field_clear. simpl. rewrite Hx, Hy.
  destruct (Nat.ltb_spec k (xr * yr)); [reflexivity|lia].
Qed.

Lemma thinstep_spec (buffer : GwyDataField Q) data_field' buffer' ch :
  xres buffer = xr -> yres buffer = yr ->
  thinstep data_field buffer = (data_field', buffer', ch) ->
  xres data_field' = xr /\ yres data_field' = yr /\
  xres buffer' = xr /\ yres buffer' = yr /\
  (forall k,
     data data_field' k = data data_field k \/
     (data data_field' k = 0%Q /\ is_set (data data_field k) = true /\
      exists i' j', k = j' + xr * i' /\
                    2 <= i' /\ i' + 2 <= yr /\ i' + 2 < xr /\
                    2 <= j' /\ j' + 2 <= xr /\ j' + 2 < yr)) /\
  count_cells is_set (data data_field') (xr * yr) + ch
  = count_cells is_set (data data_field) (xr * yr) /\
  (ch = 0 ->
   data_field' = data_field /\
   forall i' j', visited 2 (yr - 3) i' j' -> cond i' j' = false).
Proof.
  intros Hx Hy E. unfold thinstep in E.
  set (b0 := data (gwy_data_field_clear buffer)) in *.
  destruct (thin_mark_rows (yr - 3) 2 data_field b0 0) as [b ch0] eqn:Em.
  injection E as Edf Ebuf Ech. subst ch0.
  destruct (thin_mark_rows_spec _ _ _ _ _ _ Em) as (_ & M1 & M2 & M3 & M4).
  destruct (thin_clear_rows_spec b (yr - 3) 2 (data data_field))
    as (C1 & C2 & C3).
  assert (Hb0 : forall k, k < xr * yr -> is_marked (b0 k) = false)
    by (intros k Hk; now apply clear_not_marked).
  assert (Hmarked : forall k, k < xr * yr -> is_marked (b k) = true ->
            exists i' j', visited 2 (yr - 3) i' j' /\ k = j' + xr * i' /\
                          cond i' j' = true).
  { intros k Hk Hm. destruct (M1 k) as [Hkb|(_ & i' & j' & Hv & Hk' & Hc)].
    - rewrite Hkb, (Hb0 k Hk) in Hm. discriminate Hm.
    - exists i', j'. auto. }
  subst data_field' buffer'. simpl. rewrite Hx, Hy.
  split; [reflexivity|]. split; [reflexivity|].
  split; [reflexivity|]. split; [reflexivity|]. split; [|split].
  - intros k. destruct (C1 k) as [Hk|(Hk & Hm & i' & j' & Hv & ->)];
      [now left|].
    right. split; [exact Hk|].
    destruct (Hmarked _ (visited_in_field _ _ Hv) Hm)
      as (i2 & j2 & Hv2 & Hk2 & Hc).
    destruct (cond_true _ _ Hc) as (Hs & G1 & G2 & G3 & G4).
    rewrite <- Hk2 in Hs. split; [exact Hs|].
    exists i2, j2. split; [exact Hk2|]. lia.
  - assert (Hch : count_cells is_marked b (xr * yr) = ch).
    { assert (Hc : count_cells is_marked b (xr * yr) + 0
                   = count_cells is_marked b0 (xr * yr) + ch).
      { apply M3.
        - intros i' j' Hv. now apply visited_in_field.
        - intros i' j' Hv. apply Hb0. now apply visited_in_field. }
      rewrite (count_cells_none is_marked b0 (xr * yr) Hb0) in Hc. lia. }
    rewrite <- Hch. apply count_cells_split.
    intros k Hk. destruct (is_marked (b k)) eqn:Hm.
    + destruct (Hmarked k Hk Hm) as (i' & j' & Hv & -> & Hc).
      destruct (cond_true _ _ Hc) as (Hs & _).
      split; [exact Hs|]. rewrite (C2 i' j' Hv Hm). reflexivity.
    + destruct (C1 k) as [Hkd|(_ & Hm' & _)]; [exact Hkd|].
      rewrite Hm in Hm'. discriminate Hm'.
  - intros Hch.
    assert (Hnone : forall i' j', visited 2 (yr - 3) i' j' ->
                                  cond i' j' = false).
    { intros i' j' Hv. destruct (cond i' j') eqn:Hc; [|reflexivity].
      destruct (M2 i' j' Hv Hc) as (_ & Hlt). lia. }
    split; [|exact Hnone].
    destruct (M4 Hnone) as (Eb & _). subst b.
    rewrite C3.
    + destruct data_field. reflexivity.
    + intros i' j' Hv. apply Hb0. now apply visited_in_field.
Qed.

(** A step that finds no pixel to clear leaves the field as it is,
    whatever the buffer holds. *)
Lemma thinstep_none (buffer : GwyDataField Q) :
  xres buffer = xr -> yres buffer = yr ->
  (forall i' j', visited 2 (yr - 3) i' j' -> cond i' j' = false) ->
  thinstep data_field buffer
  = (data_field, gwy_data_field_clear buffer, 0).
Proof.
  intros Hx Hy Hnone. unfold thinstep.
  destruct (thin_mark_rows (yr - 3) 2 data_field
              (data (gwy_data_field_clear buffer)) 0) as [b ch] eqn:Em.
  destruct (thin_mark_rows_spec _ _ _ _ _ _ Em) as (_ & _ & _ & _ & M4).
  destruct (M4 Hnone) as (-> & ->).
  destruct (thin_clear_rows_spec (data (gwy_data_field_clear buffer))
              (yr - 3) 2 (data data_field)) as (_ & _ & C3).
  rewrite C3.
  - destruct data_field. destruct buffer. reflexivity.
  - intros i' j' Hv. apply clear_not_marked; [exact Hx|exact Hy|].
    now apply visited_in_field.
Qed.

End Thin.

(** *** The loop of steps *)

Lemma thin_loop_spec : forall fuel k data_field buffer data_field' k',
  xres buffer = xres data_field -> yres buffer = yres data_field ->
  thin_loop fuel k data_field buffer = (data_field', k') ->
  k <= k' <= k + fuel /\
  xres data_field' = xres data_field /\
  yres data_field' = yres data_field /\
  (forall c, data data_field' c = data data_field c \/
             (data data_field' c = 0%Q /\
              is_set (data data_field c) = true)) /\
  count_cells is_set (data data_field')
    (xres data_field * yres data_field) + (k' - k)
  <= count_cells is_set (data data_field)
       (xres data_field * yres data_field) /\
  (k' < k + fuel ->
   forall buffer2,
     xres buffer2 = xres data_field -> yres buffer2 = yres data_field ->
     thinstep data_field' buffer2
     = (data_field', gwy_data_field_clear buffer2, 0)).
Proof.
  induction fuel as [|fuel IH]; intros k df buffer df' k' Hx Hy E;
    simpl in E.
  - inversion E; subst df' k'. split; [lia|]. split; [reflexivity|].
    split; [reflexivity|]. split; [now left|]. split; [lia|lia].
  - destruct (thinstep df buffer) as [[df1 b1] n] eqn:Es.
    destruct (thinstep_spec df buffer df1 b1 n Hx Hy Es)
      as (Hx1 & Hy1 & Hbx & Hby & Hcells & Hcount & Hzero).
    destruct (Nat.eqb_spec n 0) as [->|Hn].
    + inversion E; subst df' k'. destruct (Hzero eq_refl) as (-> & Hnone).
      split; [lia|]. split; [reflexivity|]. split; [reflexivity|].
      split; [now left|]. split; [lia|].
      intros _ buffer2 Hx2 Hy2. now apply thinstep_none.
    + destruct (IH (S k) df1 b1 df' k') as (G1 & G2 & G3 & G4 & G5 & G6);
        [congruence|congruence|exact E|].
      rewrite Hx1 in G2. rewrite Hy1 in G3. rewrite Hx1, Hy1 in G5, G6.
      split; [lia|]. split; [exact G2|]. split; [exact G3|].
      split; [|split].
      * intros c. destruct (G4 c) as [Hc|(Hc & Hs)].
        -- rewrite Hc. destruct (Hcells c) as [Hc1|(Hc1 & Hs1 & _)];
             [now left|right; now split].
        -- right. split; [exact Hc|].
           destruct (Hcells c) as [Hc1|(Hc1 & _)].
           ++ now rewrite <- Hc1.
           ++ rewrite Hc1 in Hs. discriminate Hs.
      * lia.
      * intros Hk buffer2 Hx2 Hy2. apply G6; [lia|exact Hx2|exact Hy2].
Qed.

(** X17.  A step of the thinning clears pixels and does nothing else: a
    cell keeps its value or goes from a nonzero value to zero; a cell that
    changes lies in a row [i] and a column [j] with [2 <= i <= yres - 2],
    [2 <= j <= xres - 2] and also [i < xres - 2] and [j < yres - 2] (the
    bounds [pixel_thinnable] checks); the value returned is the number of
    pixels cleared; and a step that returns 0 leaves the field as it is. *)
Theorem thinstep_only_clears_pixels :
  forall (data_field buffer : GwyDataField Q),
    xres buffer = xres data_field -> yres buffer = yres data_field ->
    match thinstep data_field buffer with
    | (data_field', buffer', ch) =>
        xres data_field' = xres data_field /\
        yres data_field' = yres data_field /\
        (forall k,
           data data_field' k = data data_field k \/
           (data data_field' k = 0%Q /\
            is_set (data data_field k) = true /\
            exists i j, k = j + xres data_field * i /\
                        2 <= i /\ i + 2 <= yres data_field /\
                        i + 2 < xres data_field /\
                        2 <= j /\ j + 2 <= xres data_field /\
                        j + 2 < yres data_field)) /\
        count_cells is_set (data data_field')
          (xres data_field * yres data_field) + ch
        = count_cells is_set (data data_field)
            (xres data_field * yres data_field) /\
        (ch = 0 -> data_field' = data_field)
    end.
Proof.
  intros data_field buffer Hx Hy.
  destruct (thinstep data_field buffer) as [[df' b'] ch] eqn:E.
  destruct (thinstep_spec data_field buffer df' b' ch Hx Hy E)
    as (Hx1 & Hy1 & _ & _ & Hcells & Hcount & Hzero).
  split; [exact Hx1|]. split; [exact Hy1|]. split; [exact Hcells|].
  split; [exact Hcount|]. intros Hch. now apply Hzero.
Qed.

Lemma thinstep_only_clears_pixels_witness :
  match thinstep corner_image (mkField 5 5 (fun _ => (7 # 1)%Q)) with
  | (data_field', buffer', ch) =>
      xres data_field' = xres corner_image /\
      yres data_field' = yres corner_image /\
      (forall k,
         data data_field' k = data corner_image k \/
         (data data_field' k = 0%Q /\
          is_set (data corner_image k) = true /\
          exists i j, k = j + xres corner_image * i /\
                      2 <= i /\ i + 2 <= yres corner_image /\
                      i + 2 < xres corner_image /\
                      2 <= j /\ j + 2 <= xres corner_image /\
                      j + 2 < yres corner_image)) /\
      count_cells is_set (data data_field')
        (xres corner_image * yres corner_image) + ch
      = count_cells is_set (data corner_image)
          (xres corner_image * yres corner_image) /\
      (ch = 0 -> data_field' = corner_image)
  end.
Proof.
  apply (thinstep_only_clears_pixels corner_image
           (mkField 5 5 (fun _ => (7 # 1)%Q))); reflexivity.
Defined.

(** The loop runs the steps in a row: it stops after the first step that
    returns 0, or when the steps are used up. *)
Lemma thin_loop_steps (d0 b0 : GwyDataField Q) :
  forall fuel k data_field buffer r data_field' k',
    thin_steps k d0 b0 = (data_field, buffer, r) ->
    xres buffer = xres data_field -> yres buffer = yres data_field ->
    thin_loop fuel k data_field buffer = (data_field', k') ->
    k <= k' <= k + fuel /\
    (forall m, k < m <= k' -> snd (thin_steps m d0 b0) <> 0) /\
    (k' < k + fuel -> snd (thin_steps (S k') d0 b0) = 0) /\
    data_field' = fst (fst (thin_steps k' d0 b0)).
Proof.
  induction fuel as [|fuel IH]; intros k df buffer r df' k' Ek Hx Hy E;
    simpl in E.
  - inversion E; subst df' k'. split; [lia|]. split; [intros m Hm; lia|].
    split; [lia|]. rewrite Ek. reflexivity.
  - destruct (thinstep df buffer) as [[df1 b1] n] eqn:Es.
    assert (Ek1 : thin_steps (S k) d0 b0 = (df1, b1, n))
      by (simpl; rewrite Ek; exact Es).
    destruct (thinstep_spec df buffer df1 b1 n Hx Hy Es)
      as (Hx1 & Hy1 & Hbx & Hby & _ & _ & Hzero).
    destruct (Nat.eqb_spec n 0) as [->|Hn].
    + inversion E; subst df' k'. destruct (Hzero eq_refl) as (-> & _).
      split; [lia|]. split; [intros m Hm; lia|].
      split; [intros _; rewrite Ek1; reflexivity|].
      rewrite Ek. reflexivity.
    + destruct (IH (S k) df1 b1 n df' k' Ek1) as (G1 & G2 & G3 & G4);
        [congruence|congruence|exact E|].
      split; [lia|]. split; [|split; [|exact G4]].
      * intros m Hm. destruct (Nat.eq_dec m (S k)) as [->|Hne].
        -- rewrite Ek1. exact Hn.
        -- apply G2. lia.
      * intros Hk. apply G3. lia.
Qed.

(** X18.  [thin_data_field] runs steps of the thinning in a row and
    returns how many of them cleared a pixel before the first one that
    cleared none: it returns [k] exactly when each of the first [k] steps
    returned a nonzero count and either [k] is 2000 or the step after them
    returned 0.  The field it leaves is the field after these [k] steps;
    [k] is at most the number of nonzero cells of the field; every cell
    keeps its value or goes from a nonzero value to zero; when [k] is less
    than 2000 the field is thinned out, a further step changes nothing;
    and a field with fewer than five rows or columns is returned as it
    is. *)
Theorem thin_data_field_clears_until_stable :
  forall (data_field : GwyDataField Q) (junk : buf Q),
    let buffer0 := mkField (xres data_field) (yres data_field) junk in
    match thin_data_field data_field junk with
    | (data_field', k) =>
        k <= 2000 /\
        (forall m, 1 <= m <= k ->
           snd (thin_steps m data_field buffer0) <> 0) /\
        (k < 2000 -> snd (thin_steps (S k) data_field buffer0) = 0) /\
        data_field' = fst (fst (thin_steps k data_field buffer0)) /\
        xres data_field' = xres data_field /\
        yres data_field' = yres data_field /\
        (forall c, data data_field' c = data data_field c \/
                   (data data_field' c = 0%Q /\
                    is_set (data data_field c) = true)) /\
        count_cells is_set (data data_field')
          (xres data_field * yres data_field) + k
        <= count_cells is_set (data data_field)
             (xres data_field * yres data_field) /\
        (k < 2000 ->
         forall buffer,
           xres buffer = xres data_field -> yres buffer = yres data_field ->
           thinstep data_field' buffer
           = (data_field', gwy_data_field_clear buffer, 0)) /\
        (xres data_field <= 4 \/ yres data_field <= 4 ->
         data_field' = data_field /\ k = 0)
    end.
Proof.
  intros data_field junk buffer0. unfold thin_data_field. fold buffer0.
  destruct (thin_loop 2000 0 data_field buffer0) as [df' k] eqn:E.
  destruct (thin_loop_spec 2000 0 data_field buffer0 df' k
              eq_refl eq_refl E) as (H1 & H2 & H3 & H4 & H5 & H6).
  destruct (thin_loop_steps data_field buffer0 2000 0 data_field buffer0 0
              df' k eq_refl eq_refl eq_refl E) as (_ & S2 & S3 & S4).
  split; [lia|]. split; [intros m Hm; apply S2; lia|].
  split; [intros Hk; apply S3; lia|]. split; [exact S4|].
  split; [exact H2|]. split; [exact H3|].
  split; [exact H4|]. split; [lia|]. split; [exact H6|].
  intros Hsmall.
  assert (Hnone : forall i j,
            2 <= i < 2 + (yres data_field - 3) /\
            2 <= j < 2 + (xres data_field - 3) ->
            (pixel_status data_field (Z.of_nat i) (Z.of_nat j) =? 1)%Z
            && (pixel_thinnable data_field (Z.of_nat i) (Z.of_nat j) =? 1)%Z
            = false).
  { intros i j Hv.
    destruct ((pixel_status data_field (Z.of_nat i) (Z.of_nat j) =? 1)%Z
              && (pixel_thinnable data_field (Z.of_nat i) (Z.of_nat j)
                  =? 1)%Z) eqn:Hc; [|reflexivity].
    destruct (cond_true data_field i j Hc) as (_ & G1 & G2 & G3 & G4). lia. }
  pose proof (thinstep_none data_field buffer0 eq_refl eq_refl Hnone) as Es.
  change 2000 with (S 1999) in E. simpl thin_loop in E.
  rewrite Es in E. simpl in E. inversion E. split; reflexivity.
Qed.

(** *** The cells a step reads *)

Section ThinReads.

Variables d1 d2 : GwyDataField Q.
Hypothesis Hx : xres d1 = xres d2.
Hypothesis Hy : yres d1 = yres d2.
Hypothesis Hagree :
  forall k, k < xres d1 * yres d1 -> data d1 k = data d2 k.

Local Abbreviation xr := (Z.of_nat (xres d1)).
Local Abbreviation yr := (Z.of_nat (yres d1)).

(** The cells of the field, and the cell behind the end of a row that is
    not the last, which is the first cell of the next row. *)
Lemma cell_in_field (i j : Z) :
  (0 <= i)%Z -> (0 <= j)%Z ->
  (i + 1 <= yr /\ j + 1 <= xr)%Z \/ (i + 2 <= yr /\ j <= xr /\ 1 <= xr)%Z ->
  (0 <= j + xr * i < xr * yr)%Z.
Proof. intros Hi Hj [(H1 & H2)|(H1 & H2 & H3)]; nia. Qed.

Lemma pixel_status_agree (i j : Z) :
  (0 <= j + xr * i < xr * yr)%Z ->
  pixel_status d1 i j = pixel_status d2 i j.
Proof.
  intros Hin. unfold pixel_status. rewrite <- Hx.
  rewrite Hagree; [reflexivity|].
  apply Nat2Z.inj_lt. rewrite Z2Nat.id, Nat2Z.inj_mul; lia.
Qed.

Lemma znzt_val_agree (i j : Z) :
  (1 <= i)%Z -> (1 <= j)%Z ->
  (i + 2 <= yr /\ j + 2 <= xr)%Z \/ (i + 3 <= yr /\ j + 1 <= xr)%Z ->
  znzt_val d1 i j = znzt_val d2 i j.
Proof.
  intros Hi Hj Hin. unfold znzt_val, znzt_pi, znzt_pj.
  cbn [znzt_loop nth Nat.add].
  rewrite !pixel_status_agree by (apply cell_in_field; lia).
  reflexivity.
Qed.

Lemma nzn_val_agree (i j : Z) :
  (1 <= i)%Z -> (1 <= j)%Z -> (i + 2 <= yr)%Z -> (j + 2 <= xr)%Z ->
  nzn_val d1 i j = nzn_val d2 i j.
Proof.
  intros Hi Hj Hr Hc. unfold nzn_val. cbn [fold_left].
  cbn [Z.eqb andb negb].
  rewrite !pixel_status_agree by (apply cell_in_field; lia).
  reflexivity.
Qed.

Hypothesis Htall : xres d1 <= yres d1.

Lemma pixel_thinnable_agree (i j : nat) :
  2 <= i -> i + 2 <= yres d1 -> 2 <= j -> j + 2 <= xres d1 ->
  pixel_thinnable d1 (Z.of_nat i) (Z.of_nat j)
  = pixel_thinnable d2 (Z.of_nat i) (Z.of_nat j).
Proof.
  intros Hi1 Hi2 Hj1 Hj2. unfold pixel_thinnable. rewrite <- Hx, <- Hy.
  destruct ((Z.of_nat i <=? 1)%Z || (Z.of_nat j <=? 1)%Z
            || (Z.of_nat i >=? xr - 2)%Z || (Z.of_nat j >=? yr - 2)%Z)
    eqn:Hguard; [reflexivity|].
  apply orb_false_elim in Hguard. destruct Hguard as (Hguard & G4).
  apply orb_false_elim in Hguard. destruct Hguard as (Hguard & G3).
  apply orb_false_elim in Hguard. destruct Hguard as (G1 & G2).
  rewrite Z.geb_leb in G3, G4.
  apply Z.leb_gt in G1, G2, G3, G4.
  cbv zeta.
  rewrite (znzt_val_agree (Z.of_nat i) (Z.of_nat j)) by lia.
  rewrite (znzt_val_agree (Z.of_nat i + 1) (Z.of_nat j)) by lia.
  rewrite (znzt_val_agree (Z.of_nat i) (Z.of_nat j + 1)) by lia.
  rewrite (nzn_val_agree (Z.of_nat i) (Z.of_nat j)) by lia.
  rewrite !pixel_status_agree by (apply cell_in_field; lia).
  reflexivity.
Qed.

Lemma thin_mark_row_agree (i : nat) :
  2 <= i -> i + 2 <= yres d1 ->
  forall cnt j b ch,
    2 <= j -> j + cnt + 1 <= xres d1 ->
    thin_mark_row cnt j d1 i b ch = thin_mark_row cnt j d2 i b ch.
Proof.
  intros Hi1 Hi2. induction cnt as [|cnt IH]; intros j b ch Hj1 Hj2;
    [reflexivity|].
  cbn [thin_mark_row].
  rewrite (pixel_thinnable_agree i j) by lia.
  rewrite (pixel_status_agree (Z.of_nat i) (Z.of_nat j))
    by (apply cell_in_field; lia).
  rewrite <- Hx.
  destruct ((pixel_status d2 (Z.of_nat i) (Z.of_nat j) =? 1)%Z
            && (pixel_thinnable d2 (Z.of_nat i) (Z.of_nat j) =? 1)%Z);
    apply IH; lia.
Qed.

Lemma thin_mark_rows_agree : forall cnt i b ch,
  2 <= i -> i + cnt + 1 <= yres d1 ->
  thin_mark_rows cnt i d1 b ch = thin_mark_rows cnt i d2 b ch.
Proof.
  induction cnt as [|cnt IH]; intros i b ch Hi1 Hi2; [reflexivity|].
  cbn [thin_mark_rows]. rewrite <- Hx.
  assert (Erow : thin_mark_row (xres d1 - 3) 2 d1 i b ch
                 = thin_mark_row (xres d1 - 3) 2 d2 i b ch).
  { destruct (Nat.le_gt_cases (xres d1) 2) as [Hsmall|Hbig].
    - replace (xres d1 - 3) with 0 by lia. reflexivity.
    - apply thin_mark_row_agree; lia. }
  rewrite Erow.
  destruct (thin_mark_row (xres d1 - 3) 2 d2 i b ch) as [b' ch'].
  apply IH; lia.
Qed.

End ThinReads.

Lemma thin_clear_row_agree (xr i : nat) (b : buf Q) (k : nat) :
  forall cnt j da db,
    da k = db k ->
    thin_clear_row cnt j xr i b da k = thin_clear_row cnt j xr i b db k.
Proof.
  induction cnt as [|cnt IH]; intros j da db E; [exact E|].
  cbn [thin_clear_row]. apply IH.
  destruct (Qeq_bool (b (j + xr * i)) 1); [|exact E].
  unfold upd. destruct (k =? j + xr * i); [reflexivity|exact E].
Qed.

Lemma thin_clear_rows_agree (xr : nat) (b : buf Q) (k : nat) :
  forall cnt i da db,
    da k = db k ->
    thin_clear_rows cnt i xr b da k = thin_clear_rows cnt i xr b db k.
Proof.
  induction cnt as [|cnt IH]; intros i da db E; [exact E|].
  cbn [thin_clear_rows]. apply IH. now apply thin_clear_row_agree.
Qed.

(** X22.  On a field that is not wider than tall a step of the thinning
    reads no cell beyond the field: two fields that agree in their cells
    give the same count, the same buffer and fields that agree in their
    cells.  On a field that is wider than tall it does: for a pixel of the
    row [yres - 2] that passes the bounds of [pixel_thinnable] (which
    compare the row with [xres]) the neighbours of the pixel below are
    taken from a row [yres], and the two fields of 6 x 5 cells
    [wide_image] and [wide_image_beyond], which agree in all 30 cells,
    give the counts 0 and 1. *)
Theorem thinstep_reads_beyond_wide_fields_only :
  (forall (d1 d2 buffer : GwyDataField Q),
     xres d1 = xres d2 -> yres d1 = yres d2 ->
     (forall k, k < xres d1 * yres d1 -> data d1 k = data d2 k) ->
     xres d1 <= yres d1 ->
     snd (thinstep d1 buffer) = snd (thinstep d2 buffer) /\
     snd (fst (thinstep d1 buffer)) = snd (fst (thinstep d2 buffer)) /\
     forall k, k < xres d1 * yres d1 ->
               data (fst (fst (thinstep d1 buffer))) k
               = data (fst (fst (thinstep d2 buffer))) k) /\
  (xres wide_image_beyond = xres wide_image /\
   yres wide_image_beyond = yres wide_image /\
   (forall k, k < xres wide_image * yres wide_image ->
              data wide_image_beyond k = data wide_image k) /\
   forall buffer : GwyDataField Q,
     xres buffer = 6 -> yres buffer = 5 ->
     snd (thinstep wide_image buffer) = 0 /\
     snd (thinstep wide_image_beyond buffer) = 1).
Proof.
  split.
  - intros d1 d2 buffer Hx Hy Hagree Htall. unfold thinstep.
    rewrite <- Hx, <- Hy.
    destruct (Nat.le_gt_cases (yres d1) 2) as [Hsmall|Hbig].
    + replace (yres d1 - 3) with 0 by lia. cbn.
      split; [reflexivity|]. split; [reflexivity|exact Hagree].
    + rewrite (thin_mark_rows_agree d1 d2 Hx Hy Hagree Htall) by lia.
      destruct (thin_mark_rows (yres d1 - 3) 2 d2
                  (data (gwy_data_field_clear buffer)) 0) as [b ch].
      cbn. split; [reflexivity|]. split; [reflexivity|].
      intros k Hk. apply thin_clear_rows_agree. now apply Hagree.
  - split; [reflexivity|]. split; [reflexivity|]. split.
    + intros k Hk. cbn in Hk. unfold wide_image_beyond. cbn [data with_data].
      unfold upd. destruct (Nat.eqb_spec k 32); [lia|reflexivity].
    + intros buffer Hbx Hby.
      destruct buffer as [bx by_ bd]. cbn in Hbx, Hby. subst bx by_.
      split; vm_compute; reflexivity.
Qed.

(** X22 on the field [corner_image] of 5 x 5 cells and the same field with
    a nonzero cell behind its last cell. *)
Lemma thinstep_reads_beyond_wide_fields_only_witness :
  snd (thinstep corner_image (mkField 5 5 (fun _ => 0%Q)))
  = snd (thinstep (with_data Q corner_image (upd (data corner_image) 27 1%Q))
           (mkField 5 5 (fun _ => 0%Q))).
Proof.
  apply (proj1 thinstep_reads_beyond_wide_fields_only corner_image
           (with_data Q corner_image (upd (data corner_image) 27 1%Q))
           (mkField 5 5 (fun _ => 0%Q)));
    [reflexivity|reflexivity| |cbn; lia].
  intros k Hk. cbn in Hk. cbn [data with_data]. unfold upd.
  destruct (Nat.eqb_spec k 27); [lia|reflexivity].
Defined.

(** ** The storage of a row *)

Lemma count_needed_split tbl : forall a b i,
  count_needed tbl i (a + b)
  = count_needed tbl i a + count_needed tbl (i + a) b.
Proof.
  induction a as [|a IH]; intros b i; simpl.
  - now rewrite Nat.add_0_r.
  - rewrite IH. replace (S i + a) with (i + S a) by lia. lia.
Qed.

Lemma count_needed_lt tbl i a b :
  a < b -> needed (tbl (i + a)) = true ->
  count_needed tbl i a < count_needed tbl i b.
Proof.
  intros Hab Hn. replace b with (a + S (b - a - 1)) by lia.
  rewrite count_needed_split. simpl. rewrite Hn. lia.
Qed.

Lemma count_needed_le tbl i a b :
  a <= b -> count_needed tbl i a <= count_needed tbl i b.
Proof.
  intros Hab. replace b with (a + (b - a)) by lia.
  rewrite count_needed_split. lia.
Qed.

Lemma alloc_loop_spec tbl rowlen : forall cnt i ptrs p ptrs' p',
  alloc_loop cnt i tbl rowlen ptrs p = (ptrs', p') ->
  p' = p + rowlen * count_needed tbl i cnt /\
  (forall L, i <= L < i + cnt ->
     ptrs' L = if needed (tbl L)
               then Some (p + rowlen * count_needed tbl i (L - i))
               else ptrs L) /\
  (forall L, ~ i <= L < i + cnt -> ptrs' L = ptrs L).
Proof.
  induction cnt as [|cnt IH]; intros i ptrs p ptrs' p' E; simpl in E.
  - inversion E; subst. split; [simpl; rewrite Nat.mul_0_r; lia|].
    split; [intros; lia|reflexivity].
  - destruct (needed (tbl i)) eqn:En.
    + destruct (IH _ _ _ _ _ E) as (H1 & H2 & H3).
      split; [simpl; rewrite En, ?Nat.mul_add_distr_l, ?Nat.mul_1_r; lia|].
      split.
      * intros L HL. destruct (Nat.eq_dec L i) as [->|Hne].
        -- rewrite H3 by lia. rewrite En, Nat.sub_diag. simpl.
           unfold upd. rewrite Nat.eqb_refl. f_equal. lia.
        -- rewrite H2 by lia. destruct (needed (tbl L)).
           ++ f_equal. replace (L - i) with (S (L - S i)) by lia.
              simpl. rewrite En, ?Nat.mul_add_distr_l, ?Nat.mul_1_r. lia.
           ++ unfold upd. destruct (Nat.eqb_spec L i); [lia|reflexivity].
      * intros L HL. rewrite H3 by lia. unfold upd.
        destruct (Nat.eqb_spec L i); [lia|reflexivity].
    + destruct (IH _ _ _ _ _ E) as (H1 & H2 & H3).
      split; [simpl; rewrite En, ?Nat.mul_add_distr_l, ?Nat.mul_1_r; lia|].
      split.
      * intros L HL. destruct (Nat.eq_dec L i) as [->|Hne].
        -- rewrite H3 by lia. now rewrite En.
        -- rewrite H2 by lia. destruct (needed (tbl L)); [|reflexivity].
           f_equal. replace (L - i) with (S (L - S i)) by lia.
           simpl. rewrite En, ?Nat.mul_add_distr_l, ?Nat.mul_1_r. lia.
      * intros L HL. apply H3. lia.
Qed.

(** X19.  The storage of a row holds all its buffers side by side.  For a
    plan of the planner and rows of [rowlen] cells,
    [min_max_precomputed_row_alloc] gives every needed length of the
    each-table and of the even-table a block of [rowlen] cells that lies
    within the [rowlen * nbuffers] cells of the storage, no two blocks
    overlap, and a length that is not needed gets no block. *)
Theorem row_storage_blocks_are_disjoint :
  forall blocklens req rowlen,
    find_required_lengths_for_set blocklens = Some req ->
    let lay := min_max_precomputed_row_alloc req rowlen in
    lay_size lay = rowlen * nbuffers req /\
    (forall L, needed (req_each req L) = true ->
       exists o, lay_each lay L = Some o /\ o + rowlen <= lay_size lay) /\
    (forall L, needed (req_even req L) = true ->
       exists o, lay_even lay L = Some o /\ o + rowlen <= lay_size lay) /\
    (forall L, needed (req_each req L) = false -> lay_each lay L = None) /\
    (forall L, needed (req_even req L) = false -> lay_even lay L = None) /\
    (forall L1 L2 o1 o2, L1 < L2 ->
       lay_each lay L1 = Some o1 -> lay_each lay L2 = Some o2 ->
       o1 + rowlen <= o2) /\
    (forall L1 L2 o1 o2, L1 < L2 ->
       lay_even lay L1 = Some o1 -> lay_even lay L2 = Some o2 ->
       o1 + rowlen <= o2) /\
    (forall L1 L2 o1 o2,
       lay_each lay L1 = Some o1 -> lay_even lay L2 = Some o2 ->
       o1 + rowlen <= o2).
Proof.
  intros blocklens req rowlen Hreq lay.
  destruct (find_required_lengths_for_set_some blocklens req Hreq)
    as (((W1 & W2) & M1 & M2 & M3) & _ & _).
  assert (Hnb : nbuffers req
                = count_needed (req_each req) 1 (maxlen_each req)
                  + count_needed (req_even req) 2 (maxlen_even req - 1)).
  { unfold find_required_lengths_for_set in Hreq.
    destruct (unique_lengths (sort_guint blocklens)); [discriminate|].
    unfold obind in Hreq.
    destruct (find_required_lengths_all _ _); [|discriminate].
    inversion Hreq. reflexivity. }
  unfold lay, min_max_precomputed_row_alloc.
  destruct (alloc_loop (maxlen_each req) 1 (req_each req) rowlen
              (fun _ => None) 0) as [each p1] eqn:E1.
  destruct (alloc_loop (maxlen_even req - 1) 2 (req_even req) rowlen
              (fun _ => None) p1) as [even p2] eqn:E2.
  destruct (alloc_loop_spec _ _ _ _ _ _ _ _ E1) as (P1 & A1 & A2).
  destruct (alloc_loop_spec _ _ _ _ _ _ _ _ E2) as (P2 & B1 & B2).
  simpl in P1. simpl.
  set (ce := count_needed (req_each req) 1) in *.
  set (cv := count_needed (req_even req) 2) in *.
  (* the offsets *)
  assert (Heach : forall L o, each L = Some o ->
            needed (req_each req L) = true /\ 1 <= L <= maxlen_each req /\
            o = rowlen * ce (L - 1)).
  { intros L o Ho.
    destruct (Nat.le_gt_cases 1 L) as [H1|H1];
      [destruct (Nat.le_gt_cases L (maxlen_each req)) as [H2|H2]|].
    - rewrite A1 in Ho by lia.
      destruct (needed (req_each req L)); [|discriminate Ho].
      inversion Ho. split; [reflexivity|]. split; [lia|reflexivity].
    - rewrite A2 in Ho by lia. discriminate Ho.
    - rewrite A2 in Ho by lia. discriminate Ho. }
  assert (Heven : forall L o, even L = Some o ->
            needed (req_even req L) = true /\ 2 <= L <= maxlen_even req /\
            o = p1 + rowlen * cv (L - 2)).
  { intros L o Ho.
    destruct (Nat.le_gt_cases 2 L) as [H1|H1];
      [destruct (Nat.le_gt_cases L (maxlen_even req)) as [H2|H2]|].
    - rewrite B1 in Ho by lia.
      destruct (needed (req_even req L)); [|discriminate Ho].
      inversion Ho. split; [reflexivity|]. split; [lia|reflexivity].
    - rewrite B2 in Ho by lia. discriminate Ho.
    - rewrite B2 in Ho by lia. discriminate Ho. }
  assert (Hce : forall L, needed (req_each req L) = true ->
            1 <= L <= maxlen_each req ->
            S (ce (L - 1)) <= ce (maxlen_each req)).
  { intros L HN HL. unfold ce.
    apply (count_needed_lt (req_each req) 1 (L - 1) (maxlen_each req));
      [lia|]. now replace (1 + (L - 1)) with L by lia. }
  assert (Hcv : forall L, needed (req_even req L) = true ->
            2 <= L <= maxlen_even req ->
            S (cv (L - 2)) <= cv (maxlen_even req - 1)).
  { intros L HN HL. unfold cv.
    apply (count_needed_lt (req_even req) 2 (L - 2) (maxlen_even req - 1));
      [lia|]. now replace (2 + (L - 2)) with L by lia. }
  split; [reflexivity|]. split; [|split; [|split; [|split; [|split; [|split]]]]].
  - intros L HN.
    assert (HL : 1 <= L <= maxlen_each req).
    { split; [|now apply M1]. destruct (W1 L HN) as (H1 & _). exact H1. }
    exists (rowlen * ce (L - 1)). split.
    + rewrite A1 by lia. rewrite HN. reflexivity.
    + rewrite Hnb. pose proof (Hce L HN HL) as Hlt.
      apply Nat.le_trans with (rowlen * S (ce (L - 1)));
        [rewrite Nat.mul_succ_r; lia|].
      apply Nat.mul_le_mono_l. lia.
  - intros L HN.
    assert (HL : 2 <= L <= maxlen_even req).
    { split; [|now apply M2]. destruct (W2 L HN) as (_ & H2 & _). exact H2. }
    exists (p1 + rowlen * cv (L - 2)). split.
    + rewrite B1 by lia. rewrite HN. reflexivity.
    + rewrite Hnb, P1. pose proof (Hcv L HN HL) as Hlt.
      rewrite Nat.mul_add_distr_l.
      apply Nat.le_trans
        with (rowlen * ce (maxlen_each req) + rowlen * S (cv (L - 2)));
        [rewrite Nat.mul_succ_r; lia|].
      apply Nat.add_le_mono_l. apply Nat.mul_le_mono_l. lia.
  - intros L HN. destruct (each L) as [o|] eqn:Ho; [|reflexivity].
    destruct (Heach L o Ho) as (HN' & _). congruence.
  - intros L HN. destruct (even L) as [o|] eqn:Ho; [|reflexivity].
    destruct (Heven L o Ho) as (HN' & _). congruence.
  - intros L1 L2 o1 o2 Hlt Ho1 Ho2.
    destruct (Heach L1 o1 Ho1) as (HN1 & HL1 & ->).
    destruct (Heach L2 o2 Ho2) as (HN2 & HL2 & ->).
    assert (Hc : S (ce (L1 - 1)) <= ce (L2 - 1)).
    { unfold ce.
      apply (count_needed_lt (req_each req) 1 (L1 - 1) (L2 - 1)); [lia|].
      now replace (1 + (L1 - 1)) with L1 by lia. }
    apply Nat.le_trans with (rowlen * S (ce (L1 - 1)));
      [rewrite Nat.mul_succ_r; lia|].
    apply Nat.mul_le_mono_l. exact Hc.
  - intros L1 L2 o1 o2 Hlt Ho1 Ho2.
    destruct (Heven L1 o1 Ho1) as (HN1 & HL1 & ->).
    destruct (Heven L2 o2 Ho2) as (HN2 & HL2 & ->).
    assert (Hc : S (cv (L1 - 2)) <= cv (L2 - 2)).
    { unfold cv.
      apply (count_needed_lt (req_even req) 2 (L1 - 2) (L2 - 2)); [lia|].
      now replace (2 + (L1 - 2)) with L1 by lia. }
    rewrite <- Nat.add_assoc. apply Nat.add_le_mono_l.
    apply Nat.le_trans with (rowlen * S (cv (L1 - 2)));
      [rewrite Nat.mul_succ_r; lia|].
    apply Nat.mul_le_mono_l. exact Hc.
  - intros L1 L2 o1 o2 Ho1 Ho2.
    destruct (Heach L1 o1 Ho1) as (HN1 & HL1 & ->).
    destruct (Heven L2 o2 Ho2) as (HN2 & HL2 & ->).
    rewrite P1. pose proof (Hce L1 HN1 HL1) as Hc.
    apply Nat.le_trans with (rowlen * ce (maxlen_each req)); [|lia].
    apply Nat.le_trans with (rowlen * S (ce (L1 - 1)));
      [rewrite Nat.mul_succ_r; lia|].
    apply Nat.mul_le_mono_l. exact Hc.
Qed.

Lemma row_storage_blocks_are_disjoint_witness :
  let lay := min_max_precomputed_row_alloc (plan_of [11]) 7 in
  lay_size lay = 7 * nbuffers (plan_of [11]) /\
  lay_each lay 11 = Some 14 /\ lay_even lay 6 = Some 35 /\
  lay_size lay = 42.
Proof.
  assert (H : find_required_lengths_for_set [11] = Some (plan_of [11]))
    by (vm_compute; reflexivity).
  destruct (row_storage_blocks_are_disjoint [11] (plan_of [11]) 7 H)
    as (Hsize & _).
  split; [exact Hsize|]. split; [reflexivity|]. split; reflexivity.
Defined.

(** ** The Kuwahara filter *)

Section KuwaharaBlock.

Variable A : Type.
Variable ops : SampleOps A.

(** The block of a pixel: cell [k] holds the value of the field closest to
    the column [c + k mod 5 - 2] and the row [r + k / 5 - 2]. *)
Lemma kuwahara_gather_cells (data_field : GwyDataField A) (c r : Z)
    (kernel : buf A) (k : nat) :
  k < 25 ->
  kuwahara_gather data_field c r kernel k
  = gwy_data_field_get_val_closest data_field
      (c + (Z.of_nat (k mod 5) - 2)) (r + (Z.of_nat (k / 5) - 2)).
Proof.
  intros Hk. unfold kuwahara_gather. simpl fold_left. unfold fst.
  do 25 (destruct k as [|k]; [reflexivity|]). lia.
Qed.

(** [kuwahara_block] reads the 25 cells of the block only. *)
Lemma kuwahara_block_ext (a a' : buf A) :
  (forall k, k < 25 -> a k = a' k) ->
  kuwahara_block ops a = kuwahara_block ops a'.
Proof.
  intros H.
  assert (Hmean : forall r, (forall k, In k r -> k < 25) ->
             forall m0,
               fold_left
                 (fun mean k =>
                    op_add ops mean (op_div ops (a k) (op_nine ops))) r m0
               = fold_left
                   (fun mean k =>
                      op_add ops mean (op_div ops (a' k) (op_nine ops)))
                   r m0).
  { induction r as [|k r IH]; intros Hr m0; simpl; [reflexivity|].
    rewrite (H k) by (apply Hr; now left).
    apply IH. intros k' Hk'. apply Hr. now right. }
  assert (Hmsq : forall r, (forall k, In k r -> k < 25) ->
             forall v0,
               fold_left
                 (fun var k =>
                    op_add ops var
                      (op_div ops (op_mul ops (a k) (a k)) (op_nine ops)))
                 r v0
               = fold_left
                   (fun var k =>
                      op_add ops var
                        (op_div ops (op_mul ops (a' k) (a' k))
                           (op_nine ops)))
                   r v0).
  { induction r as [|k r IH]; intros Hr v0; simpl; [reflexivity|].
    rewrite (H k) by (apply Hr; now left).
    apply IH. intros k' Hk'. apply Hr. now right. }
  assert (Hm : forall r, (forall k, In k r -> k < 25) ->
             kuwahara_mean ops a r = kuwahara_mean ops a' r /\
             kuwahara_msq ops a r = kuwahara_msq ops a' r).
  { intros r Hr. unfold kuwahara_mean, kuwahara_msq.
    split; [now apply Hmean|now apply Hmsq]. }
  assert (H1 : forall k, In k kuwahara_r1 -> k < 25)
    by (intros k Hk; simpl in Hk; lia).
  assert (H2 : forall k, In k kuwahara_r2 -> k < 25)
    by (intros k Hk; simpl in Hk; lia).
  assert (H3 : forall k, In k kuwahara_r3 -> k < 25)
    by (intros k Hk; simpl in Hk; lia).
  assert (H4 : forall k, In k kuwahara_r4 -> k < 25)
    by (intros k Hk; simpl in Hk; lia).
  unfold kuwahara_block, kuwahara_var.
  destruct (Hm _ H1) as (-> & ->). destruct (Hm _ H2) as (-> & ->).
  destruct (Hm _ H3) as (-> & ->). destruct (Hm _ H4) as (-> & ->).
  reflexivity.
Qed.

(** Among four values that the comparison orders, one is not above any
    of the four; the test of [kuwahara_block] for it succeeds. *)
Lemma least_of_four (v1 v2 v3 v4 : A) :
  (forall x y, In x [v1; v2; v3; v4] -> In y [v1; v2; v3; v4] ->
     op_le ops x y = true \/ op_le ops y x = true) ->
  (forall x y z, In x [v1; v2; v3; v4] -> In y [v1; v2; v3; v4] ->
     In z [v1; v2; v3; v4] ->
     op_le ops x y = true -> op_le ops y z = true -> op_le ops x z = true) ->
  exists m, In m [v1; v2; v3; v4] /\
            forall y, In y [v1; v2; v3; v4] -> op_le ops m y = true.
Proof.
  intros Htot Htr.
  assert (Hmin2 : forall x y, In x [v1; v2; v3; v4] -> In y [v1; v2; v3; v4] ->
            exists m, In m [v1; v2; v3; v4] /\
                      op_le ops m x = true /\ op_le ops m y = true).
  { intros x y Hx Hy. destruct (Htot x y Hx Hy) as [Hxy|Hyx].
    - exists x. split; [exact Hx|]. split; [|exact Hxy].
      destruct (Htot x x Hx Hx); assumption.
    - exists y. split; [exact Hy|]. split; [exact Hyx|].
      destruct (Htot y y Hy Hy); assumption. }
  destruct (Hmin2 v1 v2) as (a & Ha & Ha1 & Ha2); [simpl; auto|simpl; auto|].
  destruct (Hmin2 v3 v4) as (b & Hb & Hb3 & Hb4);
    [simpl; auto|simpl; auto 6|].
  destruct (Hmin2 a b Ha Hb) as (m & Hm & Hma & Hmb).
  exists m. split; [exact Hm|].
  intros y [<-|[<-|[<-|[<-|[]]]]].
  - apply (Htr m a v1); simpl; auto.
  - apply (Htr m a v2); simpl; auto.
  - apply (Htr m b v3); simpl; auto.
  - apply (Htr m b v4); simpl; auto 6.
Qed.

End KuwaharaBlock.

(** X20.  When the comparison orders the variances that [kuwahara_block]
    computes for the four quadrants of the block (it is total and
    transitive on them, as [<=] is on values that are not NaN), the
    function returns the mean it computed for one of the quadrants, and
    the variance it computed for this quadrant is not above that of any
    of the four; the final [return 0.0] is not reached.  Means and
    variances are the values that the arithmetic of the samples yields,
    with its rounding. *)
Theorem kuwahara_block_is_a_least_variance_mean :
  forall (A : Type) (ops : SampleOps A) (a : buf A),
    let quadrants := [kuwahara_r1; kuwahara_r2; kuwahara_r3; kuwahara_r4] in
    let var := kuwahara_var ops a in
    (forall r r', In r quadrants -> In r' quadrants ->
       op_le ops (var r) (var r') = true \/
       op_le ops (var r') (var r) = true) ->
    (forall r r' r'', In r quadrants -> In r' quadrants -> In r'' quadrants ->
       op_le ops (var r) (var r') = true ->
       op_le ops (var r') (var r'') = true ->
       op_le ops (var r) (var r'') = true) ->
    exists r,
      In r quadrants /\
      kuwahara_block ops a = kuwahara_mean ops a r /\
      forall r', In r' quadrants -> op_le ops (var r) (var r') = true.
Proof.
  intros A ops a quadrants var Htot Htr.
  set (v1 := var kuwahara_r1). set (v2 := var kuwahara_r2).
  set (v3 := var kuwahara_r3). set (v4 := var kuwahara_r4).
  assert (Hin : forall x, In x [v1; v2; v3; v4] ->
                  exists r, In r quadrants /\ x = var r).
  { intros x [<-|[<-|[<-|[<-|[]]]]];
      [exists kuwahara_r1|exists kuwahara_r2|exists kuwahara_r3
       |exists kuwahara_r4]; (split; [simpl; auto 6|reflexivity]). }
  destruct (least_of_four A ops v1 v2 v3 v4) as (m & Hm & Hleast).
  { intros x y Hx Hy. destruct (Hin x Hx) as (r & Hr & ->).
    destruct (Hin y Hy) as (r' & Hr' & ->). now apply Htot. }
  { intros x y z Hx Hy Hz. destruct (Hin x Hx) as (r & Hr & ->).
    destruct (Hin y Hy) as (r' & Hr' & ->).
    destruct (Hin z Hz) as (r'' & Hr'' & ->). now apply Htr. }
  assert (Hall : forall i, In i [v1; v2; v3; v4] ->
            (forall y, In y [v1; v2; v3; v4] -> op_le ops i y = true) ->
            forall r', In r' quadrants -> op_le ops i (var r') = true).
  { intros i _ Hi r' [<-|[<-|[<-|[<-|[]]]]]; apply Hi; simpl; auto 6. }
  unfold kuwahara_block.
  fold (var kuwahara_r1) (var kuwahara_r2) (var kuwahara_r3)
       (var kuwahara_r4).
  fold v1 v2 v3 v4.
  destruct (op_le ops v1 v2 && op_le ops v1 v3 && op_le ops v1 v4) eqn:E1.
  { apply andb_true_iff in E1 as (E1 & E14).
    apply andb_true_iff in E1 as (E12 & E13).
    exists kuwahara_r1. split; [simpl; auto|]. split; [reflexivity|].
    intros r' [<-|[<-|[<-|[<-|[]]]]]; fold v1 v2 v3 v4; try assumption.
    destruct (Htot kuwahara_r1 kuwahara_r1); simpl; auto. }
  destruct (op_le ops v2 v3 && op_le ops v2 v4 && op_le ops v2 v1) eqn:E2.
  { apply andb_true_iff in E2 as (E2 & E21).
    apply andb_true_iff in E2 as (E23 & E24).
    exists kuwahara_r2. split; [simpl; auto|]. split; [reflexivity|].
    intros r' [<-|[<-|[<-|[<-|[]]]]]; fold v1 v2 v3 v4; try assumption.
    destruct (Htot kuwahara_r2 kuwahara_r2); simpl; auto. }
  destruct (op_le ops v3 v4 && op_le ops v3 v1 && op_le ops v3 v2) eqn:E3.
  { apply andb_true_iff in E3 as (E3 & E32).
    apply andb_true_iff in E3 as (E34 & E31).
    exists kuwahara_r3. split; [simpl; auto|]. split; [reflexivity|].
    intros r' [<-|[<-|[<-|[<-|[]]]]]; fold v1 v2 v3 v4; try assumption.
    destruct (Htot kuwahara_r3 kuwahara_r3); simpl; auto. }
  destruct (op_le ops v4 v1 && op_le ops v4 v2 && op_le ops v4 v3) eqn:E4.
  { apply andb_true_iff in E4 as (E4 & E43).
    apply andb_true_iff in E4 as (E41 & E42).
    exists kuwahara_r4. split; [simpl; auto 6|]. split; [reflexivity|].
    intros r' [<-|[<-|[<-|[<-|[]]]]]; fold v1 v2 v3 v4; try assumption.
    destruct (Htot kuwahara_r4 kuwahara_r4); simpl; auto 6. }
  exfalso.
  destruct Hm as [<-|[<-|[<-|[<-|[]]]]].
  - rewrite !Hleast in E1 by (simpl; auto 6). discriminate E1.
  - rewrite !Hleast in E2 by (simpl; auto 6). discriminate E2.
  - rewrite !Hleast in E3 by (simpl; auto 6). discriminate E3.
  - rewrite !Hleast in E4 by (simpl; auto 6). discriminate E4.
Qed.

(** X20 on the block that holds the cell numbers 0 to 24, over the exact
    rationals. *)
Lemma kuwahara_block_is_a_least_variance_mean_witness :
  exists r,
    In r [kuwahara_r1; kuwahara_r2; kuwahara_r3; kuwahara_r4] /\
    kuwahara_block exact_ops (fun k => inject_Z (Z.of_nat k))
    = kuwahara_mean exact_ops (fun k => inject_Z (Z.of_nat k)) r /\
    forall r',
      In r' [kuwahara_r1; kuwahara_r2; kuwahara_r3; kuwahara_r4] ->
      op_le exact_ops
        (kuwahara_var exact_ops (fun k => inject_Z (Z.of_nat k)) r)
        (kuwahara_var exact_ops (fun k => inject_Z (Z.of_nat k)) r') = true.
Proof.
  apply (kuwahara_block_is_a_least_variance_mean Q exact_ops
           (fun k => inject_Z (Z.of_nat k))).
  - intros r r' [<-|[<-|[<-|[<-|[]]]]] [<-|[<-|[<-|[<-|[]]]]];
      vm_compute; auto.
  - intros r r' r'' [<-|[<-|[<-|[<-|[]]]]] [<-|[<-|[<-|[<-|[]]]]]
           [<-|[<-|[<-|[<-|[]]]]];
      vm_compute; intros H1 H2; reflexivity || discriminate.
Defined.

Section KuwaharaArea.

Variable A : Type.
Variable ops : SampleOps A.
Variable data_field : GwyDataField A.
Variables col row width : nat.

(** The value the filter computes for the pixel [(row + i, col + j)]. *)
Local Abbreviation filtered i j :=
  (kuwahara_block ops
     (fun k => gwy_data_field_get_val_closest data_field
                 (Z.of_nat col + Z.of_nat j + (Z.of_nat (k mod 5) - 2))
                 (Z.of_nat row + Z.of_nat i + (Z.of_nat (k / 5) - 2)))).

Lemma kuwahara_row_spec i : forall cnt j buffer kernel buffer' kernel',
  kuwahara_row ops cnt j data_field col row width i buffer kernel
  = (buffer', kernel') ->
  (forall j', j <= j' < j + cnt -> buffer' (i * width + j') = filtered i j') /\
  (forall k, (forall j', j <= j' < j + cnt -> k <> i * width + j') ->
             buffer' k = buffer k).
Proof.
  induction cnt as [|cnt IH]; intros j buffer kernel buffer' kernel' E;
    simpl in E.
  - inversion E; subst. split; [intros; lia|reflexivity].
  - destruct (IH _ _ _ _ _ E) as (H1 & H2). split.
    + intros j' Hj'. destruct (Nat.eq_dec j' j) as [->|Hne].
      * rewrite H2 by (intros j2 Hj2; lia).
        unfold upd. rewrite Nat.eqb_refl.
        apply kuwahara_block_ext. intros k Hk.
        now apply kuwahara_gather_cells.
      * apply H1. lia.
    + intros k Hk. rewrite H2 by (intros j' Hj'; apply Hk; lia).
      unfold upd. destruct (Nat.eqb_spec k (i * width + j)) as [->|];
        [|reflexivity].
      exfalso. apply (Hk j); [lia|reflexivity].
Qed.

Lemma kuwahara_rows_spec : forall cnt i buffer kernel buffer' kernel',
  kuwahara_rows ops cnt i data_field col row width buffer kernel
  = (buffer', kernel') ->
  forall i' j', i <= i' < i + cnt -> j' < width ->
                buffer' (i' * width + j') = filtered i' j'.
Proof.
  induction cnt as [|cnt IH]; intros i buffer kernel buffer' kernel' E i' j'
                                     Hi' Hj'; simpl in E; [lia|].
  destruct (kuwahara_row ops width 0 data_field col row width i buffer kernel)
    as [b1 k1] eqn:Er.
  destruct (kuwahara_row_spec i _ _ _ _ _ _ Er) as (R1 & _).
  destruct (Nat.eq_dec i' i) as [->|Hne].
  - rewrite <- (R1 j') by lia.
    clear - E Hj'. revert b1 k1 E.
    generalize (Nat.lt_succ_diag_r i). generalize (S i) as i1.
    induction cnt as [|cnt IH]; intros i1 Hi1 b1 k1 E; simpl in E.
    + now inversion E.
    + destruct (kuwahara_row ops width 0 data_field col row width i1 b1 k1)
        as [b2 k2] eqn:Er2.
      destruct (kuwahara_row_spec i1 _ _ _ _ _ _ Er2) as (_ & F).
      rewrite (IH (S i1) ltac:(lia) b2 k2 E).
      apply F. intros j2 Hj2.
      apply cells_differ; [exact Hj'|lia|left; lia].
  - apply (IH (S i) b1 k1 buffer' kernel' E); [lia|exact Hj'].
Qed.

Lemma kuwahara_put_row_spec xr i (buffer : buf A) : forall cnt j d,
  let d' := kuwahara_put_row cnt j d xr col row width i buffer in
  (forall j', j <= j' < j + cnt ->
     d' (col + j' + xr * (row + i)) = buffer (i * width + j')) /\
  (forall k, (forall j', j <= j' < j + cnt ->
                         k <> col + j' + xr * (row + i)) -> d' k = d k).
Proof.
  induction cnt as [|cnt IH]; intros j d; simpl.
  - split; [intros; lia|reflexivity].
  - destruct (IH (S j) (upd d (col + j + xr * (row + i))
                            (buffer (i * width + j)))) as (H1 & H2).
    split.
    + intros j' Hj'. destruct (Nat.eq_dec j' j) as [->|Hne].
      * rewrite H2 by (intros j2 Hj2; lia).
        unfold upd. now rewrite Nat.eqb_refl.
      * apply H1. lia.
    + intros k Hk. rewrite H2 by (intros j' Hj'; apply Hk; lia).
      unfold upd.
      destruct (Nat.eqb_spec k (col + j + xr * (row + i))) as [->|];
        [|reflexivity].
      exfalso. apply (Hk j); [lia|reflexivity].
Qed.

Lemma kuwahara_put_rows_spec xr (buffer : buf A) :
  col + width <= xr ->
  forall cnt i d,
    let d' := kuwahara_put_rows cnt i d xr col row width buffer in
    (forall i' j', i <= i' < i + cnt -> j' < width ->
       d' (col + j' + xr * (row + i')) = buffer (i' * width + j')) /\
    (forall k, (forall i' j', i <= i' < i + cnt -> j' < width ->
                              k <> col + j' + xr * (row + i')) ->
               d' k = d k).
Proof.
  intros Hc. induction cnt as [|cnt IH]; intros i d; simpl.
  - split; [intros; lia|reflexivity].
  - destruct (kuwahara_put_row_spec xr i buffer width 0 d) as (R1 & R2).
    destruct (IH (S i) (kuwahara_put_row width 0 d xr col row width i buffer))
      as (H1 & H2).
    split.
    + intros i' j' Hi' Hj'. destruct (Nat.eq_dec i' i) as [->|Hne].
      * rewrite H2; [apply R1; lia|].
        intros i2 j2 Hi2 Hj2.
        apply cells_differ'; [lia|lia|lia].
      * apply H1; [lia|exact Hj'].
    + intros k Hk. rewrite H2 by (intros i' j' Hi' Hj'; apply Hk; [lia|exact Hj']).
      apply R2. intros j' Hj'. apply Hk; lia.
Qed.

End KuwaharaArea.

(** The cell that is closest to a position lies in the field. *)
Lemma closest_cell_in_field {A : Type} (d : GwyDataField A) (c r : Z) :
  1 <= xres d -> 1 <= yres d ->
  Z.to_nat (CLAMP r 0 (Z.of_nat (yres d) - 1) * Z.of_nat (xres d)
            + CLAMP c 0 (Z.of_nat (xres d) - 1))
  < xres d * yres d.
Proof.
  intros Hx Hy.
  assert (Hcl : forall x hi, (0 <= hi)%Z -> (0 <= CLAMP x 0 hi <= hi)%Z).
  { intros x hi Hhi. unfold CLAMP.
    destruct (Z.gtb_spec x hi); [lia|]. destruct (Z.ltb_spec x 0); lia. }
  pose proof (Hcl r (Z.of_nat (yres d) - 1)%Z ltac:(lia)) as Hr.
  pose proof (Hcl c (Z.of_nat (xres d) - 1)%Z ltac:(lia)) as Hc.
  set (cr := CLAMP r 0 (Z.of_nat (yres d) - 1)) in *.
  set (cc := CLAMP c 0 (Z.of_nat (xres d) - 1)) in *.
  apply Nat2Z.inj_lt. rewrite Z2Nat.id by nia.
  rewrite Nat2Z.inj_mul. nia.
Qed.

(** X21.  On a valid area [gwy_data_field_area_filter_kuwahara] replaces
    every pixel of the area by the value of [kuwahara_block] on the 5 x 5
    block around it in the field as it was before the call, the cells of
    the block beyond an edge being those of the edge: each cell of the
    block is a cell of the field, and no pixel is filtered from a
    neighbour that the call has already replaced.  The call keeps the
    resolution and every cell outside the area.  This holds whatever the
    arithmetic of the samples is. *)
Theorem kuwahara_filters_the_area_from_the_input :
  forall (A : Type) (ops : SampleOps A) (data_field : GwyDataField A)
         (junk_buffer junk_kernel : buf A) (col row width height : nat),
    let data_field' :=
      gwy_data_field_area_filter_kuwahara ops data_field junk_buffer
        junk_kernel col row width height in
    1 <= width -> 1 <= height ->
    col + width <= xres data_field -> row + height <= yres data_field ->
    xres data_field' = xres data_field /\
    yres data_field' = yres data_field /\
    (forall i j, i < height -> j < width ->
       data data_field' (col + j + xres data_field * (row + i))
       = kuwahara_block ops
           (fun k => gwy_data_field_get_val_closest data_field
                       (Z.of_nat col + Z.of_nat j
                        + (Z.of_nat (k mod 5) - 2))
                       (Z.of_nat row + Z.of_nat i
                        + (Z.of_nat (k / 5) - 2))) /\
       forall k, exists c,
         c < xres data_field * yres data_field /\
         gwy_data_field_get_val_closest data_field
           (Z.of_nat col + Z.of_nat j + (Z.of_nat (k mod 5) - 2))
           (Z.of_nat row + Z.of_nat i + (Z.of_nat (k / 5) - 2))
         = data data_field c) /\
    (forall k,
       (forall i j, i < height -> j < width ->
                    k <> col + j + xres data_field * (row + i)) ->
       data data_field' k = data data_field k).
Proof.
  intros A ops data_field junk_buffer junk_kernel col row width height
         data_field' Hw Hh Hc Hr.
  unfold data_field', gwy_data_field_area_filter_kuwahara.
  destruct (Nat.ltb_spec 0 width); [|lia].
  destruct (Nat.ltb_spec 0 height); [|lia].
  destruct (Nat.leb_spec (col + width) (xres data_field)); [|lia].
  destruct (Nat.leb_spec (row + height) (yres data_field)); [|lia].
  simpl negb. cbv iota.
  destruct (kuwahara_rows ops height 0 data_field col row width
              junk_buffer junk_kernel) as [buffer kernel] eqn:E.
  pose proof (kuwahara_rows_spec A ops data_field col row width _ _ _ _ _ _ E)
    as Hbuf.
  destruct (kuwahara_put_rows_spec A col row width (xres data_field) buffer
              Hc height 0 (data data_field)) as (P1 & P2).
  simpl.
  split; [reflexivity|]. split; [reflexivity|]. split.
  - intros i j Hi Hj. split.
    + rewrite P1 by lia. apply Hbuf; lia.
    + intros k. eexists. split; [|reflexivity].
      apply closest_cell_in_field; lia.
  - intros k Hk. apply P2. intros i' j' Hi' Hj'. apply Hk; lia.
Qed.

(** X21 on the area of 2 x 2 cells at the column 1 and the row 1 of
    [QSample.square_image], for the first pixel of the area. *)
Lemma kuwahara_filters_the_area_from_the_input_witness :
  data (gwy_data_field_area_filter_kuwahara exact_ops QSample.square_image
          (fun _ => 0%Q) (fun _ => 0%Q) 1 1 2 2)
       (1 + 0 + xres QSample.square_image * (1 + 0))
  = kuwahara_block exact_ops
      (fun k => gwy_data_field_get_val_closest QSample.square_image
                  (Z.of_nat 1 + Z.of_nat 0 + (Z.of_nat (k mod 5) - 2))
                  (Z.of_nat 1 + Z.of_nat 0 + (Z.of_nat (k / 5) - 2))).
Proof.
  destruct (kuwahara_filters_the_area_from_the_input Q exact_ops
              QSample.square_image (fun _ => 0%Q) (fun _ => 0%Q)
              1 1 2 2)
    as (_ & _ & Hpix & _); [lia|lia|cbn; lia|cbn; lia|].
  apply Hpix; lia.
Defined.

(** ** Sums and averages over rectangles *)

(** The cell of an array at a [gint] index. *)
Local Abbreviation cell d z := (d (Z.to_nat z)).

Lemma rd_some (n : nat) (d : buf Q) (k : Z) :
  (0 <= k < Z.of_nat n)%Z -> rd n d k = Some (cell d k).
Proof.
  intros Hk. unfold rd.
  destruct (Z.leb_spec 0 k); [|lia]. destruct (Z.ltb_spec k (Z.of_nat n));
    [reflexivity|lia].
Qed.

Lemma rd_none (n : nat) (d : buf Q) (k : Z) :
  (k < 0 \/ Z.of_nat n <= k)%Z -> rd n d k = None.
Proof.
  intros Hk. unfold rd.
  destruct (Z.leb_spec 0 k); [|reflexivity].
  destruct (Z.ltb_spec k (Z.of_nat n)); [lia|reflexivity].
Qed.

Lemma wr_some (n : nat) (d : buf Q) (k : Z) (v : Q) :
  (0 <= k < Z.of_nat n)%Z -> wr n d k v = Some (upd d (Z.to_nat k) v).
Proof.
  intros Hk. unfold wr.
  destruct (Z.leb_spec 0 k); [|lia]. destruct (Z.ltb_spec k (Z.of_nat n));
    [reflexivity|lia].
Qed.

Lemma wr_none (n : nat) (d : buf Q) (k : Z) (v : Q) :
  (k < 0 \/ Z.of_nat n <= k)%Z -> wr n d k v = None.
Proof.
  intros Hk. unfold wr.
  destruct (Z.leb_spec 0 k); [|reflexivity].
  destruct (Z.ltb_spec k (Z.of_nat n)); [lia|reflexivity].
Qed.

Lemma cell_upd_same (d : buf Q) (k : Z) (v : Q) :
  cell (upd d (Z.to_nat k) v) k = v.
Proof. unfold upd. now rewrite Nat.eqb_refl. Qed.

Lemma cell_upd_other (d : buf Q) (k z : Z) (v : Q) :
  (0 <= k)%Z -> (0 <= z)%Z -> z <> k ->
  cell (upd d (Z.to_nat k) v) z = cell d z.
Proof.
  intros Hk Hz Hne. unfold upd.
  destruct (Nat.eqb_spec (Z.to_nat z) (Z.to_nat k)); [lia|reflexivity].
Qed.

(** The rule of the loop invariant, for both loops. *)
Lemma for_up_inv {St : Type} (I : Z -> St -> Prop)
    (body : Z -> St -> option St) :
  forall cnt j s,
    I j s ->
    (forall k s, (j <= k < j + Z.of_nat cnt)%Z -> I k s ->
                 exists s', body k s = Some s' /\ I (k + 1)%Z s') ->
    exists s', for_up cnt j body s = Some s' /\ I (j + Z.of_nat cnt)%Z s'.
Proof.
  induction cnt as [|cnt IH]; intros j s Hj Hstep.
  - exists s. split; [reflexivity|]. now replace (j + Z.of_nat 0)%Z with j by lia.
  - destruct (Hstep j s ltac:(lia) Hj) as (s1 & E1 & H1).
    destruct (IH (j + 1)%Z s1 H1) as (s' & E' & H').
    { intros k s2 Hk. apply Hstep. lia. }
    exists s'. split.
    + cbn [for_up]. rewrite E1. exact E'.
    + now replace (j + Z.of_nat (S cnt))%Z with (j + 1 + Z.of_nat cnt)%Z by lia.
Qed.

Lemma for_down_inv {St : Type} (I : Z -> St -> Prop)
    (body : Z -> St -> option St) :
  forall cnt j s,
    I j s ->
    (forall k s, (j - Z.of_nat cnt < k <= j)%Z -> I k s ->
                 exists s', body k s = Some s' /\ I (k - 1)%Z s') ->
    exists s', for_down cnt j body s = Some s' /\ I (j - Z.of_nat cnt)%Z s'.
Proof.
  induction cnt as [|cnt IH]; intros j s Hj Hstep.
  - exists s. split; [reflexivity|]. now replace (j - Z.of_nat 0)%Z with j by lia.
  - destruct (Hstep j s ltac:(lia) Hj) as (s1 & E1 & H1).
    destruct (IH (j - 1)%Z s1 H1) as (s' & E' & H').
    { intros k s2 Hk. apply Hstep. lia. }
    exists s'. split.
    + cbn [for_down]. rewrite E1. exact E'.
    + now replace (j - Z.of_nat (S cnt))%Z with (j - 1 - Z.of_nat cnt)%Z by lia.
Qed.

Lemma turns_up (a b : Z) : (a <= b + 1)%Z -> (a + Z.of_nat (turns a b) = b + 1)%Z.
Proof. unfold turns. lia. Qed.

Lemma turns_down (a b : Z) : (a <= b + 1)%Z -> (b - Z.of_nat (turns a b) = a - 1)%Z.
Proof. unfold turns. lia. Qed.

Lemma turns_none (a b : Z) : (b < a)%Z -> turns a b = 0.
Proof. unfold turns. lia. Qed.

(** *** Sums over intervals *)

Lemma qsum_ext (f g : Z -> Q) : forall n lo,
  (forall k, (lo <= k < lo + Z.of_nat n)%Z -> Qeq (f k) (g k)) ->
  Qeq (qsum n lo f) (qsum n lo g).
Proof.
  induction n as [|n IH]; intros lo H; cbn [qsum]; [reflexivity|].
  rewrite (H lo) by lia. rewrite (IH (lo + 1)%Z); [reflexivity|].
  intros k Hk. apply H. lia.
Qed.

Lemma qsum_snoc (f : Z -> Q) : forall n lo,
  Qeq (qsum (S n) lo f) (qsum n lo f + f (lo + Z.of_nat n)%Z).
Proof.
  induction n as [|n IH]; intros lo.
  - cbn [qsum]. replace (lo + Z.of_nat 0)%Z with lo by lia. ring.
  - change (qsum (S (S n)) lo f) with (f lo + qsum (S n) (lo + 1)%Z f)%Q.
    rewrite IH. cbn [qsum].
    replace (lo + 1 + Z.of_nat n)%Z with (lo + Z.of_nat (S n))%Z by lia.
    ring.
Qed.

Lemma isum_empty (lo hi : Z) (f : Z -> Q) :
  (hi < lo)%Z -> isum lo hi f = 0%Q.
Proof. intros H. unfold isum. now rewrite turns_none. Qed.

Lemma isum_ext (lo hi : Z) (f g : Z -> Q) :
  (forall k, (lo <= k <= hi)%Z -> Qeq (f k) (g k)) ->
  Qeq (isum lo hi f) (isum lo hi g).
Proof.
  intros H. unfold isum. apply qsum_ext. intros k Hk. apply H.
  unfold turns in Hk. lia.
Qed.

Lemma isum_snoc (lo hi : Z) (f : Z -> Q) :
  (lo <= hi + 1)%Z ->
  Qeq (isum lo (hi + 1) f) (isum lo hi f + f (hi + 1)%Z).
Proof.
  intros H. unfold isum.
  replace (turns lo (hi + 1)) with (S (turns lo hi)) by (unfold turns; lia).
  rewrite qsum_snoc.
  replace (lo + Z.of_nat (turns lo hi))%Z with (hi + 1)%Z
    by (unfold turns; lia).
  reflexivity.
Qed.

Lemma isum_cons (lo hi : Z) (f : Z -> Q) :
  (lo <= hi)%Z ->
  isum lo hi f = (f lo + isum (lo + 1) hi f)%Q.
Proof.
  intros H. unfold isum.
  replace (turns lo hi) with (S (turns (lo + 1) hi)) by (unfold turns; lia).
  reflexivity.
Qed.

(** *** The window along one axis *)

(** The two halves of a size, as the [gint] division gives them. *)
Lemma halves (size : Z) :
  (1 <= size)%Z ->
  (Z.quot (size - 1) 2 = (size - 1) / 2 /\ Z.quot size 2 = size / 2 /\
   0 <= Z.quot (size - 1) 2 /\ 0 <= Z.quot size 2 /\
   Z.quot (size - 1) 2 + Z.quot size 2 = size - 1)%Z.
Proof.
  intros Hsize. rewrite !Z.quot_div_nonneg by lia.
  split; [reflexivity|]. split; [reflexivity|]. lia.
Qed.

Section Window.

Variables n size : Z.
Variable f : Z -> Q.
Hypothesis Hn : (1 <= n)%Z.
Hypothesis Hsize : (1 <= size)%Z.

Local Abbreviation s2m := (Z.quot (size - 1) 2).
Local Abbreviation s2p := (Z.quot size 2).
Local Abbreviation W i := (isum (window_lo size i) (window_hi n size i) f).

Lemma window_first :
  W 0%Z = isum 0 (ZMIN s2p (n - 1)) f.
Proof using Hn Hsize.
  destruct (halves size Hsize) as (E1 & E2 & H1 & H2 & _).
  unfold window_lo, window_hi, ZMIN. rewrite <- E1, <- E2.
  destruct (Z.ltb_spec s2p (n - 1)); f_equal; lia.
Qed.

Lemma window_last :
  W (n - 1)%Z = isum (n - 1 - ZMIN s2m (n - 1)) (n - 1) f.
Proof using Hn Hsize.
  destruct (halves size Hsize) as (E1 & E2 & H1 & H2 & _).
  unfold window_lo, window_hi, ZMIN. rewrite <- E1, <- E2.
  destruct (Z.ltb_spec s2m (n - 1)); f_equal; lia.
Qed.

Lemma window_up (i : Z) :
  (1 <= i < n)%Z ->
  Qeq (W i)
      (W (i - 1)%Z
       + ((if (i + s2p <? n)%Z then f (i + s2p)%Z else 0)
          - (if (i - 1 - s2m >=? 0)%Z then f (i - 1 - s2m)%Z else 0))).
Proof using Hn Hsize.
  intros Hi. destruct (halves size Hsize) as (E1 & E2 & H1 & H2 & _).
  unfold window_lo, window_hi. rewrite <- E1, <- E2.
  rewrite Z.geb_leb.
  destruct (Z.ltb_spec (i + s2p) n) as [Ha|Ha];
    destruct (Z.leb_spec 0 (i - 1 - s2m)) as [Hb|Hb].
  - replace (Z.min (n - 1) (i + s2p)) with (Z.min (n - 1) (i - 1 + s2p) + 1)%Z
      by lia.
    rewrite isum_snoc by lia.
    replace (Z.min (n - 1) (i - 1 + s2p) + 1)%Z with (i + s2p)%Z by lia.
    rewrite (isum_cons (Z.max 0 (i - 1 - s2m))) by lia.
    replace (Z.max 0 (i - 1 - s2m) + 1)%Z with (Z.max 0 (i - s2m)) by lia.
    replace (Z.max 0 (i - 1 - s2m)) with (i - 1 - s2m)%Z at 1 by lia.
    ring.
  - replace (Z.min (n - 1) (i + s2p)) with (Z.min (n - 1) (i - 1 + s2p) + 1)%Z
      by lia.
    rewrite isum_snoc by lia.
    replace (Z.min (n - 1) (i - 1 + s2p) + 1)%Z with (i + s2p)%Z by lia.
    replace (Z.max 0 (i - s2m)) with (Z.max 0 (i - 1 - s2m)) by lia.
    ring.
  - replace (Z.min (n - 1) (i + s2p)) with (Z.min (n - 1) (i - 1 + s2p)) by lia.
    rewrite (isum_cons (Z.max 0 (i - 1 - s2m))) by lia.
    replace (Z.max 0 (i - 1 - s2m) + 1)%Z with (Z.max 0 (i - s2m)) by lia.
    replace (Z.max 0 (i - 1 - s2m)) with (i - 1 - s2m)%Z at 1 by lia.
    ring.
  - replace (Z.min (n - 1) (i + s2p)) with (Z.min (n - 1) (i - 1 + s2p)) by lia.
    replace (Z.max 0 (i - s2m)) with (Z.max 0 (i - 1 - s2m)) by lia.
    ring.
Qed.

Lemma window_down (i : Z) :
  (0 <= i)%Z -> (i + 1 < n)%Z ->
  Qeq (W i)
      (W (i + 1)%Z
       + ((if (i - s2m >=? 0)%Z then f (i - s2m)%Z else 0)
          - (if (i + 1 + s2p <? n)%Z then f (i + 1 + s2p)%Z else 0))).
Proof using Hn Hsize.
  intros Hi0 Hi1.
  pose proof (window_up (i + 1)%Z ltac:(lia)) as Hup.
  replace (i + 1 - 1)%Z with i in Hup by lia.
  replace (i + 1 - 1 - s2m)%Z with (i - s2m)%Z in Hup by lia.
  rewrite Hup. ring.
Qed.

End Window.

Lemma ZMIN_min (a b : Z) : ZMIN a b = Z.min a b.
Proof. unfold ZMIN. destruct (Z.ltb_spec a b); lia. Qed.

Lemma if_rd (c : bool) (n : nat) (d : buf Q) (k : Z) :
  (c = true -> (0 <= k < Z.of_nat n)%Z) ->
  (if c then rd n d k else Some 0%Q) = Some (if c then cell d k else 0%Q).
Proof. intros H. destruct c; [apply rd_some; auto|reflexivity]. Qed.

(** Checked accesses whose index is within the array. *)
Ltac run_io :=
  repeat (first [rewrite rd_some by lia | rewrite wr_some by lia];
          cbn [obind]).

(** The loop of the goal, with its invariant. *)
Ltac loop_inv I :=
  match goal with
  | |- context [for_up ?c ?j ?body ?s] =>
      let H := fresh "Hloop" in
      pose proof (for_up_inv I body c j s) as H; cbv beta in H
  | |- context [for_down ?c ?j ?body ?s] =>
      let H := fresh "Hloop" in
      pose proof (for_down_inv I body c j s) as H; cbv beta in H
  end.

(** *** Whole numbers and the rounding *)

Lemma integral_zero (B : Z) : (0 <= B)%Z -> integral B 0%Q.
Proof. intros HB. exists 0%Z. split; [reflexivity|lia]. Qed.

Lemma integral_eq (B : Z) (x y : Q) :
  Qeq x y -> integral B x -> integral B y.
Proof.
  intros E (n & Hn & Hb). exists n. split; [|exact Hb].
  now rewrite <- E.
Qed.

Lemma integral_mono (B B' : Z) (x : Q) :
  (B <= B')%Z -> integral B x -> integral B' x.
Proof. intros HB (n & Hn & Hb). exists n. split; [exact Hn|lia]. Qed.

Lemma integral_add (B B' : Z) (x y : Q) :
  integral B x -> integral B' y -> integral (B + B') (x + y)%Q.
Proof.
  intros (n & Hn & Hb) (m & Hm & Hb'). exists (n + m)%Z. split; [|lia].
  rewrite Hn, Hm, inject_Z_plus. reflexivity.
Qed.

Lemma integral_sub (B B' : Z) (x y : Q) :
  integral B x -> integral B' y -> integral (B + B') (x - y)%Q.
Proof.
  intros (n & Hn & Hb) (m & Hm & Hb'). exists (n - m)%Z. split; [|lia].
  rewrite Hn, Hm. unfold Z.sub, Qminus.
  rewrite inject_Z_plus, inject_Z_opp. reflexivity.
Qed.

Lemma integral_if (c : bool) (B : Z) (x : Q) :
  (0 <= B)%Z -> (c = true -> integral B x) ->
  integral B (if c then x else 0%Q).
Proof.
  intros HB Hx. destruct c; [now apply Hx|now apply integral_zero].
Qed.

Lemma integral_qsum (f : Z -> Q) (M : Z) :
  (0 <= M)%Z ->
  forall n lo,
    (forall k, (lo <= k < lo + Z.of_nat n)%Z -> integral M (f k)) ->
    integral (Z.of_nat n * M) (qsum n lo f).
Proof.
  intros HM. induction n as [|n IH]; intros lo Hf; simpl qsum.
  - apply integral_zero. lia.
  - replace (Z.of_nat (S n) * M)%Z with (M + Z.of_nat n * M)%Z by lia.
    apply integral_add.
    + apply Hf. lia.
    + apply IH. intros k Hk. apply Hf. lia.
Qed.

(** A sum of at most [W] whole numbers of at most [M] in magnitude. *)
Lemma integral_isum (lo hi W M : Z) (f : Z -> Q) :
  (0 <= M)%Z -> (hi - lo + 1 <= W)%Z -> (0 <= W)%Z ->
  (forall k, (lo <= k <= hi)%Z -> integral M (f k)) ->
  integral (W * M) (isum lo hi f).
Proof.
  intros HM HW HW0 Hf. unfold isum.
  apply integral_mono with (B := (Z.of_nat (turns lo hi) * M)%Z).
  - apply Z.mul_le_mono_nonneg_r; [exact HM|]. unfold turns. lia.
  - apply integral_qsum; [exact HM|].
    intros k Hk. apply Hf. unfold turns in Hk. lia.
Qed.

Section Exact.

Variable rnd : Q -> Q.
Variable big : Z.
Hypothesis Hexact : forall x, integral big x -> Qeq (rnd x) x.

(** A value that is a whole number within the exact range is not
    changed by the rounding. *)
Lemma rnd_target (B : Z) (v t : Q) :
  Qeq v t -> integral B t -> (B <= big)%Z -> Qeq (rnd v) t.
Proof using Hexact.
  intros E Ht HB. rewrite Hexact; [exact E|].
  apply integral_mono with (B := B); [exact HB|].
  apply integral_eq with (x := t); [now symmetry|exact Ht].
Qed.

Lemma rnd_small (B : Z) (x : Q) :
  integral B x -> (B <= big)%Z -> Qeq (rnd x) x.
Proof using Hexact.
  intros Hx HB. apply rnd_target with (B := B); [reflexivity|exact Hx|exact HB].
Qed.

End Exact.

Section GatherRows.

Variable rnd : Q -> Q.
Variables big M : Z.
Variables nd nb : nat.
Variable d : buf Q.
Variables xr col row width hsize i : Z.
Hypothesis Hexact : forall x, integral big x -> Qeq (rnd x) x.
Hypothesis HM : (0 <= M)%Z.
Hypothesis Hbig : (2 * width * M <= big)%Z.
Hypothesis Hw : (1 <= width)%Z.
Hypothesis Hh : (1 <= hsize)%Z.
Hypothesis Hcol : (0 <= col)%Z.
Hypothesis Hrow : (0 <= row)%Z.
Hypothesis Hi : (0 <= i)%Z.
Hypothesis Hfit : (col + width <= xr)%Z.
Hypothesis Hnd : ((i + row + 1) * xr <= Z.of_nat nd)%Z.
Hypothesis Hnb : ((i + 1) * width <= Z.of_nat nb)%Z.

Local Abbreviation hs2m := (Z.quot (hsize - 1) 2).
Local Abbreviation hs2p := (Z.quot hsize 2).
Local Abbreviation srow := ((i + row) * xr + col)%Z.
Local Abbreviation drow := (i * width)%Z.
Local Abbreviation f := (fun k => cell d (srow + k)%Z).
Local Abbreviation T j :=
  (isum (window_lo hsize j) (window_hi width hsize j) f).

Hypothesis Hd : forall k, (0 <= k < width)%Z -> integral M (f k).

Lemma gather_row_sums_spec (b : buf Q) :
  exists b',
    gather_row_sums rnd nd nb d xr col row width hs2m hs2p i b = Some b' /\
    (forall j, (0 <= j < width)%Z -> Qeq (cell b' (drow + j)%Z) (T j)) /\
    (forall z, (0 <= z)%Z -> ~ (drow <= z < drow + width)%Z ->
               cell b' z = cell b z).
Proof using Hw Hh Hcol Hrow Hi Hfit Hnd Hnb Hexact HM Hbig Hd.
  destruct (halves hsize Hh) as (E1 & E2 & H1 & H2 & _).
  assert (HX : (0 <= (i + row) * xr)%Z) by nia.
  assert (HD : (0 <= i * width)%Z) by nia.
  assert (Hnd' : ((i + row) * xr + xr <= Z.of_nat nd)%Z) by lia.
  assert (Hnb' : (i * width + width <= Z.of_nat nb)%Z) by lia.
  assert (Hq : Z.quot width 2 = (width / 2)%Z)
    by (apply Z.quot_div_nonneg; lia).
  unfold gather_row_sums. cbv zeta. rewrite !ZMIN_min, Hq.
  assert (HwM : (width * M <= big /\ M + M <= big)%Z) by nia.
  pose proof Hd as Hd'. cbv beta in Hd'.
  revert HX HD Hnd' Hnb' Hd'. clear Hnd Hnb Hd.
  generalize ((i + row) * xr)%Z as X. generalize (i * width)%Z as D.
  intros D X HX HD Hnd' Hnb' Hd'.
  assert (HT : forall a c, (0 <= a)%Z -> (c <= width - 1)%Z ->
            integral (width * M)
              (isum a c (fun k => cell d (X + col + k)%Z))).
  { intros a c Ha Hc. apply integral_isum; [exact HM|lia|lia|].
    intros k Hk. apply Hd'. lia. }
  assert (Hlo : forall j, (0 <= window_lo hsize j)%Z)
    by (intros j; unfold window_lo; lia).
  assert (Hhi : forall j, (window_hi width hsize j <= width - 1)%Z)
    by (intros j; unfold window_hi; lia).
  pose proof (window_first width hsize (fun k => cell d (X + col + k)%Z)
                Hw Hh) as Tfirst.
  pose proof (window_last width hsize (fun k => cell d (X + col + k)%Z)
                Hw Hh) as Tlast.
  pose proof (window_up width hsize (fun k => cell d (X + col + k)%Z)
                Hw Hh) as Tup.
  pose proof (window_down width hsize (fun k => cell d (X + col + k)%Z)
                Hw Hh) as Tdown.
  cbv beta in Tfirst, Tlast, Tup, Tdown.
  rewrite ZMIN_min in Tfirst, Tlast.
  revert Tfirst Tlast Tup Tdown Hlo Hhi.
  generalize (window_lo hsize) as lo. generalize (window_hi width hsize) as hi.
  intros hi lo Tfirst Tlast Tup Tdown Hlo Hhi.
  (* Left half *)
  rewrite wr_some by lia. cbn [obind].
  loop_inv (fun k (b' : buf Q) =>
              Qeq (cell b' D) (isum 0 (k - 1) (fun k => cell d (X + col + k)%Z)) /\
              forall z, (0 <= z)%Z -> z <> D -> cell b' z = cell b z).
  destruct Hloop as (b2 & Eb2 & I2a & I2b).
  { split.
    - rewrite cell_upd_same, isum_empty by lia. reflexivity.
    - intros z Hz Hne. apply cell_upd_other; lia. }
  { intros k b' Hk (Ia & Ib). unfold turns in Hk.
    rewrite !rd_some by lia. cbn [obind]. rewrite wr_some by lia.
    eexists. split; [reflexivity|]. split.
    - rewrite cell_upd_same. unfold Rounded.add.
      apply (rnd_target rnd big Hexact (width * M)%Z);
        [|apply HT; lia|lia].
      rewrite Ia.
      replace (k + 1 - 1)%Z with (k - 1 + 1)%Z by lia.
      rewrite isum_snoc by lia.
      replace (k - 1 + 1)%Z with k by lia. reflexivity.
    - intros z Hz Hne. rewrite cell_upd_other by lia. now apply Ib. }
  rewrite Eb2. cbn [obind].
  rewrite turns_up in I2a by lia.
  replace (Z.min hs2p (width - 1) + 1 - 1)%Z with (Z.min hs2p (width - 1))
    in I2a by lia.
  rewrite <- Tfirst in I2a.
  loop_inv (fun k (b' : buf Q) =>
              (forall j, (0 <= j < k)%Z ->
                         Qeq (cell b' (D + j)%Z)
                             (isum (lo j) (hi j)
                                (fun k => cell d (X + col + k)%Z))) /\
              forall z, (0 <= z)%Z -> ~ (D <= z < D + k)%Z ->
                        cell b' z = cell b z).
  destruct Hloop as (b3 & Eb3 & I3a & I3b).
  { split.
    - intros j Hj. replace (D + j)%Z with D by lia.
      replace j with 0%Z by lia. exact I2a.
    - intros z Hz Hne. apply I2b; lia. }
  { intros k b' Hk (Ia & Ib). unfold turns in Hk.
    rewrite !if_rd
      by (intros Hc; rewrite ?Z.geb_leb in Hc;
          first [apply Z.ltb_lt in Hc|apply Z.leb_le in Hc]; lia).
    cbn [obind]. rewrite rd_some by lia. cbn [obind].
    rewrite wr_some by lia.
    eexists. split; [reflexivity|]. split.
    - intros j Hj. destruct (Z.eq_dec j k) as [->|Hne].
      + rewrite cell_upd_same. unfold Rounded.add, Rounded.sub.
        apply (rnd_target rnd big Hexact (width * M)%Z);
          [|apply HT; [apply Hlo|apply Hhi]|lia].
        rewrite (rnd_small rnd big Hexact (M + M)%Z);
          [|apply integral_sub; (apply integral_if; [exact HM|]);
            intros Hc; rewrite ?Z.geb_leb in Hc;
            first [apply Z.ltb_lt in Hc|apply Z.leb_le in Hc];
            apply Hd'; lia
           |lia].
        rewrite (Tup k) by lia.
        rewrite (Ia (k - 1)%Z) by lia. reflexivity.
      + rewrite cell_upd_other by lia. apply Ia. lia.
    - intros z Hz Hne. rewrite cell_upd_other by lia. apply Ib; lia. }
  rewrite Eb3. cbn [obind].
  (* Right half *)
  rewrite wr_some by lia. cbn [obind].
  loop_inv (fun k (b' : buf Q) =>
              Qeq (cell b' (D + (width - 1))%Z)
                  (isum (k + 1) (width - 1)
                     (fun k => cell d (X + col + k)%Z)) /\
              (forall j, (0 <= j < width / 2)%Z ->
                         Qeq (cell b' (D + j)%Z)
                             (isum (lo j) (hi j)
                                (fun k => cell d (X + col + k)%Z))) /\
              forall z, (0 <= z)%Z -> ~ (D <= z < D + width)%Z ->
                        cell b' z = cell b z).
  destruct Hloop as (b5 & Eb5 & I5a & I5b & I5c).
  { split; [|split].
    - rewrite cell_upd_same, isum_empty by lia. reflexivity.
    - intros j Hj. rewrite cell_upd_other by lia. apply I3a.
      unfold turns. lia.
    - intros z Hz Hne. rewrite cell_upd_other by lia.
      apply I3b; [lia|unfold turns; lia]. }
  { intros k b' Hk (Ia & Ib & Ic). unfold turns in Hk.
    rewrite !rd_some by lia. cbn [obind]. rewrite wr_some by lia.
    eexists. split; [reflexivity|]. split; [|split].
    - rewrite cell_upd_same. unfold Rounded.add.
      apply (rnd_target rnd big Hexact (width * M)%Z);
        [|apply HT; lia|lia].
      rewrite Ia.
      replace (k - 1 + 1)%Z with k by lia.
      rewrite (isum_cons k) by lia. ring.
    - intros j Hj. rewrite cell_upd_other by lia. now apply Ib.
    - intros z Hz Hne. rewrite cell_upd_other by lia. now apply Ic. }
  rewrite Eb5. cbn [obind].
  rewrite turns_down in I5a by lia.
  replace (width - 1 - Z.min hs2m (width - 1) - 1 + 1)%Z
    with (width - 1 - Z.min hs2m (width - 1))%Z in I5a by lia.
  rewrite <- Tlast in I5a.
  loop_inv (fun k (b' : buf Q) =>
              (forall j, (k < j <= width - 1)%Z ->
                         Qeq (cell b' (D + j)%Z)
                             (isum (lo j) (hi j)
                                (fun k => cell d (X + col + k)%Z))) /\
              (forall j, (0 <= j < width / 2)%Z ->
                         Qeq (cell b' (D + j)%Z)
                             (isum (lo j) (hi j)
                                (fun k => cell d (X + col + k)%Z))) /\
              forall z, (0 <= z)%Z -> ~ (D <= z < D + width)%Z ->
                        cell b' z = cell b z).
  destruct Hloop as (b6 & Eb6 & I6a & I6b & I6c).
  { split; [|split]; [|exact I5b|exact I5c].
    intros j Hj. replace j with (width - 1)%Z by lia. exact I5a. }
  { intros k b' Hk (Ia & Ib & Ic). unfold turns in Hk.
    rewrite !if_rd
      by (intros Hc; rewrite ?Z.geb_leb in Hc;
          first [apply Z.ltb_lt in Hc|apply Z.leb_le in Hc]; lia).
    cbn [obind]. rewrite rd_some by lia. cbn [obind].
    rewrite wr_some by lia.
    eexists. split; [reflexivity|]. split; [|split].
    - intros j Hj. destruct (Z.eq_dec j k) as [->|Hne].
      + rewrite cell_upd_same. unfold Rounded.add, Rounded.sub.
        apply (rnd_target rnd big Hexact (width * M)%Z);
          [|apply HT; [apply Hlo|apply Hhi]|lia].
        rewrite (rnd_small rnd big Hexact (M + M)%Z);
          [|apply integral_sub; (apply integral_if; [exact HM|]);
            intros Hc; rewrite ?Z.geb_leb in Hc;
            first [apply Z.ltb_lt in Hc|apply Z.leb_le in Hc];
            apply Hd'; lia
           |lia].
        rewrite (Tdown k) by lia.
        rewrite (Ia (k + 1)%Z) by lia. reflexivity.
      + rewrite cell_upd_other by lia. apply Ia. lia.
    - intros j Hj. rewrite cell_upd_other by lia. now apply Ib.
    - intros z Hz Hne. rewrite cell_upd_other by lia. now apply Ic. }
  exists b6. split; [exact Eb6|]. split; [|exact I6c].
  intros j Hj. rewrite turns_down in I6a by lia.
  destruct (Z.lt_ge_cases j (width / 2)) as [Hlt|Hge].
  - apply I6b. lia.
  - apply I6a. lia.
Qed.

End GatherRows.

(** The loop over the rows of the first part. *)
Lemma gather_rows_spec (rnd : Q -> Q) (big M : Z) (nd nb : nat) (d : buf Q)
    (xr yr col row width height hsize : Z) (b : buf Q) :
  (forall x, integral big x -> Qeq (rnd x) x) ->
  (0 <= M)%Z -> (2 * width * M <= big)%Z ->
  (forall i k, (0 <= i < height)%Z -> (0 <= k < width)%Z ->
     integral M (cell d ((i + row) * xr + col + k)%Z)) ->
  (1 <= width)%Z -> (1 <= height)%Z -> (1 <= hsize)%Z ->
  (0 <= col)%Z -> (0 <= row)%Z ->
  (col + width <= xr)%Z -> (row + height <= yr)%Z ->
  (xr * yr <= Z.of_nat nd)%Z -> (width * height <= Z.of_nat nb)%Z ->
  exists b',
    for_up (turns 0 (height - 1)) 0
      (gather_row_sums rnd nd nb d xr col row width
         (Z.quot (hsize - 1) 2) (Z.quot hsize 2)) b = Some b' /\
    forall i j, (0 <= i < height)%Z -> (0 <= j < width)%Z ->
      Qeq (cell b' (i * width + j)%Z)
          (isum (window_lo hsize j) (window_hi width hsize j)
             (fun k => cell d ((i + row) * xr + col + k)%Z)).
Proof.
  intros Hexact HM Hbig Hd Hw Hh Hs Hcol Hrow Hfit Hfit2 Hnd Hnb.
  loop_inv (fun k (b' : buf Q) =>
              forall i j, (0 <= i < k)%Z -> (0 <= j < width)%Z ->
                Qeq (cell b' (i * width + j)%Z)
                    (isum (window_lo hsize j) (window_hi width hsize j)
                       (fun k => cell d ((i + row) * xr + col + k)%Z))).
  destruct Hloop as (b' & Eb & Ib).
  - intros i j Hi. lia.
  - intros k b1 Hk Ia. unfold turns in Hk.
    assert (Hnd_k : ((k + row + 1) * xr <= Z.of_nat nd)%Z).
    { pose proof (Z.mul_le_mono_nonneg_r (k + row + 1) yr xr); lia. }
    assert (Hnb_k : ((k + 1) * width <= Z.of_nat nb)%Z).
    { pose proof (Z.mul_le_mono_nonneg_r (k + 1) height width); lia. }
    destruct (gather_row_sums_spec rnd big M nd nb d xr col row width hsize k
                Hexact HM Hbig Hw Hs Hcol Hrow ltac:(lia) Hfit Hnd_k Hnb_k
                (fun k' Hk' => Hd k k' ltac:(lia) Hk') b1)
      as (b2 & E2 & R1 & R2).
    exists b2. split; [exact E2|].
    intros i j Hi Hj. destruct (Z.eq_dec i k) as [->|Hne].
    + now apply R1.
    + pose proof (Z.mul_le_mono_nonneg_r (i + 1) k width).
      pose proof (Z.mul_nonneg_nonneg i width).
      rewrite R2; [apply Ia; lia|lia|lia].
  - exists b'. split; [exact Eb|]. intros i j Hi Hj.
    apply Ib; [rewrite turns_up by lia; lia|exact Hj].
Qed.

(** A loop over the cells of a row of the result. *)
Lemma gather_set_row_spec (nr : nat) (width drow : Z)
    (f : Z -> buf Q -> option Q) (val : Z -> Q) (r0 : buf Q) :
  (0 <= drow)%Z -> (drow + width <= Z.of_nat nr)%Z ->
  (forall j r, (0 <= j < width)%Z ->
     (forall z, (0 <= z)%Z -> ~ (drow <= z < drow + j)%Z ->
                cell r z = cell r0 z) ->
     exists v, f j r = Some v /\ Qeq v (val j)) ->
  exists r',
    gather_set_row nr width drow f r0 = Some r' /\
    (forall j, (0 <= j < width)%Z -> Qeq (cell r' (drow + j)%Z) (val j)) /\
    (forall z, (0 <= z)%Z -> ~ (drow <= z < drow + width)%Z ->
               cell r' z = cell r0 z).
Proof.
  intros Hd Hn Hf. unfold gather_set_row.
  loop_inv (fun k (r : buf Q) =>
              (forall j, (0 <= j < k)%Z -> Qeq (cell r (drow + j)%Z) (val j)) /\
              forall z, (0 <= z)%Z -> ~ (drow <= z < drow + k)%Z ->
                        cell r z = cell r0 z).
  destruct Hloop as (r' & Er & Ia & Ib).
  - split; [intros j Hj; lia|reflexivity].
  - intros k r Hk (Ia & Ib). unfold turns in Hk.
    destruct (Hf k r ltac:(lia) Ib) as (v & Ev & Hv).
    rewrite Ev. cbn [obind]. rewrite wr_some by lia.
    eexists. split; [reflexivity|]. split.
    + intros j Hj. destruct (Z.eq_dec j k) as [->|Hne].
      * now rewrite cell_upd_same.
      * rewrite cell_upd_other by lia. apply Ia. lia.
    + intros z Hz Hne. rewrite cell_upd_other by lia. apply Ib; lia.
  - exists r'. split; [exact Er|].
    destruct (Z.le_gt_cases 1 width) as [Hw|Hw].
    + rewrite turns_up in Ia, Ib by lia.
      replace (width - 1 + 1)%Z with width in Ia, Ib by lia.
      split; [exact Ia|]. intros z Hz Hne. apply Ib; lia.
    + rewrite turns_none in Ia, Ib by lia.
      split; [intros j Hj; lia|]. intros z Hz Hne. apply Ib; lia.
Qed.

Ltac set_row_inv val :=
  match goal with
  | |- context [gather_set_row ?nr ?w ?drow ?f ?r] =>
      let H := fresh "Hset" in
      pose proof (gather_set_row_spec nr w drow f val r) as H;
      cbv beta in H
  end.

Section GatherColumns.

Variable rnd : Q -> Q.
Variables big Mb : Z.
Variables nb nr : nat.
Variable b : buf Q.
Variables xr col row width height vsize : Z.
Hypothesis Hexact : forall x, integral big x -> Qeq (rnd x) x.
Hypothesis HMb : (0 <= Mb)%Z.
Hypothesis Hbig : (2 * height * Mb <= big)%Z.
Hypothesis Hcells :
  forall i j, (0 <= i < height)%Z -> (0 <= j < width)%Z ->
              integral Mb (b (Z.to_nat (i * width + j))).
Hypothesis Hw : (1 <= width)%Z.
Hypothesis Hh : (1 <= height)%Z.
Hypothesis Hv : (1 <= vsize)%Z.
Hypothesis Hcol : (0 <= col)%Z.
Hypothesis Hrow : (0 <= row)%Z.
Hypothesis Hfit : (col + width <= xr)%Z.
Hypothesis Hnr : ((row + height) * xr <= Z.of_nat nr)%Z.
Hypothesis Hnb : (width * height <= Z.of_nat nb)%Z.

Local Abbreviation vs2m := (Z.quot (vsize - 1) 2).
Local Abbreviation vs2p := (Z.quot vsize 2).
Local Abbreviation R i := ((i + row) * xr + col)%Z.
Local Abbreviation g j := (fun i' => cell b (i' * width + j)%Z).
Local Abbreviation U i j :=
  (isum (window_lo vsize i) (window_hi height vsize i) (g j)).

Lemma Rrange (i : Z) :
  (0 <= i < height)%Z -> (0 <= R i /\ R i + width <= Z.of_nat nr)%Z.
Proof using Hw Hh Hv Hcol Hrow Hfit Hnr Hnb.
  intros Hi.
  pose proof (Z.mul_nonneg_nonneg (i + row) xr).
  pose proof (Z.mul_le_mono_nonneg_r (i + row + 1) (row + height) xr).
  lia.
Qed.

Lemma Rapart (i i' : Z) :
  (i < i')%Z -> (R i + width <= R i')%Z.
Proof using Hw Hh Hv Hcol Hrow Hfit Hnr Hnb.
  intros Hi.
  pose proof (Z.mul_le_mono_nonneg_r (i + row + 1) (i' + row) xr).
  lia.
Qed.

Lemma Brange (i j : Z) :
  (0 <= i < height)%Z -> (0 <= j < width)%Z ->
  (0 <= i * width + j < Z.of_nat nb)%Z.
Proof using Hw Hh Hv Hcol Hrow Hfit Hnr Hnb.
  intros Hi Hj.
  pose proof (Z.mul_nonneg_nonneg i width).
  pose proof (Z.mul_le_mono_nonneg_r (i + 1) height width).
  lia.
Qed.

(** A sum of cells of one column of the buffer. *)
Lemma column_sum_integral (a c j : Z) :
  (0 <= a)%Z -> (c <= height - 1)%Z -> (0 <= j < width)%Z ->
  integral (height * Mb) (isum a c (g j)).
Proof using Hw Hh Hv Hcol Hrow Hfit Hnr Hnb Hexact HMb Hbig Hcells.
  intros Ha Hc Hj. apply integral_isum; [exact HMb|lia|lia|].
  intros k Hk. apply Hcells; lia.
Qed.

Lemma column_bound : (height * Mb <= big)%Z.
Proof using Hh HMb Hbig. clear - Hh HMb Hbig. nia. Qed.

Lemma pair_bound : (Mb + Mb <= big)%Z.
Proof using Hh HMb Hbig. clear - Hh HMb Hbig. nia. Qed.

(** The value that a step stores is the sum it stands for: the operands
    are whole numbers within the exact range. *)
Ltac unround lo_ok hi_ok :=
  unfold Rounded.add, Rounded.sub;
  lazymatch goal with
  | |- Qeq (rnd _) _ =>
      apply (rnd_target rnd big Hexact (height * Mb)%Z);
      [try (rewrite (rnd_small rnd big Hexact (Mb + Mb)%Z);
            [|apply integral_sub; apply Hcells; lia|apply pair_bound])
      |apply column_sum_integral;
       [first [apply lo_ok|lia]|first [apply hi_ok|lia]|lia]
      |apply column_bound]
  | |- _ => idtac
  end.

Lemma gather_column_sums_spec (r0 : buf Q) :
  exists r',
    gather_column_sums rnd nb nr b xr col row width height vs2m vs2p r0
    = Some r' /\
    (forall i j, (0 <= i < height)%Z -> (0 <= j < width)%Z ->
       Qeq (cell r' (R i + j)%Z) (U i j)) /\
    (forall z, (0 <= z)%Z ->
       (forall i, (0 <= i < height)%Z -> ~ (R i <= z < R i + width)%Z) ->
       cell r' z = cell r0 z).
Proof using Hw Hh Hv Hcol Hrow Hfit Hnr Hnb Hexact HMb Hbig Hcells.
  destruct (halves vsize Hv) as (E1 & E2 & H1 & H2 & _).
  assert (Hq : Z.quot height 2 = (height / 2)%Z)
    by (apply Z.quot_div_nonneg; lia).
  assert (Tfirst : forall j, U 0%Z j = isum 0 (Z.min vs2p (height - 1)) (g j)).
  { intros j. rewrite <- ZMIN_min. apply (window_first height vsize); lia. }
  assert (Tlast : forall j,
            U (height - 1)%Z j
            = isum (height - 1 - Z.min vs2m (height - 1)) (height - 1) (g j)).
  { intros j. rewrite <- ZMIN_min. apply (window_last height vsize); lia. }
  pose proof (fun j => window_up height vsize (g j) Hh Hv) as Tup.
  pose proof (fun j => window_down height vsize (g j) Hh Hv) as Tdown.
  cbv beta in Tup, Tdown.
  unfold gather_column_sums. cbv zeta. rewrite !ZMIN_min, Hq.
  assert (Hlo : forall i, (0 <= window_lo vsize i)%Z)
    by (intros i; unfold window_lo; lia).
  assert (Hhi : forall i, (window_hi height vsize i <= height - 1)%Z)
    by (intros i; unfold window_hi; lia).
  revert Tfirst Tlast Tup Tdown Hlo Hhi.
  generalize (window_lo vsize) as lo.
  generalize (window_hi height vsize) as hi.
  intros hi lo Tfirst Tlast Tup Tdown Hlo Hhi.
  pose proof (Rrange 0%Z ltac:(lia)) as (R00 & R01).
  pose proof (Rrange (height - 1)%Z ltac:(lia)) as (R10 & R11).
  (* Top half *)
  set_row_inv (fun _ : Z => 0%Q).
  destruct Hset as (r1 & Er1 & I1a & I1b); [lia|lia| |].
  { intros j r _ _. exists 0%Q. split; reflexivity. }
  rewrite Er1. cbn [obind].
  loop_inv (fun k (r : buf Q) =>
              (forall j, (0 <= j < width)%Z ->
                 Qeq (cell r (row * xr + col + j)%Z) (isum 0 (k - 1) (g j))) /\
              forall z, (0 <= z)%Z ->
                ~ (row * xr + col <= z < row * xr + col + width)%Z ->
                cell r z = cell r0 z).
  destruct Hloop as (r2 & Er2 & I2a & I2b).
  { split; [|exact I1b].
    intros j Hj. rewrite I1a, isum_empty by lia. reflexivity. }
  { intros k r Hk (Ia & Ib). unfold turns in Hk.
    set_row_inv (fun j => isum 0 k (g j)).
    destruct Hset as (r' & Er' & Ja & Jb); [lia|lia| |].
    { intros j r'' Hj Hagree.
      pose proof (Brange k j ltac:(lia) Hj).
      rewrite !rd_some by lia. cbn [obind].
      eexists. split; [reflexivity|].
      unround Hlo Hhi.
      rewrite Hagree, Ia by lia.
      replace k with (k - 1 + 1)%Z at 3 by lia.
      rewrite isum_snoc by lia.
      replace (k - 1 + 1)%Z with k by lia. reflexivity. }
    exists r'. split; [exact Er'|]. split.
    - intros j Hj. rewrite Ja by lia.
      replace (k + 1 - 1)%Z with k by lia. reflexivity.
    - intros z Hz Hne. rewrite Jb by lia. now apply Ib. }
  rewrite Er2. cbn [obind].
  rewrite turns_up in I2a by lia.
  replace (Z.min vs2p (height - 1) + 1 - 1)%Z
    with (Z.min vs2p (height - 1)) in I2a by lia.
  loop_inv (fun k (r : buf Q) =>
              (forall i j, (0 <= i < k)%Z -> (0 <= j < width)%Z ->
                 Qeq (cell r (R i + j)%Z) (isum (lo i) (hi i) (g j))) /\
              forall z, (0 <= z)%Z ->
                (forall i, (0 <= i < k)%Z -> ~ (R i <= z < R i + width)%Z) ->
                cell r z = cell r0 z).
  destruct Hloop as (r3 & Er3 & I3a & I3b).
  { split.
    - intros i j Hi Hj. replace i with 0%Z by lia.
      rewrite Tfirst, <- I2a by lia.
      replace (R 0 + j)%Z with (row * xr + col + j)%Z by lia. reflexivity.
    - intros z Hz Hne. apply I2b; [lia|].
      specialize (Hne 0%Z ltac:(lia)). lia. }
  { intros k r Hk (Ia & Ib). unfold turns in Hk.
    pose proof (Rrange k ltac:(lia)) as (Rk0 & Rk1).
    pose proof (Rrange (k - 1)%Z ltac:(lia)) as (Rp0 & Rp1).
    assert (Hprev : forall j (r'' : buf Q), (0 <= j < width)%Z ->
              (forall z, (0 <= z)%Z -> ~ (R k <= z < R k + j)%Z ->
                         cell r'' z = cell r z) ->
              rd nr r'' (R k + j - xr) = Some (cell r'' (R k + j - xr)%Z) /\
              Qeq (cell r'' (R k + j - xr)%Z)
                  (isum (lo (k - 1)%Z) (hi (k - 1)%Z) (g j))).
    { intros j r'' Hj Hagree. split; [apply rd_some; lia|].
      rewrite Hagree by lia.
      replace (R k + j - xr)%Z with (R (k - 1) + j)%Z by lia.
      apply Ia; lia. }
    assert (Hdone : forall r' : buf Q,
              (forall j, (0 <= j < width)%Z ->
                 Qeq (cell r' (R k + j)%Z) (isum (lo k) (hi k) (g j))) ->
              (forall z, (0 <= z)%Z -> ~ (R k <= z < R k + width)%Z ->
                         cell r' z = cell r z) ->
              (forall i j, (0 <= i < k + 1)%Z -> (0 <= j < width)%Z ->
                 Qeq (cell r' (R i + j)%Z) (isum (lo i) (hi i) (g j))) /\
              forall z, (0 <= z)%Z ->
                (forall i, (0 <= i < k + 1)%Z ->
                           ~ (R i <= z < R i + width)%Z) ->
                cell r' z = cell r0 z).
    { intros r' Ja Jb. split.
      - intros i j Hi Hj. destruct (Z.eq_dec i k) as [->|Hne].
        + now apply Ja.
        + pose proof (Rapart i k ltac:(lia)).
          pose proof (Rrange i ltac:(lia)).
          rewrite Jb by lia. apply Ia; lia.
      - intros z Hz Hne. rewrite Jb; [|exact Hz|apply Hne; lia].
        apply Ib; [exact Hz|]. intros i Hi. apply Hne. lia. }
    destruct (Z.ltb_spec (k + vs2p) height) as [Ha|Ha];
      destruct (Z.geb_spec (k - 1 - vs2m) 0) as [Hb|Hb].
    - set_row_inv (fun j => isum (lo k) (hi k) (g j)).
      destruct Hset as (r' & Er' & Ja & Jb); [lia|lia| |].
      { intros j r'' Hj Hagree.
        destruct (Hprev j r'' Hj Hagree) as (Ex & Hx).
        pose proof (Brange (k + vs2p) j ltac:(lia) Hj).
        pose proof (Brange (k - 1 - vs2m) j ltac:(lia) Hj).
        rewrite Ex. cbn [obind]. rewrite !rd_some by lia. cbn [obind].
        eexists. split; [reflexivity|].
        unround Hlo Hhi.
        rewrite (Tup j k) by lia. rewrite Hx.
        destruct (Z.ltb_spec (k + vs2p) height); [|lia].
        destruct (Z.geb_spec (k - 1 - vs2m) 0); [|lia]. reflexivity. }
      exists r'. split; [exact Er'|]. now apply Hdone.
    - set_row_inv (fun j => isum (lo k) (hi k) (g j)).
      destruct Hset as (r' & Er' & Ja & Jb); [lia|lia| |].
      { intros j r'' Hj Hagree.
        destruct (Hprev j r'' Hj Hagree) as (Ex & Hx).
        pose proof (Brange (k + vs2p) j ltac:(lia) Hj).
        rewrite Ex. cbn [obind]. rewrite !rd_some by lia. cbn [obind].
        eexists. split; [reflexivity|].
        unround Hlo Hhi.
        rewrite (Tup j k) by lia. rewrite Hx.
        destruct (Z.ltb_spec (k + vs2p) height); [|lia].
        destruct (Z.geb_spec (k - 1 - vs2m) 0); [lia|]. ring. }
      exists r'. split; [exact Er'|]. now apply Hdone.
    - set_row_inv (fun j => isum (lo k) (hi k) (g j)).
      destruct Hset as (r' & Er' & Ja & Jb); [lia|lia| |].
      { intros j r'' Hj Hagree.
        destruct (Hprev j r'' Hj Hagree) as (Ex & Hx).
        pose proof (Brange (k - 1 - vs2m) j ltac:(lia) Hj).
        rewrite Ex. cbn [obind]. rewrite !rd_some by lia. cbn [obind].
        eexists. split; [reflexivity|].
        unround Hlo Hhi.
        rewrite (Tup j k) by lia. rewrite Hx.
        destruct (Z.ltb_spec (k + vs2p) height); [lia|].
        destruct (Z.geb_spec (k - 1 - vs2m) 0); [|lia]. ring. }
      exists r'. split; [exact Er'|]. now apply Hdone.
    - set_row_inv (fun j => isum (lo k) (hi k) (g j)).
      destruct Hset as (r' & Er' & Ja & Jb); [lia|lia| |].
      { intros j r'' Hj Hagree.
        destruct (Hprev j r'' Hj Hagree) as (Ex & Hx).
        rewrite Ex.
        eexists. split; [reflexivity|].
        unround Hlo Hhi.
        rewrite (Tup j k) by lia. rewrite Hx.
        destruct (Z.ltb_spec (k + vs2p) height); [lia|].
        destruct (Z.geb_spec (k - 1 - vs2m) 0); [lia|]. ring. }
      exists r'. split; [exact Er'|]. now apply Hdone. }
  rewrite Er3. cbn [obind].
  (* Bottom half *)
  assert (Htop3 : forall i j, (0 <= i < height / 2)%Z -> (0 <= j < width)%Z ->
            Qeq (cell r3 (R i + j)%Z) (isum (lo i) (hi i) (g j))).
  { intros i j Hi Hj. apply I3a; [unfold turns; lia|exact Hj]. }
  assert (Hframe3 : forall z, (0 <= z)%Z ->
            (forall i, (0 <= i < height)%Z -> ~ (R i <= z < R i + width)%Z) ->
            cell r3 z = cell r0 z).
  { intros z Hz Hne. apply I3b; [exact Hz|]. intros i Hi. apply Hne.
    unfold turns in Hi. lia. }
  clear I3a I3b.
  set_row_inv (fun _ : Z => 0%Q).
  destruct Hset as (r4 & Er4 & I4a & I4b); [lia|lia| |].
  { intros j r _ _. exists 0%Q. split; reflexivity. }
  rewrite Er4. cbn [obind].
  loop_inv (fun k (r : buf Q) =>
              (forall j, (0 <= j < width)%Z ->
                 Qeq (cell r (R (height - 1) + j)%Z)
                     (isum (k + 1) (height - 1) (g j))) /\
              (forall i j, (0 <= i < height / 2)%Z -> (0 <= j < width)%Z ->
                 Qeq (cell r (R i + j)%Z) (isum (lo i) (hi i) (g j))) /\
              forall z, (0 <= z)%Z ->
                (forall i, (0 <= i < height)%Z ->
                           ~ (R i <= z < R i + width)%Z) ->
                cell r z = cell r0 z).
  destruct Hloop as (r5 & Er5 & I5a & I5b & I5c).
  { split; [|split].
    - intros j Hj. rewrite I4a, isum_empty by lia. reflexivity.
    - intros i j Hi Hj.
      pose proof (Rapart i (height - 1)%Z ltac:(lia)).
      pose proof (Rrange i ltac:(lia)).
      rewrite I4b by lia. now apply Htop3.
    - intros z Hz Hne. rewrite I4b; [now apply Hframe3|exact Hz|].
      apply Hne. lia. }
  { intros k r Hk (Ia & Ib & Ic). unfold turns in Hk.
    set_row_inv (fun j => isum k (height - 1) (g j)).
    destruct Hset as (r' & Er' & Ja & Jb); [lia|lia| |].
    { intros j r'' Hj Hagree.
      pose proof (Brange k j ltac:(lia) Hj).
      rewrite !rd_some by lia. cbn [obind].
      eexists. split; [reflexivity|].
      unround Hlo Hhi.
      rewrite Hagree, Ia by lia.
      rewrite (isum_cons k) by lia. ring. }
    exists r'. split; [exact Er'|]. split; [|split].
    - intros j Hj. rewrite Ja by lia.
      replace (k - 1 + 1)%Z with k by lia. reflexivity.
    - intros i j Hi Hj.
      pose proof (Rapart i (height - 1)%Z ltac:(lia)).
      pose proof (Rrange i ltac:(lia)).
      rewrite Jb by lia. now apply Ib.
    - intros z Hz Hne. rewrite Jb; [now apply Ic|exact Hz|].
      apply Hne. lia. }
  rewrite Er5. cbn [obind].
  rewrite turns_down in I5a by lia.
  replace (height - 1 - Z.min vs2m (height - 1) - 1 + 1)%Z
    with (height - 1 - Z.min vs2m (height - 1))%Z in I5a by lia.
  loop_inv (fun k (r : buf Q) =>
              (forall i j, (k < i <= height - 1)%Z -> (0 <= j < width)%Z ->
                 Qeq (cell r (R i + j)%Z) (isum (lo i) (hi i) (g j))) /\
              (forall i j, (0 <= i < height / 2)%Z -> (0 <= j < width)%Z ->
                 Qeq (cell r (R i + j)%Z) (isum (lo i) (hi i) (g j))) /\
              forall z, (0 <= z)%Z ->
                (forall i, (0 <= i < height)%Z ->
                           ~ (R i <= z < R i + width)%Z) ->
                cell r z = cell r0 z).
  destruct Hloop as (r6 & Er6 & I6a & I6b & I6c).
  { split; [|split]; [|exact I5b|exact I5c].
    intros i j Hi Hj. replace i with (height - 1)%Z by lia.
    rewrite Tlast. now apply I5a. }
  { intros k r Hk (Ia & Ib & Ic). unfold turns in Hk.
    pose proof (Rrange k ltac:(lia)) as (Rk0 & Rk1).
    pose proof (Rrange (k + 1)%Z ltac:(lia)) as (Rn0 & Rn1).
    assert (Hnext : forall j (r'' : buf Q), (0 <= j < width)%Z ->
              (forall z, (0 <= z)%Z -> ~ (R k <= z < R k + j)%Z ->
                         cell r'' z = cell r z) ->
              rd nr r'' (R k + j + xr) = Some (cell r'' (R k + j + xr)%Z) /\
              Qeq (cell r'' (R k + j + xr)%Z)
                  (isum (lo (k + 1)%Z) (hi (k + 1)%Z) (g j))).
    { intros j r'' Hj Hagree. split; [apply rd_some; lia|].
      rewrite Hagree by lia.
      replace (R k + j + xr)%Z with (R (k + 1) + j)%Z by lia.
      apply Ia; lia. }
    assert (Hdone : forall r' : buf Q,
              (forall j, (0 <= j < width)%Z ->
                 Qeq (cell r' (R k + j)%Z) (isum (lo k) (hi k) (g j))) ->
              (forall z, (0 <= z)%Z -> ~ (R k <= z < R k + width)%Z ->
                         cell r' z = cell r z) ->
              (forall i j, (k - 1 < i <= height - 1)%Z ->
                 (0 <= j < width)%Z ->
                 Qeq (cell r' (R i + j)%Z) (isum (lo i) (hi i) (g j))) /\
              (forall i j, (0 <= i < height / 2)%Z -> (0 <= j < width)%Z ->
                 Qeq (cell r' (R i + j)%Z) (isum (lo i) (hi i) (g j))) /\
              forall z, (0 <= z)%Z ->
                (forall i, (0 <= i < height)%Z ->
                           ~ (R i <= z < R i + width)%Z) ->
                cell r' z = cell r0 z).
    { intros r' Ja Jb. split; [|split].
      - intros i j Hi Hj. destruct (Z.eq_dec i k) as [->|Hne].
        + now apply Ja.
        + pose proof (Rapart k i ltac:(lia)).
          pose proof (Rrange i ltac:(lia)).
          rewrite Jb by lia. apply Ia; lia.
      - intros i j Hi Hj.
        pose proof (Rapart i k ltac:(lia)).
        pose proof (Rrange i ltac:(lia)).
        rewrite Jb by lia. now apply Ib.
      - intros z Hz Hne. rewrite Jb; [now apply Ic|exact Hz|].
        apply Hne. lia. }
    destruct (Z.ltb_spec (k + 1 + vs2p) height) as [Ha|Ha];
      destruct (Z.geb_spec (k - vs2m) 0) as [Hb|Hb].
    - set_row_inv (fun j => isum (lo k) (hi k) (g j)).
      destruct Hset as (r' & Er' & Ja & Jb); [lia|lia| |].
      { intros j r'' Hj Hagree.
        destruct (Hnext j r'' Hj Hagree) as (Ex & Hx).
        pose proof (Brange (k + 1 + vs2p) j ltac:(lia) Hj).
        pose proof (Brange (k - vs2m) j ltac:(lia) Hj).
        rewrite Ex. cbn [obind]. rewrite !rd_some by lia. cbn [obind].
        eexists. split; [reflexivity|].
        unround Hlo Hhi.
        rewrite (Tdown j k) by lia. rewrite Hx.
        destruct (Z.ltb_spec (k + 1 + vs2p) height); [|lia].
        destruct (Z.geb_spec (k - vs2m) 0); [|lia]. reflexivity. }
      exists r'. split; [exact Er'|]. now apply Hdone.
    - set_row_inv (fun j => isum (lo k) (hi k) (g j)).
      destruct Hset as (r' & Er' & Ja & Jb); [lia|lia| |].
      { intros j r'' Hj Hagree.
        destruct (Hnext j r'' Hj Hagree) as (Ex & Hx).
        pose proof (Brange (k + 1 + vs2p) j ltac:(lia) Hj).
        rewrite Ex. cbn [obind]. rewrite !rd_some by lia. cbn [obind].
        eexists. split; [reflexivity|].
        unround Hlo Hhi.
        rewrite (Tdown j k) by lia. rewrite Hx.
        destruct (Z.ltb_spec (k + 1 + vs2p) height); [|lia].
        destruct (Z.geb_spec (k - vs2m) 0); [lia|]. ring. }
      exists r'. split; [exact Er'|]. now apply Hdone.
    - set_row_inv (fun j => isum (lo k) (hi k) (g j)).
      destruct Hset as (r' & Er' & Ja & Jb); [lia|lia| |].
      { intros j r'' Hj Hagree.
        destruct (Hnext j r'' Hj Hagree) as (Ex & Hx).
        pose proof (Brange (k - vs2m) j ltac:(lia) Hj).
        rewrite Ex. cbn [obind]. rewrite !rd_some by lia. cbn [obind].
        eexists. split; [reflexivity|].
        unround Hlo Hhi.
        rewrite (Tdown j k) by lia. rewrite Hx.
        destruct (Z.ltb_spec (k + 1 + vs2p) height); [lia|].
        destruct (Z.geb_spec (k - vs2m) 0); [|lia]. ring. }
      exists r'. split; [exact Er'|]. now apply Hdone.
    - set_row_inv (fun j => isum (lo k) (hi k) (g j)).
      destruct Hset as (r' & Er' & Ja & Jb); [lia|lia| |].
      { intros j r'' Hj Hagree.
        destruct (Hnext j r'' Hj Hagree) as (Ex & Hx).
        rewrite Ex.
        eexists. split; [reflexivity|].
        unround Hlo Hhi.
        rewrite (Tdown j k) by lia. rewrite Hx.
        destruct (Z.ltb_spec (k + 1 + vs2p) height); [lia|].
        destruct (Z.geb_spec (k - vs2m) 0); [lia|]. ring. }
      exists r'. split; [exact Er'|]. now apply Hdone. }
  exists r6. split; [exact Er6|]. split; [|exact I6c].
  intros i j Hi Hj. rewrite turns_down in I6a by lia.
  destruct (Z.lt_ge_cases i (height / 2)) as [Hlt|Hge].
  - apply I6b; lia.
  - apply I6a; lia.
Qed.

End GatherColumns.

(** The count of the samples of a window that the last part of the
    function computes is the length of the clipped window. *)
Lemma gather_extent_count (n size i : Z) :
  (1 <= n)%Z -> (1 <= size)%Z -> (0 <= i < n)%Z ->
  gather_extent n size (Z.quot (size - 1) 2) (Z.quot size 2) i
  = (window_hi n size i - window_lo size i + 1)%Z.
Proof.
  intros Hn Hsize Hi. destruct (halves size Hsize) as (E1 & E2 & H1 & H2 & H3).
  unfold gather_extent, window_hi, window_lo. rewrite ZMIN_min, <- E1, <- E2.
  revert H1 H2 H3. generalize (Z.quot (size - 1) 2) as s2m.
  generalize (Z.quot size 2) as s2p. intros s2p s2m H1 H2 H3.
  rewrite Z.geb_leb.
  destruct (Z.leb_spec i s2m); [lia|].
  destruct (Z.leb_spec (n - 1 - s2p) i); lia.
Qed.

(** The division of the sums. *)
Lemma gather_divide_spec (rnd : Q -> Q) (nr : nat)
    (xr col row width height hsize vsize : Z) (r : buf Q) :
  (1 <= width)%Z -> (1 <= height)%Z -> (0 <= col)%Z -> (0 <= row)%Z ->
  (col + width <= xr)%Z -> ((row + height) * xr <= Z.of_nat nr)%Z ->
  exists r',
    gather_divide rnd nr xr col row width height hsize vsize
      (Z.quot (hsize - 1) 2) (Z.quot hsize 2)
      (Z.quot (vsize - 1) 2) (Z.quot vsize 2) r = Some r' /\
    (forall i j, (0 <= i < height)%Z -> (0 <= j < width)%Z ->
       cell r' ((i + row) * xr + col + j)%Z
       = Rounded.div rnd (cell r ((i + row) * xr + col + j)%Z)
           (inject_Z
              (gather_extent height vsize
                 (Z.quot (vsize - 1) 2) (Z.quot vsize 2) i
               * gather_extent width hsize
                   (Z.quot (hsize - 1) 2) (Z.quot hsize 2) j))) /\
    (forall z, (0 <= z)%Z ->
       (forall i, (0 <= i < height)%Z ->
          ~ ((i + row) * xr + col <= z < (i + row) * xr + col + width)%Z) ->
       cell r' z = cell r z).
Proof.
  intros Hw Hh Hcol Hrow Hfit Hnr. unfold gather_divide.
  generalize (gather_extent height vsize
                (Z.quot (vsize - 1) 2) (Z.quot vsize 2)) as ev.
  generalize (gather_extent width hsize
                (Z.quot (hsize - 1) 2) (Z.quot hsize 2)) as eh.
  intros eh ev.
  assert (Hrange : forall i, (0 <= i < height)%Z ->
            (0 <= (i + row) * xr + col /\
             (i + row) * xr + col + width <= Z.of_nat nr)%Z).
  { intros i Hi.
    pose proof (Z.mul_nonneg_nonneg (i + row) xr).
    pose proof (Z.mul_le_mono_nonneg_r (i + row + 1) (row + height) xr).
    lia. }
  assert (Hapart : forall i i', (i < i')%Z ->
            ((i + row) * xr + col + width <= (i' + row) * xr + col)%Z).
  { intros i i' Hi.
    pose proof (Z.mul_le_mono_nonneg_r (i + row + 1) (i' + row) xr).
    lia. }
  loop_inv (fun k (r' : buf Q) =>
              (forall i j, (0 <= i < k)%Z -> (0 <= j < width)%Z ->
                 cell r' ((i + row) * xr + col + j)%Z
                 = Rounded.div rnd (cell r ((i + row) * xr + col + j)%Z)
                     (inject_Z (ev i * eh j))) /\
              forall z, (0 <= z)%Z ->
                (forall i, (0 <= i < k)%Z ->
                   ~ ((i + row) * xr + col <= z
                      < (i + row) * xr + col + width)%Z) ->
                cell r' z = cell r z).
  destruct Hloop as (r' & Er & Ia & Ib).
  - split; [intros i j Hi; lia|reflexivity].
  - intros k r1 Hk (Ia & Ib). unfold turns in Hk.
    destruct (Hrange k ltac:(lia)) as (Rk0 & Rk1).
    loop_inv (fun j (r' : buf Q) =>
                (forall j', (0 <= j' < j)%Z ->
                   cell r' ((k + row) * xr + col + j')%Z
                   = Rounded.div rnd (cell r ((k + row) * xr + col + j')%Z)
                       (inject_Z (ev k * eh j'))) /\
                forall z, (0 <= z)%Z ->
                  ~ ((k + row) * xr + col <= z < (k + row) * xr + col + j)%Z ->
                  cell r' z = cell r1 z).
    destruct Hloop as (r2 & Er2 & Ja & Jb).
    + split; [intros j Hj; lia|reflexivity].
    + intros j r2 Hj (Ja & Jb). unfold turns in Hj.
      rewrite rd_some by lia. cbn [obind]. rewrite wr_some by lia.
      eexists. split; [reflexivity|]. split.
      * intros j' Hj'. destruct (Z.eq_dec j' j) as [->|Hne].
        -- replace ((k + row) * xr + col + j)%Z
             with ((k + row) * xr + j + col)%Z by lia.
           rewrite cell_upd_same. rewrite Jb by lia.
           rewrite Ib; [reflexivity|lia|].
           intros i Hi. pose proof (Hapart i k ltac:(lia)). lia.
        -- rewrite cell_upd_other by lia. apply Ja. lia.
      * intros z Hz Hne. rewrite cell_upd_other by lia. apply Jb; lia.
    + exists r2. split; [exact Er2|].
      rewrite turns_up in Ja, Jb by lia.
      replace (width - 1 + 1)%Z with width in Ja, Jb by lia.
      split.
      * intros i j Hi Hj. destruct (Z.eq_dec i k) as [->|Hne].
        -- now apply Ja.
        -- pose proof (Hapart i k ltac:(lia)).
           destruct (Hrange i ltac:(lia)).
           rewrite Jb by lia. apply Ia; lia.
      * intros z Hz Hne. rewrite Jb; [|exact Hz|apply Hne; lia].
        apply Ib; [exact Hz|]. intros i Hi. apply Hne. lia.
  - exists r'. split; [exact Er|].
    rewrite turns_up in Ia, Ib by lia.
    replace (height - 1 + 1)%Z with height in Ia, Ib by lia.
    split; [exact Ia|exact Ib].
Qed.

(** X23.  [gwy_data_field_area_gather] on an area that is not empty and
    holds whole numbers: the rolling sums are the sums over the windows.
    The arithmetic of the samples rounds; it is exact on the whole
    numbers up to [big] in magnitude (2^53 for [gdouble]).  For samples of
    the area that are whole numbers of at most [M] in magnitude with
    [2 * width * height * M <= big], positive sizes, a valid area of at
    least one row and one column, a result of the resolution of the data
    field (the data field itself will do) and a buffer, if one is passed,
    of at least [width * height] cells, the call accesses no array outside
    its cells, keeps the resolution of the result and every cell of it
    outside the area, and sets the cell in the column [j] and the row [i]
    of the area to the sum of the samples of the data field in the window
    of [hsize x vsize] cells around it, clipped to the area; with
    [average] it sets the cell to the rounded quotient of this sum by the
    number of the samples of the clipped window. *)
Theorem gather_sums_the_clipped_windows :
  forall (rnd : Q -> Q) (big M : Z) (data_field result : GwyDataField Q)
         (buffer : option (GwyDataField Q)) (junk : buf Q)
         (hsize vsize : Z) (average : bool) (col row width height : Z),
    (forall x y, Qeq x y -> Qeq (rnd x) (rnd y)) ->
    (forall x, integral big x -> Qeq (rnd x) x) ->
    (0 <= M)%Z -> (2 * width * height * M <= big)%Z ->
    (forall i j, (0 <= i < height)%Z -> (0 <= j < width)%Z ->
       integral M
         (data data_field
            (Z.to_nat ((row + i) * Z.of_nat (xres data_field)
                       + (col + j))))) ->
    (1 <= hsize)%Z -> (1 <= vsize)%Z ->
    (0 <= col)%Z -> (0 <= row)%Z -> (1 <= width)%Z -> (1 <= height)%Z ->
    (col + width <= Z.of_nat (xres data_field))%Z ->
    (row + height <= Z.of_nat (yres data_field))%Z ->
    xres result = xres data_field -> yres result = yres data_field ->
    (forall bf, buffer = Some bf ->
       (width * height <= Z.of_nat (xres bf) * Z.of_nat (yres bf))%Z) ->
    exists result' buffer',
      gwy_data_field_area_gather rnd data_field result buffer junk
        hsize vsize average col row width height = Some (result', buffer') /\
      xres result' = xres result /\ yres result' = yres result /\
      (forall i j, (0 <= i < height)%Z -> (0 <= j < width)%Z ->
         Qeq (data result'
                (Z.to_nat ((row + i) * Z.of_nat (xres data_field)
                           + (col + j))))
             (if average
              then rnd (gather_sum data_field hsize vsize col row width
                          height i j
                        / inject_Z
                            (gather_count hsize vsize width height i j))%Q
              else gather_sum data_field hsize vsize col row width height
                     i j)) /\
      (forall k : nat,
         (forall i j, (0 <= i < height)%Z -> (0 <= j < width)%Z ->
            k <> Z.to_nat ((row + i) * Z.of_nat (xres data_field)
                           + (col + j))) ->
         data result' k = data result k).
Proof.
  intros rnd big M data_field result buffer junk hsize vsize average col row
         width height Hproper Hexact HM Hbig Hint
         Hhs Hvs Hcol Hrow Hw Hh Hfx Hfy Hrx Hry Hbuf.
  unfold gwy_data_field_area_gather.
  destruct (Z.gtb_spec hsize 0); [|lia]. destruct (Z.gtb_spec vsize 0); [|lia].
  destruct (Z.geb_spec col 0); [|lia]. destruct (Z.geb_spec row 0); [|lia].
  destruct (Z.geb_spec width 0); [|lia]. destruct (Z.geb_spec height 0); [|lia].
  destruct (Z.leb_spec (col + width) (Z.of_nat (xres data_field))); [|lia].
  destruct (Z.leb_spec (row + height) (Z.of_nat (yres data_field))); [|lia].
  rewrite Hrx, Hry, !Nat.eqb_refl. cbn [andb negb].
  set (nd := xres data_field * yres data_field).
  set (xr := Z.of_nat (xres data_field)) in *.
  set (yr := Z.of_nat (yres data_field)) in *.
  set (nb := match buffer with
             | Some bf => xres bf * yres bf
             | None => Z.to_nat (width * height)
             end).
  set (b0 := match buffer with Some bf => data bf | None => junk end).
  assert (Hnb : (width * height <= Z.of_nat nb)%Z).
  { unfold nb. destruct buffer as [bf|].
    - rewrite Nat2Z.inj_mul. now apply Hbuf.
    - pose proof (Z.mul_nonneg_nonneg width height). lia. }
  assert (Hguard : match buffer with
                   | Some bf =>
                       negb (Z.of_nat (xres bf) * Z.of_nat (yres bf)
                             >=? width * height)%Z
                   | None => false
                   end = false).
  { destruct buffer as [bf|]; [|reflexivity].
    specialize (Hbuf bf eq_refl).
    destruct (Z.geb_spec (Z.of_nat (xres bf) * Z.of_nat (yres bf))
                (width * height)); [reflexivity|lia]. }
  rewrite Hguard. cbv zeta.
  assert (Hnd : (xr * yr <= Z.of_nat nd)%Z)
    by (unfold nd, xr, yr; rewrite Nat2Z.inj_mul; lia).
  assert (Hnr : ((row + height) * xr <= Z.of_nat nd)%Z).
  { pose proof (Z.mul_le_mono_nonneg_r (row + height) yr xr). lia. }
  assert (HwM : (0 <= width * M /\ 2 * width * M <= big
                 /\ 2 * height * (width * M) <= big)%Z) by nia.
  destruct HwM as (HwM0 & HwM1 & HwM2).
  assert (Hint' : forall i k, (0 <= i < height)%Z -> (0 <= k < width)%Z ->
            integral M (cell (data data_field) ((i + row) * xr + col + k)%Z)).
  { intros i k Hi Hk.
    replace ((i + row) * xr + col + k)%Z
      with ((row + i) * xr + (col + k))%Z by lia.
    now apply Hint. }
  destruct (gather_rows_spec rnd big M nd nb (data data_field) xr yr col row
              width height hsize b0 Hexact HM HwM1 Hint'
              Hw Hh Hhs Hcol Hrow Hfx Hfy Hnd Hnb)
    as (b1 & Eb1 & Hb1).
  rewrite Eb1. cbn [obind].
  assert (Hcells : forall i j, (0 <= i < height)%Z -> (0 <= j < width)%Z ->
            integral (width * M) (b1 (Z.to_nat (i * width + j)))).
  { intros i j Hi Hj.
    apply integral_eq with (1 := Qeq_sym _ _ (Hb1 i j Hi Hj)).
    apply integral_isum; [exact HM| |lia|].
    - unfold window_lo, window_hi. lia.
    - intros k Hk. apply Hint'; [exact Hi|].
      unfold window_lo, window_hi in Hk. lia. }
  destruct (gather_column_sums_spec rnd big (width * M)%Z nb nd b1 xr col row
              width height vsize Hexact HwM0 HwM2 Hcells
              Hw Hh Hvs Hcol Hrow Hfx Hnr Hnb (data result))
    as (r1 & Er1 & Hr1 & Fr1).
  rewrite Er1. cbn [obind].
  (* the sums *)
  assert (Hsum : forall i j, (0 <= i < height)%Z -> (0 <= j < width)%Z ->
            Qeq (cell r1 ((i + row) * xr + col + j)%Z)
                (gather_sum data_field hsize vsize col row width height i j)).
  { intros i j Hi Hj. rewrite (Hr1 i j Hi Hj). unfold gather_sum.
    apply isum_ext. intros i' Hi'.
    assert (Hi'' : (0 <= i' < height)%Z)
      by (unfold window_lo, window_hi in Hi'; lia).
    cbv beta. rewrite (Hb1 i' j Hi'' Hj).
    apply isum_ext. intros j' Hj'. fold xr.
    replace ((i' + row) * xr + col + j')%Z
      with ((row + i') * xr + (col + j'))%Z by lia.
    reflexivity. }
  assert (Hframe : forall (r2 : buf Q),
            (forall z, (0 <= z)%Z ->
               (forall i, (0 <= i < height)%Z ->
                  ~ ((i + row) * xr + col <= z
                     < (i + row) * xr + col + width)%Z) ->
               cell r2 z = cell (data result) z) ->
            forall k : nat,
              (forall i j, (0 <= i < height)%Z -> (0 <= j < width)%Z ->
                 k <> Z.to_nat ((row + i) * xr + (col + j))) ->
              r2 k = data result k).
  { intros r2 Hr2 k Hk.
    rewrite <- (Nat2Z.id k). apply Hr2; [lia|].
    intros i Hi Hin.
    apply (Hk i (Z.of_nat k - ((i + row) * xr + col))%Z Hi); [lia|].
    replace ((row + i) * xr
             + (col + (Z.of_nat k - ((i + row) * xr + col))))%Z
      with (Z.of_nat k) by lia.
    now rewrite Nat2Z.id. }
  destruct average; cbn [negb].
  - destruct (gather_divide_spec rnd nd xr col row width height hsize vsize
                r1 Hw Hh Hcol Hrow Hfx Hnr) as (r2 & Er2 & Hr2 & Fr2).
    rewrite Er2. cbn [obind].
    exists (with_data Q result r2), b1.
    split; [reflexivity|]. split; [exact Hrx|]. split; [exact Hry|].
    split.
    + intros i j Hi Hj. cbn [data with_data].
      replace ((row + i) * xr + (col + j))%Z
        with ((i + row) * xr + col + j)%Z by lia.
      rewrite (Hr2 i j Hi Hj). unfold Rounded.div. apply Hproper.
      rewrite (Hsum i j Hi Hj).
      rewrite !gather_extent_count by lia. reflexivity.
    + cbn [data with_data]. apply Hframe.
      intros z Hz Hne. rewrite Fr2 by assumption. now apply Fr1.
  - exists (with_data Q result r1), b1.
    split; [reflexivity|]. split; [exact Hrx|]. split; [exact Hry|].
    split.
    + intros i j Hi Hj. cbn [data with_data].
      replace ((row + i) * xr + (col + j))%Z
        with ((i + row) * xr + col + j)%Z by lia.
      now apply Hsum.
    + cbn [data with_data]. now apply Hframe.
Qed.

(** X23 on the whole of [QSample.square_image] with windows of 3 x 3
    cells, for an arithmetic that is exact up to 1000: the mean at the
    middle cell is 4. *)
Lemma gather_sums_the_clipped_windows_witness :
  exists result' buffer',
    gwy_data_field_area_gather (fun x => x) QSample.square_image
      QSample.square_image None (fun _ => 0%Q) 3 3 true 0 0 3 3
    = Some (result', buffer') /\
    Qeq (data result' 4) (4 # 1).
Proof.
  destruct (gather_sums_the_clipped_windows (fun x => x) 1000 9
              QSample.square_image
              QSample.square_image None (fun _ => 0%Q) 3 3 true 0 0 3 3)
    as (result' & buffer' & E & _ & _ & Hsum & _);
    try (cbn; lia); try reflexivity; try (intros bf Hbf; discriminate Hbf).
  - intros x y Hxy. exact Hxy.
  - intros i j Hi Hj.
    assert (Hi3 : i = 0%Z \/ i = 1%Z \/ i = 2%Z) by lia.
    assert (Hj3 : j = 0%Z \/ j = 1%Z \/ j = 2%Z) by lia.
    exists (nth (Z.to_nat (i * 3 + j)) [3; 1; 4; 1; 5; 9; 2; 6; 5]%Z 0%Z).
    destruct Hi3 as [->|[->| ->]]; destruct Hj3 as [->|[->| ->]];
      (split; [vm_compute; reflexivity|vm_compute; discriminate]).
  - exists result', buffer'. split; [exact E|].
    rewrite (Hsum 1%Z 1%Z) by lia. vm_compute. reflexivity.
Defined.

(** A row-writing loop whose first cell lies outside the array. *)
Lemma gather_set_row_none (nr : nat) (width drow : Z)
    (f : Z -> buf Q -> option Q) (r0 : buf Q) :
  (1 <= width)%Z -> (drow < 0 \/ Z.of_nat nr <= drow)%Z ->
  gather_set_row nr width drow f r0 = None.
Proof.
  intros Hw Hout. unfold gather_set_row.
  replace (turns 0 (width - 1)) with (S (turns 1 (width - 1)))
    by (unfold turns; lia).
  cbn [for_up]. destruct (f 0%Z r0) as [v|]; [|reflexivity].
  cbn [obind]. rewrite wr_none by lia. reflexivity.
Qed.

(** X24.  [gwy_data_field_area_gather] lets an empty area pass and then
    writes outside of it.  For an area of no row and [width >= 1] columns
    it sets to zero the [width] cells from the column [col] on of the rows
    [row - 1] and [row] of the result, which do not belong to the area,
    and nothing else; when one of these rows does not exist ([row = 0] or
    [row = yres]) it writes outside the array.  For an area of no column
    and at least one row it writes before the first cell of the buffer.
    The buffer is one that the caller passes; the rounding of the
    arithmetic is any. *)
Theorem gather_writes_outside_an_empty_area :
  forall (rnd : Q -> Q) (data_field result bf : GwyDataField Q)
         (junk : buf Q)
         (hsize vsize : Z) (average : bool) (col row width height : Z),
    (1 <= hsize)%Z -> (1 <= vsize)%Z -> (0 <= col)%Z -> (0 <= row)%Z ->
    (col + width <= Z.of_nat (xres data_field))%Z ->
    (row + height <= Z.of_nat (yres data_field))%Z ->
    xres result = xres data_field -> yres result = yres data_field ->
    let xr := Z.of_nat (xres data_field) in
    let out :=
      gwy_data_field_area_gather rnd data_field result (Some bf) junk
        hsize vsize average col row width height in
    (height = 0%Z -> (1 <= width)%Z ->
     (row = 0%Z \/ row = Z.of_nat (yres data_field) -> out = None) /\
     ((1 <= row < Z.of_nat (yres data_field))%Z ->
      exists result',
        out = Some (result', data bf) /\
        (forall j, (0 <= j < width)%Z ->
           Qeq (data result' (Z.to_nat ((row - 1) * xr + col + j))) 0 /\
           Qeq (data result' (Z.to_nat (row * xr + col + j))) 0) /\
        (forall k : nat,
           (forall j, (0 <= j < width)%Z ->
              k <> Z.to_nat ((row - 1) * xr + col + j) /\
              k <> Z.to_nat (row * xr + col + j)) ->
           data result' k = data result k))) /\
    (width = 0%Z -> (1 <= height)%Z -> out = None).
Proof.
  intros rnd data_field result bf junk hsize vsize average col row width
         height Hhs Hvs Hcol Hrow Hfx Hfy Hrx Hry xr out.
  destruct (halves hsize Hhs) as (_ & _ & Hh1 & Hh2 & _).
  destruct (halves vsize Hvs) as (_ & _ & Hv1 & Hv2 & _).
  assert (Hnd : Z.of_nat (xres data_field * yres data_field)
                = (xr * Z.of_nat (yres data_field))%Z)
    by (unfold xr; lia).
  split.
  - intros -> Hw.
    assert (Eout : out
                   = (r <- gather_column_sums rnd (xres bf * yres bf)
                             (xres data_field * yres data_field) (data bf)
                             xr col row width 0
                             (Z.quot (vsize - 1) 2) (Z.quot vsize 2)
                             (data result) ;;
                      Some (with_data Q result r, data bf))).
    { unfold out, gwy_data_field_area_gather.
      destruct (Z.gtb_spec hsize 0); [|lia].
      destruct (Z.gtb_spec vsize 0); [|lia].
      destruct (Z.geb_spec col 0); [|lia]. destruct (Z.geb_spec row 0); [|lia].
      destruct (Z.geb_spec width 0); [|lia].
      destruct (Z.leb_spec (col + width) (Z.of_nat (xres data_field)));
        [|lia].
      destruct (Z.leb_spec (row + 0) (Z.of_nat (yres data_field))); [|lia].
      rewrite Hrx, Hry, !Nat.eqb_refl.
      destruct (Z.geb_spec (Z.of_nat (xres bf) * Z.of_nat (yres bf))
                  (width * 0)); [|lia].
      cbn [andb negb Z.geb Z.compare]. cbv zeta.
      rewrite (turns_none 0 (0 - 1)) by lia. cbn [for_up obind].
      fold xr.
      destruct (gather_column_sums rnd (xres bf * yres bf)
                  (xres data_field * yres data_field) (data bf)
                  xr col row width 0
                  (Z.quot (vsize - 1) 2) (Z.quot vsize 2) (data result))
        as [r|]; [|reflexivity].
      cbn [obind]. destruct average; cbn [negb]; [|reflexivity].
      unfold gather_divide. rewrite (turns_none 0 (0 - 1)) by lia.
      reflexivity. }
    rewrite Eout. clear Eout out.
    unfold gather_column_sums. cbv zeta.
    replace (Z.quot 0 2) with 0%Z by reflexivity.
    rewrite !ZMIN_min.
    rewrite (turns_none 0 (Z.min (Z.quot vsize 2) (0 - 1))) by lia.
    rewrite (turns_none 1 (0 - 1)) by lia.
    rewrite (turns_none (0 - 1 - Z.min (Z.quot (vsize - 1) 2) (0 - 1)) (0 - 1))
      by lia.
    rewrite (turns_none 0 (0 - 2)) by lia.
    cbn [for_up for_down].
    set (nr := xres data_field * yres data_field) in *.
    assert (Hbelow : forall r : Z,
              (0 <= r)%Z -> (r + 1 <= Z.of_nat (yres data_field))%Z ->
              (0 <= r * xr + col /\ r * xr + col + width <= Z.of_nat nr)%Z).
    { intros r Hr0 Hr1.
      pose proof (Z.mul_nonneg_nonneg r xr).
      pose proof (Z.mul_le_mono_nonneg_r (r + 1)
                    (Z.of_nat (yres data_field)) xr).
      lia. }
    split.
    + intros [->| ->].
      * destruct (Z.eq_dec (Z.of_nat (yres data_field)) 0) as [Hy0|Hy0].
        -- rewrite gather_set_row_none by lia. reflexivity.
        -- destruct (Hbelow 0%Z ltac:(lia) ltac:(lia)) as (B0 & B1).
           set_row_inv (fun _ : Z => 0%Q).
           destruct Hset as (r1 & Er1 & _); [lia|lia| |].
           { intros j r _ _. exists 0%Q. split; reflexivity. }
           rewrite Er1. cbn [obind].
           rewrite gather_set_row_none by lia. reflexivity.
      * rewrite gather_set_row_none; [reflexivity|lia|].
        right. rewrite Hnd. lia.
    + intros Hr.
      destruct (Hbelow row ltac:(lia) ltac:(lia)) as (B0 & B1).
      destruct (Hbelow (row - 1)%Z ltac:(lia) ltac:(lia)) as (C0 & C1).
      assert (Hapart : ((row - 1) * xr + col + width <= row * xr + col)%Z)
        by lia.
      set_row_inv (fun _ : Z => 0%Q).
      destruct Hset as (r1 & Er1 & I1a & I1b); [lia|lia| |].
      { intros j r _ _. exists 0%Q. split; reflexivity. }
      rewrite Er1. cbn [obind].
      replace ((0 - 1 + row) * xr + col)%Z with ((row - 1) * xr + col)%Z
        by lia.
      set_row_inv (fun _ : Z => 0%Q).
      destruct Hset as (r2 & Er2 & I2a & I2b); [lia|lia| |].
      { intros j r _ _. exists 0%Q. split; reflexivity. }
      rewrite Er2. cbn [obind].
      exists (with_data Q result r2). split; [reflexivity|].
      cbn [data with_data]. split.
      * intros j Hj. split; [now apply I2a|].
        rewrite I2b by lia. now apply I1a.
      * intros k Hk. rewrite <- (Nat2Z.id k).
        rewrite I2b, I1b; [reflexivity|lia| |lia|].
        -- intros Hin.
           destruct (Hk (Z.of_nat k - (row * xr + col))%Z ltac:(lia))
             as (_ & Hne).
           apply Hne.
           replace (row * xr + col + (Z.of_nat k - (row * xr + col)))%Z
             with (Z.of_nat k) by lia.
           now rewrite Nat2Z.id.
        -- intros Hin.
           destruct (Hk (Z.of_nat k - ((row - 1) * xr + col))%Z ltac:(lia))
             as (Hne & _).
           apply Hne.
           replace ((row - 1) * xr + col
                    + (Z.of_nat k - ((row - 1) * xr + col)))%Z
             with (Z.of_nat k) by lia.
           now rewrite Nat2Z.id.
  - intros -> Hh. unfold out, gwy_data_field_area_gather.
    destruct (Z.gtb_spec hsize 0); [|lia].
    destruct (Z.gtb_spec vsize 0); [|lia].
    destruct (Z.geb_spec col 0); [|lia]. destruct (Z.geb_spec row 0); [|lia].
    destruct (Z.geb_spec height 0); [|lia].
    destruct (Z.leb_spec (col + 0) (Z.of_nat (xres data_field))); [|lia].
    destruct (Z.leb_spec (row + height) (Z.of_nat (yres data_field))); [|lia].
    rewrite Hrx, Hry, !Nat.eqb_refl.
    destruct (Z.geb_spec (Z.of_nat (xres bf) * Z.of_nat (yres bf))
                (0 * height)); [|lia].
    cbn [andb negb Z.geb Z.compare]. cbv zeta.
    replace (turns 0 (height - 1)) with (S (turns 1 (height - 1)))
      by (unfold turns; lia).
    cbn [for_up]. unfold gather_row_sums at 1. cbv zeta.
    replace (0 * 0)%Z with 0%Z by reflexivity.
    destruct (wr (xres bf * yres bf) (data bf) 0 0%Q) as [b1|];
      [|reflexivity].
    cbn [obind]. rewrite ZMIN_min.
    rewrite (turns_none 0 (Z.min (Z.quot hsize 2) (0 - 1))) by lia.
    replace (Z.quot 0 2) with 0%Z by reflexivity.
    rewrite (turns_none 1 (0 - 1)) by lia.
    cbn [for_up obind]. rewrite wr_none by lia. reflexivity.
Qed.

(** X24 on an area of no row at the row 1 of [QSample.square_image]: the
    first cells of the rows 0 and 1 are set to zero. *)
Lemma gather_writes_outside_an_empty_area_witness :
  exists result',
    gwy_data_field_area_gather (fun x => x) QSample.square_image
      QSample.square_image (Some (mkField 1 1 (fun _ => 0%Q)))
      (fun _ => 0%Q) 3 3 false 0 1 3 0
    = Some (result', fun _ => 0%Q) /\
    Qeq (data result' 0) 0 /\ Qeq (data result' 3) 0.
Proof.
  destruct (proj1 (gather_writes_outside_an_empty_area (fun x => x)
                     QSample.square_image
                     QSample.square_image (mkField 1 1 (fun _ => 0%Q))
                     (fun _ => 0%Q) 3 3 false 0 1 3 0
                     ltac:(lia) ltac:(lia) ltac:(lia) ltac:(lia)
                     ltac:(cbn; lia) ltac:(cbn; lia) eq_refl eq_refl)
              eq_refl ltac:(lia)) as (_ & Hrows).
  destruct (Hrows ltac:(cbn; lia)) as (result' & E & Hzero & _).
  exists result'. split; [exact E|].
  exact (Hzero 0%Z ltac:(lia)).
Defined.

(** ** The 3 x 3 convolution in place *)

Section Conv3.

Variable nd : nat.
Variable k : buf Q.
Variables xr col row width height : Z.
Variable d0 : buf Q.
Hypothesis Hw : (2 <= width)%Z.
Hypothesis Hh : (1 <= height)%Z.
Hypothesis Hcol : (0 <= col)%Z.
Hypothesis Hrow : (0 <= row)%Z.
Hypothesis Hfit : (col + width <= xr)%Z.
Hypothesis Hnd : ((row + height) * xr <= Z.of_nat nd)%Z.

(** The offset of the row [i] of the area, and the samples of the area
    before the call. *)
Local Abbreviation R i := ((i + row) * xr + col)%Z.
Local Abbreviation o := (fun i j => cell d0 (R i + j)%Z).
Local Abbreviation nm := (Z.to_nat width).

Local Abbreviation nine im i ip j := (conv3_rows o k width im i ip j).

Lemma crange (i : Z) :
  (0 <= i < height)%Z -> (0 <= R i /\ R i + width <= Z.of_nat nd)%Z.
Proof using Hw Hh Hcol Hrow Hfit Hnd.
  intros Hi.
  pose proof (Z.mul_nonneg_nonneg (i + row) xr).
  pose proof (Z.mul_le_mono_nonneg_r (i + row + 1) (row + height) xr).
  lia.
Qed.

Lemma capart (i i' : Z) : (i < i')%Z -> (R i + width <= R i')%Z.
Proof using Hw Hh Hcol Hrow Hfit Hnd.
  intros Hi.
  pose proof (Z.mul_le_mono_nonneg_r (i + row + 1) (i' + row) xr).
  lia.
Qed.

(** The loop over the middle columns of a row [i] that has a row below:
    [d1] is the data when the row begins, with the rows [i] and [i + 1]
    as they were before the call, and [im] the row that [rm] holds. *)
Lemma conv3_middle_spec (i im : Z) (d1 : buf Q) :
  (0 <= i)%Z -> (i + 1 < height)%Z ->
  (forall j, (0 <= j < width)%Z -> cell d1 (R i + j)%Z = o i j) ->
  (forall j, (0 <= j < width)%Z -> cell d1 (R (i + 1) + j)%Z = o (i + 1)%Z j) ->
  forall (d rm : buf Q) (t : Q),
    (forall z, (0 <= z)%Z -> z <> R i -> cell d z = cell d1 z) ->
    (forall j, (0 <= j < width)%Z -> cell rm j = o im j) ->
    t = o i 0%Z ->
    exists d' rm' t',
      for_up (turns 1 (width - 2)) 1
        (conv3_middle nd nm k (R i) (R i + xr)) (d, rm, t)
      = Some (d', rm', t') /\
      (forall j, (1 <= j < width - 1)%Z ->
         Qeq (cell d' (R i + j)%Z) (nine im i (i + 1)%Z j)) /\
      (forall z, (0 <= z)%Z -> ~ (R i + 1 <= z < R i + (width - 1))%Z ->
         cell d' z = cell d z) /\
      (forall j, (0 <= j < width - 2)%Z -> cell rm' j = o i j) /\
      (forall j, (width - 2 <= j < width)%Z -> cell rm' j = o im j) /\
      t' = o i (width - 2)%Z.
Proof using Hw Hh Hcol Hrow Hfit Hnd.
  intros Hi0 Hi1 Hcur Hnext d rm t Hd Hrm Ht.
  destruct (crange i ltac:(lia)) as (Ri0 & Ri1).
  destruct (crange (i + 1)%Z ltac:(lia)) as (Rn0 & Rn1).
  assert (ERn : (R i + xr = R (i + 1))%Z) by lia.
  pose proof (capart i (i + 1)%Z ltac:(lia)) as Hap.
  loop_inv (fun j (st : buf Q * buf Q * Q) =>
              let '(d', rm', t') := st in
              (forall j', (1 <= j' < j)%Z ->
                 Qeq (cell d' (R i + j')%Z) (nine im i (i + 1)%Z j')) /\
              (forall z, (0 <= z)%Z -> ~ (R i + 1 <= z < R i + j)%Z ->
                 cell d' z = cell d z) /\
              (forall j', (0 <= j' < j - 1)%Z -> cell rm' j' = o i j') /\
              (forall j', (j - 1 <= j' < width)%Z -> cell rm' j' = o im j') /\
              t' = o i (j - 1)%Z).
  destruct Hloop as ([[d' rm'] t'] & E & I1 & I2 & I3 & I4 & I5).
  - split; [intros j' Hj'; lia|]. split; [reflexivity|].
    split; [intros j' Hj'; lia|]. split; [intros j' Hj'; apply Hrm; lia|].
    exact Ht.
  - intros j [[d' rm'] t'] Hj (I1 & I2 & I3 & I4 & I5). unfold turns in Hj.
    cbn [conv3_middle].
    run_io.
    eexists (_, _, _). split; [reflexivity|].
    split; [|split; [|split; [|split]]].
    + intros j' Hj'. destruct (Z.eq_dec j' j) as [->|Hne].
      * rewrite cell_upd_same.
        rewrite (I4 (j - 1)%Z), (I4 j), (I4 (j + 1)%Z) by lia.
        rewrite I5.
        rewrite !I2 by lia. rewrite !Hd by lia.
        rewrite (Hcur j), (Hcur (j + 1)%Z) by lia.
        rewrite ERn.
        rewrite (Hnext (j - 1)%Z), (Hnext j), (Hnext (j + 1)%Z) by lia.
        unfold conv3_rows.
        rewrite (Z.max_r 0 (j - 1)), (Z.min_r (width - 1) (j + 1)) by lia.
        reflexivity.
      * rewrite cell_upd_other by lia. apply I1. lia.
    + intros z Hz Hne. rewrite cell_upd_other by lia. apply I2; lia.
    + intros j' Hj'. destruct (Z.eq_dec j' (j - 1)) as [->|Hne].
      * rewrite cell_upd_same. exact I5.
      * rewrite cell_upd_other by lia. apply I3. lia.
    + intros j' Hj'. rewrite cell_upd_other by lia. apply I4. lia.
    + rewrite I2, Hd by lia. rewrite (Hcur j) by lia.
      replace (j + 1 - 1)%Z with j by lia. reflexivity.
  - exists d', rm', t'. split; [exact E|].
    rewrite turns_up in I1, I2, I3, I4, I5 by lia.
    replace (width - 2 + 1)%Z with (width - 1)%Z in I1, I2, I3, I4, I5 by lia.
    replace (width - 1 - 1)%Z with (width - 2)%Z in I3, I4, I5 by lia.
    split; [exact I1|]. split; [exact I2|]. split; [exact I3|].
    split; [exact I4|exact I5].
Qed.

(** The same loop of the last row. *)
Lemma conv3_middle_last_spec (i im : Z) (d1 : buf Q) :
  (0 <= i < height)%Z ->
  (forall j, (0 <= j < width)%Z -> cell d1 (R i + j)%Z = o i j) ->
  forall (d rm : buf Q) (t : Q),
    (forall z, (0 <= z)%Z -> z <> R i -> cell d z = cell d1 z) ->
    (forall j, (0 <= j < width)%Z -> cell rm j = o im j) ->
    t = o i 0%Z ->
    exists d' rm' t',
      for_up (turns 1 (width - 2)) 1
        (conv3_middle_last nd nm k (R i)) (d, rm, t)
      = Some (d', rm', t') /\
      (forall j, (1 <= j < width - 1)%Z ->
         Qeq (cell d' (R i + j)%Z) (nine im i i j)) /\
      (forall z, (0 <= z)%Z -> ~ (R i + 1 <= z < R i + (width - 1))%Z ->
         cell d' z = cell d z) /\
      (forall j, (0 <= j < width - 2)%Z -> cell rm' j = o i j) /\
      (forall j, (width - 2 <= j < width)%Z -> cell rm' j = o im j) /\
      t' = o i (width - 2)%Z.
Proof using Hw Hh Hcol Hrow Hfit Hnd.
  intros Hi Hcur d rm t Hd Hrm Ht.
  destruct (crange i ltac:(lia)) as (Ri0 & Ri1).
  loop_inv (fun j (st : buf Q * buf Q * Q) =>
              let '(d', rm', t') := st in
              (forall j', (1 <= j' < j)%Z ->
                 Qeq (cell d' (R i + j')%Z) (nine im i i j')) /\
              (forall z, (0 <= z)%Z -> ~ (R i + 1 <= z < R i + j)%Z ->
                 cell d' z = cell d z) /\
              (forall j', (0 <= j' < j - 1)%Z -> cell rm' j' = o i j') /\
              (forall j', (j - 1 <= j' < width)%Z -> cell rm' j' = o im j') /\
              t' = o i (j - 1)%Z).
  destruct Hloop as ([[d' rm'] t'] & E & I1 & I2 & I3 & I4 & I5).
  - split; [intros j' Hj'; lia|]. split; [reflexivity|].
    split; [intros j' Hj'; lia|]. split; [intros j' Hj'; apply Hrm; lia|].
    exact Ht.
  - intros j [[d' rm'] t'] Hj (I1 & I2 & I3 & I4 & I5). unfold turns in Hj.
    cbn [conv3_middle_last]. run_io.
    eexists (_, _, _). split; [reflexivity|].
    split; [|split; [|split; [|split]]].
    + intros j' Hj'. destruct (Z.eq_dec j' j) as [->|Hne].
      * rewrite cell_upd_same.
        rewrite (I4 (j - 1)%Z), (I4 j), (I4 (j + 1)%Z) by lia.
        rewrite I5.
        rewrite !I2 by lia. rewrite !Hd by lia.
        rewrite (Hcur j), (Hcur (j + 1)%Z) by lia.
        unfold conv3_rows.
        rewrite (Z.max_r 0 (j - 1)), (Z.min_r (width - 1) (j + 1)) by lia.
        reflexivity.
      * rewrite cell_upd_other by lia. apply I1. lia.
    + intros z Hz Hne. rewrite cell_upd_other by lia. apply I2; lia.
    + intros j' Hj'. destruct (Z.eq_dec j' (j - 1)) as [->|Hne].
      * rewrite cell_upd_same. exact I5.
      * rewrite cell_upd_other by lia. apply I3. lia.
    + intros j' Hj'. rewrite cell_upd_other by lia. apply I4. lia.
    + rewrite I2, Hd by lia. rewrite (Hcur j) by lia.
      replace (j + 1 - 1)%Z with j by lia. reflexivity.
  - exists d', rm', t'. split; [exact E|].
    rewrite turns_up in I1, I2, I3, I4, I5 by lia.
    replace (width - 2 + 1)%Z with (width - 1)%Z in I1, I2, I3, I4, I5 by lia.
    replace (width - 1 - 1)%Z with (width - 2)%Z in I3, I4, I5 by lia.
    split; [exact I1|]. split; [exact I2|]. split; [exact I3|].
    split; [exact I4|exact I5].
Qed.

(** A turn of the loop over the rows: the rows from [i] on are as they
    were before the call and [rm] holds the row above, or the row 0 for
    the row 0. *)
Lemma conv3_row_spec (i : Z) (d1 rm1 : buf Q) :
  (0 <= i < height)%Z ->
  (forall i' j, (i <= i' < height)%Z -> (0 <= j < width)%Z ->
     cell d1 (R i' + j)%Z = o i' j) ->
  (forall j, (0 <= j < width)%Z -> cell rm1 j = o (Z.max 0 (i - 1)) j) ->
  exists d2 rm2,
    conv3_row nd nm k xr width height i (d1, rm1, R i)
    = Some (d2, rm2, R (Z.min (i + 1) (height - 1))) /\
    (forall j, (0 <= j < width)%Z ->
       Qeq (cell d2 (R i + j)%Z) (conv3_at o k height width i j)) /\
    (forall z, (0 <= z)%Z -> ~ (R i <= z < R i + width)%Z ->
       cell d2 z = cell d1 z) /\
    (forall j, (0 <= j < width)%Z -> cell rm2 j = o i j).
Proof using Hw Hh Hcol Hrow Hfit Hnd.
  intros Hi Hcur Hrm.
  destruct (crange i ltac:(lia)) as (Ri0 & Ri1).
  assert (Hnm : Z.of_nat nm = width) by lia.
  assert (Hj : Z.max 1 (width - 1) = (width - 1)%Z) by lia.
  unfold conv3_row, conv3_at. cbv zeta. rewrite Hj.
  set (im := Z.max 0 (i - 1)) in *.
  destruct (Z.ltb_spec i (height - 1)) as [Hlast|Hlast].
  - (* a row with a row below *)
    destruct (crange (i + 1)%Z ltac:(lia)) as (Rn0 & Rn1).
    assert (ERn : (R i + xr = R (i + 1))%Z) by lia.
    pose proof (capart i (i + 1)%Z ltac:(lia)) as Hap.
    replace (Z.min (height - 1) (i + 1)) with (i + 1)%Z by lia.
    replace (Z.min (i + 1) (height - 1)) with (i + 1)%Z by lia.
    run_io.
    match goal with
    | |- context [for_up _ _ _ (?d, _, ?t)] =>
        destruct (conv3_middle_spec i im d1 ltac:(lia) ltac:(lia)
                    (fun j => Hcur i j ltac:(lia))
                    (fun j => Hcur (i + 1)%Z j ltac:(lia))
                    d rm1 t)
          as (d' & rm' & t' & E & I1 & I2 & I3 & I4 & I5)
    end.
    { intros z Hz Hne. apply cell_upd_other; lia. }
    { exact Hrm. }
    { apply Hcur; lia. }
    rewrite E. cbn [obind]. run_io.
    eexists _, _. split; [rewrite ERn; reflexivity|].
    assert (Hfirst : forall z, (0 <= z)%Z -> z <> R i ->
              cell d' z = cell d1 z \/ (R i + 1 <= z < R i + (width - 1))%Z).
    { intros z Hz Hne.
      destruct (Z.lt_ge_cases z (R i + 1)) as [Hlt|Hge];
        [|destruct (Z.lt_ge_cases z (R i + (width - 1))) as [Hlt2|Hge2]].
      - left. rewrite I2 by lia. apply cell_upd_other; lia.
      - right. lia.
      - left. rewrite I2 by lia. apply cell_upd_other; lia. }
    split; [|split].
    + intros j Hj0.
      destruct (Z.eq_dec j (width - 1)) as [->|Hne1].
      * rewrite cell_upd_same.
        rewrite (I4 (width - 1 - 1)%Z), (I4 (width - 1)%Z) by lia.
        rewrite I5.
        destruct (Hfirst (R i + (width - 1))%Z ltac:(lia) ltac:(lia))
          as [-> |]; [|lia].
        destruct (Hfirst (R (i + 1) + (width - 1 - 1))%Z ltac:(lia)
                    ltac:(lia)) as [-> |]; [|lia].
        destruct (Hfirst (R (i + 1) + (width - 1))%Z ltac:(lia) ltac:(lia))
          as [-> |]; [|lia].
        rewrite (Hcur i (width - 1)%Z) by lia.
        rewrite (Hcur (i + 1)%Z (width - 1 - 1)%Z) by lia.
        rewrite (Hcur (i + 1)%Z (width - 1)%Z) by lia.
        unfold conv3_rows.
        rewrite (Z.max_r 0 (width - 1 - 1)) by lia.
        rewrite (Z.min_l (width - 1) (width - 1 + 1)) by lia.
        replace (width - 1 - 1)%Z with (width - 2)%Z by lia.
        ring.
      * rewrite cell_upd_other by lia.
        destruct (Z.eq_dec j 0) as [->|Hne0].
        -- rewrite I2 by lia. rewrite cell_upd_same.
           rewrite (Hrm 0%Z), (Hrm 1%Z) by lia.
           rewrite (Hcur i 0%Z), (Hcur i 1%Z) by lia.
           replace (R i + xr + 0)%Z with (R (i + 1) + 0)%Z by lia.
           replace (R i + xr + 1)%Z with (R (i + 1) + 1)%Z by lia.
           rewrite (Hcur (i + 1)%Z 0%Z), (Hcur (i + 1)%Z 1%Z) by lia.
           unfold conv3_rows.
           rewrite (Z.max_l 0 (0 - 1)) by lia.
           rewrite (Z.min_r (width - 1) (0 + 1)) by lia.
           replace (0 + 1)%Z with 1%Z by lia.
           ring.
        -- apply I1. lia.
    + intros z Hz Hne. rewrite cell_upd_other by lia.
      rewrite I2 by lia. apply cell_upd_other; lia.
    + intros j Hj0.
      destruct (Z.eq_dec j (width - 1)) as [->|Hne1].
      * rewrite cell_upd_same.
        destruct (Hfirst (R i + (width - 1))%Z ltac:(lia) ltac:(lia))
          as [-> |]; [|lia].
        apply Hcur; lia.
      * rewrite cell_upd_other by lia.
        destruct (Z.eq_dec j (width - 1 - 1)) as [->|Hne2].
        -- rewrite cell_upd_same. rewrite I5. f_equal. f_equal. lia.
        -- rewrite cell_upd_other by lia. apply I3. lia.
  - (* the last row *)
    assert (Ei : i = (height - 1)%Z) by lia.
    replace (Z.min (height - 1) (i + 1)) with i by lia.
    replace (Z.min (i + 1) (height - 1)) with i by lia.
    run_io.
    match goal with
    | |- context [for_up _ _ _ (?d, _, ?t)] =>
        destruct (conv3_middle_last_spec i im d1 ltac:(lia)
                    (fun j => Hcur i j ltac:(lia)) d rm1 t)
          as (d' & rm' & t' & E & I1 & I2 & I3 & I4 & I5)
    end.
    { intros z Hz Hne. apply cell_upd_other; lia. }
    { exact Hrm. }
    { apply Hcur; lia. }
    rewrite E. cbn [obind]. run_io.
    eexists _, _. split; [reflexivity|].
    assert (Hfirst : forall z, (0 <= z)%Z -> z <> R i ->
              cell d' z = cell d1 z \/ (R i + 1 <= z < R i + (width - 1))%Z).
    { intros z Hz Hne.
      destruct (Z.lt_ge_cases z (R i + 1)) as [Hlt|Hge];
        [|destruct (Z.lt_ge_cases z (R i + (width - 1))) as [Hlt2|Hge2]].
      - left. rewrite I2 by lia. apply cell_upd_other; lia.
      - right. lia.
      - left. rewrite I2 by lia. apply cell_upd_other; lia. }
    split; [|split].
    + intros j Hj0.
      destruct (Z.eq_dec j (width - 1)) as [->|Hne1].
      * rewrite cell_upd_same.
        rewrite (I4 (width - 1 - 1)%Z), (I4 (width - 1)%Z) by lia.
        rewrite I5.
        destruct (Hfirst (R i + (width - 1))%Z ltac:(lia) ltac:(lia))
          as [-> |]; [|lia].
        rewrite (Hcur i (width - 1)%Z) by lia.
        unfold conv3_rows.
        rewrite (Z.max_r 0 (width - 1 - 1)) by lia.
        rewrite (Z.min_l (width - 1) (width - 1 + 1)) by lia.
        replace (width - 1 - 1)%Z with (width - 2)%Z by lia.
        ring.
      * rewrite cell_upd_other by lia.
        destruct (Z.eq_dec j 0) as [->|Hne0].
        -- rewrite I2 by lia. rewrite cell_upd_same.
           rewrite (Hrm 0%Z), (Hrm 1%Z) by lia.
           rewrite (Hcur i 0%Z), (Hcur i 1%Z) by lia.
           unfold conv3_rows.
           rewrite (Z.max_l 0 (0 - 1)) by lia.
           rewrite (Z.min_r (width - 1) (0 + 1)) by lia.
           replace (0 + 1)%Z with 1%Z by lia.
           ring.
        -- apply I1. lia.
    + intros z Hz Hne. rewrite cell_upd_other by lia.
      rewrite I2 by lia. apply cell_upd_other; lia.
    + intros j Hj0.
      destruct (Z.eq_dec j (width - 1)) as [->|Hne1].
      * rewrite cell_upd_same.
        destruct (Hfirst (R i + (width - 1))%Z ltac:(lia) ltac:(lia))
          as [-> |]; [|lia].
        apply Hcur; lia.
      * rewrite cell_upd_other by lia.
        destruct (Z.eq_dec j (width - 1 - 1)) as [->|Hne2].
        -- rewrite cell_upd_same. rewrite I5. f_equal. f_equal. lia.
        -- rewrite cell_upd_other by lia. apply I3. lia.
Qed.

(** The loop over the rows. *)
Lemma conv3_rows_loop_spec (rm0 : buf Q) :
  (forall j, (0 <= j < width)%Z -> cell rm0 j = o 0%Z j) ->
  exists d' rm' rp',
    for_up (turns 0 (height - 1)) 0 (conv3_row nd nm k xr width height)
      (d0, rm0, R 0) = Some (d', rm', rp') /\
    (forall i j, (0 <= i < height)%Z -> (0 <= j < width)%Z ->
       Qeq (cell d' (R i + j)%Z) (conv3_at o k height width i j)) /\
    (forall z, (0 <= z)%Z ->
       (forall i, (0 <= i < height)%Z -> ~ (R i <= z < R i + width)%Z) ->
       cell d' z = cell d0 z).
Proof using Hw Hh Hcol Hrow Hfit Hnd.
  intros Hrm0.
  loop_inv (fun i (st : Conv3State) =>
              let '(d, rm, rp) := st in
              rp = R (Z.min i (height - 1)) /\
              (forall i' j, (0 <= i' < i)%Z -> (0 <= j < width)%Z ->
                 Qeq (cell d (R i' + j)%Z) (conv3_at o k height width i' j)) /\
              (forall i' j, (i <= i' < height)%Z -> (0 <= j < width)%Z ->
                 cell d (R i' + j)%Z = o i' j) /\
              (forall z, (0 <= z)%Z ->
                 (forall i', (0 <= i' < height)%Z ->
                    ~ (R i' <= z < R i' + width)%Z) ->
                 cell d z = cell d0 z) /\
              (forall j, (0 <= j < width)%Z ->
                 cell rm j = o (Z.max 0 (i - 1)) j)).
  destruct Hloop as ([[d' rm'] rp'] & E & _ & I1 & _ & I3 & _).
  - split; [rewrite Z.min_l by lia; reflexivity|].
    split; [intros i' j Hi'; lia|].
    split; [reflexivity|]. split; [reflexivity|].
    intros j Hj. rewrite Z.max_l by lia. now apply Hrm0.
  - intros i [[d rm] rp] Hi (Irp & I1 & I2 & I3 & I4). unfold turns in Hi.
    subst rp. rewrite (Z.min_l i (height - 1)) by lia.
    destruct (conv3_row_spec i d rm ltac:(lia) I2 I4)
      as (d2 & rm2 & E2 & J1 & J2 & J3).
    rewrite E2. eexists (_, _, _). split; [reflexivity|].
    split; [reflexivity|]. split; [|split; [|split]].
    + intros i' j Hi' Hj. destruct (Z.eq_dec i' i) as [->|Hne].
      * now apply J1.
      * pose proof (capart i' i ltac:(lia)).
        destruct (crange i' ltac:(lia)).
        rewrite J2 by lia. apply I1; lia.
    + intros i' j Hi' Hj.
      pose proof (capart i i' ltac:(lia)).
      destruct (crange i' ltac:(lia)).
      rewrite J2 by lia. apply I2; lia.
    + intros z Hz Hne. rewrite J2; [now apply I3|exact Hz|].
      apply Hne. lia.
    + intros j Hj. replace (Z.max 0 (i + 1 - 1)) with i by lia.
      now apply J3.
  - exists d', rm', rp'. split; [exact E|].
    rewrite turns_up in I1 by lia.
    replace (height - 1 + 1)%Z with height in I1 by lia.
    split; [exact I1|exact I3].
Qed.

End Conv3.

(** The loop over the rows of an area of one column. *)
Lemma conv3_single_loop_spec (nd : nat) (k : buf Q)
    (xr col row height : Z) (d0 : buf Q) :
  (1 <= height)%Z -> (0 <= col)%Z -> (0 <= row)%Z -> (col + 1 <= xr)%Z ->
  ((row + height) * xr <= Z.of_nat nd)%Z ->
  exists d' t',
    for_up (turns 0 (height - 1)) 0 (conv3_single nd k xr col row height)
      (d0, cell d0 ((0 + row) * xr + col + 0)%Z) = Some (d', t') /\
    (forall i, (0 <= i < height)%Z ->
       Qeq (cell d' ((i + row) * xr + col + 0)%Z)
           (conv3_at (fun i j => cell d0 ((i + row) * xr + col + j)%Z)
              k height 1 i 0)) /\
    (forall z, (0 <= z)%Z ->
       (forall i, (0 <= i < height)%Z -> z <> ((i + row) * xr + col)%Z) ->
       cell d' z = cell d0 z).
Proof.
  intros Hh Hcol Hrow Hfit Hnd.
  assert (Hrange : forall i, (0 <= i < height)%Z ->
            (0 <= (i + row) * xr + col < Z.of_nat nd)%Z).
  { intros i Hi.
    pose proof (Z.mul_nonneg_nonneg (i + row) xr).
    pose proof (Z.mul_le_mono_nonneg_r (i + row + 1) (row + height) xr).
    lia. }
  assert (Hapart : forall i i', (i < i')%Z ->
            ((i + row) * xr + col < (i' + row) * xr + col)%Z).
  { intros i i' Hi.
    pose proof (Z.mul_le_mono_nonneg_r (i + row + 1) (i' + row) xr).
    lia. }
  loop_inv (fun i (st : buf Q * Q) =>
              let '(d, t) := st in
              (forall i', (0 <= i' < i)%Z ->
                 Qeq (cell d ((i' + row) * xr + col + 0)%Z)
                     (conv3_at
                        (fun i j => cell d0 ((i + row) * xr + col + j)%Z)
                        k height 1 i' 0)) /\
              (forall i', (i <= i' < height)%Z ->
                 cell d ((i' + row) * xr + col + 0)%Z
                 = cell d0 ((i' + row) * xr + col + 0)%Z) /\
              (forall z, (0 <= z)%Z ->
                 (forall i', (0 <= i' < height)%Z ->
                    z <> ((i' + row) * xr + col)%Z) ->
                 cell d z = cell d0 z) /\
              t = cell d0 ((Z.max 0 (i - 1) + row) * xr + col + 0)%Z).
  destruct Hloop as ([d' t'] & E & I1 & _ & I3 & _).
  - split; [intros i' Hi'; lia|]. split; [reflexivity|].
    split; [reflexivity|]. now rewrite Z.max_l by lia.
  - intros i [d t] Hi (I1 & I2 & I3 & I4). unfold turns in Hi.
    pose proof (Hrange i ltac:(lia)) as Ri.
    cbn [conv3_single].
    replace ((row + i) * xr + col)%Z with ((i + row) * xr + col)%Z by lia.
    destruct (Z.ltb_spec i (height - 1)) as [Hlast|Hlast].
    + pose proof (Hrange (i + 1)%Z ltac:(lia)) as Rn.
      pose proof (Hapart i (i + 1)%Z ltac:(lia)) as Hap.
      assert (ERn : ((i + row) * xr + col + xr + 0
                     = (i + 1 + row) * xr + col + 0)%Z) by lia.
      run_io. eexists (_, _). split; [reflexivity|].
      split; [|split; [|split]].
      * intros i' Hi'. destruct (Z.eq_dec i' i) as [->|Hne].
        -- rewrite cell_upd_same. rewrite I4.
           rewrite (I2 i) by lia. rewrite ERn. rewrite (I2 (i + 1)%Z) by lia.
           unfold conv3_at, conv3_rows.
           rewrite (Z.min_r (height - 1) (i + 1)) by lia.
           rewrite (Z.max_l 0 (0 - 1)), (Z.min_l (1 - 1) (0 + 1)) by lia.
           replace (1 - 1)%Z with 0%Z by lia. ring.
        -- pose proof (Hapart i' i ltac:(lia)).
           pose proof (Hrange i' ltac:(lia)).
           rewrite cell_upd_other by lia. apply I1. lia.
      * intros i' Hi'.
        pose proof (Hapart i i' ltac:(lia)).
        pose proof (Hrange i' ltac:(lia)).
        rewrite cell_upd_other by lia. apply I2. lia.
      * intros z Hz Hne. rewrite cell_upd_other; [now apply I3|lia|exact Hz|].
        specialize (Hne i ltac:(lia)). lia.
      * rewrite (I2 i) by lia.
        replace (Z.max 0 (i + 1 - 1)) with i by lia. reflexivity.
    + run_io. eexists (_, _). split; [reflexivity|].
      split; [|split; [|split]].
      * intros i' Hi'. destruct (Z.eq_dec i' i) as [->|Hne].
        -- rewrite cell_upd_same. rewrite I4.
           rewrite (I2 i) by lia.
           unfold conv3_at, conv3_rows.
           rewrite (Z.min_l (height - 1) (i + 1)) by lia.
           rewrite (Z.max_l 0 (0 - 1)), (Z.min_l (1 - 1) (0 + 1)) by lia.
           replace (1 - 1)%Z with 0%Z by lia.
           replace (height - 1)%Z with i by lia. ring.
        -- pose proof (Hapart i' i ltac:(lia)).
           pose proof (Hrange i' ltac:(lia)).
           rewrite cell_upd_other by lia. apply I1. lia.
      * intros i' Hi'. lia.
      * intros z Hz Hne. rewrite cell_upd_other; [now apply I3|lia|exact Hz|].
        specialize (Hne i ltac:(lia)). lia.
      * rewrite (I2 i) by lia.
        replace (Z.max 0 (i + 1 - 1)) with i by lia. reflexivity.
  - exists d', t'. split; [exact E|].
    rewrite turns_up in I1 by lia.
    replace (height - 1 + 1)%Z with height in I1 by lia.
    split; [exact I1|exact I3].
Qed.

(** X25.  [gwy_data_field_area_convolve_3x3] works in place and yet
    computes every sample from the samples before the call.  For a valid
    area of at least one row and one column it accesses no array outside
    its cells, keeps the resolution and every cell outside the area, and
    sets the sample in the row [i] and the column [j] of the area to the
    sum of the nine products of the kernel cells with the samples around
    it as they were before the call, [kernel[0]] with the sample above on
    the left (the kernel is not reflected); a neighbour outside the area
    is replaced by the nearest sample of the area, not by the sample of
    the field that lies there.  Samples are exact rationals. *)
Theorem convolve_3x3_uses_the_samples_before_the_call :
  forall (data_field : GwyDataField Q) (kernel junk : buf Q)
         (col row width height : Z),
    (0 <= col)%Z -> (0 <= row)%Z -> (1 <= width)%Z -> (1 <= height)%Z ->
    (col + width <= Z.of_nat (xres data_field))%Z ->
    (row + height <= Z.of_nat (yres data_field))%Z ->
    exists data_field',
      gwy_data_field_area_convolve_3x3 data_field kernel junk
        col row width height = Some data_field' /\
      xres data_field' = xres data_field /\
      yres data_field' = yres data_field /\
      (forall i j, (0 <= i < height)%Z -> (0 <= j < width)%Z ->
         Qeq (area_sample data_field' col row i j)
             (conv3_at (area_sample data_field col row) kernel
                height width i j)) /\
      (forall n : nat,
         (forall i j, (0 <= i < height)%Z -> (0 <= j < width)%Z ->
            n <> Z.to_nat ((i + row) * Z.of_nat (xres data_field)
                           + col + j)) ->
         data data_field' n = data data_field n).
Proof.
  intros data_field kernel junk col row width height
         Hcol Hrow Hw Hh Hfx Hfy.
  unfold gwy_data_field_area_convolve_3x3. cbv zeta.
  set (xr := Z.of_nat (xres data_field)) in *.
  set (nd := xres data_field * yres data_field).
  assert (Hnd : ((row + height) * xr <= Z.of_nat nd)%Z).
  { pose proof (Z.mul_le_mono_nonneg_r (row + height)
                  (Z.of_nat (yres data_field)) xr).
    unfold nd. rewrite Nat2Z.inj_mul. fold xr. lia. }
  assert (Hrow0 : (0 <= (0 + row) * xr + col /\
                   (0 + row) * xr + col + width <= Z.of_nat nd)%Z).
  { pose proof (Z.mul_nonneg_nonneg (0 + row) xr).
    pose proof (Z.mul_le_mono_nonneg_r (0 + row + 1) (row + height) xr).
    lia. }
  replace (row * xr + col)%Z with ((0 + row) * xr + col)%Z by lia.
  destruct (Z.eqb_spec width 1) as [->|Hw1].
  - (* one column *)
    rewrite rd_some by lia. cbn [obind].
    destruct (conv3_single_loop_spec nd kernel xr col row height
                (data data_field) Hh Hcol Hrow Hfx Hnd)
      as (d' & t' & E & H1 & H2).
    rewrite E. cbn [obind fst].
    exists (with_data Q data_field d').
    split; [reflexivity|]. split; [reflexivity|]. split; [reflexivity|].
    split.
    + intros i j Hi Hj. replace j with 0%Z by lia.
      unfold area_sample at 1. cbn [data xres with_data]. fold xr.
      now apply H1.
    + intros n Hn. cbn [data with_data]. rewrite <- (Nat2Z.id n).
      apply H2; [lia|]. intros i Hi Heq.
      apply (Hn i 0%Z Hi ltac:(lia)). lia.
  - (* at least two columns *)
    assert (Hw2 : (2 <= width)%Z) by lia.
    loop_inv (fun j (rm : buf Q) =>
                forall j', (0 <= j' < j)%Z ->
                  cell rm j' = cell (data data_field)
                                 ((0 + row) * xr + col + j')%Z).
    destruct Hloop as (rm0 & Erm & Hrm0).
    + intros j' Hj'. lia.
    + intros j rm Hj Irm. unfold turns in Hj. run_io.
      eexists. split; [reflexivity|].
      intros j' Hj'. destruct (Z.eq_dec j' j) as [->|Hne].
      * now rewrite cell_upd_same.
      * rewrite cell_upd_other by lia. apply Irm. lia.
    + rewrite Erm. cbn [obind].
      rewrite turns_up in Hrm0 by lia.
      replace (width - 1 + 1)%Z with width in Hrm0 by lia.
      destruct (conv3_rows_loop_spec nd kernel xr col row width height
                  (data data_field) Hw2 Hh Hcol Hrow Hfx Hnd rm0 Hrm0)
        as (d' & rm' & rp' & E & H1 & H2).
      rewrite E. cbn [obind fst].
      exists (with_data Q data_field d').
      split; [reflexivity|]. split; [reflexivity|]. split; [reflexivity|].
      split.
      * intros i j Hi Hj.
        unfold area_sample at 1. cbn [data xres with_data]. fold xr.
        now apply H1.
      * intros n Hn. cbn [data with_data]. rewrite <- (Nat2Z.id n).
        apply H2; [lia|]. intros i Hi Hin.
        apply (Hn i (Z.of_nat n - ((i + row) * xr + col))%Z Hi); lia.
Qed.

(** X25 on the whole of [QSample.square_image] with the kernel that has
    a one in its first cell: the middle cell takes the sample above on
    the left. *)
Lemma convolve_3x3_uses_the_samples_before_the_call_witness :
  exists data_field',
    gwy_data_field_area_convolve_3x3 QSample.square_image
      (fun n => if Nat.eqb n 0 then 1%Q else 0%Q) (fun _ => 0%Q) 0 0 3 3
    = Some data_field' /\
    Qeq (data data_field' 4) (data QSample.square_image 0).
Proof.
  destruct (convolve_3x3_uses_the_samples_before_the_call
              QSample.square_image
              (fun n => if Nat.eqb n 0 then 1%Q else 0%Q) (fun _ => 0%Q)
              0 0 3 3)
    as (data_field' & E & Hx & _ & Hsum & _); try (cbn; lia).
  exists data_field'. split; [exact E|].
  pose proof (Hsum 1%Z 1%Z ltac:(lia) ltac:(lia)) as H.
  unfold area_sample at 1 in H. rewrite Hx in H.
  change (Z.to_nat ((1 + 0) * Z.of_nat (xres QSample.square_image) + 0 + 1))
    with 4 in H.
  rewrite H. vm_compute. reflexivity.
Defined.

(** ** The row-wise convolution with a kernel line *)

Lemma hconv_mirror_range (kres width s : Z) :
  (1 <= width)%Z -> (0 <= hconv_mirror kres width s < width)%Z.
Proof.
  intros Hw. unfold hconv_mirror, hconv_index.
  pose proof (Z.mod_pos_bound (s + (kres / 2 + 1) * (2 * width)) (2 * width)
                ltac:(lia)) as Hm.
  destruct (Z.ltb_spec ((s + (kres / 2 + 1) * (2 * width)) mod (2 * width))
              width); lia.
Qed.

Lemma hconv_mirror_inside (kres width s : Z) :
  (0 <= s < width)%Z -> hconv_mirror kres width s = s.
Proof.
  intros Hs. unfold hconv_mirror, hconv_index.
  rewrite Z.mod_add by lia. rewrite Z.mod_small by lia.
  destruct (Z.ltb_spec s width); lia.
Qed.

Lemma hconv_mirror_end (kres width : Z) :
  (1 <= width)%Z -> hconv_mirror kres width width = (width - 1)%Z.
Proof.
  intros Hw. unfold hconv_mirror, hconv_index.
  rewrite Z.mod_add by lia. rewrite Z.mod_small by lia.
  destruct (Z.ltb_spec width width); lia.
Qed.

(** The index that the code computes is the reflected position. *)
Lemma hconv_code_index (kres width j : Z) :
  (1 <= kres)%Z -> (1 <= width)%Z -> (0 <= j)%Z ->
  hconv_index width (2 * width)
    (Z.rem (j - Z.quot kres 2 + (Z.quot kres 2 + 1) * (2 * width))
       (2 * width))
  = hconv_mirror kres width (j - kres / 2).
Proof.
  intros Hk Hw Hj. unfold hconv_mirror.
  rewrite (Z.quot_div_nonneg kres 2) by lia.
  rewrite Z.rem_mod_nonneg; [reflexivity| |lia].
  assert (0 <= kres / 2)%Z by (apply Z.div_pos; lia).
  nia.
Qed.

Section HConvRow.

Variable nd : nat.
Variable kernel : buf Q.
Variables kres width drow : Z.
Variable d1 : buf Q.
Hypothesis Hk : (1 <= kres <= 4)%Z.
Hypothesis Hw : (1 <= width)%Z.
Hypothesis Hd0 : (0 <= drow)%Z.
Hypothesis Hd1 : (drow + width <= Z.of_nat nd)%Z.

Local Abbreviation nk := (Z.to_nat kres).
Local Abbreviation o := (fun j => cell d1 (drow + j)%Z).

(** The first [n] products of the sum for the position [q], with [h] for
    the half of the size. *)
Local Abbreviation P h q n :=
  (isum 0 (n - 1)
     (fun m => (kernel (Z.to_nat m)
                * o (hconv_mirror kres width (q + m - h)))%Q)).

Lemma hconv_row_spec (b0 : buf Q) :
  exists d2 b2,
    hconv_row nd nk kernel kres width (2 * width)
      ((Z.quot kres 2 + 1) * (2 * width)) drow (d1, b0) = Some (d2, b2) /\
    (forall j, (0 <= j < width)%Z ->
       Qeq (cell d2 (drow + j)%Z) (hconv_at o kernel kres width j)) /\
    (forall z, (0 <= z)%Z -> ~ (drow <= z < drow + width)%Z ->
       cell d2 z = cell d1 z).
Proof using Hk Hw Hd0 Hd1.
  assert (Hnk : Z.of_nat nk = kres) by lia.
  assert (Hmir : forall s, (0 <= hconv_mirror kres width s < width)%Z)
    by (intros s; now apply hconv_mirror_range).
  unfold hconv_row, hconv_at.
  destruct (Z.eqb_spec (2 * width) 0) as [|_]; [lia|].
  (* the half of the size *)
  assert (Hc : (1 <= kres - kres / 2 <= 2)%Z) by lia.
  assert (Hcode : forall j, (0 <= j)%Z ->
            hconv_index width (2 * width)
              (Z.rem (j - Z.quot kres 2 + (Z.quot kres 2 + 1) * (2 * width))
                 (2 * width))
            = hconv_mirror kres width (j - kres / 2)).
  { intros j Hj. apply hconv_code_index; lia. }
  revert Hc Hcode. generalize (kres / 2)%Z as h. intros h Hc Hcode.
  (* gwy_clear(buf, kres) *)
  loop_inv (fun k (b : buf Q) =>
              forall k', (0 <= k' < k)%Z -> cell b k' = 0%Q).
  destruct Hloop as (b1 & Eb1 & Hb1).
  { intros k' Hk'. lia. }
  { intros k b Hk' Ib. unfold turns in Hk'. run_io.
    eexists. split; [reflexivity|].
    intros k' Hk''. destruct (Z.eq_dec k' k) as [->|Hne].
    - now rewrite cell_upd_same.
    - rewrite cell_upd_other by lia. apply Ib. lia. }
  rewrite Eb1. cbn [obind].
  rewrite turns_up in Hb1 by lia.
  replace (kres - 1 + 1)%Z with kres in Hb1 by lia.
  (* the triangular sums *)
  loop_inv (fun j (b : buf Q) =>
              forall k', (0 <= k' < kres)%Z -> Qeq (cell b k') (P h k' (j - k'))).
  destruct Hloop as (b2 & Eb2 & Hb2).
  { intros k' Hk'. rewrite Hb1 by lia. rewrite isum_empty by lia.
    reflexivity. }
  { intros j b Hj Ib. unfold turns in Hj.
    rewrite Hcode by lia.
    pose proof (Hmir (j - h)%Z) as Hm.
    rewrite rd_some by lia. cbn [obind].
    loop_inv (fun k (b' : buf Q) =>
                forall k', (0 <= k' < kres)%Z ->
                  Qeq (cell b' k')
                      (if (k' <? k)%Z then P h k' (j + 1 - k')
                       else P h k' (j - k'))).
    destruct Hloop as (b' & Eb' & Hb').
    - intros k' Hk'. destruct (Z.ltb_spec k' 0); [lia|]. now apply Ib.
    - intros k b' Hk' Ib'. unfold turns in Hk'. unfold hconv_add.
      run_io. eexists. split; [reflexivity|].
      intros k' Hk''. destruct (Z.eq_dec k' k) as [->|Hne].
      + rewrite cell_upd_same.
        destruct (Z.ltb_spec k (k + 1)); [|lia].
        specialize (Ib' k ltac:(lia)).
        destruct (Z.ltb_spec k k); [lia|]. rewrite Ib'.
        replace (j + 1 - k - 1)%Z with (j - k - 1 + 1)%Z by lia.
        rewrite (isum_snoc 0 (j - k - 1)) by lia.
        replace (j - k - 1 + 1)%Z with (j - k)%Z by lia.
        replace (k + (j - k) - h)%Z with (j - h)%Z by lia.
        reflexivity.
      + rewrite cell_upd_other by lia.
        specialize (Ib' k' ltac:(lia)).
        destruct (Z.ltb_spec k' k); destruct (Z.ltb_spec k' (k + 1));
          try lia; exact Ib'.
    - exists b'. split; [exact Eb'|].
      intros k' Hk'. specialize (Hb' k' Hk').
      rewrite turns_up in Hb' by lia. rewrite Hb'.
      destruct (Z.ltb_spec k' (j + 1)); [reflexivity|].
      rewrite !isum_empty by lia. reflexivity. }
  rewrite Eb2. cbn [obind].
  rewrite turns_up in Hb2 by lia.
  replace (kres - 1 + 1)%Z with kres in Hb2 by lia.
  (* the row *)
  loop_inv (fun j (st : buf Q * buf Q * Z) =>
              let '(d, b, pos) := st in
              (0 <= pos < kres)%Z /\
              (forall k', (0 <= k' < kres)%Z ->
                 let r := if (pos <=? k')%Z then (k' - pos)%Z
                          else (k' - pos + kres)%Z in
                 (j + r <= width - 1)%Z ->
                 Qeq (cell b k') (P h (j + r)%Z (kres - r))) /\
              (forall j', (0 <= j' < j)%Z ->
                 Qeq (cell d (drow + j')%Z) (P h j' kres)) /\
              (forall j', (j <= j' < width)%Z ->
                 cell d (drow + j')%Z = o j') /\
              (forall z, (0 <= z)%Z -> ~ (drow <= z < drow + width)%Z ->
                 cell d z = cell d1 z)).
  destruct Hloop as ([[d2 b3] pos] & E & _ & _ & I2 & _ & I4).
  { split; [lia|]. split; [|split; [|split]].
    - intros k' Hk' r Hr. subst r.
      destruct (Z.leb_spec 0 k'); [|lia].
      rewrite Hb2 by lia. replace (0 + (k' - 0))%Z with k' by lia.
      replace (kres - (k' - 0))%Z with (kres - k')%Z by lia. reflexivity.
    - intros j' Hj'. lia.
    - reflexivity.
    - reflexivity. }
  { intros j [[d b] pos] Hj (Ipos & I1 & I2 & I3 & I4). unfold turns in Hj.
    rewrite (rd_some nk b pos) by lia. cbn [obind].
    rewrite (wr_some nd d) by lia. cbn [obind].
    rewrite (wr_some nk b pos) by lia. cbn [obind].
    rewrite (Hcode (j + kres)%Z) by lia.
    pose proof (Hmir (j + kres - h)%Z) as Hm.
    rewrite rd_some by lia. cbn [obind].
    assert (Hrem : Z.rem (pos + 1) kres = ((pos + 1) mod kres)%Z)
      by (apply Z.rem_mod_nonneg; lia).
    rewrite Hrem.
    set (pos' := ((pos + 1) mod kres)%Z).
    assert (Hpos' : (0 <= pos' < kres)%Z)
      by (apply Z.mod_pos_bound; lia).
    assert (Epos' : (pos + 1 < kres /\ pos' = pos + 1)%Z
                    \/ (pos + 1 = kres /\ pos' = 0)%Z).
    { unfold pos'.
      destruct (Z.eq_dec (pos + 1) kres) as [He|Hne].
      - right. split; [exact He|]. rewrite He. apply Z.mod_same. lia.
      - left. split; [lia|]. apply Z.mod_small. lia. }
    clearbody pos'. clear Hrem.
    set (x := cell (upd d (Z.to_nat (drow + j)) (cell b pos))
                (drow + hconv_mirror kres width (j + kres - h))%Z).
    set (b' := upd b (Z.to_nat pos) 0%Q).
    (* the first loop over the cells of buf *)
    loop_inv (fun k (bb : buf Q) =>
                forall k', (0 <= k' < kres)%Z ->
                  cell bb k'
                  = if ((pos' <=? k') && (k' <? k))%Z
                    then (cell b' k'
                          + kernel (Z.to_nat (kres - 1 - (k' - pos'))) * x)%Q
                    else cell b' k').
    destruct Hloop as (b4 & Eb4 & Hb4).
    - intros k' Hk'.
      destruct (Z.leb_spec pos' k'); destruct (Z.ltb_spec k' pos');
        try lia; reflexivity.
    - intros k bb Hk' Ibb. unfold turns in Hk'. unfold hconv_add.
      run_io. eexists. split; [reflexivity|].
      intros k' Hk''. destruct (Z.eq_dec k' k) as [->|Hne].
      + rewrite cell_upd_same. rewrite (Ibb k) by lia.
        destruct (Z.leb_spec pos' k); [|lia].
        destruct (Z.ltb_spec k k); [lia|].
        destruct (Z.ltb_spec k (k + 1)); [|lia]. reflexivity.
      + rewrite cell_upd_other by lia. rewrite (Ibb k') by lia.
        destruct (Z.leb_spec pos' k'); destruct (Z.ltb_spec k' k);
          destruct (Z.ltb_spec k' (k + 1)); try lia; reflexivity.
    - rewrite Eb4. cbn [obind].
      rewrite turns_up in Hb4 by lia.
      replace (kres - 1 + 1)%Z with kres in Hb4 by lia.
      (* the second loop *)
      loop_inv (fun k (bb : buf Q) =>
                  forall k', (0 <= k' < kres)%Z ->
                    cell bb k'
                    = if (k' <? k)%Z
                      then (cell b4 k'
                            + kernel (Z.to_nat (pos' - 1 - k')) * x)%Q
                      else cell b4 k').
      destruct Hloop as (b5 & Eb5 & Hb5).
      + intros k' Hk'. destruct (Z.ltb_spec k' 0); [lia|reflexivity].
      + intros k bb Hk' Ibb. unfold turns in Hk'. unfold hconv_add.
        run_io. eexists. split; [reflexivity|].
        intros k' Hk''. destruct (Z.eq_dec k' k) as [->|Hne].
        * rewrite cell_upd_same. rewrite (Ibb k) by lia.
          destruct (Z.ltb_spec k k); [lia|].
          destruct (Z.ltb_spec k (k + 1)); [|lia]. reflexivity.
        * rewrite cell_upd_other by lia. rewrite (Ibb k') by lia.
          destruct (Z.ltb_spec k' k); destruct (Z.ltb_spec k' (k + 1));
            try lia; reflexivity.
      + rewrite Eb5. cbn [obind].
        rewrite turns_up in Hb5 by lia.
        replace (pos' - 1 + 1)%Z with pos' in Hb5 by lia.
        eexists (_, _, _). split; [reflexivity|].
        split; [exact Hpos'|]. split; [|split; [|split]].
        * (* the cells of buf *)
          intros k' Hk'.
          set (r := if (pos' <=? k')%Z then (k' - pos')%Z
                    else (k' - pos' + kres)%Z).
          intros Hr.
          assert (Hr0 : (0 <= r < kres)%Z)
            by (unfold r; destruct (Z.leb_spec pos' k'); lia).
          assert (Hj1 : (j + 2 <= width)%Z) by lia.
          assert (Hx : x = o (hconv_mirror kres width (j + kres - h))).
          { assert (Hnew : (j < hconv_mirror kres width (j + kres - h))%Z).
            { (* the position is not written yet *)
              destruct (Z.lt_ge_cases (j + kres - h) width) as [Hin|Hout].
              - rewrite hconv_mirror_inside by lia. lia.
              - replace (j + kres - h)%Z with width by lia.
                rewrite hconv_mirror_end by lia. lia. }
            unfold x. rewrite cell_upd_other by lia. apply I3. lia. }
          rewrite (Hb5 k' Hk'), (Hb4 k' Hk').
          assert (Hold : Qeq (cell b' k') (P h (j + 1 + r)%Z (kres - r - 1))).
          { unfold b'. destruct (Z.eq_dec k' pos) as [->|Hne].
            - rewrite cell_upd_same.
              rewrite isum_empty; [reflexivity|]. subst r.
              destruct (Z.leb_spec pos' pos); lia.
            - rewrite cell_upd_other by lia.
              specialize (I1 k' Hk'). cbv zeta in I1.
              subst r.
              destruct (Z.leb_spec pos k'); destruct (Z.leb_spec pos' k').
              + rewrite I1 by lia.
                replace (j + (k' - pos))%Z with (j + 1 + (k' - pos'))%Z by lia.
                replace (kres - (k' - pos))%Z
                  with (kres - (k' - pos') - 1)%Z by lia.
                reflexivity.
              + lia.
              + rewrite I1 by lia.
                replace (j + (k' - pos + kres))%Z
                  with (j + 1 + (k' - pos'))%Z by lia.
                replace (kres - (k' - pos + kres))%Z
                  with (kres - (k' - pos') - 1)%Z by lia.
                reflexivity.
              + rewrite I1 by lia.
                replace (j + (k' - pos + kres))%Z
                  with (j + 1 + (k' - pos' + kres))%Z by lia.
                replace (kres - (k' - pos + kres))%Z
                  with (kres - (k' - pos' + kres) - 1)%Z by lia.
                reflexivity. }
          assert (Hterm : forall c : Q,
                    c = (kernel (Z.to_nat (kres - 1 - r))) ->
                    Qeq (cell b' k' + c * x)
                        (P h (j + 1 + r)%Z (kres - r))).
          { intros c ->. rewrite Hold, Hx.
            replace (kres - r - 1)%Z with (kres - r - 1 - 1 + 1)%Z at 2 by lia.
            rewrite (isum_snoc 0 (kres - r - 1 - 1)) by lia.
            replace (kres - r - 1 - 1 + 1)%Z with (kres - 1 - r)%Z by lia.
            replace (j + 1 + r + (kres - 1 - r) - h)%Z
              with (j + kres - h)%Z by lia.
            reflexivity. }
          subst r.
          destruct (Z.leb_spec pos' k') as [Hge|Hlt].
          -- destruct (Z.ltb_spec k' pos'); [lia|].
             destruct (Z.ltb_spec k' kres); [|lia]. cbn [andb].
             apply Hterm. reflexivity.
          -- destruct (Z.ltb_spec k' pos'); [|lia]. cbn [andb].
             apply Hterm. f_equal. f_equal. lia.
        * intros j' Hj'. destruct (Z.eq_dec j' j) as [->|Hne].
          -- rewrite cell_upd_same.
             specialize (I1 pos Ipos). cbv zeta in I1.
             destruct (Z.leb_spec pos pos); [|lia].
             rewrite I1 by lia.
             replace (j + (pos - pos))%Z with j by lia.
             replace (kres - (pos - pos))%Z with kres by lia. reflexivity.
          -- rewrite cell_upd_other by lia. apply I2. lia.
        * intros j' Hj'. rewrite cell_upd_other by lia. apply I3. lia.
        * intros z Hz Hne. rewrite cell_upd_other by lia. now apply I4. }
  exists d2, b3. rewrite E. cbn [obind fst snd].
  split; [reflexivity|].
  rewrite turns_up in I2 by lia.
  replace (width - 1 + 1)%Z with width in I2 by lia.
  split; [exact I2|exact I4].
Qed.

End HConvRow.

(** The sum depends on the samples of the row only. *)
Lemma hconv_at_ext (o1 o2 : Z -> Q) (kernel : buf Q) (kres width j : Z) :
  (1 <= width)%Z ->
  (forall s, (0 <= s < width)%Z -> o1 s = o2 s) ->
  Qeq (hconv_at o1 kernel kres width j) (hconv_at o2 kernel kres width j).
Proof.
  intros Hw Ho. unfold hconv_at. apply isum_ext. intros m Hm.
  rewrite Ho by (now apply hconv_mirror_range). reflexivity.
Qed.

(** X26.  [gwy_data_field_area_hconvolve] is right for kernel lines of
    up to four cells, and for longer ones it is not.  For a kernel of one
    to four cells and a valid area of at least one row and one column the
    call accesses no array outside its cells, keeps the resolution and
    every cell outside the area, and sets every sample of the area to the
    sum of the products of the kernel cells with the samples of its row
    as they were before the call, the row being reflected about its ends.
    With five cells the sample [kres - kres/2 = 3] positions on the right
    of the last but one sample is read from a cell that has been
    overwritten already: on the row of the samples 0 and 1 and the kernel
    whose last cell is 1 the call leaves 1 in the second cell where the
    sum is 0.  Samples are exact rationals. *)
Theorem hconvolve_is_right_for_kernels_of_up_to_four_cells :
  (forall (data_field : GwyDataField Q) (kres : Z) (kernel junk : buf Q)
          (col row width height : Z),
     (1 <= kres <= 4)%Z ->
     (0 <= col)%Z -> (0 <= row)%Z -> (1 <= width)%Z -> (1 <= height)%Z ->
     (col + width <= Z.of_nat (xres data_field))%Z ->
     (row + height <= Z.of_nat (yres data_field))%Z ->
     exists data_field',
       gwy_data_field_area_hconvolve data_field kres kernel junk
         col row width height = Some data_field' /\
       xres data_field' = xres data_field /\
       yres data_field' = yres data_field /\
       (forall i j, (0 <= i < height)%Z -> (0 <= j < width)%Z ->
          Qeq (area_sample data_field' col row i j)
              (hconv_at (area_sample data_field col row i) kernel
                 kres width j)) /\
       (forall n : nat,
          (forall i j, (0 <= i < height)%Z -> (0 <= j < width)%Z ->
             n <> Z.to_nat ((i + row) * Z.of_nat (xres data_field)
                            + col + j)) ->
          data data_field' n = data data_field n)) /\
  (forall junk : buf Q,
     exists data_field',
       gwy_data_field_area_hconvolve step_row 5 last_tap junk 0 0 2 1
       = Some data_field' /\
       Qeq (area_sample data_field' 0 0 0 1) 1 /\
       Qeq (hconv_at (area_sample step_row 0 0 0) last_tap 5 2 1) 0).
Proof.
  split.
  - intros data_field kres kernel junk col row width height
           Hk Hcol Hrow Hw Hh Hfx Hfy.
    unfold gwy_data_field_area_hconvolve. cbv zeta.
    set (xr := Z.of_nat (xres data_field)) in *.
    set (nd := xres data_field * yres data_field).
    assert (Hnd : ((row + height) * xr <= Z.of_nat nd)%Z).
    { pose proof (Z.mul_le_mono_nonneg_r (row + height)
                    (Z.of_nat (yres data_field)) xr).
      unfold nd. rewrite Nat2Z.inj_mul. fold xr. lia. }
    assert (Hrange : forall i, (0 <= i < height)%Z ->
              (0 <= (row + i) * xr + col /\
               (row + i) * xr + col + width <= Z.of_nat nd)%Z).
    { intros i Hi.
      pose proof (Z.mul_nonneg_nonneg (row + i) xr).
      pose proof (Z.mul_le_mono_nonneg_r (row + i + 1) (row + height) xr).
      lia. }
    assert (Hapart : forall i i', (i < i')%Z ->
              ((row + i) * xr + col + width <= (row + i') * xr + col)%Z).
    { intros i i' Hi.
      pose proof (Z.mul_le_mono_nonneg_r (row + i + 1) (row + i') xr).
      lia. }
    loop_inv (fun i (st : buf Q * buf Q) =>
                let '(d, b) := st in
                (forall i' j, (0 <= i' < i)%Z -> (0 <= j < width)%Z ->
                   Qeq (cell d ((row + i') * xr + col + j)%Z)
                       (hconv_at
                          (fun j => cell (data data_field)
                                      ((row + i') * xr + col + j)%Z)
                          kernel kres width j)) /\
                (forall i' j, (i <= i' < height)%Z -> (0 <= j < width)%Z ->
                   cell d ((row + i') * xr + col + j)%Z
                   = cell (data data_field) ((row + i') * xr + col + j)%Z) /\
                (forall z, (0 <= z)%Z ->
                   (forall i', (0 <= i' < height)%Z ->
                      ~ ((row + i') * xr + col <= z
                         < (row + i') * xr + col + width)%Z) ->
                   cell d z = cell (data data_field) z)).
    destruct Hloop as ([d' b'] & E & I1 & _ & I3).
    + split; [intros i' j Hi'; lia|]. split; reflexivity.
    + intros i [d b] Hi (I1 & I2 & I3). unfold turns in Hi.
      destruct (Hrange i ltac:(lia)) as (Ri0 & Ri1).
      destruct (hconv_row_spec nd kernel kres width ((row + i) * xr + col)%Z
                  d Hk Hw Ri0 Ri1 b) as (d2 & b2 & E2 & J1 & J2).
      rewrite E2. eexists (_, _). split; [reflexivity|].
      split; [|split].
      * intros i' j Hi' Hj. destruct (Z.eq_dec i' i) as [->|Hne].
        -- rewrite (J1 j Hj). apply hconv_at_ext; [exact Hw|].
           intros s Hs. apply I2; lia.
        -- pose proof (Hapart i' i ltac:(lia)).
           destruct (Hrange i' ltac:(lia)).
           rewrite J2 by lia. apply I1; lia.
      * intros i' j Hi' Hj.
        pose proof (Hapart i i' ltac:(lia)).
        destruct (Hrange i' ltac:(lia)).
        rewrite J2 by lia. apply I2; lia.
      * intros z Hz Hne. rewrite J2; [now apply I3|exact Hz|].
        apply Hne. lia.
    + rewrite E. cbn [obind fst].
      rewrite turns_up in I1 by lia.
      replace (height - 1 + 1)%Z with height in I1 by lia.
      exists (with_data Q data_field d').
      split; [reflexivity|]. split; [reflexivity|]. split; [reflexivity|].
      split.
      * intros i j Hi Hj.
        unfold area_sample at 1. cbn [data xres with_data]. fold xr.
        replace ((i + row) * xr + col + j)%Z
          with ((row + i) * xr + col + j)%Z by lia.
        rewrite (I1 i j Hi Hj). apply hconv_at_ext; [exact Hw|].
        intros s Hs. unfold area_sample. fold xr. f_equal. lia.
      * intros n Hn. cbn [data with_data]. rewrite <- (Nat2Z.id n).
        apply I3; [lia|]. intros i Hi Hin.
        apply (Hn i (Z.of_nat n - ((row + i) * xr + col))%Z Hi); lia.
  - intros junk. eexists. split; [vm_compute; reflexivity|].
    split; vm_compute; reflexivity.
Qed.

(** X26 on the whole of [QSample.square_image] with the kernel line of
    the three cells 1, 1, 1: the first sample of the first row becomes
    3 + 3 + 1, with the sample on its left reflected. *)
Lemma hconvolve_is_right_for_kernels_of_up_to_four_cells_witness :
  exists data_field',
    gwy_data_field_area_hconvolve QSample.square_image 3
      (fun _ => 1%Q) (fun _ => 0%Q) 0 0 3 3 = Some data_field' /\
    Qeq (data data_field' 0) (7 # 1).
Proof.
  destruct (proj1 hconvolve_is_right_for_kernels_of_up_to_four_cells
              QSample.square_image 3%Z (fun _ => 1%Q) (fun _ => 0%Q)
              0%Z 0%Z 3%Z 3%Z)
    as (data_field' & E & Hx & _ & Hsum & _); try (cbn; lia).
  exists data_field'. split; [exact E|].
  pose proof (Hsum 0%Z 0%Z ltac:(lia) ltac:(lia)) as H.
  unfold area_sample at 1 in H. rewrite Hx in H.
  change (Z.to_nat ((0 + 0) * Z.of_nat (xres QSample.square_image) + 0 + 0))
    with 0 in H.
  rewrite H. vm_compute. reflexivity.
Defined.

(** ** The column-wise convolution with a kernel line *)

Lemma vconv_index_eq (height mres xr k : Z) :
  vconv_index height mres xr k = (hconv_index height mres k * xr)%Z.
Proof.
  unfold vconv_index, hconv_index. destruct (k <? height)%Z; reflexivity.
Qed.

Section VConvCol.

Variable nd : nat.
Variable kernel : buf Q.
Variables kres height xr dcol : Z.
Variable d1 : buf Q.
Hypothesis Hk : (1 <= kres <= 4)%Z.
Hypothesis Hh : (1 <= height)%Z.
Hypothesis Hin : forall i, (0 <= i < height)%Z ->
                           (0 <= dcol + i * xr < Z.of_nat nd)%Z.
Hypothesis Hup : forall i i', (i < i')%Z ->
                              (dcol + i * xr < dcol + i' * xr)%Z.

Local Abbreviation nk := (Z.to_nat kres).
Local Abbreviation o := (fun i => cell d1 (dcol + i * xr)%Z).

(** The first [n] products of the sum for the position [q], with [h] for
    the half of the size. *)
Local Abbreviation P h q n :=
  (isum 0 (n - 1)
     (fun m => (kernel (Z.to_nat m)
                * o (hconv_mirror kres height (q + m - h)))%Q)).

Lemma vconv_col_spec (b0 : buf Q) :
  exists d2 b2,
    vconv_col nd nk kernel kres height xr (2 * height)
      ((Z.quot kres 2 + 1) * (2 * height)) dcol (d1, b0) = Some (d2, b2) /\
    (forall i, (0 <= i < height)%Z ->
       Qeq (cell d2 (dcol + i * xr)%Z) (hconv_at o kernel kres height i)) /\
    (forall z, (0 <= z)%Z ->
       (forall i, (0 <= i < height)%Z -> z <> (dcol + i * xr)%Z) ->
       cell d2 z = cell d1 z).
Proof using Hk Hh Hin Hup.
  assert (Hnk : Z.of_nat nk = kres) by lia.
  assert (Hmir : forall s, (0 <= hconv_mirror kres height s < height)%Z)
    by (intros s; now apply hconv_mirror_range).
  unfold vconv_col, hconv_at.
  destruct (Z.eqb_spec (2 * height) 0) as [|_]; [lia|].
  (* the half of the size *)
  assert (Hc : (1 <= kres - kres / 2 <= 2)%Z) by lia.
  assert (Hcode : forall i, (0 <= i)%Z ->
            vconv_index height (2 * height) xr
              (Z.rem (i - Z.quot kres 2 + (Z.quot kres 2 + 1) * (2 * height))
                 (2 * height))
            = (hconv_mirror kres height (i - kres / 2) * xr)%Z).
  { intros i Hi. rewrite vconv_index_eq. f_equal.
    apply hconv_code_index; lia. }
  revert Hc Hcode. generalize (kres / 2)%Z as h. intros h Hc Hcode.
  (* gwy_clear(buf, kres) *)
  loop_inv (fun k (b : buf Q) =>
              forall k', (0 <= k' < k)%Z -> cell b k' = 0%Q).
  destruct Hloop as (b1 & Eb1 & Hb1).
  { intros k' Hk'. lia. }
  { intros k b Hk' Ib. unfold turns in Hk'. run_io.
    eexists. split; [reflexivity|].
    intros k' Hk''. destruct (Z.eq_dec k' k) as [->|Hne].
    - now rewrite cell_upd_same.
    - rewrite cell_upd_other by lia. apply Ib. lia. }
  rewrite Eb1. cbn [obind].
  rewrite turns_up in Hb1 by lia.
  replace (kres - 1 + 1)%Z with kres in Hb1 by lia.
  (* the triangular sums *)
  loop_inv (fun i (b : buf Q) =>
              forall k', (0 <= k' < kres)%Z -> Qeq (cell b k') (P h k' (i - k'))).
  destruct Hloop as (b2 & Eb2 & Hb2).
  { intros k' Hk'. rewrite Hb1 by lia. rewrite isum_empty by lia.
    reflexivity. }
  { intros i b Hi Ib. unfold turns in Hi.
    rewrite Hcode by lia.
    pose proof (Hin _ (Hmir (i - h)%Z)) as Hm.
    rewrite rd_some by lia. cbn [obind].
    loop_inv (fun k (b' : buf Q) =>
                forall k', (0 <= k' < kres)%Z ->
                  Qeq (cell b' k')
                      (if (k' <? k)%Z then P h k' (i + 1 - k')
                       else P h k' (i - k'))).
    destruct Hloop as (b' & Eb' & Hb').
    - intros k' Hk'. destruct (Z.ltb_spec k' 0); [lia|]. now apply Ib.
    - intros k b' Hk' Ib'. unfold turns in Hk'. unfold hconv_add.
      run_io. eexists. split; [reflexivity|].
      intros k' Hk''. destruct (Z.eq_dec k' k) as [->|Hne].
      + rewrite cell_upd_same.
        destruct (Z.ltb_spec k (k + 1)); [|lia].
        specialize (Ib' k ltac:(lia)).
        destruct (Z.ltb_spec k k); [lia|]. rewrite Ib'.
        replace (i + 1 - k - 1)%Z with (i - k - 1 + 1)%Z by lia.
        rewrite (isum_snoc 0 (i - k - 1)) by lia.
        replace (i - k - 1 + 1)%Z with (i - k)%Z by lia.
        replace (k + (i - k) - h)%Z with (i - h)%Z by lia.
        reflexivity.
      + rewrite cell_upd_other by lia.
        specialize (Ib' k' ltac:(lia)).
        destruct (Z.ltb_spec k' k); destruct (Z.ltb_spec k' (k + 1));
          try lia; exact Ib'.
    - exists b'. split; [exact Eb'|].
      intros k' Hk'. specialize (Hb' k' Hk').
      rewrite turns_up in Hb' by lia. rewrite Hb'.
      destruct (Z.ltb_spec k' (i + 1)); [reflexivity|].
      rewrite !isum_empty by lia. reflexivity. }
  rewrite Eb2. cbn [obind].
  rewrite turns_up in Hb2 by lia.
  replace (kres - 1 + 1)%Z with kres in Hb2 by lia.
  (* the column *)
  loop_inv (fun i (st : buf Q * buf Q * Z) =>
              let '(d, b, pos) := st in
              (0 <= pos < kres)%Z /\
              (forall k', (0 <= k' < kres)%Z ->
                 let r := if (pos <=? k')%Z then (k' - pos)%Z
                          else (k' - pos + kres)%Z in
                 (i + r <= height - 1)%Z ->
                 Qeq (cell b k') (P h (i + r)%Z (kres - r))) /\
              (forall i', (0 <= i' < i)%Z ->
                 Qeq (cell d (dcol + i' * xr)%Z) (P h i' kres)) /\
              (forall i', (i <= i' < height)%Z ->
                 cell d (dcol + i' * xr)%Z = o i') /\
              (forall z, (0 <= z)%Z ->
                 (forall i', (0 <= i' < height)%Z ->
                             z <> (dcol + i' * xr)%Z) ->
                 cell d z = cell d1 z)).
  destruct Hloop as ([[d2 b3] pos] & E & _ & _ & I2 & _ & I4).
  { split; [lia|]. split; [|split; [|split]].
    - intros k' Hk' r Hr. subst r.
      destruct (Z.leb_spec 0 k'); [|lia].
      rewrite Hb2 by lia. replace (0 + (k' - 0))%Z with k' by lia.
      replace (kres - (k' - 0))%Z with (kres - k')%Z by lia. reflexivity.
    - intros i' Hi'. lia.
    - reflexivity.
    - reflexivity. }
  { intros i [[d b] pos] Hi (Ipos & I1 & I2 & I3 & I4). unfold turns in Hi.
    pose proof (Hin i ltac:(lia)) as Hini.
    rewrite (rd_some nk b pos) by lia. cbn [obind].
    rewrite (wr_some nd d) by lia. cbn [obind].
    rewrite (wr_some nk b pos) by lia. cbn [obind].
    rewrite (Hcode (i + kres)%Z) by lia.
    pose proof (Hmir (i + kres - h)%Z) as Hm.
    pose proof (Hin _ Hm) as Hinm.
    rewrite rd_some by lia. cbn [obind].
    assert (Hrem : Z.rem (pos + 1) kres = ((pos + 1) mod kres)%Z)
      by (apply Z.rem_mod_nonneg; lia).
    rewrite Hrem.
    set (pos' := ((pos + 1) mod kres)%Z).
    assert (Hpos' : (0 <= pos' < kres)%Z)
      by (apply Z.mod_pos_bound; lia).
    assert (Epos' : (pos + 1 < kres /\ pos' = pos + 1)%Z
                    \/ (pos + 1 = kres /\ pos' = 0)%Z).
    { unfold pos'.
      destruct (Z.eq_dec (pos + 1) kres) as [He|Hne].
      - right. split; [exact He|]. rewrite He. apply Z.mod_same. lia.
      - left. split; [lia|]. apply Z.mod_small. lia. }
    clearbody pos'. clear Hrem.
    set (x := cell (upd d (Z.to_nat (dcol + i * xr)) (cell b pos))
                (dcol + hconv_mirror kres height (i + kres - h) * xr)%Z).
    set (b' := upd b (Z.to_nat pos) 0%Q).
    (* the first loop over the cells of buf *)
    loop_inv (fun k (bb : buf Q) =>
                forall k', (0 <= k' < kres)%Z ->
                  cell bb k'
                  = if ((pos' <=? k') && (k' <? k))%Z
                    then (cell b' k'
                          + kernel (Z.to_nat (kres - 1 - (k' - pos'))) * x)%Q
                    else cell b' k').
    destruct Hloop as (b4 & Eb4 & Hb4).
    - intros k' Hk'.
      destruct (Z.leb_spec pos' k'); destruct (Z.ltb_spec k' pos');
        try lia; reflexivity.
    - intros k bb Hk' Ibb. unfold turns in Hk'. unfold hconv_add.
      run_io. eexists. split; [reflexivity|].
      intros k' Hk''. destruct (Z.eq_dec k' k) as [->|Hne].
      + rewrite cell_upd_same. rewrite (Ibb k) by lia.
        destruct (Z.leb_spec pos' k); [|lia].
        destruct (Z.ltb_spec k k); [lia|].
        destruct (Z.ltb_spec k (k + 1)); [|lia]. reflexivity.
      + rewrite cell_upd_other by lia. rewrite (Ibb k') by lia.
        destruct (Z.leb_spec pos' k'); destruct (Z.ltb_spec k' k);
          destruct (Z.ltb_spec k' (k + 1)); try lia; reflexivity.
    - rewrite Eb4. cbn [obind].
      rewrite turns_up in Hb4 by lia.
      replace (kres - 1 + 1)%Z with kres in Hb4 by lia.
      (* the second loop *)
      loop_inv (fun k (bb : buf Q) =>
                  forall k', (0 <= k' < kres)%Z ->
                    cell bb k'
                    = if (k' <? k)%Z
                      then (cell b4 k'
                            + kernel (Z.to_nat (pos' - 1 - k')) * x)%Q
                      else cell b4 k').
      destruct Hloop as (b5 & Eb5 & Hb5).
      + intros k' Hk'. destruct (Z.ltb_spec k' 0); [lia|reflexivity].
      + intros k bb Hk' Ibb. unfold turns in Hk'. unfold hconv_add.
        run_io. eexists. split; [reflexivity|].
        intros k' Hk''. destruct (Z.eq_dec k' k) as [->|Hne].
        * rewrite cell_upd_same. rewrite (Ibb k) by lia.
          destruct (Z.ltb_spec k k); [lia|].
          destruct (Z.ltb_spec k (k + 1)); [|lia]. reflexivity.
        * rewrite cell_upd_other by lia. rewrite (Ibb k') by lia.
          destruct (Z.ltb_spec k' k); destruct (Z.ltb_spec k' (k + 1));
            try lia; reflexivity.
      + rewrite Eb5. cbn [obind].
        rewrite turns_up in Hb5 by lia.
        replace (pos' - 1 + 1)%Z with pos' in Hb5 by lia.
        eexists (_, _, _). split; [reflexivity|].
        split; [exact Hpos'|]. split; [|split; [|split]].
        * (* the cells of buf *)
          intros k' Hk'.
          set (r := if (pos' <=? k')%Z then (k' - pos')%Z
                    else (k' - pos' + kres)%Z).
          intros Hr.
          assert (Hr0 : (0 <= r < kres)%Z)
            by (unfold r; destruct (Z.leb_spec pos' k'); lia).
          assert (Hj1 : (i + 2 <= height)%Z) by lia.
          assert (Hx : x = o (hconv_mirror kres height (i + kres - h))).
          { assert (Hnew : (i < hconv_mirror kres height (i + kres - h))%Z).
            { (* the position is not written yet *)
              destruct (Z.lt_ge_cases (i + kres - h) height) as [Hins|Hout].
              - rewrite hconv_mirror_inside by lia. lia.
              - replace (i + kres - h)%Z with height by lia.
                rewrite hconv_mirror_end by lia. lia. }
            pose proof (Hup _ _ Hnew) as Hlt.
            unfold x. rewrite cell_upd_other by lia. apply I3. lia. }
          rewrite (Hb5 k' Hk'), (Hb4 k' Hk').
          assert (Hold : Qeq (cell b' k') (P h (i + 1 + r)%Z (kres - r - 1))).
          { unfold b'. destruct (Z.eq_dec k' pos) as [->|Hne].
            - rewrite cell_upd_same.
              rewrite isum_empty; [reflexivity|]. subst r.
              destruct (Z.leb_spec pos' pos); lia.
            - rewrite cell_upd_other by lia.
              specialize (I1 k' Hk'). cbv zeta in I1.
              subst r.
              destruct (Z.leb_spec pos k'); destruct (Z.leb_spec pos' k').
              + rewrite I1 by lia.
                replace (i + (k' - pos))%Z with (i + 1 + (k' - pos'))%Z by lia.
                replace (kres - (k' - pos))%Z
                  with (kres - (k' - pos') - 1)%Z by lia.
                reflexivity.
              + lia.
              + rewrite I1 by lia.
                replace (i + (k' - pos + kres))%Z
                  with (i + 1 + (k' - pos'))%Z by lia.
                replace (kres - (k' - pos + kres))%Z
                  with (kres - (k' - pos') - 1)%Z by lia.
                reflexivity.
              + rewrite I1 by lia.
                replace (i + (k' - pos + kres))%Z
                  with (i + 1 + (k' - pos' + kres))%Z by lia.
                replace (kres - (k' - pos + kres))%Z
                  with (kres - (k' - pos' + kres) - 1)%Z by lia.
                reflexivity. }
          assert (Hterm : forall c : Q,
                    c = (kernel (Z.to_nat (kres - 1 - r))) ->
                    Qeq (cell b' k' + c * x)
                        (P h (i + 1 + r)%Z (kres - r))).
          { intros c ->. rewrite Hold, Hx.
            replace (kres - r - 1)%Z with (kres - r - 1 - 1 + 1)%Z at 2 by lia.
            rewrite (isum_snoc 0 (kres - r - 1 - 1)) by lia.
            replace (kres - r - 1 - 1 + 1)%Z with (kres - 1 - r)%Z by lia.
            replace (i + 1 + r + (kres - 1 - r) - h)%Z
              with (i + kres - h)%Z by lia.
            reflexivity. }
          subst r.
          destruct (Z.leb_spec pos' k') as [Hge|Hlt].
          -- destruct (Z.ltb_spec k' pos'); [lia|].
             destruct (Z.ltb_spec k' kres); [|lia]. cbn [andb].
             apply Hterm. reflexivity.
          -- destruct (Z.ltb_spec k' pos'); [|lia]. cbn [andb].
             apply Hterm. f_equal. f_equal. lia.
        * intros i' Hi'. destruct (Z.eq_dec i' i) as [->|Hne].
          -- rewrite cell_upd_same.
             specialize (I1 pos Ipos). cbv zeta in I1.
             destruct (Z.leb_spec pos pos); [|lia].
             rewrite I1 by lia.
             replace (i + (pos - pos))%Z with i by lia.
             replace (kres - (pos - pos))%Z with kres by lia. reflexivity.
          -- pose proof (Hup i' i ltac:(lia)).
             pose proof (Hin i' ltac:(lia)).
             rewrite cell_upd_other by lia. apply I2. lia.
        * intros i' Hi'.
          pose proof (Hup i i' ltac:(lia)).
          pose proof (Hin i' ltac:(lia)).
          rewrite cell_upd_other by lia. apply I3. lia.
        * intros z Hz Hne.
          rewrite cell_upd_other; [now apply I4|lia|exact Hz|].
          apply Hne. lia. }
  exists d2, b3. rewrite E. cbn [obind fst snd].
  split; [reflexivity|].
  rewrite turns_up in I2 by lia.
  replace (height - 1 + 1)%Z with height in I2 by lia.
  split; [exact I2|exact I4].
Qed.

End VConvCol.

(** X27.  [gwy_data_field_area_vconvolve] is right for kernel lines of
    up to four cells, and for longer ones it is not.  For a kernel of one
    to four cells and a valid area of at least one row and one column the
    call accesses no array outside its cells, keeps the resolution and
    every cell outside the area, and sets every sample of the area to the
    sum of the products of the kernel cells with the samples of its
    column as they were before the call, the column being reflected about
    its ends.  With five cells the sample three positions below the last
    but one sample is read from a cell that has been overwritten already:
    on the column of the samples 0 and 1 and the kernel whose last cell
    is 1 the call leaves 1 in the second cell where the sum is 0.  Samples
    are exact rationals. *)
Theorem vconvolve_is_right_for_kernels_of_up_to_four_cells :
  (forall (data_field : GwyDataField Q) (kres : Z) (kernel junk : buf Q)
          (col row width height : Z),
     (1 <= kres <= 4)%Z ->
     (0 <= col)%Z -> (0 <= row)%Z -> (1 <= width)%Z -> (1 <= height)%Z ->
     (col + width <= Z.of_nat (xres data_field))%Z ->
     (row + height <= Z.of_nat (yres data_field))%Z ->
     exists data_field',
       gwy_data_field_area_vconvolve data_field kres kernel junk
         col row width height = Some data_field' /\
       xres data_field' = xres data_field /\
       yres data_field' = yres data_field /\
       (forall i j, (0 <= i < height)%Z -> (0 <= j < width)%Z ->
          Qeq (area_sample data_field' col row i j)
              (hconv_at (fun i' => area_sample data_field col row i' j)
                 kernel kres height i)) /\
       (forall n : nat,
          (forall i j, (0 <= i < height)%Z -> (0 <= j < width)%Z ->
             n <> Z.to_nat ((i + row) * Z.of_nat (xres data_field)
                            + col + j)) ->
          data data_field' n = data data_field n)) /\
  (forall junk : buf Q,
     exists data_field',
       gwy_data_field_area_vconvolve step_column 5 last_tap junk 0 0 1 2
       = Some data_field' /\
       Qeq (area_sample data_field' 0 0 1 0) 1 /\
       Qeq (hconv_at (fun i' => area_sample step_column 0 0 i' 0)
              last_tap 5 2 1) 0).
Proof.
  split.
  - intros data_field kres kernel junk col row width height
           Hk Hcol Hrow Hw Hh Hfx Hfy.
    unfold gwy_data_field_area_vconvolve. cbv zeta.
    set (xr := Z.of_nat (xres data_field)) in *.
    set (nd := xres data_field * yres data_field).
    assert (Hnd : ((row + height) * xr <= Z.of_nat nd)%Z).
    { pose proof (Z.mul_le_mono_nonneg_r (row + height)
                    (Z.of_nat (yres data_field)) xr).
      unfold nd. rewrite Nat2Z.inj_mul. fold xr. lia. }
    assert (Hrange : forall i, (0 <= i < height)%Z ->
              (0 <= row * xr + i * xr /\
               row * xr + i * xr + xr <= Z.of_nat nd)%Z).
    { intros i Hi.
      pose proof (Z.mul_nonneg_nonneg row xr).
      pose proof (Z.mul_nonneg_nonneg i xr).
      pose proof (Z.mul_le_mono_nonneg_r (row + i + 1) (row + height) xr).
      lia. }
    assert (Hapart : forall i i', (i < i')%Z ->
              (i * xr + xr <= i' * xr)%Z).
    { intros i i' Hi.
      pose proof (Z.mul_le_mono_nonneg_r (i + 1) i' xr). lia. }
    loop_inv (fun j (st : buf Q * buf Q) =>
                let '(d, b) := st in
                (forall i j', (0 <= i < height)%Z -> (0 <= j' < j)%Z ->
                   Qeq (cell d (row * xr + (col + j') + i * xr)%Z)
                       (hconv_at
                          (fun i' => cell (data data_field)
                                       (row * xr + (col + j') + i' * xr)%Z)
                          kernel kres height i)) /\
                (forall i j', (0 <= i < height)%Z -> (j <= j' < width)%Z ->
                   cell d (row * xr + (col + j') + i * xr)%Z
                   = cell (data data_field)
                       (row * xr + (col + j') + i * xr)%Z) /\
                (forall z, (0 <= z)%Z ->
                   (forall i j', (0 <= i < height)%Z -> (0 <= j' < width)%Z ->
                      z <> (row * xr + (col + j') + i * xr)%Z) ->
                   cell d z = cell (data data_field) z)).
    destruct Hloop as ([d' b'] & E & I1 & _ & I3).
    + split; [intros i j' Hi Hj'; lia|]. split; reflexivity.
    + intros j [d b] Hj (I1 & I2 & I3). unfold turns in Hj.
      destruct (vconv_col_spec nd kernel kres height xr
                  (row * xr + (col + j))%Z d Hk Hh) with (b0 := b)
        as (d2 & b2 & E2 & J1 & J2).
      { intros i Hi. destruct (Hrange i Hi). lia. }
      { intros i i' Hi. pose proof (Hapart i i' Hi). lia. }
      rewrite E2. eexists (_, _). split; [reflexivity|].
      split; [|split].
      * intros i j' Hi Hj'. destruct (Z.eq_dec j' j) as [->|Hne].
        -- rewrite (J1 i Hi). apply hconv_at_ext; [exact Hh|].
           intros s Hs. apply I2; lia.
        -- rewrite J2; [apply I1; lia| |].
           ++ destruct (Hrange i Hi). lia.
           ++ intros i' Hi' Heq.
              destruct (Z.lt_trichotomy i i') as [Hlt|[->|Hgt]].
              ** pose proof (Hapart i i' Hlt). lia.
              ** lia.
              ** pose proof (Hapart i' i Hgt). lia.
      * intros i j' Hi Hj'.
        rewrite J2; [apply I2; lia| |].
        -- destruct (Hrange i Hi). lia.
        -- intros i' Hi' Heq.
           destruct (Z.lt_trichotomy i i') as [Hlt|[->|Hgt]].
           ++ pose proof (Hapart i i' Hlt). lia.
           ++ lia.
           ++ pose proof (Hapart i' i Hgt). lia.
      * intros z Hz Hne. rewrite J2; [now apply I3|exact Hz|].
        intros i Hi. apply Hne; lia.
    + rewrite E. cbn [obind fst].
      rewrite turns_up in I1 by lia.
      replace (width - 1 + 1)%Z with width in I1 by lia.
      exists (with_data Q data_field d').
      split; [reflexivity|]. split; [reflexivity|]. split; [reflexivity|].
      split.
      * intros i j Hi Hj.
        unfold area_sample at 1. cbn [data xres with_data]. fold xr.
        replace ((i + row) * xr + col + j)%Z
          with (row * xr + (col + j) + i * xr)%Z by lia.
        rewrite (I1 i j Hi Hj). apply hconv_at_ext; [exact Hh|].
        intros s Hs. unfold area_sample. fold xr. f_equal. lia.
      * intros n Hn. cbn [data with_data]. rewrite <- (Nat2Z.id n).
        apply I3; [lia|]. intros i j Hi Hj Heq.
        apply (Hn i j Hi Hj). fold xr. lia.
  - intros junk. eexists. split; [vm_compute; reflexivity|].
    split; vm_compute; reflexivity.
Qed.

(** X27 on the whole of [QSample.square_image] with the kernel line of
    the three cells 1, 1, 1: the first sample of the first column becomes
    3 + 3 + 1, with the sample above it reflected. *)
Lemma vconvolve_is_right_for_kernels_of_up_to_four_cells_witness :
  exists data_field',
    gwy_data_field_area_vconvolve QSample.square_image 3
      (fun _ => 1%Q) (fun _ => 0%Q) 0 0 3 3 = Some data_field' /\
    Qeq (data data_field' 0) (7 # 1).
Proof.
  destruct (proj1 vconvolve_is_right_for_kernels_of_up_to_four_cells
              QSample.square_image 3%Z (fun _ => 1%Q) (fun _ => 0%Q)
              0%Z 0%Z 3%Z 3%Z)
    as (data_field' & E & Hx & _ & Hsum & _); try (cbn; lia).
  exists data_field'. split; [exact E|].
  pose proof (Hsum 0%Z 0%Z ltac:(lia) ltac:(lia)) as H.
  unfold area_sample at 1 in H. rewrite Hx in H.
  change (Z.to_nat ((0 + 0) * Z.of_nat (xres QSample.square_image) + 0 + 0))
    with 0 in H.
  rewrite H. vm_compute. reflexivity.
Defined.
